(** * DETR set criterion, Hungarian matcher, EnCodec residual vector
      quantizer and the token-classification pipeline constructor

    A shallow embedding of the matching / loss-aggregation kernel of
    [models/detr/modeling_detr.py], of the quantizer classes of
    [models/encodec/modeling_encodec.py] and of the constructor of
    [pipelines/token_classification.py].

    Conventions.
    - Tensor entries are exact rationals ([Q]); their rounding is not
      modelled.  A division whose divisor is zero yields no finite number;
      such a value is written [None] in [option Q] ("nan or inf").
    - Where the code derives an integer from Python float arithmetic (a
      number of quantizers, a padding, a stride) the floats are IEEE 754
      binary64 values and every operation rounds to the nearest float,
      ties to even ([pyfloat], [round64]).
    - A Python exception is a [Raise] in the [result] monad.
    - Library kernels whose numerical content is outside this repository
      (softmax, cross entropy, math.log2, the random number generator)
      are section variables. *)

From Stdlib Require Import QArith Qround Qabs Qpower ZArith Lia Lqa.
From Stdlib Require Import Floats.SpecFloat.
From Stdlib Require Import Sorting.Permutation.
From stdpp Require Import base tactics option list strings sorting pretty.

Local Open Scope Q_scope.

(** ** Exceptions *)

Inductive exn : Type :=
| AssertionError
| ValueError
| KeyError
| IndexError
| RuntimeError
| ZeroDivisionError
| OverflowError
| StopIteration
| AttributeError.

Inductive result (A : Type) : Type :=
| Ok (a : A)
| Raise (e : exn).
Arguments Ok {A} a.
Arguments Raise {A} e.

#[global] Instance result_ret : MRet result := fun _ a => Ok a.
#[global] Instance result_bind : MBind result := fun _ _ f m =>
  match m with
  | Ok a => f a
  | Raise e => Raise e
  end.
#[global] Instance result_fmap : FMap result := fun _ _ f m =>
  match m with
  | Ok a => Ok (f a)
  | Raise e => Raise e
  end.

Definition raises {A} (m : result A) : Prop :=
  match m with
  | Ok _ => False
  | Raise _ => True
  end.

Definition returns {A} (m : result A) : Prop :=
  match m with
  | Ok _ => True
  | Raise _ => False
  end.

(** [for x in l: ...] with an exception-raising body, collecting results. *)
Fixpoint mapR {A B} (f : A -> result B) (l : list A) : result (list B) :=
  match l with
  | [] => Ok []
  | x :: l' =>
      match f x with
      | Ok y =>
          match mapR f l' with
          | Ok ys => Ok (y :: ys)
          | Raise e => Raise e
          end
      | Raise e => Raise e
      end
  end.

(** ** Numbers *)

Definition Qzero (q : Q) : bool := Qeq_bool q 0.

Definition Qltb (a b : Q) : bool := negb (Qle_bool b a).

(** Float division: no finite result when the divisor is zero. *)
Definition fdiv (a b : Q) : option Q :=
  if Qzero b then None else Some (a / b).

Definition Qsum (l : list Q) : Q := foldr Qplus 0 l.

Definition Qmax (a b : Q) : Q := if Qle_bool a b then b else a.
Definition Qmin (a b : Q) : Q := if Qle_bool a b then a else b.

(** [t.clamp(min=0)] *)
Definition clamp_min0 (a : Q) : Q := Qmax a 0.

(** ** Python floats

    A finite float is the rational it denotes; the results of the
    operations are rounded to binary64 (53 bits of precision, least
    exponent -1074, overflow from 2^1024 on), ties to the even significand.
    The sign of a zero is not kept: Python raises on a division by either
    zero, and nothing else modelled here can tell them apart. *)

Definition pow2 (e : Z) : Q := 2 ^ e.

(** The binade of a rational that is not zero:
    [2 ^ (mag x - 1) <= |x| < 2 ^ mag x]. *)
Definition mag (x : Q) : Z :=
  let a := Z.abs (Qnum x) in
  let b := Zpos (Qden x) in
  let k := (Z.log2 a - Z.log2 b)%Z in
  (* |x| < 2 ^ k  iff  a * 2 ^ log2 b < b * 2 ^ log2 a *)
  if (a * 2 ^ Z.log2 b <? b * 2 ^ Z.log2 a)%Z then k else (k + 1)%Z.

(** The nearest integer, ties to even. *)
Definition round_half_even (y : Q) : Z :=
  let f := Qfloor y in
  match Qcompare (y - inject_Z f) (1 # 2) with
  | Lt => f
  | Gt => (f + 1)%Z
  | Eq => if Z.even f then f else (f + 1)%Z
  end.

(** The exponent of the unit in the last place at [x], and the nearest
    multiple of that unit: for a format with [prec] bits of precision and
    least exponent [emin]. *)
Definition ulp_exp (prec emin : Z) (x : Q) : Z := Z.max (mag x - prec) emin.

Definition round_to (prec emin : Z) (x : Q) : Q :=
  if Qzero x then 0
  else
    let e := ulp_exp prec emin x in
    Qred (inject_Z (round_half_even (x / pow2 e)) * pow2 e).

Inductive pyfloat : Type :=
| Finite (q : Q)
| Infinity (negative : bool)
| NaN.

(** The float nearest to [x]: binary64. *)
Definition round64 (x : Q) : pyfloat :=
  let r := round_to 53 (-1074) x in
  if Qle_bool (pow2 1024) (Qabs r) then Infinity (Qltb x 0) else Finite r.

(** [torch.tensor(f)] for a Python float [f], with the default dtype
    float32: the value of the 0-d tensor, [None] when it is not finite. *)
Definition round32 (x : Q) : option Q :=
  let r := round_to 24 (-149) x in
  if Qle_bool (pow2 128) (Qabs r) then None else Some r.

Definition torch_tensor (f : pyfloat) : option Q :=
  match f with
  | Finite x => round32 x
  | _ => None
  end.

(** [a * b], [a + b], [a - b] on floats *)
Definition float_mul (a b : pyfloat) : pyfloat :=
  match a, b with
  | NaN, _ | _, NaN => NaN
  | Finite x, Finite y => round64 (x * y)
  | Finite x, Infinity s | Infinity s, Finite x =>
      if Qzero x then NaN else Infinity (xorb s (Qltb x 0))
  | Infinity s, Infinity t => Infinity (xorb s t)
  end.

Definition float_add (a b : pyfloat) : pyfloat :=
  match a, b with
  | NaN, _ | _, NaN => NaN
  | Finite x, Finite y => round64 (x + y)
  | Finite _, Infinity s | Infinity s, Finite _ => Infinity s
  | Infinity s, Infinity t => if Bool.eqb s t then Infinity s else NaN
  end.

Definition float_neg (a : pyfloat) : pyfloat :=
  match a with
  | Finite x => Finite (- x)
  | Infinity s => Infinity (negb s)
  | NaN => NaN
  end.

Definition float_sub (a b : pyfloat) : pyfloat := float_add a (float_neg b).

(** [a / b] on floats: Python raises when the divisor is zero. *)
Definition float_truediv (a b : pyfloat) : result pyfloat :=
  match b with
  | Finite y =>
      if Qzero y then Raise ZeroDivisionError
      else Ok match a with
              | Finite x => round64 (x / y)
              | Infinity s => Infinity (xorb s (Qltb y 0))
              | NaN => NaN
              end
  | Infinity _ =>
      Ok match a with
         | Finite _ => Finite 0
         | _ => NaN
         end
  | NaN => Ok NaN
  end.

(** [float(n)] for an int, as the arithmetic operators convert an int
    operand: an int too large for a float raises. *)
Definition float_of_int (n : Z) : result pyfloat :=
  match round64 (inject_Z n) with
  | Finite x => Ok (Finite x)
  | _ => Raise OverflowError
  end.

(** [a / b] on ints: the quotient of the two integers, rounded once. *)
Definition int_truediv (a b : Z) : result pyfloat :=
  if (b =? 0)%Z then Raise ZeroDivisionError
  else match round64 (inject_Z a / inject_Z b) with
       | Finite x => Ok (Finite x)
       | _ => Raise OverflowError
       end.

(** [math.floor], [math.ceil] and [int] on a float *)
Definition float_to_int (round : Q -> Z) (a : pyfloat) : result Z :=
  match a with
  | Finite x => Ok (round x)
  | Infinity _ => Raise OverflowError
  | NaN => Raise ValueError
  end.

Definition Qtrunc (q : Q) : Z := if Qle_bool 0 q then Qfloor q else Qceiling q.

Definition math_floor : pyfloat -> result Z := float_to_int Qfloor.
Definition math_ceil : pyfloat -> result Z := float_to_int Qceiling.
Definition int_of_float : pyfloat -> result Z := float_to_int Qtrunc.

(** [bool(a)] and [a > 0.0] *)
Definition float_bool (a : pyfloat) : bool :=
  match a with
  | Finite x => negb (Qzero x)
  | _ => true
  end.

Definition float_gt0 (a : pyfloat) : bool :=
  match a with
  | Finite x => Qltb 0 x
  | Infinity s => negb s
  | NaN => false
  end.

(** ** models/detr/modeling_detr.py : HungarianMatcher.__init__ *)

Record HungarianMatcher : Type := {
  class_cost : Q;
  bbox_cost : Q;
  giou_cost : Q
}.

Definition HungarianMatcher_init (class_cost bbox_cost giou_cost : Q)
  : result HungarianMatcher :=
  (* assert class_cost != 0 or bbox_cost != 0 or giou_cost != 0 *)
  if negb (Qzero class_cost) || negb (Qzero bbox_cost) || negb (Qzero giou_cost)
  then Ok {| class_cost := class_cost; bbox_cost := bbox_cost; giou_cost := giou_cost |}
  else Raise AssertionError.

(** The condition on the weights as the specification words it:
    non-negative, at least one nonzero. *)
Definition spec_weights_ok (c b g : Q) : Prop :=
  0 <= c /\ 0 <= b /\ 0 <= g /\ ~ (c == 0 /\ b == 0 /\ g == 0).

(** ** pipelines/token_classification.py : TokenClassificationPipeline.__init__ *)

Inductive AggregationStrategy : Type :=
| NONE
| SIMPLE
| FIRST
| AVERAGE
| MAX.

(** The member value, e.g. [AggregationStrategy.FIRST.value == "first"]. *)
Definition AggregationStrategy_value (a : AggregationStrategy) : string :=
  match a with
  | NONE => "none"
  | SIMPLE => "simple"
  | FIRST => "first"
  | AVERAGE => "average"
  | MAX => "max"
  end.

(** [AggregationStrategy[name]]: lookup of a member by its name. *)
Definition AggregationStrategy_getitem (name : string) : result AggregationStrategy :=
  if String.eqb name "NONE" then Ok NONE
  else if String.eqb name "SIMPLE" then Ok SIMPLE
  else if String.eqb name "FIRST" then Ok FIRST
  else if String.eqb name "AVERAGE" then Ok AVERAGE
  else if String.eqb name "MAX" then Ok MAX
  else Raise KeyError.

(** [str.upper] on ASCII text. *)
Definition upper_ascii (c : Ascii.ascii) : Ascii.ascii :=
  let n := Ascii.nat_of_ascii c in
  if (97 <=? n)%nat && (n <=? 122)%nat then Ascii.ascii_of_nat (n - 32) else c.

Fixpoint upper (s : string) : string :=
  match s with
  | EmptyString => EmptyString
  | String c s' => String (upper_ascii c) (upper s')
  end.

(** The [aggregation_strategy] argument: a member of the enum or a string. *)
Inductive strategy_arg : Type :=
| ByEnum (a : AggregationStrategy)
| ByName (s : string).

(** Python truth value of an [Optional[bool]]. *)
Definition truthy (b : option bool) : bool :=
  match b with
  | Some true => true
  | _ => false
  end.

Definition is_not_None {A} (o : option A) : bool :=
  match o with
  | Some _ => true
  | None => false
  end.

Definition subword_strategy (a : AggregationStrategy) : bool :=
  (* a in {FIRST, MAX, AVERAGE} *)
  match a with
  | FIRST | MAX | AVERAGE => true
  | _ => false
  end.

(** The part of [__init__] that settles [self.aggregation_strategy];
    [is_fast] is [self.tokenizer.is_fast].  The base-class constructor and
    [check_model_type] run before it and do not depend on the strategy. *)
Definition TokenClassificationPipeline_init
    (is_fast : bool) (grouped_entities ignore_subwords : option bool)
    (aggregation_strategy : option strategy_arg) : result AggregationStrategy :=
  let aggregation_strategy :=
    match aggregation_strategy with
    | None =>
        if is_not_None grouped_entities || is_not_None ignore_subwords then
          if truthy grouped_entities && truthy ignore_subwords then ByEnum FIRST
          else if truthy grouped_entities && negb (truthy ignore_subwords) then ByEnum SIMPLE
          else ByEnum NONE
        else ByEnum NONE
    | Some a => a
    end in
  a ← match aggregation_strategy with
      | ByName s => AggregationStrategy_getitem (upper s)
      | ByEnum a => Ok a
      end;
  if subword_strategy a && negb is_fast then Raise ValueError else Ok a.

(** ** Floating-point values that may fail to be finite *)

(** [Some q] is the finite number [q]; [None] is "nan or inf".  Once a
    value is not finite, sums, differences and products with it are not
    finite either. *)
Abbreviation F := (option Q).

Definition fneg (a : F) : F := Qopp <$> a.

Definition fadd (a b : F) : F :=
  match a, b with
  | Some x, Some y => Some (x + y)
  | _, _ => None
  end.

Definition fsub (a b : F) : F :=
  match a, b with
  | Some x, Some y => Some (x - y)
  | _, _ => None
  end.

Definition fmul (a b : F) : F :=
  match a, b with
  | Some x, Some y => Some (x * y)
  | _, _ => None
  end.

Definition fsum (l : list F) : F := foldr fadd (Some 0) l.

(** Equality of float values: the same rational, or both not finite. *)
Definition feq (a b : F) : Prop :=
  match a, b with
  | Some x, Some y => x == y
  | None, None => True
  | _, _ => False
  end.

(** ** Bounding boxes *)

(** A row of a [N, 4] box tensor.  In center format the coordinates are
    (center_x, center_y, width, height), in corner format (x0, y0, x1, y1). *)
Record Box : Type := mkBox { b0 : Q; b1 : Q; b2 : Q; b3 : Q }.

(** Modelled from the spec: [center_to_corners_format] is imported from
    feature_extraction_detr.py, which is not among the sources; boxes in
    (center_x, center_y, w, h) format are taken to the [x0, y0, x1, y1]
    corner format that [generalized_box_iou] expects. *)
Definition center_to_corners_format (x : Box) : Box :=
  let x_c := b0 x in
  let y_c := b1 x in
  let w := b2 x in
  let h := b3 x in
  mkBox (x_c - (1 # 2) * w) (y_c - (1 # 2) * h) (x_c + (1 # 2) * w) (y_c + (1 # 2) * h).

(** [torchvision.ops.boxes.box_area]: (x1 - x0) * (y1 - y0). *)
Definition box_area (b : Box) : Q := (b2 b - b0 b) * (b3 b - b1 b).

(** One entry of [box_iou]: the pair (iou, union) for a pair of boxes. *)
Definition box_iou1 (a b : Box) : F * Q :=
  let area1 := box_area a in
  let area2 := box_area b in
  let lt_x := Qmax (b0 a) (b0 b) in
  let lt_y := Qmax (b1 a) (b1 b) in
  let rb_x := Qmin (b2 a) (b2 b) in
  let rb_y := Qmin (b3 a) (b3 b) in
  let wh_x := clamp_min0 (rb_x - lt_x) in
  let wh_y := clamp_min0 (rb_y - lt_y) in
  let inter := wh_x * wh_y in
  let union := area1 + area2 - inter in
  let iou := fdiv inter union in
  (iou, union).

(** [box_iou]: the [N, M] matrices of pairwise iou and union. *)
Definition box_iou (boxes1 boxes2 : list Box) : list (list (F * Q)) :=
  fmap (fun a => fmap (fun b => box_iou1 a b) boxes2) boxes1.

(** [(boxes[:, 2:] >= boxes[:, :2])] for one row. *)
Definition corners_ordered (b : Box) : bool :=
  Qle_bool (b0 b) (b2 b) && Qle_bool (b1 b) (b3 b).

(** One entry of [generalized_box_iou], after the two assertions. *)
Definition generalized_box_iou1 (a b : Box) : F :=
  let '(iou, union) := box_iou1 a b in
  let lt_x := Qmin (b0 a) (b0 b) in
  let lt_y := Qmin (b1 a) (b1 b) in
  let rb_x := Qmax (b2 a) (b2 b) in
  let rb_y := Qmax (b3 a) (b3 b) in
  let wh_x := clamp_min0 (rb_x - lt_x) in
  let wh_y := clamp_min0 (rb_y - lt_y) in
  let area := wh_x * wh_y in
  fsub iou (fdiv (area - union) area).

Definition generalized_box_iou (boxes1 boxes2 : list Box) : result (list (list F)) :=
  (* assert (boxes1[:, 2:] >= boxes1[:, :2]).all() *)
  if negb (forallb corners_ordered boxes1) then Raise AssertionError
  (* assert (boxes2[:, 2:] >= boxes2[:, :2]).all() *)
  else if negb (forallb corners_ordered boxes2) then Raise AssertionError
  else Ok (fmap (fun a => fmap (fun b => generalized_box_iou1 a b) boxes2) boxes1).

(** ** scipy.optimize.linear_sum_assignment *)

(** All sequences of [k] pairwise distinct numbers below [m]. *)
Fixpoint arrangements (k m : nat) : list (list nat) :=
  match k with
  | O => [[]]
  | S k' =>
      flat_map
        (fun s => fmap (fun j => j :: s)
                    (filter (fun j => j ∉ s) (seq 0 m)))
        (arrangements k' m)
  end.

Definition entry (c : list (list Q)) (i j : nat) : Q :=
  match c !! i with
  | Some row => default 0 (row !! j)
  | None => 0
  end.

(** Total cost of assigning row [rows[k]] to column [cols[k]]. *)
Definition assignment_cost (c : list (list Q)) (rows cols : list nat) : Q :=
  Qsum (zip_with (entry c) rows cols).

(** The first candidate of least cost. *)
Fixpoint argmin_by {A} (f : A -> Q) (best : A) (l : list A) : A :=
  match l with
  | [] => best
  | x :: l' => argmin_by f (if Qltb (f x) (f best) then x else best) l'
  end.

Definition first_argmin {A} (f : A -> Q) (d : A) (l : list A) : A :=
  match l with
  | [] => d
  | x :: l' => argmin_by f x l'
  end.

Definition finite (x : F) : result Q :=
  match x with
  | Some q => Ok q
  | None => Raise ValueError
  end.

Definition fst_le (p q : nat * nat) : Prop := (p.1 <= q.1)%nat.

#[global] Instance fst_le_dec p q : Decision (fst_le p q).
Proof. unfold fst_le. apply _. Defined.

(** An exact solver of the assignment problem by enumeration.  It returns
    (row_ind, col_ind) with row_ind increasing, as scipy does; a cost
    matrix with an entry that is not finite is refused.  Which optimal
    assignment is picked when several exist is not fixed by scipy; the
    first in the enumeration is taken here.  For a matrix without rows
    the number of columns is immaterial. *)
Definition linear_sum_assignment (cost_matrix : list (list F))
  : result (list nat * list nat) :=
  c ← mapR (mapR finite) cost_matrix;
  let n := length c in
  let m := length (hd [] c) in
  if (n <=? m)%nat then
    let rows := seq 0 n in
    let cols := first_argmin (fun s => assignment_cost c rows s) [] (arrangements n m) in
    Ok (rows, cols)
  else
    let cols := seq 0 m in
    let rows := first_argmin (fun s => assignment_cost c s cols) [] (arrangements m n) in
    let pairs := merge_sort fst_le (zip rows cols) in
    Ok (pairs.*1, pairs.*2).

(** ** Tensors as nested lists *)

(** [torch.cat(ts)] along the first dimension; an empty list of tensors is
    refused. *)
Definition torch_cat {A} (ts : list (list A)) : result (list A) :=
  match ts with
  | [] => Raise RuntimeError
  | _ => Ok (concat ts)
  end.

(** [d[key]] for a key that may be absent from a dict. *)
Definition getitem {A} (o : option A) : result A :=
  match o with
  | Some a => Ok a
  | None => Raise KeyError
  end.

(** [k] consecutive groups of [n] rows. *)
Fixpoint chunks {A} (k n : nat) (l : list A) : list (list A) :=
  match k with
  | O => []
  | S k' => take n l :: chunks k' n (drop n l)
  end.

(** [C.view(bs, num_queries, -1)] of a tensor given by its rows.  With
    [bs * num_queries = 0] the last dimension cannot be inferred.  For a
    rectangular logits tensor the number of rows is [bs * num_queries]. *)
Definition view3 {A} (bs num_queries : nat) (rows : list (list A))
  : result (list (list (list A))) :=
  if (bs * num_queries =? 0)%nat then Raise RuntimeError
  else if (length rows =? bs * num_queries)%nat then Ok (chunks bs num_queries rows)
  else Raise RuntimeError.

(** [C.split(sizes, -1)]: consecutive column blocks of the given widths.
    The widths here always add up to the number of columns. *)
Fixpoint split_last {A} (sizes : list nat) (C : list (list (list A)))
  : list (list (list (list A))) :=
  match sizes with
  | [] => []
  | s :: rest =>
      fmap (M:=list) (fmap (M:=list) (take s)) C
        :: split_last rest (fmap (M:=list) (fmap (M:=list) (drop s)) C)
  end.

Fixpoint enumerate_from {A} (i : nat) (l : list A) : list (nat * A) :=
  match l with
  | [] => []
  | x :: l' => (i, x) :: enumerate_from (S i) l'
  end.

Definition enumerate {A} (l : list A) : list (nat * A) := enumerate_from 0 l.

(** ** Model outputs and targets *)

(** The [outputs] dict: each key may be absent. *)
#[local] Unset Elimination Schemes.
Inductive Outputs : Type := mkOutputs {
  logits : option (list (list (list Q)));            (* [batch_size, num_queries, num_classes] *)
  pred_boxes : option (list (list Box));             (* [batch_size, num_queries, 4] *)
  pred_masks : option (list (list (list (list Q)))); (* [batch_size, num_queries, h, w] *)
  auxiliary_outputs : option (list Outputs)
}.
#[local] Set Elimination Schemes.

Record Target : Type := {
  class_labels : list nat;          (* [num_target_boxes] *)
  boxes : list Box;                 (* [num_target_boxes, 4] *)
  masks : list (list (list Q))      (* [num_target_boxes, h, w] *)
}.

(** A matching: per batch item the pair (index_i, index_j). *)
Definition Indices : Type := list (list nat * list nat).

(** ** HungarianMatcher.forward *)

(** [torch.cdist(x, y, p=1)] on boxes. *)
Definition l1_dist (x y : Box) : Q :=
  Qabs (b0 x - b0 y) + Qabs (b1 x - b1 y) + Qabs (b2 x - b2 y) + Qabs (b3 x - b3 y).

Definition cdist_l1 (xs ys : list Box) : list (list Q) :=
  fmap (fun x => fmap (fun y => l1_dist x y) ys) xs.

(** [-out_prob[:, tgt_ids]] *)
Definition class_cost_matrix (out_prob : list (list Q)) (tgt_ids : list nat)
  : result (list (list Q)) :=
  mapR (fun p => mapR (fun id => match p !! id with
                                 | Some v => Ok (- v)
                                 | None => Raise IndexError
                                 end) tgt_ids) out_prob.

(** [w_bbox * bbox_cost + w_class * class_cost + w_giou * giou_cost], entrywise. *)
Definition cost_entry (self : HungarianMatcher) (bb cl : Q) (gi : F) : F :=
  fadd (fadd (Some (bbox_cost self * bb)) (Some (class_cost self * cl)))
       (fmul (Some (giou_cost self)) gi).

Definition zip_with3 {A B C D} (f : A -> B -> C -> D)
    (l1 : list A) (l2 : list B) (l3 : list C) : list D :=
  zip_with (fun ab c => f ab.1 ab.2 c) (zip l1 l2) l3.

Section Matcher.

(** [Tensor.softmax(-1)] on one row; it keeps the length of the row. *)
Variable softmax : list Q -> list Q.

Definition HungarianMatcher_forward (self : HungarianMatcher)
    (outputs : Outputs) (targets : list Target) : result Indices :=
  lg ← getitem (logits outputs);
  let bs := length lg in
  let num_queries := length (hd [] lg) in
  (* We flatten to compute the cost matrices in a batch *)
  let out_prob := softmax <$> concat lg in
  pb ← getitem (pred_boxes outputs);
  let out_bbox := concat pb in
  (* Also concat the target labels and boxes *)
  tgt_ids ← torch_cat (class_labels <$> targets);
  tgt_bbox ← torch_cat (boxes <$> targets);
  cost_class ← class_cost_matrix out_prob tgt_ids;
  let cost_bbox := cdist_l1 out_bbox tgt_bbox in
  giou ← generalized_box_iou (center_to_corners_format <$> out_bbox)
                             (center_to_corners_format <$> tgt_bbox);
  let cost_giou := fmap (M:=list) (fmap (M:=list) fneg) giou in
  (* Final cost matrix; the three summands must have one shape *)
  if negb ((length out_prob =? length out_bbox)%nat
           && (length tgt_ids =? length tgt_bbox)%nat)
  then Raise RuntimeError
  else
    let C := zip_with3 (zip_with3 (cost_entry self)) cost_bbox cost_class cost_giou in
    C ← view3 bs num_queries C;
    let sizes := (fun v => length (boxes v)) <$> targets in
    mapR (fun ic => match ic.2 !! ic.1 with
                    | Some ci => linear_sum_assignment ci
                    | None => Raise IndexError
                    end)
         (enumerate (split_last sizes C)).

End Matcher.

(** ** Dicts with insertion order *)

(** The loss and weight dicts are iterated over (by the total loss), so
    they are kept as association lists in insertion order, without
    duplicate keys. *)
Definition dict (V : Type) : Type := list (string * V).

Fixpoint dict_get {V} (k : string) (d : dict V) : option V :=
  match d with
  | [] => None
  | (k', v) :: d' => if String.eqb k' k then Some v else dict_get k d'
  end.

(** [d[k] = v] *)
Fixpoint dict_set {V} (k : string) (v : V) (d : dict V) : dict V :=
  match d with
  | [] => [(k, v)]
  | (k', v') :: d' =>
      if String.eqb k' k then (k', v) :: d' else (k', v') :: dict_set k v d'
  end.

(** [d.update(d2)] *)
Definition dict_update {V} (d d2 : dict V) : dict V :=
  foldl (fun acc kv => dict_set kv.1 kv.2 acc) d d2.

(** [k + f"_{i}"] *)
Definition suffixed (k : string) (i : nat) : string := k +:+ "_" +:+ pretty i.

(** [{k + f"_{i}": v for k, v in d.items()}] *)
Definition suffix_keys {V} (i : nat) (d : dict V) : dict V :=
  dict_update [] ((fun kv => (suffixed kv.1 i, kv.2)) <$> d).

(** ** SetCriterion *)

Record SetCriterion : Type := {
  matcher : Outputs -> list Target -> result Indices;
  num_classes : nat;
  eos_coef : Q;
  losses : list string
}.

(** [_get_src_permutation_idx]: (batch_idx, src_idx). *)
Definition _get_src_permutation_idx (indices : Indices) : result (list nat * list nat) :=
  batch_idx ← torch_cat ((fun isrc => replicate (length isrc.2.1) isrc.1) <$> enumerate indices);
  src_idx ← torch_cat (fst <$> indices);
  Ok (batch_idx, src_idx).

(** [_get_tgt_permutation_idx]: (batch_idx, tgt_idx). *)
Definition _get_tgt_permutation_idx (indices : Indices) : result (list nat * list nat) :=
  batch_idx ← torch_cat ((fun itgt => replicate (length itgt.2.2) itgt.1) <$> enumerate indices);
  tgt_idx ← torch_cat (snd <$> indices);
  Ok (batch_idx, tgt_idx).

(** [t[idx]] for a list of row indices. *)
Definition index_rows {A} (t : list A) (idx : list nat) : result (list A) :=
  mapR (fun i => match t !! i with
                 | Some r => Ok r
                 | None => Raise IndexError
                 end) idx.

(** [t[(batch_idx, src_idx)]] on a [batch, queries, ...] tensor. *)
Definition index_pairs {A} (t : list (list A)) (idx : list nat * list nat)
  : result (list A) :=
  mapR (fun bi => match t !! bi.1 with
                  | Some rows => match rows !! bi.2 with
                                 | Some r => Ok r
                                 | None => Raise IndexError
                                 end
                  | None => Raise IndexError
                  end) (zip idx.1 idx.2).

(** [torch.diag] of a matrix. *)
Definition diag {A} (m : list (list A)) : list A :=
  omap (fun ir => ir.2 !! ir.1) (enumerate m).

(** [x / num_boxes] for a tensor value and a Python float. *)
Definition fdiv_by (a : F) (num_boxes : Q) : F :=
  match a with
  | Some x => fdiv x num_boxes
  | None => None
  end.

(** The sums [loss_bbox.sum()] and [loss_giou.sum()] of [loss_boxes],
    before they are divided by [num_boxes]. *)
Definition loss_boxes_sums (outputs : Outputs) (targets : list Target)
    (indices : Indices) : result (Q * F) :=
  match pred_boxes outputs with
  | None => Raise AssertionError           (* assert "pred_boxes" in outputs *)
  | Some pb =>
      idx ← _get_src_permutation_idx indices;
      src_boxes ← index_pairs pb idx;
      tb ← mapR (fun ti => index_rows (boxes ti.1) ti.2.2) (zip targets indices);
      target_boxes ← torch_cat tb;
      if negb (length src_boxes =? length target_boxes)%nat then Raise RuntimeError
      else
        let loss_bbox := zip_with l1_dist src_boxes target_boxes in
        giou ← generalized_box_iou (center_to_corners_format <$> src_boxes)
                                   (center_to_corners_format <$> target_boxes);
        let loss_giou := fsub (Some 1) <$> diag giou in
        Ok (Qsum loss_bbox, fsum loss_giou)
  end.

Definition loss_boxes (outputs : Outputs) (targets : list Target)
    (indices : Indices) (num_boxes : Q) : result (dict F) :=
  sums ← loss_boxes_sums outputs targets indices;
  let losses := [] in
  let losses := dict_set "loss_bbox" (fdiv (sums.1) num_boxes) losses in
  let losses := dict_set "loss_giou" (fdiv_by (sums.2) num_boxes) losses in
  Ok losses.

(** [num_boxes] as [SetCriterion.forward] computes it:
    the number of target boxes of the batch, clamped below at 1. *)
Definition total_target_boxes (targets : list Target) : nat :=
  sum_list ((fun t => length (class_labels t)) <$> targets).

Definition forward_num_boxes (targets : list Target) : Q :=
  let num_boxes := inject_Z (Z.of_nat (total_target_boxes targets)) in
  (* torch.clamp(num_boxes, min=1).item() *)
  Qmax num_boxes 1.

Section Criterion.

(** Numerical kernels of the other losses: the weighted cross entropy of
    [loss_labels] on the matched classes, the L1 cardinality error and the
    focal and Dice losses of [loss_masks]. *)
Variable cross_entropy_matched :
  list (list (list Q)) -> list Target -> Indices -> nat -> Q -> result F.
Variable cardinality_l1 : list (list (list Q)) -> list Target -> F.
Variable focal_and_dice :
  list (list (list (list Q))) -> list Target -> Indices -> Q -> result (F * F).

Definition loss_labels (self : SetCriterion) (outputs : Outputs)
    (targets : list Target) (indices : Indices) (num_boxes : Q) : result (dict F) :=
  match logits outputs with
  | None => Raise AssertionError          (* assert "logits" in outputs *)
  | Some src_logits =>
      loss_ce ← cross_entropy_matched src_logits targets indices
                  (num_classes self) (eos_coef self);
      Ok [("loss_ce", loss_ce)]
  end.

Definition loss_cardinality (self : SetCriterion) (outputs : Outputs)
    (targets : list Target) (indices : Indices) (num_boxes : Q) : result (dict F) :=
  lg ← getitem (logits outputs);
  let card_err := cardinality_l1 lg targets in
  Ok [("cardinality_error", card_err)].

Definition loss_masks (self : SetCriterion) (outputs : Outputs)
    (targets : list Target) (indices : Indices) (num_boxes : Q) : result (dict F) :=
  match pred_masks outputs with
  | None => Raise AssertionError          (* assert "pred_masks" in outputs *)
  | Some src_masks =>
      fd ← focal_and_dice src_masks targets indices num_boxes;
      Ok [("loss_mask", fd.1); ("loss_dice", fd.2)]
  end.

Definition get_loss (self : SetCriterion) (loss : string) (outputs : Outputs)
    (targets : list Target) (indices : Indices) (num_boxes : Q) : result (dict F) :=
  if String.eqb loss "labels" then loss_labels self outputs targets indices num_boxes
  else if String.eqb loss "cardinality" then loss_cardinality self outputs targets indices num_boxes
  else if String.eqb loss "boxes" then loss_boxes outputs targets indices num_boxes
  else if String.eqb loss "masks" then loss_masks self outputs targets indices num_boxes
  else Raise AssertionError.              (* assert loss in loss_map *)

(** [for loss in self.losses: losses.update(self.get_loss(...))] *)
Fixpoint final_layer_losses (self : SetCriterion) (names : list string)
    (outputs : Outputs) (targets : list Target) (indices : Indices)
    (num_boxes : Q) (losses : dict F) : result (dict F) :=
  match names with
  | [] => Ok losses
  | loss :: names' =>
      l_dict ← get_loss self loss outputs targets indices num_boxes;
      final_layer_losses self names' outputs targets indices num_boxes
        (dict_update losses l_dict)
  end.

(** The inner loop over [self.losses] for intermediate layer [i]. *)
Fixpoint aux_layer_losses (self : SetCriterion) (names : list string) (i : nat)
    (auxiliary_outputs : Outputs) (targets : list Target) (indices : Indices)
    (num_boxes : Q) (losses : dict F) : result (dict F) :=
  match names with
  | [] => Ok losses
  | loss :: names' =>
      if String.eqb loss "masks" then
        (* Intermediate masks losses are too costly to compute, we ignore them. *)
        aux_layer_losses self names' i auxiliary_outputs targets indices num_boxes losses
      else
        l_dict ← get_loss self loss auxiliary_outputs targets indices num_boxes;
        let l_dict := suffix_keys i l_dict in
        aux_layer_losses self names' i auxiliary_outputs targets indices num_boxes
          (dict_update losses l_dict)
  end.

(** [for i, auxiliary_outputs in enumerate(outputs["auxiliary_outputs"])];
    [acc] is the dict [losses] built so far. *)
Fixpoint aux_losses (self : SetCriterion) (i : nat) (auxs : list Outputs)
    (targets : list Target) (num_boxes : Q) (acc : dict F) : result (dict F) :=
  match auxs with
  | [] => Ok acc
  | auxiliary_outputs :: auxs' =>
      indices ← matcher self auxiliary_outputs targets;
      acc ← aux_layer_losses self (losses self) i auxiliary_outputs targets
              indices num_boxes acc;
      aux_losses self (S i) auxs' targets num_boxes acc
  end.

(** [next(iter(outputs.values())).device]: the record lists the keys in the
    order in which [DetrForObjectDetection.forward] inserts them, so the
    first value is a tensor unless the dict is empty or holds the list of
    auxiliary outputs only. *)
Definition first_value_device (outputs : Outputs) : result unit :=
  match logits outputs, pred_boxes outputs, pred_masks outputs,
        auxiliary_outputs outputs with
  | None, None, None, None => Raise StopIteration
  | None, None, None, Some _ => Raise AttributeError
  | _, _, _, _ => Ok ()
  end.

Definition SetCriterion_forward (self : SetCriterion) (outputs : Outputs)
    (targets : list Target) : result (dict F) :=
  let outputs_without_aux :=
    mkOutputs (logits outputs) (pred_boxes outputs) (pred_masks outputs) None in
  (* Retrieve the matching between the outputs of the last layer and the targets *)
  indices ← matcher self outputs_without_aux targets;
  _ ← first_value_device outputs;
  let num_boxes := forward_num_boxes targets in
  (* Compute all the requested losses *)
  acc ← final_layer_losses self (losses self) outputs targets indices num_boxes [];
  (* In case of auxiliary losses, we repeat this process with the output of
     each intermediate layer. *)
  match auxiliary_outputs outputs with
  | Some auxs => aux_losses self 0 auxs targets num_boxes acc
  | None => Ok acc
  end.

End Criterion.

(** ** DetrForObjectDetection.forward: the loss *)

Record DetrConfig : Type := {
  cfg_class_cost : Q;
  cfg_bbox_cost : Q;
  cfg_giou_cost : Q;
  num_labels : nat;
  eos_coefficient : Q;
  bbox_loss_coefficient : Q;
  giou_loss_coefficient : Q;
  auxiliary_loss : bool;
  decoder_layers : nat
}.

(** [l[:-1]] *)
Definition all_but_last {A} (l : list A) : list A := take (length l - 1) l.

Definition _set_aux_loss (outputs_class : list (list (list (list Q))))
    (outputs_coord : list (list (list Box))) : list Outputs :=
  (fun ab => mkOutputs (Some ab.1) (Some ab.2) None None)
    <$> zip (all_but_last outputs_class) (all_but_last outputs_coord).

(** The weight dict of [DetrForObjectDetection.forward]. *)
Definition detr_weight_dict (config : DetrConfig) : dict Q :=
  let weight_dict := [("loss_ce", 1); ("loss_bbox", bbox_loss_coefficient config)] in
  let weight_dict := dict_set "loss_giou" (giou_loss_coefficient config) weight_dict in
  if auxiliary_loss config then
    let aux_weight_dict :=
      foldl (fun aux i => dict_update aux (suffix_keys i weight_dict))
            [] (seq 0 (decoder_layers config - 1)) in
    dict_update weight_dict aux_weight_dict
  else weight_dict.

(** [sum(loss_dict[k] * weight_dict[k] for k in loss_dict.keys() if k in weight_dict)] *)
Definition weighted_total (loss_dict : dict F) (weight_dict : dict Q) : F :=
  foldl (fun total kv =>
           match dict_get kv.1 weight_dict with
           | Some w => fadd total (fmul kv.2 (Some w))
           | None => total
           end) (Some 0) loss_dict.

Section DetrLoss.

Variable softmax : list Q -> list Q.
Variable cross_entropy_matched :
  list (list (list Q)) -> list Target -> Indices -> nat -> Q -> result F.
Variable cardinality_l1 : list (list (list Q)) -> list Target -> F.
Variable focal_and_dice :
  list (list (list (list Q))) -> list Target -> Indices -> Q -> result (F * F).

(** The branch [if labels is not None] of [DetrForObjectDetection.forward]:
    [logits] and [pred_boxes] are the heads on the last decoder layer,
    [outputs_class] and [outputs_coord] the heads on all decoder layers.
    It returns (loss, loss_dict). *)
Definition DetrForObjectDetection_loss (config : DetrConfig)
    (lg : list (list (list Q))) (pb : list (list Box))
    (outputs_class : list (list (list (list Q))))
    (outputs_coord : list (list (list Box)))
    (labels : list Target) : result (F * dict F) :=
  (* First: create the matcher *)
  m ← HungarianMatcher_init (cfg_class_cost config) (cfg_bbox_cost config)
        (cfg_giou_cost config);
  (* Second: create the criterion *)
  let criterion :=
    {| matcher := HungarianMatcher_forward softmax m;
       num_classes := num_labels config;
       eos_coef := eos_coefficient config;
       losses := ["labels"; "boxes"; "cardinality"] |} in
  (* Third: compute the losses, based on outputs and labels *)
  let outputs_loss :=
    mkOutputs (Some lg) (Some pb) None
      (if auxiliary_loss config
       then Some (_set_aux_loss outputs_class outputs_coord)
       else None) in
  loss_dict ← SetCriterion_forward cross_entropy_matched cardinality_l1
                focal_and_dice criterion outputs_loss labels;
  (* Fourth: compute total loss, as a weighted sum of the various losses *)
  let weight_dict := detr_weight_dict config in
  Ok (weighted_total loss_dict weight_dict, loss_dict).

End DetrLoss.

(** ** models/encodec/modeling_encodec.py : EuclideanCodebook *)

Record EuclideanCodebook : Type := {
  decay : Q;
  codebook_size : nat;
  kmeans_iters : nat;
  epsilon : Q;
  threshold_ema_dead_code : Z;
  (* buffers *)
  inited : bool;
  cluster_size : list Q;          (* [codebook_size] *)
  embed : list (list Q);          (* [codebook_size, dim] *)
  embed_avg : list (list Q)       (* [codebook_size, dim] *)
}.

(** [self.embed.data.copy_(e)] *)
Definition set_embed (self : EuclideanCodebook) (e : list (list Q)) : EuclideanCodebook :=
  {| decay := decay self;
     codebook_size := codebook_size self;
     kmeans_iters := kmeans_iters self;
     epsilon := epsilon self;
     threshold_ema_dead_code := threshold_ema_dead_code self;
     inited := inited self;
     cluster_size := cluster_size self;
     embed := e;
     embed_avg := embed_avg self |}.

Section DeadCodes.

(** The random number generator: [torch.randperm(n)] and
    [torch.randint(0, high, (num,))]. *)
Variable randperm : nat -> list nat.
Variable randint : nat -> nat -> list nat.

Definition sample_vectors (samples : list (list Q)) (num : nat)
  : result (list (list Q)) :=
  let num_samples := length samples in
  if (num <=? num_samples)%nat then
    index_rows samples (take num (randperm num_samples))
  else if (num_samples =? 0)%nat then Raise RuntimeError  (* empty range of randint *)
  else index_rows samples (randint num_samples num).

(** [torch.where(mask[..., None], a, b)] on rows. *)
Definition where_rows {A} (mask : list bool) (a b : list A) : list A :=
  zip_with3 (fun (m : bool) x y => if m then x else y) mask a b.

Definition replace_ (self : EuclideanCodebook) (samples : list (list Q))
    (mask : list bool) : result EuclideanCodebook :=
  sampled ← sample_vectors samples (codebook_size self);
  let modified_codebook := where_rows mask sampled (embed self) in
  Ok (set_embed self modified_codebook).

(** [expire_codes_] returns the codebook after the call;
    [batch_samples] has shape [..., d], here [b, n, d]. *)
Definition expire_codes_ (self : EuclideanCodebook)
    (batch_samples : list (list (list Q))) : result EuclideanCodebook :=
  if (threshold_ema_dead_code self =? 0)%Z then Ok self
  else
    let expired_codes :=
      (fun c => Qltb c (inject_Z (threshold_ema_dead_code self))) <$> cluster_size self in
    if negb (existsb id expired_codes) then Ok self
    else
      let batch_samples := concat batch_samples in   (* "... d -> (...) d" *)
      replace_ self batch_samples expired_codes.

End DeadCodes.

(** *** quantize / dequantize *)

Definition dot (a b : list Q) : Q := Qsum (zip_with Qmult a b).

(** [v.pow(2).sum()] *)
Definition sumsq (v : list Q) : Q := Qsum ((fun a => a * a) <$> v).

(** One entry of [dist] in [quantize]: minus the squared distance, expanded. *)
Definition neg_sq_dist (x e : list Q) : Q :=
  - (sumsq x - 2 * dot x e + sumsq e).

(** Index of the first largest entry. *)
Fixpoint argmax_from (best_i : nat) (best : Q) (i : nat) (l : list Q) : nat :=
  match l with
  | [] => best_i
  | v :: l' =>
      if Qltb best v then argmax_from i v (S i) l'
      else argmax_from best_i best (S i) l'
  end.

(** [t.max(dim=-1).indices] on one row; a row without entries has no maximum. *)
Definition argmax (l : list Q) : result nat :=
  match l with
  | [] => Raise IndexError
  | v :: l' => Ok (argmax_from 0 v 1 l')
  end.

(** [quantize] on one row of the flattened input: the row must have the
    dimension of the codebook vectors for [x @ embed]. *)
Definition quantize1 (self : EuclideanCodebook) (x : list Q) : result nat :=
  if forallb (fun e => (length e =? length x)%nat) (embed self)
  then argmax (neg_sq_dist x <$> embed self)
  else Raise RuntimeError.

Definition quantize (self : EuclideanCodebook) (x : list (list Q)) : result (list nat) :=
  match embed self with
  | [] => Raise IndexError
  | _ => mapR (quantize1 self) x
  end.

(** [embed_ind.view] to the shape of [x] without its last dimension: the
    flat list regrouped like [x]. *)
Fixpoint postprocess_emb {A B} (embed_ind : list B) (x : list (list A)) : list (list B) :=
  match x with
  | [] => []
  | r :: x' => take (length r) embed_ind :: postprocess_emb (drop (length r) embed_ind) x'
  end.

(** [F.embedding(embed_ind, self.embed)] *)
Definition dequantize (self : EuclideanCodebook) (embed_ind : list (list nat))
  : result (list (list (list Q))) :=
  mapR (index_rows (embed self)) embed_ind.

(** [x] has shape [b, n, d]. *)
Definition EuclideanCodebook_encode (self : EuclideanCodebook)
    (x : list (list (list Q))) : result (list (list nat)) :=
  let shape := x in
  (* pre-process *)
  let x := concat x in
  (* quantize *)
  embed_ind ← quantize self x;
  (* post-process *)
  Ok (postprocess_emb embed_ind shape).

Definition EuclideanCodebook_decode (self : EuclideanCodebook)
    (embed_ind : list (list nat)) : result (list (list (list Q))) :=
  dequantize self embed_ind.

(** ** VectorQuantization *)

(** The layers are built without [codebook_dim], so [project_in] and
    [project_out] are [nn.Identity]. *)
Record VectorQuantization : Type := {
  _codebook : EuclideanCodebook;
  commitment_weight : Q
}.

(** Transposition of a matrix given by its rows. *)
Fixpoint transpose {A} (m : list (list A)) : list (list A) :=
  match m with
  | [] => []
  | r :: m' =>
      match m' with
      | [] => (fun a => [a]) <$> r
      | _ => zip_with cons r (transpose m')
      end
  end.

(** [rearrange(x, "b d n -> b n d")] and [rearrange(x, "b n d -> b d n")] *)
Definition rearrange_swap {A} (x : list (list (list A))) : list (list (list A)) :=
  transpose <$> x.

Definition VectorQuantization_encode (self : VectorQuantization)
    (x : list (list (list Q))) : result (list (list nat)) :=
  let x := rearrange_swap x in
  EuclideanCodebook_encode (_codebook self) x.

Definition VectorQuantization_decode (self : VectorQuantization)
    (embed_ind : list (list nat)) : result (list (list (list Q))) :=
  quantize ← EuclideanCodebook_decode (_codebook self) embed_ind;
  Ok (rearrange_swap quantize).

(** ** ResidualVectorQuantization *)

Record ResidualVectorQuantization : Type := {
  layers : list VectorQuantization
}.

(** A tensor of shape [b, d, n], or a scalar (zero-dimensional) tensor. *)
Inductive tensor : Type :=
| Scalar (q : Q)
| Tensor3 (t : list (list (list Q))).

Definition zip3 (f : Q -> Q -> Q) (x y : list (list (list Q))) : list (list (list Q)) :=
  zip_with (zip_with (zip_with f)) x y.

Definition map3 (f : Q -> Q) (x : list (list (list Q))) : list (list (list Q)) :=
  fmap (M:=list) (fmap (M:=list) (fmap (M:=list) f)) x.

(** [a + b] with a scalar broadcast against a tensor. *)
Definition tensor_add (a : tensor) (b : list (list (list Q))) : tensor :=
  match a with
  | Scalar q => Tensor3 (map3 (Qplus q) b)
  | Tensor3 t => Tensor3 (zip3 Qplus t b)
  end.

(** [l[:n]] for a Python integer [n]. *)
Definition slice_to {A} (l : list A) (n : Z) : list A :=
  if (0 <=? n)%Z then take (Z.to_nat n) l
  else take (Z.to_nat (Z.of_nat (length l) + n)) l.

(** [n_q or len(self.layers)] *)
Definition n_q_or_len (n_q : option Z) (len : nat) : Z :=
  match n_q with
  | None => Z.of_nat len
  | Some n => if (n =? 0)%Z then Z.of_nat len else n
  end.

(** The loop of [encode]: it returns [all_indices]. *)
Fixpoint encode_loop (ls : list VectorQuantization) (residual : list (list (list Q)))
  : result (list (list (list nat))) :=
  match ls with
  | [] => Ok []
  | layer :: ls' =>
      indices ← VectorQuantization_encode layer residual;
      quantized ← VectorQuantization_decode layer indices;
      let residual := zip3 Qminus residual quantized in
      all_indices ← encode_loop ls' residual;
      Ok (indices :: all_indices)
  end.

(** [torch.stack(ts)]: an empty list of tensors is refused. *)
Definition torch_stack {A} (ts : list A) : result (list A) :=
  match ts with
  | [] => Raise RuntimeError
  | _ => Ok ts
  end.

Definition ResidualVectorQuantization_encode (self : ResidualVectorQuantization)
    (x : list (list (list Q))) (n_q : option Z) : result (list (list (list nat))) :=
  let residual := x in
  let n_q := n_q_or_len n_q (length (layers self)) in
  all_indices ← encode_loop (slice_to (layers self) n_q) residual;
  torch_stack all_indices.

(** The loop of [decode], from stage [i] on. *)
Fixpoint decode_loop (self : ResidualVectorQuantization) (i : nat)
    (q_indices : list (list (list nat))) (quantized_out : tensor) : result tensor :=
  match q_indices with
  | [] => Ok quantized_out
  | indices :: rest =>
      match layers self !! i with
      | None => Raise IndexError
      | Some layer =>
          quantized ← VectorQuantization_decode layer indices;
          decode_loop self (S i) rest (tensor_add quantized_out quantized)
      end
  end.

Definition ResidualVectorQuantization_decode (self : ResidualVectorQuantization)
    (q_indices : list (list (list nat))) : result tensor :=
  let quantized_out := Scalar 0 in
  decode_loop self 0 q_indices quantized_out.

(** Squared Euclidean norm of [x - y]; comparing squared norms is comparing
    norms. *)
Definition sumsq3 (x : list (list (list Q))) : Q :=
  Qsum ((fun m => Qsum (sumsq <$> m)) <$> x).

Definition reconstruction_error (x : list (list (list Q))) (y : tensor) : Q :=
  match y with
  | Scalar q => sumsq3 (map3 (fun a => a - q) x)
  | Tensor3 t => sumsq3 (zip3 Qminus x t)
  end.

(** ** ResidualVectorQuantizer *)

Record ResidualVectorQuantizer : Type := {
  dimension : nat;
  n_q : Z;
  bins : Z;
  vq : ResidualVectorQuantization
}.

Section Bandwidth.

(** The value of [math.log2] on a positive int (it is finite). *)
Variable math_log2 : Z -> Q.

(** [math.log2(n)] for an int: a math domain error unless [n] is positive. *)
Definition log2_of_int (n : Z) : result pyfloat :=
  if (n <=? 0)%Z then Raise ValueError else Ok (round64 (math_log2 n)).

Definition get_bandwidth_per_quantizer (self : ResidualVectorQuantizer)
    (frame_rate : Z) : result pyfloat :=
  l ← log2_of_int (bins self);
  fr ← float_of_int frame_rate;
  Ok (float_mul l fr).

(** [bandwidth] is an optional float, given by the rational it is written
    as: the float is the nearest one. *)
Definition get_num_quantizers_for_bandwidth (self : ResidualVectorQuantizer)
    (frame_rate : Z) (bandwidth : option Q) : result Z :=
  bw_per_q ← get_bandwidth_per_quantizer self frame_rate;
  let n_q := n_q self in
  match bandwidth with
  | Some bandwidth =>
      let bandwidth := round64 bandwidth in
      (* if bandwidth and bandwidth > 0.: *)
      if float_bool bandwidth && float_gt0 bandwidth then
        q ← float_truediv (float_mul bandwidth (Finite 1000)) bw_per_q;
        n ← math_floor q;
        Ok (Z.max 1 n)
      else Ok n_q
  | None => Ok n_q
  end.

Definition ResidualVectorQuantizer_encode (self : ResidualVectorQuantizer)
    (x : list (list (list Q))) (frame_rate : Z) (bandwidth : option Q)
  : result (list (list (list nat))) :=
  n_q ← get_num_quantizers_for_bandwidth self frame_rate bandwidth;
  ResidualVectorQuantization_encode (vq self) x (Some n_q).

End Bandwidth.

(** [math.log2] where it is exact: on the powers of two. *)
Definition log2_exact (z : Z) : Q := inject_Z (Z.log2 z).

(** ** The forward methods of the quantizer classes *)

(** [F.one_hot(embed_ind, num_classes)] on the flat indices: every index
    must be below [num_classes], and the number of classes of an empty
    tensor must be positive.  Only its failure matters: the one-hot tensor
    feeds the training update, which is commented out. *)
Definition one_hot_check (embed_ind : list nat) (num_classes : nat) : result unit :=
  match embed_ind with
  | [] => if (num_classes =? 0)%nat then Raise RuntimeError else Ok ()
  | _ => if forallb (fun i => (i <? num_classes)%nat) embed_ind then Ok ()
         else Raise RuntimeError
  end.

(** [F.mse_loss(a, b)] on tensors of one shape [b, n, d]: the mean of the
    squared differences. *)
Definition numel3 {A} (x : list (list (list A))) : nat :=
  sum_list ((fun m => sum_list (length <$> m)) <$> x).

Definition mse_loss (a b : list (list (list Q))) : F :=
  fdiv (sumsq3 (zip3 Qminus a b)) (inject_Z (Z.of_nat (numel3 a))).

Section Forward.

(** [kmeans(samples, num_clusters, num_iters)] draws its first means at
    random; it returns (means, bins), of the shapes of the buffers [embed]
    and [cluster_size]. *)
Variable kmeans : list (list Q) -> nat -> nat -> result (list (list Q) * list Q).

(** [self.training] of the modules. *)
Variable training : bool.

Definition init_embed_ (self : EuclideanCodebook) (data : list (list Q))
  : result EuclideanCodebook :=
  if inited self then Ok self
  else
    ec ← kmeans data (codebook_size self) (kmeans_iters self);
    Ok {| decay := decay self;
          codebook_size := codebook_size self;
          kmeans_iters := kmeans_iters self;
          epsilon := epsilon self;
          threshold_ema_dead_code := threshold_ema_dead_code self;
          inited := true;
          cluster_size := ec.2;
          embed := ec.1;
          embed_avg := ec.1 |}.

(** [forward] returns (quantize, embed_ind); the codebook after the call
    comes first. *)
Definition EuclideanCodebook_forward (self : EuclideanCodebook)
    (x : list (list (list Q)))
  : result (EuclideanCodebook * (list (list (list Q)) * list (list nat))) :=
  let shape := x in
  let x := concat x in
  self ← init_embed_ self x;
  embed_ind ← quantize self x;
  _ ← one_hot_check embed_ind (codebook_size self);
  let embed_ind := postprocess_emb embed_ind shape in
  quantize ← dequantize self embed_ind;
  Ok (self, (quantize, embed_ind)).

(** [forward] returns (quantize, embed_ind, loss); [loss] is a tensor
    with one entry. *)
Definition VectorQuantization_forward (self : VectorQuantization)
    (x : list (list (list Q)))
  : result (VectorQuantization * (list (list (list Q)) * list (list nat) * F)) :=
  let x := rearrange_swap x in
  cq ← EuclideanCodebook_forward (_codebook self) x;
  let self := {| _codebook := cq.1; commitment_weight := commitment_weight self |} in
  let quantize := cq.2.1 in
  let embed_ind := cq.2.2 in
  let quantize :=
    if training then zip3 Qplus x (zip3 Qminus quantize x) else quantize in
  let loss : F := Some 0 in
  let loss :=
    if training && Qltb 0 (commitment_weight self)
    then fadd loss (fmul (mse_loss quantize x) (Some (commitment_weight self)))
    else loss in
  let quantize := rearrange_swap quantize in
  Ok (self, (quantize, embed_ind, loss)).

(** The loop of [ResidualVectorQuantization.forward] over [self.layers[:n_q]]:
    it returns the layers after the calls, [quantized_out], [all_indices]
    and [all_losses]. *)
Fixpoint forward_loop (ls : list VectorQuantization) (residual : list (list (list Q)))
    (quantized_out : tensor)
  : result (list VectorQuantization
            * (tensor * list (list (list nat)) * list F)) :=
  match ls with
  | [] => Ok ([], (quantized_out, [], []))
  | layer :: ls' =>
      lq ← VectorQuantization_forward layer residual;
      let '(quantized, indices, loss) := lq.2 in
      let residual := zip3 Qminus residual quantized in
      let quantized_out := tensor_add quantized_out quantized in
      rest ← forward_loop ls' residual quantized_out;
      let '(out, all_indices, all_losses) := rest.2 in
      Ok (lq.1 :: rest.1, (out, indices :: all_indices, loss :: all_losses))
  end.

(** [forward] returns (quantized_out, out_indices, out_losses). *)
Definition ResidualVectorQuantization_forward (self : ResidualVectorQuantization)
    (x : list (list (list Q))) (n_q : option Z)
  : result (ResidualVectorQuantization
            * (tensor * list (list (list nat)) * list F)) :=
  let quantized_out := Scalar 0 in
  let residual := x in
  let n_q := n_q_or_len n_q (length (layers self)) in
  r ← forward_loop (slice_to (layers self) n_q) residual quantized_out;
  let '(out, all_indices, all_losses) := r.2 in
  out_losses ← torch_stack all_losses;
  out_indices ← torch_stack all_indices;
  Ok ({| layers := r.1 ++ drop (length r.1) (layers self) |},
      (out, out_indices, out_losses)).

End Forward.

(** [QuantizedResult]; [metrics] keeps its default, the empty dict. *)
Record QuantizedResult : Type := {
  quantized : tensor;
  codes : list (list (list nat));
  bandwidth : F;
  penalty : F
}.

(** [torch.mean] of the stacked losses. *)
Definition mean_losses (l : list F) : F :=
  fdiv_by (fsum l) (inject_Z (Z.of_nat (length l))).

Section QuantizerForward.

Variable kmeans : list (list Q) -> nat -> nat -> result (list (list Q) * list Q).
Variable training : bool.
Variable math_log2 : Z -> Q.

Definition ResidualVectorQuantizer_forward (self : ResidualVectorQuantizer)
    (x : list (list (list Q))) (frame_rate : Z) (bandwidth : option Q)
  : result (ResidualVectorQuantizer * QuantizedResult) :=
  bw_per_q ← get_bandwidth_per_quantizer math_log2 self frame_rate;
  n_q' ← get_num_quantizers_for_bandwidth math_log2 self frame_rate bandwidth;
  r ← ResidualVectorQuantization_forward kmeans training (vq self) x (Some n_q');
  let '(quantized, codes, commit_loss) := r.2 in
  (* bw = torch.tensor(n_q * bw_per_q).to(x): the float product as a float32
     tensor, which [.to(x)] keeps for an input of dtype float32 or float64 *)
  n ← float_of_int n_q';
  let bw := torch_tensor (float_mul n bw_per_q) in
  Ok ({| dimension := dimension self; n_q := n_q self; bins := bins self; vq := r.1 |},
      {| quantized := quantized; codes := codes; bandwidth := bw;
         penalty := mean_losses commit_loss |}).

(** [ResidualVectorQuantizer.decode] *)
Definition ResidualVectorQuantizer_decode (self : ResidualVectorQuantizer)
    (codes : list (list (list nat))) : result tensor :=
  ResidualVectorQuantization_decode (vq self) codes.

End QuantizerForward.

(** ** models/encodec/modeling_encodec.py : padding helpers *)

(** Exceptions beyond the ones above are local to a part of the code: a
    computation that may raise an exception of type [E]. *)
Inductive outcome (E A : Type) : Type :=
| Return (a : A)
| Throw (e : E).
Arguments Return {E A} a.
Arguments Throw {E A} e.

#[global] Instance outcome_ret {E} : MRet (outcome E) := fun _ a => Return a.
#[global] Instance outcome_bind {E} : MBind (outcome E) := fun _ _ f m =>
  match m with
  | Return a => f a
  | Throw e => Throw e
  end.

(** [get_extra_padding_for_conv1d]; [len] is [x.shape[-1]].  [n_frames]
    is a float: the quotient of the two ints, rounded, plus 1, rounded. *)
Definition get_extra_padding_for_conv1d (len kernel_size stride padding_total : Z)
  : result Z :=
  q ← int_truediv (len - kernel_size + padding_total) stride;
  let n_frames := float_add q (Finite 1) in
  c ← math_ceil n_frames;
  let ideal_length := ((c - 1) * stride + (kernel_size - padding_total))%Z in
  Ok (ideal_length - len)%Z.

Inductive pad_exn : Type :=
| PadAssertionError
| PadRuntimeError
| PadNotImplementedError.

(** [F.pad(x, (left, right), mode)] with the default fill value 0, on one
    row of the last dimension (every row of a tensor is padded alike) and
    for paddings that are not negative.  Reflection needs both paddings
    below the length of the row, wrapping around needs them at most the
    length, repeating the edge needs a row that is not empty; a mode other
    than these four is refused. *)
Definition F_pad (x : list Q) (left right : nat) (mode : string)
  : outcome pad_exn (list Q) :=
  if String.eqb mode "constant" then
    Return (replicate left 0 ++ x ++ replicate right 0)
  else if String.eqb mode "reflect" then
    if (left <? length x)%nat && (right <? length x)%nat then
      Return (reverse (take left (drop 1 x)) ++ x ++ take right (drop 1 (reverse x)))
    else Throw PadRuntimeError
  else if String.eqb mode "replicate" then
    match x, last x with
    | x0 :: _, Some xl => Return (replicate left x0 ++ x ++ replicate right xl)
    | _, _ => Throw PadRuntimeError
    end
  else if String.eqb mode "circular" then
    if (left <=? length x)%nat && (right <=? length x)%nat then
      Return (drop (length x - left) x ++ x ++ take right x)
    else Throw PadRuntimeError
  else Throw PadNotImplementedError.

(** [pad1d(x, paddings, mode)] on one row. *)
Definition pad1d (x : list Q) (paddings : Z * Z) (mode : string)
  : outcome pad_exn (list Q) :=
  let len := length x in
  let '(padding_left, padding_right) := paddings in
  if negb ((0 <=? padding_left)%Z && (0 <=? padding_right)%Z) then Throw PadAssertionError
  else
    let left := Z.to_nat padding_left in
    let right := Z.to_nat padding_right in
    if String.eqb mode "reflect" then
      let max_pad := (left `max` right)%nat in
      let extra_pad := if (len <=? max_pad)%nat then (max_pad - len + 1)%nat else 0%nat in
      x ← (if (len <=? max_pad)%nat then F_pad x 0 extra_pad "constant" else Return x);
      padded ← F_pad x left right mode;
      let end_ := (length padded - extra_pad)%nat in
      Return (take end_ padded)
    else F_pad x left right mode.

(** [unpad1d(x, paddings)] on one row. *)
Definition unpad1d (x : list Q) (paddings : Z * Z) : outcome pad_exn (list Q) :=
  let '(padding_left, padding_right) := paddings in
  if negb ((0 <=? padding_left)%Z && (0 <=? padding_right)%Z) then Throw PadAssertionError
  else if negb (padding_left + padding_right <=? Z.of_nat (length x))%Z
       then Throw PadAssertionError
  else
    let end_ := (Z.of_nat (length x) - padding_right)%Z in
    Return (take (Z.to_nat end_ - Z.to_nat padding_left) (drop (Z.to_nat padding_left) x)).

(** The part of [SConv1d.forward] before the convolution: the paddings it
    passes to [pad1d] for an input whose last dimension is [T].  [//] is
    the floor division. *)
Definition SConv1d_paddings (causal : bool) (kernel_size stride dilation T : Z)
  : result (Z * Z) :=
  (* effective kernel size with dilations *)
  let kernel_size := ((kernel_size - 1) * dilation + 1)%Z in
  let padding_total := (kernel_size - stride)%Z in
  extra_padding ← get_extra_padding_for_conv1d T kernel_size stride padding_total;
  if causal then
    (* Left padding for causal *)
    Ok (padding_total, extra_padding)
  else
    (* Asymmetric padding required for odd strides *)
    let padding_right := (padding_total `div` 2)%Z in
    let padding_left := (padding_total - padding_right)%Z in
    Ok (padding_left, (padding_right + extra_padding)%Z).

(** ** models/detr/modeling_detr.py : dice_loss *)

Section MaskLosses.

(** [Tensor.sigmoid] on one entry; its values lie strictly between 0 and 1. *)
Variable sigmoid : Q -> Q.

(** [dice_loss] on inputs and targets of one shape [N, L] (one flattened
    mask per matched box, as [loss_masks] passes them). *)
Definition dice_loss (inputs targets : list (list Q)) (num_boxes : Q) : F :=
  let inputs := fmap (M:=list) (fmap (M:=list) sigmoid) inputs in
  let numerator :=
    zip_with (fun i t => 2 * Qsum (zip_with Qmult i t)) inputs targets in
  let denominator := zip_with (fun i t => Qsum i + Qsum t) inputs targets in
  let loss :=
    zip_with (fun n d => fsub (Some 1) (fdiv (n + 1) (d + 1))) numerator denominator in
  fdiv_by (fsum loss) num_boxes.

End MaskLosses.

(** ** models/encodec/modeling_encodec.py : _linear_overlap_add *)

(** [torch.linspace(0, 1, frame_length + 2)[1:-1]] *)
Definition linspace_inner (frame_length : nat) : list Q :=
  (fun i => inject_Z (Z.of_nat (S i)) / inject_Z (Z.of_nat (frame_length + 1)))
    <$> seq 0 frame_length.

(** [a * b] for one-dimensional tensors, with broadcasting of a tensor of
    one element. *)
Definition mul1 (a b : list Q) : result (list Q) :=
  if (length a =? length b)%nat then Ok (zip_with Qmult a b)
  else match a, b with
       | [a0], _ => Ok (Qmult a0 <$> b)
       | _, [b0] => Ok ((fun x => x * b0) <$> a)
       | _, _ => Raise RuntimeError
       end.

(** [t[start:stop] += v], in place, for a one-dimensional tensor [t] and
    [0 <= start <= stop]: the slice is cut at the end of [t], and [v] must
    have its length or a single element. *)
Definition iadd_slice (t : list Q) (start stop : nat) (v : list Q) : result (list Q) :=
  let a := (start `min` length t)%nat in
  let b := (stop `min` length t)%nat in
  let s := take (b - a) (drop a t) in
  if (length v =? length s)%nat then Ok (take a t ++ zip_with Qplus s v ++ drop b t)
  else match v with
       | [v0] => Ok (take a t ++ ((fun x => x + v0) <$> s) ++ drop b t)
       | _ => Raise RuntimeError
       end.

(** The loop of [_linear_overlap_add] over the frames, here tensors of one
    dimension: it returns (out, sum_weight). *)
Fixpoint overlap_add_loop (weight : list Q) (stride : nat) (frames : list (list Q))
    (offset : nat) (out sum_weight : list Q) : result (list Q * list Q) :=
  match frames with
  | [] => Ok (out, sum_weight)
  | frame :: frames' =>
      let frame_length := length frame in
      wf ← mul1 (take frame_length weight) frame;
      out ← iadd_slice out offset (offset + frame_length) wf;
      sum_weight ← iadd_slice sum_weight offset (offset + frame_length)
                      (take frame_length weight);
      overlap_add_loop weight stride frames' (offset + stride) out sum_weight
  end.

(** [_linear_overlap_add(frames, stride)] for frames of one dimension and
    a stride that is not negative. *)
Definition _linear_overlap_add (frames : list (list Q)) (stride : nat)
  : result (list Q) :=
  match last frames with
  | None => Raise AssertionError                    (* assert len(frames) *)
  | Some last_frame =>
      let total_size := (stride * (length frames - 1) + length last_frame)%nat in
      let frame_length := length (hd [] frames) in
      let t := linspace_inner frame_length in
      let weight := (fun t => (1 # 2) - Qabs (t - (1 # 2))) <$> t in
      let sum_weight := replicate total_size 0 in
      let out := replicate total_size 0 in
      os ← overlap_add_loop weight stride frames 0 out sum_weight;
      match os.2 with
      | [] => Raise RuntimeError                    (* min() of an empty tensor *)
      | _ =>
          (* assert sum_weight.min() > 0 *)
          if forallb (Qltb 0) os.2 then Ok (zip_with Qdiv os.1 os.2)
          else Raise AssertionError
      end
  end.

(** ** EnCodecModel.encode: cutting the input into frames *)

Record EnCodecModel : Type := {
  sample_rate : Z;
  segment : option Q;
  overlap : Q
}.

(** The floats [segment] and [overlap] are given by the rationals they
    are written as.  [int(segment * sample_rate)] *)
Definition segment_length (self : EnCodecModel) : result (option Z) :=
  match segment self with
  | None => Ok None
  | Some s =>
      sr ← float_of_int (sample_rate self);
      n ← int_of_float (float_mul (round64 s) sr);
      Ok (Some n)
  end.

(** [max(1, int((1 - overlap) * segment_length))] *)
Definition segment_stride (self : EnCodecModel) : result (option Z) :=
  segment_length ← segment_length self;
  match segment_length with
  | None => Ok None
  | Some segment_length =>
      let keep := float_sub (Finite 1) (round64 (overlap self)) in
      sl ← float_of_int segment_length;
      n ← int_of_float (float_mul keep sl);
      Ok (Some (Z.max 1 n))
  end.

(** [range(0, stop, step)] for [stop >= 0]. *)
Definition range0 (stop : nat) (step : Z) : result (list nat) :=
  if (step =? 0)%Z then Raise ValueError
  else if (step <? 0)%Z then Ok []
  else Ok ((fun k => (k * Z.to_nat step)%nat)
             <$> seq 0 ((stop + Z.to_nat step - 1) / Z.to_nat step)).

(** [l[start:stop]] for Python integers. *)
Definition py_index (len : nat) (i : Z) : nat :=
  if (i <? 0)%Z then Z.to_nat (Z.of_nat len + i) else (Z.to_nat i `min` len)%nat.

Definition py_slice {A} (l : list A) (start stop : Z) : list A :=
  let a := py_index (length l) start in
  let b := py_index (length l) stop in
  take (b - a) (drop a l).

Section Frames.

(** [EncodedFrame] and [_encode_frame], which runs the encoder network and
    the quantizer on one frame. *)
Variable EncodedFrame : Type.
Variable _encode_frame : list (list (list Q)) -> result EncodedFrame.

(** [x] has shape [B, channels, length], for a batch that is not empty. *)
Definition EnCodecModel_encode (self : EnCodecModel) (x : list (list (list Q)))
  : result (list EncodedFrame) :=
  let channels := length (hd [] x) in
  let len := length (hd [] (hd [] x)) in
  if negb ((0 <? channels)%nat && (channels <=? 2)%nat) then Raise AssertionError
  else
    segment_length ← segment_length self;
    ss ← match segment_length with
         | None => Ok (Z.of_nat len, Z.of_nat len)
         | Some segment_length =>
             stride ← segment_stride self;
             match stride with
             | Some stride => Ok (segment_length, stride)
             | None => Raise AssertionError        (* assert stride is not None *)
             end
         end;
    let '(segment_length, stride) := ss in
    offsets ← range0 len stride;
    mapR (fun offset =>
            let frame :=
              fmap (M:=list)
                (fmap (M:=list)
                   (fun row => py_slice row (Z.of_nat offset)
                                 (Z.of_nat offset + segment_length)%Z)) x in
            _encode_frame frame)
         offsets.

End Frames.

(** ** pipelines/token_classification.py : aggregation of the entities *)

(** The exceptions of the aggregation code: those above, and TypeError. *)
Inductive pipe_exn : Type :=
| TypeError
| Py (e : exn).

(** A token-level entity, a dict.  The keys "word", "score", "entity",
    "start" and "end" are always there ("start" and "end" may hold None);
    "index" is missing from the entities [aggregate_word] builds,
    "is_subword" from the entities of the NONE strategy, and "scores" is
    only there for the AVERAGE strategy. *)
Record Entity : Type := mkEntity {
  word : string;
  score : Q;
  entity : string;
  index : option nat;
  start : option nat;
  end_ : option nat;
  is_subword : option bool;
  scores : option (list Q)
}.

(** The dict that [group_sub_entities] returns. *)
Record EntityGroup : Type := mkEntityGroup {
  entity_group : string;
  group_score : Q;
  group_word : string;
  group_start : option nat;
  group_end : option nat
}.

(** The character "-" (code 45). *)
Definition dash : Ascii.ascii := Ascii.ascii_of_nat 45.

(** [s.split(sep)] for a separator of one character. *)
Fixpoint split_on (sep : Ascii.ascii) (s : string) : list string :=
  match s with
  | EmptyString => [EmptyString]
  | String a s' =>
      if Ascii.eqb a sep then EmptyString :: split_on sep s'
      else match split_on sep s' with
           | h :: t => String a h :: t
           | [] => [String a EmptyString]
           end
  end.

(** [a, b = l]: unpacking into two names. *)
Definition unpack2 {A} (l : list A) : outcome pipe_exn (A * A) :=
  match l with
  | [a; b] => Return (a, b)
  | _ => Throw (Py ValueError)
  end.

(** [d[key]] for a key that may be missing. *)
Definition key {A} (o : option A) : outcome pipe_exn A :=
  match o with
  | Some a => Return a
  | None => Throw (Py KeyError)
  end.

(** [np.nanmean] and [np.mean] of finite numbers, of which there is at
    least one. *)
Definition mean (l : list Q) : Q := Qsum l / inject_Z (Z.of_nat (length l)).

(** The first element of largest score: [max(entities, key=...)]. *)
Fixpoint max_by_score (best : Entity) (l : list Entity) : Entity :=
  match l with
  | [] => best
  | e :: l' => max_by_score (if Qltb (score best) (score e) then e else best) l'
  end.

(** [np.stack(rows)] followed by the mean along axis 0: the rows must be
    of one length, and there must be one at least. *)
Definition column_means (rows : list (list Q)) : outcome pipe_exn (list Q) :=
  match rows with
  | [] => Throw (Py ValueError)
  | r :: _ =>
      if forallb (fun r' => (length r' =? length r)%nat) rows
      then Return (mean <$> transpose rows)
      else Throw (Py ValueError)
  end.

Section Aggregation.

(** [self.tokenizer.convert_tokens_to_string] and
    [self.model.config.id2label]. *)
Variable convert_tokens_to_string : list string -> string.
Variable id2label : nat -> option string.

(** [entities] is None when [aggregate_words] was given no entity. *)
Definition aggregate_word (entities : option (list Entity))
    (aggregation_strategy : AggregationStrategy) : outcome pipe_exn Entity :=
  match entities with
  | None => Throw TypeError                      (* iteration over None *)
  | Some entities =>
      let word := convert_tokens_to_string (word <$> entities) in
      es ← match aggregation_strategy with
           | FIRST =>
               match entities with
               | e0 :: _ => Return (entity e0, score e0)
               | [] => Throw (Py IndexError)
               end
           | MAX =>
               match entities with
               | e0 :: rest =>
                   let max_entity := max_by_score e0 rest in
                   Return (entity max_entity, score max_entity)
               | [] => Throw (Py ValueError)
               end
           | AVERAGE =>
               rows ← (fix rows (l : list Entity) : outcome pipe_exn (list (list Q)) :=
                         match l with
                         | [] => Return []
                         | e :: l' => r ← key (scores e); rs ← rows l'; Return (r :: rs)
                         end) entities;
               average_scores ← column_means rows;
               match argmax average_scores with
               | Raise _ => Throw (Py ValueError)  (* argmax of an empty sequence *)
               | Ok entity_idx =>
                   label ← key (id2label entity_idx);
                   Return (label, default 0 (average_scores !! entity_idx))
               end
           | _ => Throw (Py ValueError)          (* Invalid aggregation_strategy *)
           end;
      match entities, last entities with
      | e0 :: _, Some el =>
          Return (mkEntity word es.2 es.1 None (start e0) (end_ el) None None)
      | _, _ => Throw (Py IndexError)
      end
  end.

(** The loop of [aggregate_words]; it returns (word_entities, word_group). *)
Fixpoint aggregate_words_loop (entities : list Entity)
    (aggregation_strategy : AggregationStrategy)
    (word_entities : list Entity) (word_group : option (list Entity))
  : outcome pipe_exn (list Entity * option (list Entity)) :=
  match entities with
  | [] => Return (word_entities, word_group)
  | ent :: entities' =>
      match word_group with
      | None =>
          aggregate_words_loop entities' aggregation_strategy word_entities (Some [ent])
      | Some g =>
          sub ← key (is_subword ent);
          if sub : bool then
            aggregate_words_loop entities' aggregation_strategy word_entities
              (Some (g ++ [ent]))
          else
            w ← aggregate_word word_group aggregation_strategy;
            aggregate_words_loop entities' aggregation_strategy (word_entities ++ [w])
              (Some [ent])
      end
  end.

Definition aggregate_words (entities : list Entity)
    (aggregation_strategy : AggregationStrategy) : outcome pipe_exn (list Entity) :=
  match aggregation_strategy with
  | NONE | SIMPLE => Throw (Py AssertionError)
  | _ =>
      st ← aggregate_words_loop entities aggregation_strategy [] None;
      (* Last item *)
      w ← aggregate_word st.2 aggregation_strategy;
      Return (st.1 ++ [w])
  end.

Definition group_sub_entities (entities : list Entity) : outcome pipe_exn EntityGroup :=
  match entities, last entities with
  | e0 :: _, Some el =>
      (* Get the first entity in the entity group *)
      let tag := default EmptyString (last (split_on dash (entity e0))) in
      let scores := mean (score <$> entities) in
      let tokens := word <$> entities in
      Return (mkEntityGroup tag scores (convert_tokens_to_string tokens)
                (start e0) (end_ el))
  | _, _ => Throw (Py IndexError)
  end.

(** The loop of [group_entities]; it returns (entity_groups,
    entity_group_disagg). *)
Fixpoint group_entities_loop (entities : list Entity)
    (entity_groups : list EntityGroup) (entity_group_disagg : list Entity)
  : outcome pipe_exn (list EntityGroup * list Entity) :=
  match entities with
  | [] => Return (entity_groups, entity_group_disagg)
  | ent :: entities' =>
      match last entity_group_disagg with
      | None => group_entities_loop entities' entity_groups [ent]
      | Some previous =>
          bt ← unpack2 (split_on dash (entity ent));
          lbt ← unpack2 (split_on dash (entity previous));
          (* Index might not be available if we aggregate words first. *)
          index_agree ← match index ent with
                        | Some i => j ← key (index previous); Return (i =? j + 1)%nat
                        | None => Return true
                        end;
          if (String.eqb bt.2 lbt.2 && negb (String.eqb bt.1 "B")) && index_agree then
            group_entities_loop entities' entity_groups (entity_group_disagg ++ [ent])
          else
            g ← group_sub_entities entity_group_disagg;
            group_entities_loop entities' (entity_groups ++ [g]) [ent]
      end
  end.

Definition group_entities (entities : list Entity) : outcome pipe_exn (list EntityGroup) :=
  st ← group_entities_loop entities [] [];
  match st.2 with
  | [] => Return st.1
  | _ =>
      (* it's the last entity, add it to the entity groups *)
      g ← group_sub_entities st.2;
      Return (st.1 ++ [g])
  end.

(** [aggregate] returns the token entities themselves for the NONE
    strategy and entity groups otherwise. *)
Definition aggregate (entities : list Entity) (aggregation_strategy : AggregationStrategy)
  : outcome pipe_exn (list Entity + list EntityGroup) :=
  match aggregation_strategy with
  | NONE => Return (inl entities)
  | _ =>
      entities ← match aggregation_strategy with
                 | SIMPLE => Return entities
                 | _ => aggregate_words entities aggregation_strategy
                 end;
      groups ← group_entities entities;
      Return (inr groups)
  end.

End Aggregation.

(** ** models/detr/modeling_detr.py : nested tensors *)

(** The inner loop of [_max_by_axis]: [maxes[index] = max(maxes[index], item)]
    for every item of the sublist; an index beyond [maxes] is out of range. *)
Fixpoint max_into (maxes sublist : list nat) : result (list nat) :=
  match sublist, maxes with
  | [], _ => Ok maxes
  | item :: sublist', m :: maxes' =>
      r ← max_into maxes' sublist';
      Ok (m `max` item :: r)%nat
  | _ :: _, [] => Raise IndexError
  end.

Definition _max_by_axis (the_list : list (list nat)) : result (list nat) :=
  match the_list with
  | [] => Raise IndexError                                  (* the_list[0] *)
  | maxes :: rest =>
      foldl (fun acc sublist => maxes ← acc; max_into maxes sublist) (Ok maxes) rest
  end.

(** [list(img.shape)] of a tensor of three dimensions given as nested
    lists; the lists fix the shape when no dimension but the last is
    empty. *)
Definition shape_of {A} (img : list (list (list A))) : list nat :=
  [length img; length (hd [] img); length (hd [] (hd [] img))].

(** [pad_img[: c, : h, : w].copy_(img)] on a tensor of zeros of shape
    [C, H, W] that the image fits in, and [m[: h, : w] = False] on a mask of
    shape [H, W] that is True everywhere. *)
Definition pad_row (W : nat) (row : list Q) : list Q :=
  row ++ replicate (W - length row) 0.

Definition pad_channel (H W : nat) (channel : list (list Q)) : list (list Q) :=
  (pad_row W <$> channel) ++ replicate (H - length channel) (replicate W 0).

Definition pad_image (C H W : nat) (img : list (list (list Q))) : list (list (list Q)) :=
  (pad_channel H W <$> img) ++ replicate (C - length img) (replicate H (replicate W 0)).

Definition padding_mask (H W h w : nat) : list (list bool) :=
  (fun j => (fun k => negb ((j <? h)%nat && (k <? w)%nat)) <$> seq 0 W) <$> seq 0 H.

(** [nested_tensor_from_tensor_list] on a list of tensors of three
    dimensions: it returns (tensor, mask). *)
Definition nested_tensor_from_tensor_list (tensor_list : list (list (list (list Q))))
  : result (list (list (list (list Q))) * list (list (list bool))) :=
  max_size ← _max_by_axis (shape_of <$> tensor_list);
  match max_size with
  | [c; h; w] =>
      Ok (pad_image c h w <$> tensor_list,
          (fun img => padding_mask h w (length (hd [] img)) (length (hd [] (hd [] img))))
            <$> tensor_list)
  | _ => Raise ValueError                                   (* b, c, h, w = batch_shape *)
  end.

(** ** SetCriterion.loss_labels: the classification targets *)

(** [t[(batch_idx, src_idx)] = values] on a [batch, queries] tensor: the
    values are written one after the other; a single value is broadcast,
    any other difference in number is refused. *)
Fixpoint index_put_loop {A} (t : list (list A)) (idx : list (nat * nat))
    (values : list A) : result (list (list A)) :=
  match idx, values with
  | (b, q) :: idx', v :: values' =>
      match t !! b with
      | Some row =>
          if (q <? length row)%nat
          then index_put_loop (<[b := <[q := v]> row]> t) idx' values'
          else Raise IndexError
      | None => Raise IndexError
      end
  | _, _ => Ok t
  end.

Definition index_put {A} (t : list (list A)) (idx : list (nat * nat))
    (values : list A) : result (list (list A)) :=
  if (length values =? length idx)%nat then index_put_loop t idx values
  else match values with
       | [v] => index_put_loop t idx (replicate (length idx) v)
       | _ => Raise RuntimeError
       end.

(** The tensor [target_classes] that [loss_labels] builds: the class of
    the matched target on the matched queries and [num_classes], the
    "no object" class, everywhere else. *)
Definition target_classes (num_classes : nat) (src_logits : list (list (list Q)))
    (targets : list Target) (indices : Indices) : result (list (list nat)) :=
  idx ← _get_src_permutation_idx indices;
  tco ← mapR (fun ti : Target * (list nat * list nat) =>
                index_rows (class_labels ti.1) ti.2.2) (zip targets indices);
  target_classes_o ← torch_cat tco;
  let target_classes :=
    (fun m : list (list Q) => replicate (length m) num_classes) <$> src_logits in
  index_put target_classes (zip idx.1 idx.2) target_classes_o.

Section Labels.

(** [F.cross_entropy(src_logits.transpose(1, 2), target_classes,
    self.empty_weight)] *)
Variable cross_entropy : list (list (list Q)) -> list (list nat) -> list Q -> result F.

(** The cross entropy of [loss_labels]; [empty_weight] is 1 for every class
    and [eos_coef] for the "no object" class. *)
Definition cross_entropy_on_matching (src_logits : list (list (list Q)))
    (targets : list Target) (indices : Indices) (num_classes : nat) (eos_coef : Q)
  : result F :=
  target_classes ← target_classes num_classes src_logits targets indices;
  let empty_weight := replicate num_classes 1 ++ [eos_coef] in
  cross_entropy src_logits target_classes empty_weight.

End Labels.

(** ** Shapes and auxiliary notions used in the statements *)

(** Strictly ordered corners: the box has positive width and height. *)
Definition positive_box (b : Box) : Prop := b0 b < b2 b /\ b1 b < b3 b.

(** A matrix with [d] rows of [n] entries each. *)
Definition rect {A} (d n : nat) (m : list (list A)) : Prop :=
  length m = d /\ Forall (fun r => length r = n) m.

(** A codebook of vectors of dimension [d] with at least one entry. *)
Definition codebook_ok (d : nat) (cb : EuclideanCodebook) : Prop :=
  embed cb <> [] /\ Forall (fun e => length e = d) (embed cb).

(** The codebook holds the zero vector. *)
Definition has_zero_vector (cb : EuclideanCodebook) : Prop :=
  Exists (Forall (fun a => a == 0)) (embed cb).

(** The index [quantize] picks for one frame, and the codebook vector
    [dequantize] gives back for it. *)
Definition nearest (cb : EuclideanCodebook) (x : list Q) : nat :=
  match quantize1 cb x with
  | Ok i => i
  | Raise _ => O
  end.

Definition qframe (cb : EuclideanCodebook) (x : list Q) : list Q :=
  default [] (embed cb !! nearest cb x).

(** What one layer computes on a residual of shape [b, d, n]: its indices,
    its dequantized output and the next residual. *)
Definition layer_indices (l : VectorQuantization) (r : list (list (list Q)))
  : list (list nat) :=
  fmap (M:=list) (fmap (M:=list) (nearest (_codebook l))) (rearrange_swap r).

Definition layer_quantized (l : VectorQuantization) (r : list (list (list Q)))
  : list (list (list Q)) :=
  rearrange_swap (fmap (M:=list) (fmap (M:=list) (qframe (_codebook l))) (rearrange_swap r)).

Definition stage (l : VectorQuantization) (r : list (list (list Q)))
  : list (list (list Q)) :=
  zip3 Qminus r (layer_quantized l r).

(** The residual left after the given layers. *)
Definition residual_after (ls : list VectorQuantization) (r : list (list (list Q)))
  : list (list (list Q)) :=
  foldl (fun r l => stage l r) r ls.

(** A tensor of shape [b, d, n] for some [b]. *)
Definition shape3 {A} (d n : nat) (x : list (list (list A))) : Prop :=
  Forall (rect d n) x.

(** A layer whose codebook fits inputs with [d] channels. *)
Definition layer_ok (d : nat) (l : VectorQuantization) : Prop :=
  codebook_ok d (_codebook l).

(** The indices the successive layers compute, and the running sum that
    [decode] builds from them. *)
Fixpoint stage_indices (ls : list VectorQuantization) (r : list (list (list Q)))
  : list (list (list nat)) :=
  match ls with
  | [] => []
  | l :: ls' => layer_indices l r :: stage_indices ls' (stage l r)
  end.

Fixpoint decoded (ls : list VectorQuantization) (r : list (list (list Q)))
    (out : tensor) : tensor :=
  match ls with
  | [] => out
  | l :: ls' => decoded ls' (stage l r) (tensor_add out (layer_quantized l r))
  end.

(** Entrywise relation between tensors of one shape. *)
Definition rel3 (R : Q -> Q -> Prop) : relation (list (list (list Q))) :=
  Forall2 (Forall2 (Forall2 R)).

(** The keys under which the four losses store their values. *)
Definition loss_keys : list string :=
  ["loss_ce"; "cardinality_error"; "loss_bbox"; "loss_giou"; "loss_mask"; "loss_dice"].

Definition loss_key (k : string) : Prop := k ∈ loss_keys.

(** The dicts the four losses return: which loss stores which keys. *)
Inductive loss_dict_of : string -> dict F -> Prop :=
| dict_labels v : loss_dict_of "labels" [("loss_ce", v)]
| dict_cardinality v : loss_dict_of "cardinality" [("cardinality_error", v)]
| dict_boxes a b : loss_dict_of "boxes" [("loss_bbox", a); ("loss_giou", b)]
| dict_masks a b : loss_dict_of "masks" [("loss_mask", a); ("loss_dice", b)].

(** A suffixed key that no intermediate layer from [i0] on writes. *)
Definition not_written_from (i0 : nat) (K : string) : Prop :=
  forall k j, loss_key k -> k <> "loss_mask" -> k <> "loss_dice" ->
              (i0 <= j)%nat -> suffixed k j <> K.

(** The weights of the final layer's terms, and of the terms of
    intermediate layer [i]. *)
Definition base_weights (config : DetrConfig) : dict Q :=
  [("loss_ce", 1); ("loss_bbox", bbox_loss_coefficient config);
   ("loss_giou", giou_loss_coefficient config)].

Definition layer_weights (config : DetrConfig) (i : nat) : dict Q :=
  [(suffixed "loss_ce" i, 1); (suffixed "loss_bbox" i, bbox_loss_coefficient config);
   (suffixed "loss_giou" i, giou_loss_coefficient config)].

(** The total loss as the specification words it: every term of the loss
    dict multiplied by its weight, [weight_dict[k]] raising for a key
    without weight. *)
Fixpoint spec_weighted_total (loss_dict : dict F) (weight_dict : dict Q) : result F :=
  match loss_dict with
  | [] => Ok (Some 0)
  | (k, v) :: rest =>
      w ← getitem (dict_get k weight_dict);
      total ← spec_weighted_total rest weight_dict;
      Ok (fadd (fmul v (Some w)) total)
  end.

(** A box in center format with positive width and height. *)
Definition positive_extent (b : Box) : Prop := 0 < b2 b /\ 0 < b3 b.

(** The inputs of the matcher as its docstring describes them: logits of
    shape [bs, nq, nc] and boxes of shape [bs, nq, 4] for a non-empty batch
    and at least one query, and one target per image with as many class
    labels (below [nc]) as boxes. *)
Definition matcher_inputs_ok (bs nq nc : nat) (outputs : Outputs)
    (targets : list Target) : Prop :=
  exists lg pb,
    logits outputs = Some lg /\ pred_boxes outputs = Some pb
    /\ (0 < bs)%nat /\ (0 < nq)%nat
    /\ length lg = bs
    /\ Forall (fun m => length m = nq /\ Forall (fun r => length r = nc) m) lg
    /\ length pb = bs /\ Forall (fun m => length m = nq) pb
    /\ length targets = bs
    /\ Forall (fun t => length (class_labels t) = length (boxes t)
                        /\ Forall (fun c => (c < nc)%nat) (class_labels t)) targets.

Definition boxes_have_extent (outputs : Outputs) (targets : list Target) : Prop :=
  (forall pb, pred_boxes outputs = Some pb -> Forall (Forall positive_extent) pb)
  /\ Forall (fun t => Forall positive_extent (boxes t)) targets.

(** A one-to-one assignment between [nq] queries and the boxes of a target. *)
Definition valid_assignment (nq : nat) (t : Target) (ij : list nat * list nat) : Prop :=
  length ij.1 = (nq `min` length (boxes t))%nat
  /\ length ij.2 = (nq `min` length (boxes t))%nat
  /\ NoDup ij.1 /\ NoDup ij.2
  /\ Forall (fun i => (i < nq)%nat) ij.1
  /\ Forall (fun j => (j < length (boxes t))%nat) ij.2.

(** A matrix with [n] rows of [m] entries that all satisfy [P]. *)
Definition mat {A} (n m : nat) (P : A -> Prop) (M : list (list A)) : Prop :=
  length M = n /\ Forall (fun r => length r = m /\ Forall P r) M.

(** A layer as [__init__] leaves it when k-means initialisation is off, or
    after the first training batch: the codebook is initialised and holds
    [codebook_size] vectors. *)
Definition layer_inited (l : VectorQuantization) : Prop :=
  inited (_codebook l) = true
  /\ codebook_size (_codebook l) = length (embed (_codebook l)).

(** The names [get_loss] accepts. *)
Definition loss_map : list string := ["labels"; "cardinality"; "boxes"; "masks"].

(** The outputs dict without its ["auxiliary_outputs"] entry. *)
Definition without_aux (outputs : Outputs) : Outputs :=
  mkOutputs (logits outputs) (pred_boxes outputs) (pred_masks outputs) None.

(** The frames that [EnCodecModel.encode] cuts out of a signal of one
    dimension: windows of [n] samples every [stride] samples. *)
Definition cut_frames (x : list Q) (n stride : nat) : list (list Q) :=
  (fun k => take n (drop (k * stride) x)) <$> seq 0 ((length x + stride - 1) / stride).

(** A label of the form "X-tag": exactly one dash. *)
Definition bi_label (e : Entity) : Prop :=
  exists bi tag, split_on dash (entity e) = [bi; tag].

(** A run of entities that [group_entities] puts into one group: every
    entity after the first has a label "X-tag" with X other than "B" and
    with the tag that names the group (the part after the last dash of the
    first label), and follows its predecessor immediately when it carries
    an index. *)
Definition follows (previous e : Entity) : Prop :=
  match index e with
  | Some i => exists j, index previous = Some j /\ i = (j + 1)%nat
  | None => True
  end.

Definition same_tag_group (g : list Entity) : Prop :=
  match g with
  | [] => False
  | e0 :: rest =>
      Forall (fun e => exists bi tag,
                split_on dash (entity e) = [bi; tag] /\ bi <> "B"
                /\ last (split_on dash (entity e0)) = Some tag) rest
      /\ forall k previous e,
           g !! k = Some previous -> g !! S k = Some e -> follows previous e
  end.

(** Either no entity has the key "index" or all have it. *)
Definition index_uniform (entities : list Entity) : Prop :=
  Forall (fun e => index e = None) entities
  \/ Forall (fun e => is_Some (index e)) entities.

(** A run of tokens that [aggregate_words] takes for one word: every
    token after the first is marked as a subword. *)
Definition word_run (g : list Entity) : Prop :=
  match g with
  | [] => False
  | _ :: rest => Forall (fun e => is_subword e = Some true) rest
  end.

(** A run that starts a new word. *)
Definition starts_word (g : list Entity) : Prop :=
  exists e, head g = Some e /\ is_subword e = Some false.

(** A tensor of shape [c, h, w]. *)
Definition rect3 {A} (c h w : nat) (img : list (list (list A))) : Prop :=
  length img = c /\ Forall (rect h w) img.

(** [padded[: c, : h, : w]] *)
Definition crop {A} (c h w : nat) (padded : list (list (list A))) : list (list (list A)) :=
  fmap (M:=list) (fun channel => fmap (M:=list) (take w) (take h channel)) (take c padded).

(** An image of three dimensions, none of the first two empty, that fits
    into the shape [C, H, W]. *)
Definition fits {A} (C H W : nat) (img : list (list (list A))) : Prop :=
  exists c h w, rect3 c h w img /\ (1 <= c <= C)%nat /\ (1 <= h <= H)%nat /\ (w <= W)%nat.

(** The triangular weights of [_linear_overlap_add] for frames of the
    given length. *)
Definition overlap_weight (frame_length : nat) : list Q :=
  (fun t => (1 # 2) - Qabs (t - (1 # 2))) <$> linspace_inner frame_length.

(** The state of the loop of [_linear_overlap_add] on the frames of the
    signal [x], after the frames before frame [k]: every entry of [out] is
    the sample times the weight collected so far, and the weights collected
    below the end of frame [k - 1] are positive. *)
Definition overlap_inv (x : list Q) (n stride k : nat) (out sum_weight : list Q) : Prop :=
  length out = length x /\ length sum_weight = length x
  /\ forall i xi, x !! i = Some xi ->
       exists o w, out !! i = Some o /\ sum_weight !! i = Some w
                   /\ o == xi * w /\ 0 <= w
                   /\ ((1 <= k)%nat -> (i < (k - 1) * stride + n)%nat -> 0 < w).

(** Entry [q] of row [b] of a [batch, queries] tensor. *)
Definition cell {A} (t : list (list A)) (b q : nat) : option A :=
  t !! b ≫= fun row => row !! q.

(** The (image, query) pairs of a matching from image [i0] on, in the
    order of [_get_src_permutation_idx], and the classes of the matched
    targets in the same order. *)
Definition src_pairs (i0 : nat) (indices : Indices) : list (nat * nat) :=
  concat ((fun isrc : nat * (list nat * list nat) =>
             (fun q => (isrc.1, q)) <$> isrc.2.1) <$> enumerate_from i0 indices).

Definition matched_classes (targets : list Target) (indices : Indices) : list (list nat) :=
  (fun ti : Target * (list nat * list nat) =>
     (fun j => default 0%nat (class_labels ti.1 !! j)) <$> ti.2.2) <$> zip targets indices.

(** The float nearest to [x] when that float is finite, and the condition
    that it is. *)
Definition double (x : Q) : Q := round_to 53 (-1074) x.

Definition no_overflow (x : Q) : Prop := Qabs (double x) < pow2 1024.

(** The finite floats of the Standard Library's executable specification
    of IEEE 754 arithmetic, for comparison. *)
Definition SF2Q (f : spec_float) : option Q :=
  match f with
  | S754_zero _ => Some 0
  | S754_finite s m e =>
      Some (Qred ((if s then -1 else 1) * inject_Z (Zpos m) * pow2 e))
  | _ => None
  end.

Definition Z2SF (z : Z) : spec_float := binary_normalize 53 1024 z 0 false.

(** The number of target boxes of the whole batch. *)
Definition num_target_boxes (targets : list Target) : nat :=
  sum_list ((fun t => length (boxes t)) <$> targets).

(** The four terms one decoder layer contributes to the loss dict of the
    detection model, the entries that hold them under the keys [key k], and
    the weighted sum of the three terms that have a weight. *)
Record LayerTerms : Type := {
  term_ce : F;
  term_bbox : F;
  term_giou : F;
  term_cardinality : F
}.

Definition layer_entries (key : string -> string) (t : LayerTerms) : dict F :=
  [(key "loss_ce", term_ce t); (key "loss_bbox", term_bbox t);
   (key "loss_giou", term_giou t); (key "cardinality_error", term_cardinality t)].

Definition weighted_layer (config : DetrConfig) (t : LayerTerms) : F :=
  fadd (fadd (fmul (term_ce t) (Some 1))
             (fmul (term_bbox t) (Some (bbox_loss_coefficient config))))
       (fmul (term_giou t) (Some (giou_loss_coefficient config))).

(** ** Example data *)

Definition dead_codebook (threshold : Z) : EuclideanCodebook :=
  {| decay := 99 # 100; codebook_size := 2; kmeans_iters := 10; epsilon := 1 # 100000;
     threshold_ema_dead_code := threshold; inited := true;
     cluster_size := [0; 5]; embed := [[1; 1]; [2; 2]]; embed_avg := [[1; 1]; [2; 2]] |}.


(** The quantizer with its default settings (n_q = 8, bins = 1024); the
    codebooks play no part in the bandwidth accounting. *)
Definition default_quantizer : ResidualVectorQuantizer :=
  {| dimension := 256; n_q := 8; bins := 1024; vq := {| layers := [] |} |}.

(** A box without area, in corner format. *)
Definition point_box : Box := mkBox 0 0 0 0.

(** A batch of two images without any target box, and the outputs of two
    queries per image. *)
Definition empty_target : Target := {| class_labels := []; boxes := []; masks := [] |}.

Definition two_query_outputs : Outputs :=
  mkOutputs (Some [[[1; 0]; [0; 1]]; [[1; 0]; [0; 1]]])
            (Some [[mkBox (1 # 2) (1 # 2) (1 # 2) (1 # 2); mkBox (1 # 4) (1 # 4) (1 # 4) (1 # 4)];
                   [mkBox (1 # 2) (1 # 2) (1 # 2) (1 # 2); mkBox (1 # 4) (1 # 4) (1 # 4) (1 # 4)]])
            None None.

(** Two single-entry codebooks of dimension 1 without the zero vector, and
    the input made of the single sample 0. *)
Definition codebook_of (e : list (list Q)) : EuclideanCodebook :=
  {| decay := 99 # 100; codebook_size := length e; kmeans_iters := 50;
     epsilon := 1 # 100000; threshold_ema_dead_code := 2; inited := true;
     cluster_size := replicate (length e) 0; embed := e; embed_avg := e |}.

Definition layer_of (e : list (list Q)) : VectorQuantization :=
  {| _codebook := codebook_of e; commitment_weight := 1 |}.

Definition far_rvq : ResidualVectorQuantization :=
  {| layers := [layer_of [[1]]; layer_of [[5]]] |}.

(** Three layers of dimension 2 whose codebooks hold the zero vector, and an
    input of shape [1, 2, 2]. *)
Definition small_rvq : ResidualVectorQuantization :=
  {| layers := [layer_of [[0; 0]; [4; 4]; [-4; 4]];
                layer_of [[0; 0]; [1; 1]; [1; -1]];
                layer_of [[0; 0]; [1 # 2; 0]] ] |}.

Definition small_input : list (list (list Q)) := [[[5; -3]; [4; 5]]].

(** A stand-in for softmax in examples (the exponential is not rational):
    division by the sum of the row. *)
Definition normalize (row : list Q) : list Q :=
  if Qzero (Qsum row) then row else (fun x => x / Qsum row) <$> row.

Definition unit_cross_entropy (lg : list (list (list Q))) (targets : list Target)
    (indices : Indices) (num_classes : nat) (eos_coef : Q) : result F := Ok (Some 1).

Definition unit_cardinality (lg : list (list (list Q))) (targets : list Target) : F :=
  Some 1.

Definition no_masks (m : list (list (list (list Q)))) (targets : list Target)
    (indices : Indices) (num_boxes : Q) : result (F * F) := Ok (Some 0, Some 0).

(** One image, two queries, two decoder layers, one target box. *)
Definition example_config : DetrConfig :=
  {| cfg_class_cost := 1; cfg_bbox_cost := 5; cfg_giou_cost := 2;
     num_labels := 1; eos_coefficient := 1 # 10;
     bbox_loss_coefficient := 5; giou_loss_coefficient := 2;
     auxiliary_loss := true; decoder_layers := 2 |}.

Definition example_logits : list (list (list Q)) := [[[3; 1]; [1; 3]]].

Definition example_boxes : list (list Box) :=
  [[mkBox (1 # 2) (1 # 2) (1 # 2) (1 # 2); mkBox (1 # 4) (1 # 4) (1 # 4) (1 # 4)]].

Definition example_target : Target :=
  {| class_labels := [0%nat]; boxes := [mkBox (1 # 4) (1 # 4) (1 # 2) (1 # 2)]; masks := [] |}.

Definition example_matcher : HungarianMatcher :=
  {| class_cost := 1; bbox_cost := 5; giou_cost := 2 |}.

Definition example_criterion : SetCriterion :=
  {| matcher := HungarianMatcher_forward normalize example_matcher;
     num_classes := 1; eos_coef := 1 # 10;
     losses := ["labels"; "boxes"; "cardinality"] |}.

Definition example_outputs : Outputs :=
  mkOutputs (Some example_logits) (Some example_boxes) None
    (Some [mkOutputs (Some example_logits) (Some example_boxes) None None]).

(** The loss dict the criterion computes on the example. *)
Definition example_losses : dict F :=
  Eval vm_compute in
    match SetCriterion_forward unit_cross_entropy unit_cardinality no_masks
            example_criterion example_outputs [example_target] with
    | Ok d => d
    | Raise _ => []
    end.

(** A target whose box has a negative width. *)
Definition inverted_target : Target :=
  {| class_labels := [0%nat];
     boxes := [mkBox (1 # 4) (1 # 4) (- (1 # 2)) (1 # 2)]; masks := [] |}.

Definition example_layer_outputs : Outputs :=
  mkOutputs (Some example_logits) (Some example_boxes) None None.

(** A unit box, a box containing it and a box apart from it, in corner
    format, and the GIoU matrix of the first two against the third. *)
Definition corner_boxes : list Box := [mkBox 0 0 1 1; mkBox 0 0 4 4].

Definition far_boxes : list Box := [mkBox 2 2 3 3].

Definition corner_far_giou : list (list F) :=
  Eval vm_compute in
    match generalized_box_iou corner_boxes far_boxes with
    | Ok M => M
    | Raise _ => []
    end.

(** A k-means stand-in for examples: the first [num_clusters] samples. *)
Definition first_samples (samples : list (list Q)) (num_clusters num_iters : nat)
  : result (list (list Q) * list Q) :=
  Ok (take num_clusters samples, replicate num_clusters 0).

(** A quantizer over the three small layers, with codebooks of 4 bins. *)
Definition small_quantizer : ResidualVectorQuantizer :=
  {| dimension := 2; n_q := 3; bins := 4; vq := small_rvq |}.

(** A criterion asked for a loss it does not know. *)
Definition typo_criterion : SetCriterion :=
  {| matcher := HungarianMatcher_forward normalize example_matcher;
     num_classes := 1; eos_coef := 1 # 10;
     losses := ["labels"; "bboxes"] |}.

(** A row of three samples, and the row reflected by two samples on the
    left and one on the right. *)
Definition short_row : list Q := [1; 2; 3].

Definition short_row_reflected : list Q := [3; 2; 1; 2; 3; 2].

(** A stand-in for the sigmoid in examples, with values in (0, 1):
    1/2 + x / (2 (1 + |x|)). *)
Definition soft_sign (x : Q) : Q := (1 # 2) + x / (2 * (1 + Qabs x)).

Definition example_mask_logits : list (list Q) := [[3; -3; 1]; [0; 2; -1]].

Definition example_mask_targets : list (list Q) := [[1; 0; 1]; [0; 1; 0]].

(** A signal of seven samples, cut by [cut_frames] into windows of four
    samples every three samples. *)
Definition seven_samples : list Q := [3; 1; 4; 1; 5; 9; 2].

(** A model that cuts its input into segments of one second at 4 samples
    per second, with the overlap of one percent, and a model that does
    not segment. *)
Definition segmenting_model : EnCodecModel :=
  {| sample_rate := 4; segment := Some 1; overlap := 1 # 100 |}.

Definition plain_model : EnCodecModel :=
  {| sample_rate := 24000; segment := None; overlap := 1 # 100 |}.

(** A frame encoder for examples: the frame itself. *)
Definition keep_frame (frame : list (list (list Q))) : result (list (list (list Q))) :=
  Ok frame.

(** Tokens of "New York in Paris" with their labels, and a tokenizer
    stand-in that joins the tokens. *)
Definition token (w label : string) (i : nat) (sub : bool) : Entity :=
  mkEntity w (9 # 10) label (Some i) (Some i) (Some (S i)) (Some sub) None.

Definition example_tokens : list Entity :=
  [token "New" "B-LOC" 1 false; token "York" "I-LOC" 2 false;
   token "Paris" "B-LOC" 4 false].

Definition join_tokens (tokens : list string) : string :=
  foldr (fun t acc => t +:+ acc) EmptyString tokens.

Definition no_labels (i : nat) : option string := None.

(** The same tokens with the label "O" kept for the word "in". *)
Definition tokens_with_outside : list Entity :=
  [token "New" "B-LOC" 1 false; token "York" "I-LOC" 2 false;
   token "in" "O" 3 false; token "Paris" "B-LOC" 4 false].

(** The tokens of "Microsoft company", the first word in two pieces. *)
Definition subword_tokens : list Entity :=
  [token "Micro" "B-ORG" 1 false; token "soft" "I-MISC" 2 true;
   token "company" "I-ORG" 3 false].

(** Two masks of different sizes, one channel each. *)
Definition two_masks : list (list (list (list Q))) :=
  [[[[1; 1]; [1; 0]]]; [[[1; 0; 1]]]].

(** Pairs of integers on which the rounding is compared with the Standard
    Library's specification: small and large, exact and inexact quotients. *)
Definition rounding_samples : list (Z * Z) :=
  a ← [1; 2; 3; 7; 10; 100; 201; 48000; 9007199254740993;
       123456789012345678901234567890]%Z;
  b ← [1; 2; 3; 7; 10; 100; 1000; 9007199254740992; 36028797018963967]%Z;
  [(a, b); ((- a)%Z, b)].

(** The floats written 0.03 and 2.01. *)
Definition three_hundredths : Q := 3 # 100.
Definition two_and_a_hundredth : Q := 201 # 100.

(** The losses of the example criterion on the batch of two images
    without any target box. *)
Definition no_target_losses : dict F :=
  Eval vm_compute in
    match SetCriterion_forward unit_cross_entropy unit_cardinality no_masks
            example_criterion two_query_outputs [empty_target; empty_target] with
    | Ok d => d
    | Raise _ => []
    end.

(** Divisors that take 1 into the subnormal range and below it, and
    factors whose product overflows. *)
Definition tiny_samples : list (Z * Z) :=
  [(3 * 2 ^ 1000, 2 ^ 60); (3 * 2 ^ 1000, 7 * 2 ^ 70); (2 ^ 1020, 2 ^ 54);
   (2 ^ 1020, 2 ^ 55); (2 ^ 1020, 3 * 2 ^ 54); (5 * 2 ^ 1010, 3 * 2 ^ 62)]%Z.

Definition huge_samples : list (Z * Z) :=
  [(2 ^ 1000, 2 ^ 24); (2 ^ 1000, - 2 ^ 24); (2 ^ 1023, 2); (3 * 2 ^ 1000, 2 ^ 23)]%Z.

(** * Properties *)

(** ** Rounding to the nearest float *)

Lemma pow2_pos (e : Z) : 0 < pow2 e.
Proof. apply Qpower_0_lt. reflexivity. Qed.

Lemma pow2_add (a b : Z) : pow2 (a + b) == pow2 a * pow2 b.
Proof. apply Qpower_plus. discriminate. Qed.

Lemma pow2_sub (a b : Z) : pow2 (a - b) == pow2 a / pow2 b.
Proof. apply Qpower_minus. discriminate. Qed.

Lemma pow2_le (a b : Z) : (a <= b)%Z -> pow2 a <= pow2 b.
Proof. intros H. apply Qpower_le_compat_l; [done|]. discriminate. Qed.

Lemma pow2_lt (a b : Z) : (a < b)%Z -> pow2 a < pow2 b.
Proof. intros H. apply Qpower_lt_compat_l; [done|]. reflexivity. Qed.

Lemma pow2_lt_inv (a b : Z) : pow2 a < pow2 b -> (a < b)%Z.
Proof. intros H. apply (Qpower_lt_compat_l_inv 2); [done|]. reflexivity. Qed.

Lemma pow2_Z (e : Z) : (0 <= e)%Z -> pow2 e == inject_Z (2 ^ e).
Proof. intros H. unfold pow2. by rewrite Zpower_Qpower. Qed.

Lemma Qabs_num_den (x : Q) : Qabs x == inject_Z (Z.abs (Qnum x)) / inject_Z (Zpos (Qden x)).
Proof.
  destruct x as [n d]. unfold Qabs. cbn [Qnum Qden].
  rewrite (Qmake_Qdiv (Z.abs n) d). reflexivity.
Qed.

Lemma Qdiv_le_cross (p q a b : Q) :
  0 < q -> 0 < b -> p * b <= a * q -> p / q <= a / b.
Proof.
  intros Hq Hb H. apply Qle_shift_div_l; [done|].
  assert (E : p / q * b == p * b / q) by (field; lra). rewrite E.
  by apply Qle_shift_div_r.
Qed.

Lemma Qdiv_lt_cross (p q a b : Q) :
  0 < q -> 0 < b -> p * b < a * q -> p / q < a / b.
Proof.
  intros Hq Hb H. apply Qlt_shift_div_l; [done|].
  assert (E : p / q * b == p * b / q) by (field; lra). rewrite E.
  by apply Qlt_shift_div_r.
Qed.

Lemma mag_spec (x : Q) : ~ x == 0 -> pow2 (mag x - 1) <= Qabs x /\ Qabs x < pow2 (mag x).
Proof.
  intros Hx.
  set (a := Z.abs (Qnum x)). set (b := Zpos (Qden x)).
  assert (Ha : (0 < a)%Z).
  { unfold a. destruct x as [[|n|n] d]; cbn; try lia. exfalso. apply Hx. reflexivity. }
  assert (Hb : (0 < b)%Z) by (unfold b; lia).
  pose proof (Z.log2_spec a Ha) as [La Ua].
  pose proof (Z.log2_spec b Hb) as [Lb Ub].
  pose proof (Z.log2_nonneg a) as Na. pose proof (Z.log2_nonneg b) as Nb.
  assert (Hab : Qabs x == inject_Z a / inject_Z b) by apply Qabs_num_den.
  assert (Hb' : 0 < inject_Z b) by (change 0 with (inject_Z 0); by rewrite <- Zlt_Qlt).
  assert (Pa : pow2 (Z.log2 a) == inject_Z (2 ^ Z.log2 a)) by (by apply pow2_Z).
  assert (Pb : pow2 (Z.log2 b) == inject_Z (2 ^ Z.log2 b)) by (by apply pow2_Z).
  assert (Pa1 : pow2 (Z.log2 a + 1) == inject_Z (2 ^ Z.succ (Z.log2 a))).
  { rewrite <- Z.add_1_r. apply pow2_Z. lia. }
  assert (Pb1 : pow2 (Z.log2 b + 1) == inject_Z (2 ^ Z.succ (Z.log2 b))).
  { rewrite <- Z.add_1_r. apply pow2_Z. lia. }
  pose proof (pow2_pos (Z.log2 a)) as Qa. pose proof (pow2_pos (Z.log2 b)) as Qb.
  rewrite Zle_Qle in La, Lb. rewrite Zlt_Qlt in Ua, Ub.
  rewrite <- Pa in La. rewrite <- Pb in Lb. rewrite <- Pa1 in Ua. rewrite <- Pb1 in Ub.
  rewrite Hab. unfold mag. fold a b.
  set (k := (Z.log2 a - Z.log2 b)%Z).
  assert (Ek : pow2 k == pow2 (Z.log2 a) / pow2 (Z.log2 b)) by apply pow2_sub.
  assert (Ek1 : pow2 (k + 1) == pow2 (Z.log2 a + 1) / pow2 (Z.log2 b)).
  { unfold k. replace (Z.log2 a - Z.log2 b + 1)%Z with (Z.log2 a + 1 - Z.log2 b)%Z by lia.
    apply pow2_sub. }
  assert (Ekm : pow2 (k - 1) == pow2 (Z.log2 a) / pow2 (Z.log2 b + 1)).
  { unfold k. replace (Z.log2 a - Z.log2 b - 1)%Z with (Z.log2 a - (Z.log2 b + 1))%Z by lia.
    apply pow2_sub. }
  pose proof (pow2_pos (Z.log2 b + 1)) as Qb1.
  pose proof (pow2_pos (Z.log2 a + 1)) as Qa1.
  destruct (Z.ltb_spec (a * 2 ^ Z.log2 b) (b * 2 ^ Z.log2 a)) as [Hlt|Hge].
  - split.
    + rewrite Ekm. apply Qdiv_le_cross; [done|done|]. nra.
    + rewrite Ek. apply Qdiv_lt_cross; [done|done|].
      rewrite Zlt_Qlt, !inject_Z_mult, <- Pa, <- Pb in Hlt. lra.
  - replace (k + 1 - 1)%Z with k by lia. split.
    + rewrite Ek. apply Qdiv_le_cross; [done|done|].
      rewrite Zle_Qle, !inject_Z_mult, <- Pa, <- Pb in Hge. lra.
    + rewrite Ek1. apply Qdiv_lt_cross; [done|done|]. nra.
Qed.

Lemma mag_le (x : Q) (k : Z) : ~ x == 0 -> Qabs x < pow2 k -> (mag x <= k)%Z.
Proof.
  intros Hx Hk. destruct (mag_spec x Hx) as [Hl _].
  assert (pow2 (mag x - 1) < pow2 k) by lra.
  apply pow2_lt_inv in H. lia.
Qed.

Lemma mag_ge (x : Q) (k : Z) : ~ x == 0 -> pow2 k <= Qabs x -> (k < mag x)%Z.
Proof.
  intros Hx Hk. destruct (mag_spec x Hx) as [_ Hu].
  assert (pow2 k < pow2 (mag x)) by lra.
  by apply pow2_lt_inv in H.
Qed.

Lemma round_half_even_error (y : Q) :
  Qabs (inject_Z (round_half_even y) - y) <= 1 # 2.
Proof.
  unfold round_half_even.
  pose proof (Qfloor_le y) as Hl. pose proof (Qlt_floor y) as Hu.
  rewrite inject_Z_plus in Hu. change (inject_Z 1) with 1 in Hu.
  apply Qabs_Qle_condition.
  destruct (Qcompare_spec (y - inject_Z (Qfloor y)) (1 # 2)) as [E|E|E].
  - destruct (Z.even (Qfloor y)); [|rewrite inject_Z_plus; change (inject_Z 1) with 1]; lra.
  - lra.
  - rewrite inject_Z_plus; change (inject_Z 1) with 1. lra.
Qed.

Lemma round_half_even_le (y : Q) (z : Z) :
  y <= inject_Z z -> (round_half_even y <= z)%Z.
Proof.
  intros H. unfold round_half_even.
  pose proof (Qfloor_le y) as Hl.
  assert (Hf : (Qfloor y <= z)%Z) by (rewrite Zle_Qle; lra).
  destruct (Z.eq_dec (Qfloor y) z) as [E|E].
  - assert (Hy : y == inject_Z (Qfloor y)) by (rewrite E in *; lra).
    destruct (Qcompare_spec (y - inject_Z (Qfloor y)) (1 # 2)) as [E'|E'|E']; try lra; lia.
  - destruct (Qcompare _ _); [destruct (Z.even _)| |]; lia.
Qed.

Lemma round_half_even_ge (y : Q) (z : Z) :
  inject_Z z <= y -> (z <= round_half_even y)%Z.
Proof.
  intros H. unfold round_half_even.
  assert (Hf : (z <= Qfloor y)%Z).
  { rewrite <- (Qfloor_Z z). by apply Qfloor_resp_le. }
  destruct (Qcompare _ _); [destruct (Z.even _)| |]; lia.
Qed.

Lemma round_half_even_comp (x y : Q) :
  x == y -> round_half_even x = round_half_even y.
Proof.
  intros E. unfold round_half_even. rewrite (Qfloor_comp _ _ E).
  assert (E' : x - inject_Z (Qfloor y) == y - inject_Z (Qfloor y)) by (by rewrite E).
  by rewrite (Qcompare_comp _ _ E' (1 # 2) (1 # 2) (Qeq_refl _)).
Qed.

Section Rounding.

Variables prec emin : Z.

Lemma round_to_zero (x : Q) : x == 0 -> round_to prec emin x = 0.
Proof. intros H. unfold round_to, Qzero. by rewrite (proj2 (Qeq_bool_iff x 0) H). Qed.

Lemma round_to_nonzero (x : Q) :
  ~ x == 0 ->
  round_to prec emin x
  == inject_Z (round_half_even (x / pow2 (ulp_exp prec emin x))) * pow2 (ulp_exp prec emin x).
Proof.
  intros H. unfold round_to, Qzero.
  destruct (Qeq_bool x 0) eqn:E; [by apply Qeq_bool_iff in E|].
  apply Qred_correct.
Qed.

Lemma round_to_error (x : Q) :
  Qabs (round_to prec emin x - x) <= pow2 (ulp_exp prec emin x) * (1 # 2).
Proof.
  pose proof (pow2_pos (ulp_exp prec emin x)) as He.
  destruct (Qeq_dec x 0) as [E|E].
  - rewrite (round_to_zero x E). apply Qabs_Qle_condition. lra.
  - rewrite (round_to_nonzero x E).
    set (e := ulp_exp prec emin x) in *.
    pose proof (round_half_even_error (x / pow2 e)) as Hr.
    set (m := inject_Z (round_half_even (x / pow2 e))) in *.
    apply Qabs_Qle_condition in Hr. apply Qabs_Qle_condition.
    assert (Hx : x / pow2 e * pow2 e == x) by (field; lra).
    split; nra.
Qed.

Lemma ulp_exp_bound (x : Q) :
  ~ x == 0 ->
  pow2 (ulp_exp prec emin x) <= Qabs x * pow2 (1 - prec) + pow2 emin.
Proof.
  intros Hx. destruct (mag_spec x Hx) as [Hl _].
  pose proof (pow2_pos emin). pose proof (pow2_pos (1 - prec)).
  assert (0 <= Qabs x) by apply Qabs_nonneg.
  unfold ulp_exp. destruct (Z.max_spec (mag x - prec) emin) as [[_ ->]|[_ ->]].
  - nra.
  - replace (mag x - prec)%Z with ((mag x - 1) + (1 - prec))%Z by lia.
    rewrite pow2_add. nra.
Qed.

Lemma round_to_le (x : Q) (z : Z) :
  (emin <= 0)%Z -> Qabs x < pow2 prec ->
  x <= inject_Z z -> round_to prec emin x <= inject_Z z.
Proof.
  intros Hemin Hx Hz.
  destruct (Qeq_dec x 0) as [E|E]; [rewrite (round_to_zero x E); lra|].
  rewrite (round_to_nonzero x E).
  set (e := ulp_exp prec emin x).
  assert (He : (e <= 0)%Z).
  { unfold e, ulp_exp. pose proof (mag_le x prec E Hx). lia. }
  pose proof (pow2_pos e) as Hp.
  assert (Hinv : pow2 (- e) * pow2 e == 1).
  { rewrite <- pow2_add. replace (- e + e)%Z with 0%Z by lia. reflexivity. }
  assert (HZ : pow2 (- e) == inject_Z (2 ^ (- e))) by (apply pow2_Z; lia).
  assert (Hm : (round_half_even (x / pow2 e) <= z * 2 ^ (- e))%Z).
  { apply round_half_even_le. rewrite inject_Z_mult, <- HZ.
    apply Qle_shift_div_r; [done|]. nra. }
  rewrite Zle_Qle, inject_Z_mult, <- HZ in Hm. nra.
Qed.

Lemma round_to_ge (x : Q) (z : Z) :
  (emin <= 0)%Z -> Qabs x < pow2 prec ->
  inject_Z z <= x -> inject_Z z <= round_to prec emin x.
Proof.
  intros Hemin Hx Hz.
  destruct (Qeq_dec x 0) as [E|E]; [rewrite (round_to_zero x E); lra|].
  rewrite (round_to_nonzero x E).
  set (e := ulp_exp prec emin x).
  assert (He : (e <= 0)%Z).
  { unfold e, ulp_exp. pose proof (mag_le x prec E Hx). lia. }
  pose proof (pow2_pos e) as Hp.
  assert (Hinv : pow2 (- e) * pow2 e == 1).
  { rewrite <- pow2_add. replace (- e + e)%Z with 0%Z by lia. reflexivity. }
  assert (HZ : pow2 (- e) == inject_Z (2 ^ (- e))) by (apply pow2_Z; lia).
  assert (Hm : (z * 2 ^ (- e) <= round_half_even (x / pow2 e))%Z).
  { apply round_half_even_ge. rewrite inject_Z_mult, <- HZ.
    apply Qle_shift_div_l; [done|]. nra. }
  rewrite Zle_Qle, inject_Z_mult, <- HZ in Hm. nra.
Qed.

Lemma round_to_int (z : Z) :
  (emin <= 0)%Z -> Qabs (inject_Z z) < pow2 prec ->
  round_to prec emin (inject_Z z) == inject_Z z.
Proof.
  intros Hemin Hz. apply Qle_antisym.
  - apply round_to_le; try done. lra.
  - apply round_to_ge; try done. lra.
Qed.

End Rounding.

Lemma Qred_inject_Z (z : Z) : Qred (inject_Z z) = inject_Z z.
Proof.
  unfold Qred, inject_Z.
  pose proof (Z.ggcd_gcd z 1) as Hg. pose proof (Z.ggcd_correct_divisors z 1) as Hd.
  destruct (Z.ggcd z 1) as [g [a b]]. cbn [fst snd] in *.
  rewrite Z.gcd_1_r in Hg. subst g. destruct Hd as [Ha Hb].
  replace a with z by lia. replace b with 1%Z by lia. reflexivity.
Qed.

Lemma round_to_int_eq (prec emin z : Z) :
  (emin <= 0)%Z -> Qabs (inject_Z z) < pow2 prec ->
  round_to prec emin (inject_Z z) = inject_Z z.
Proof.
  intros Hemin Hz. pose proof (round_to_int prec emin z Hemin Hz) as E.
  unfold round_to in *. destruct (Qzero (inject_Z z)) eqn:Ez.
  - apply Qeq_bool_iff in Ez. unfold Qeq in Ez. cbn in Ez.
    replace z with 0%Z by lia. reflexivity.
  - transitivity (Qred (inject_Z z)); [|apply Qred_inject_Z].
    apply Qred_complete. by rewrite Qred_correct in E.
Qed.

Lemma Qabs_lt_condition (x y : Q) : Qabs x < y <-> - y < x /\ x < y.
Proof.
  split.
  - apply Qabs_case; intros Hx H; lra.
  - intros [H1 H2]. apply Qabs_case; intros; lra.
Qed.

(** Below 2^53 in absolute value nothing overflows, and the rounding
    stays on the same side of every integer. *)
Lemma round64_finite (x : Q) :
  Qabs x < pow2 53 -> round64 x = Finite (round_to 53 (-1074) x).
Proof.
  intros Hx. unfold round64.
  assert (Hp : pow2 53 == inject_Z (2 ^ 53)) by (by apply pow2_Z).
  apply Qabs_lt_condition in Hx as [Hl Hu].
  assert (Hx : Qabs x < pow2 53) by (apply Qabs_lt_condition; lra).
  assert (H1 : round_to 53 (-1074) x <= inject_Z (2 ^ 53)).
  { apply round_to_le; [lia|done|lra]. }
  assert (H2 : inject_Z (- 2 ^ 53) <= round_to 53 (-1074) x).
  { apply round_to_ge; [lia|done|]. rewrite inject_Z_opp. lra. }
  rewrite inject_Z_opp in H2.
  assert (Hbig : pow2 53 < pow2 1024) by (by apply pow2_lt).
  destruct (Qle_bool (pow2 1024) (Qabs (round_to 53 (-1074) x))) eqn:E; [|done].
  apply Qle_bool_iff in E. exfalso.
  assert (Qabs (round_to 53 (-1074) x) <= pow2 53); [|lra].
  apply Qabs_Qle_condition. lra.
Qed.



Lemma mag_comp (x y : Q) : x == y -> ~ x == 0 -> mag x = mag y.
Proof.
  intros E Hx. assert (Hy : ~ y == 0) by (by rewrite <- E).
  destruct (mag_spec x Hx) as [L1 U1]. destruct (mag_spec y Hy) as [L2 U2].
  assert (Ea : Qabs x == Qabs y) by (by apply Qabs_wd).
  assert (H1 : pow2 (mag x - 1) < pow2 (mag y)) by lra.
  assert (H2 : pow2 (mag y - 1) < pow2 (mag x)) by lra.
  apply pow2_lt_inv in H1, H2. lia.
Qed.

Lemma round_to_comp (prec emin : Z) (x y : Q) :
  x == y -> round_to prec emin x = round_to prec emin y.
Proof.
  intros E. unfold round_to, Qzero.
  destruct (Qeq_bool x 0) eqn:Ex, (Qeq_bool y 0) eqn:Ey; try done.
  - apply Qeq_bool_iff in Ex. rewrite E in Ex. apply Qeq_bool_iff in Ex. congruence.
  - apply Qeq_bool_iff in Ey. rewrite <- E in Ey. apply Qeq_bool_iff in Ey. congruence.
  - assert (Hx : ~ x == 0) by (intros H; apply Qeq_bool_iff in H; congruence).
    unfold ulp_exp. rewrite (mag_comp x y E Hx). apply Qred_complete.
    set (e := Z.max (mag y - prec) emin).
    assert (Ediv : x / pow2 e == y / pow2 e) by (by rewrite E).
    by rewrite (round_half_even_comp _ _ Ediv).
Qed.

Lemma round64_comp (x y : Q) : x == y -> round64 x = round64 y.
Proof.
  intros E. unfold round64. rewrite (round_to_comp _ _ x y E).
  assert (Hs : Qltb x 0 = Qltb y 0).
  { unfold Qltb. f_equal. destruct (Qle_bool 0 x) eqn:Ex, (Qle_bool 0 y) eqn:Ey; try done.
    - apply Qle_bool_iff in Ex. rewrite E in Ex. apply Qle_bool_iff in Ex. congruence.
    - apply Qle_bool_iff in Ey. rewrite <- E in Ey. apply Qle_bool_iff in Ey. congruence. }
  by rewrite Hs.
Qed.

Lemma Qabs_inject_Z_lt (z : Z) (e : Z) :
  (0 <= e)%Z -> (Z.abs z < 2 ^ e)%Z -> Qabs (inject_Z z) < pow2 e.
Proof.
  intros He Hz. rewrite (pow2_Z e He). apply Qabs_lt_condition.
  rewrite <- inject_Z_opp, <- !Zlt_Qlt. lia.
Qed.

Lemma round64_int (z : Z) :
  (Z.abs z < 2 ^ 53)%Z -> round64 (inject_Z z) = Finite (inject_Z z).
Proof.
  intros Hz. assert (Hq : Qabs (inject_Z z) < pow2 53) by (by apply Qabs_inject_Z_lt).
  rewrite round64_finite by done. by rewrite round_to_int_eq.
Qed.

Lemma round32_int (z : Z) :
  (Z.abs z < 2 ^ 24)%Z -> round32 (inject_Z z) = Some (inject_Z z).
Proof.
  intros Hz. assert (Hq : Qabs (inject_Z z) < pow2 24) by (by apply Qabs_inject_Z_lt).
  unfold round32. rewrite round_to_int_eq by done.
  assert (Hbig : pow2 24 < pow2 128) by (by apply pow2_lt).
  destruct (Qle_bool _ _) eqn:E; [|done]. apply Qle_bool_iff in E. lra.
Qed.

Lemma float_of_int_exact (n : Z) :
  (Z.abs n < 2 ^ 53)%Z -> float_of_int n = Ok (Finite (inject_Z n)).
Proof. intros Hn. unfold float_of_int. by rewrite round64_int. Qed.

Lemma double_error (x : Q) :
  Qabs (double x - x) <= Qabs x * pow2 (-53) + pow2 (-1075).
Proof.
  unfold double. pose proof (round_to_error 53 (-1074) x) as He.
  destruct (Qeq_dec x 0) as [E|E].
  - rewrite (round_to_zero _ _ x E). pose proof (pow2_pos (-53)). pose proof (pow2_pos (-1075)).
    assert (Ex : Qabs (0 - x) == 0) by (rewrite E; reflexivity).
    assert (0 <= Qabs x) by apply Qabs_nonneg. rewrite Ex. nra.
  - pose proof (ulp_exp_bound 53 (-1074) x E) as Hb.
    assert (E1 : pow2 (1 - 53) * (1 # 2) == pow2 (-53)) by reflexivity.
    assert (E2 : pow2 (-1074) * (1 # 2) == pow2 (-1075)) by (vm_compute; reflexivity).
    assert (0 <= Qabs x) by apply Qabs_nonneg.
    nra.
Qed.

Lemma no_overflow_small (x : Q) : Qabs x < pow2 53 -> no_overflow x.
Proof.
  intros Hx. unfold no_overflow, double.
  assert (Hp : pow2 53 == inject_Z (2 ^ 53)) by (by apply pow2_Z).
  pose proof Hx as Hx'. apply Qabs_lt_condition in Hx' as [Hl Hu].
  assert (H1 : round_to 53 (-1074) x <= inject_Z (2 ^ 53)).
  { apply round_to_le; [lia|done|lra]. }
  assert (H2 : inject_Z (- 2 ^ 53) <= round_to 53 (-1074) x).
  { apply round_to_ge; [lia|done|]. rewrite inject_Z_opp. lra. }
  rewrite inject_Z_opp in H2.
  assert (Hbig : pow2 53 < pow2 1024) by (by apply pow2_lt).
  assert (Qabs (round_to 53 (-1074) x) <= pow2 53); [|lra].
  apply Qabs_Qle_condition. lra.
Qed.

(** The quotient of two whole numbers below 2^26, rounded to a float, has
    the floor of the exact quotient. *)
Lemma floor_double_quotient (B P : Z) :
  (0 <= B < 2 ^ 26)%Z -> (0 < P < 2 ^ 26)%Z ->
  Qfloor (double (inject_Z B / inject_Z P)) = (B / P)%Z.
Proof.
  intros HB HP.
  set (x := inject_Z B / inject_Z P).
  assert (HS : 0 < inject_Z P) by (change 0 with (inject_Z 0); rewrite <- Zlt_Qlt; lia).
  assert (HS1 : 1 <= inject_Z P) by (change 1 with (inject_Z 1); rewrite <- Zle_Qle; lia).
  assert (HS2 : inject_Z P < 67108864).
  { change (67108864 : Q) with (inject_Z (2 ^ 26)). rewrite <- Zlt_Qlt. lia. }
  assert (HB0 : 0 <= inject_Z B) by (change 0 with (inject_Z 0); rewrite <- Zle_Qle; lia).
  assert (HB2 : inject_Z B < 67108864).
  { change (67108864 : Q) with (inject_Z (2 ^ 26)). rewrite <- Zlt_Qlt. lia. }
  pose proof (Z.div_mod B P ltac:(lia)) as Hdm.
  pose proof (Z.mod_pos_bound B P ltac:(lia)) as Hr.
  set (f := (B / P)%Z) in *. set (r := (B mod P)%Z) in *.
  assert (Hxf : x == inject_Z f + inject_Z r / inject_Z P).
  { unfold x. rewrite Hdm at 1. rewrite inject_Z_plus, inject_Z_mult. field. lra. }
  assert (Hx0 : 0 <= x) by (unfold x; apply Qle_shift_div_l; lra).
  assert (HxB : x <= inject_Z B) by (unfold x; apply Qle_shift_div_r; [done|nra]).
  assert (P53 : pow2 53 == 9007199254740992) by reflexivity.
  assert (Hx53 : Qabs x < pow2 53) by (apply Qabs_lt_condition; lra).
  assert (Hr0 : 0 <= inject_Z r / inject_Z P).
  { apply Qle_shift_div_l; [done|]. rewrite Qmult_0_l.
    change 0 with (inject_Z 0). rewrite <- Zle_Qle. lia. }
  assert (Hlow : inject_Z f <= double x).
  { apply round_to_ge; [lia|done|lra]. }
  assert (Hup : double x < inject_Z (f + 1)).
  { rewrite inject_Z_plus. change (inject_Z 1) with 1.
    pose proof (double_error x) as E. apply Qabs_Qle_condition in E.
    assert (Eps : pow2 (-53) == 1 # 9007199254740992) by reflexivity.
    assert (Eta : pow2 (-1075) <= 1 # 81129638414606681695789005144064).
    { assert (E106 : pow2 (-106) == 1 # 81129638414606681695789005144064) by reflexivity.
      rewrite <- E106. apply pow2_le. lia. }
    rewrite (Qabs_pos x Hx0), Eps in E.
    set (d := 1 / inject_Z P).
    assert (Hd : d * inject_Z P == 1) by (unfold d; field; lra).
    assert (Hd26 : 1 < d * 67108864) by nra.
    assert (Hrs : inject_Z r / inject_Z P <= 1 - d).
    { assert (Er : inject_Z r / inject_Z P == inject_Z r * d) by (unfold d; field; lra).
      assert (inject_Z r + 1 <= inject_Z P).
      { change 1 with (inject_Z 1). rewrite <- inject_Z_plus, <- Zle_Qle. lia. }
      assert (0 < d) by (unfold d; apply Qlt_shift_div_l; lra).
      rewrite Er. nra. }
    lra. }
  assert (Hf1 : (f <= Qfloor (double x))%Z).
  { rewrite <- (Qfloor_Z f). by apply Qfloor_resp_le. }
  assert (Hf2 : (Qfloor (double x) < f + 1)%Z).
  { rewrite Zlt_Qlt. pose proof (Qfloor_le (double x)). lra. }
  lia.
Qed.

(** ** Rational arithmetic helpers *)

Lemma Qzero_true (q : Q) : Qzero q = true <-> q == 0.
Proof. unfold Qzero. apply Qeq_bool_iff. Qed.

Lemma Qzero_false (q : Q) : Qzero q = false <-> ~ q == 0.
Proof.
  rewrite <- Qzero_true. destruct (Qzero q); split; intros; congruence.
Qed.

Lemma Qltb_true (a b : Q) : Qltb a b = true <-> a < b.
Proof.
  unfold Qltb. rewrite negb_true_iff. split.
  - intros H. apply Qnot_le_lt. intros Hle. apply Qle_bool_iff in Hle. congruence.
  - intros H. destruct (Qle_bool b a) eqn:E; [|done].
    apply Qle_bool_iff in E. lra.
Qed.

Lemma Qltb_false (a b : Q) : Qltb a b = false <-> b <= a.
Proof.
  unfold Qltb. rewrite negb_false_iff. apply Qle_bool_iff.
Qed.

Lemma Qmax_spec (a b : Q) : (a <= b /\ Qmax a b = b) \/ (b < a /\ Qmax a b = a).
Proof.
  unfold Qmax. destruct (Qle_bool a b) eqn:E.
  - left. split; [by apply Qle_bool_iff|done].
  - right. split; [|done]. apply Qltb_true. unfold Qltb. by rewrite E.
Qed.

Lemma Qmin_spec (a b : Q) : (a <= b /\ Qmin a b = a) \/ (b < a /\ Qmin a b = b).
Proof.
  unfold Qmin. destruct (Qle_bool a b) eqn:E.
  - left. split; [by apply Qle_bool_iff|done].
  - right. split; [|done]. apply Qltb_true. unfold Qltb. by rewrite E.
Qed.

Lemma fdiv_nonzero (a b : Q) : ~ b == 0 -> fdiv a b = Some (a / b).
Proof. intros H. unfold fdiv. apply Qzero_false in H. by rewrite H. Qed.

Lemma fdiv_zero (a b : Q) : b == 0 -> fdiv a b = None.
Proof. intros H. unfold fdiv. apply Qzero_true in H. by rewrite H. Qed.

(** ** HungarianMatcher.__init__ *)

Lemma HungarianMatcher_init_raises (c b g : Q) :
  raises (HungarianMatcher_init c b g) <-> (c == 0 /\ b == 0 /\ g == 0).
Proof.
  unfold HungarianMatcher_init. rewrite <- !Qzero_true.
  destruct (Qzero c), (Qzero b), (Qzero g); simpl; intuition congruence.
Qed.

(** C5, as stated, fails: the weights (-1, 0, 0) violate the stated condition
    (a weight is negative), yet the constructor does not raise. *)
Lemma C5_negative_weight_accepted :
  ~ (raises (HungarianMatcher_init (-1) 0 0) <-> ~ spec_weights_ok (-1) 0 0).
Proof.
  intros [_ H]. apply H. intros (Hc & _). revert Hc. unfold Qle. simpl. lia.
Qed.

(** C5, amended: constructing a HungarianMatcher raises (an assertion error)
    exactly when all three cost weights are zero; any other weights, negative
    ones included, are accepted and stored unchanged. *)
Theorem C5_init_raises_iff_all_zero (c b g : Q) :
  (HungarianMatcher_init c b g = Raise AssertionError <-> (c == 0 /\ b == 0 /\ g == 0))
  /\ (HungarianMatcher_init c b g
        = Ok {| class_cost := c; bbox_cost := b; giou_cost := g |}
      <-> ~ (c == 0 /\ b == 0 /\ g == 0)).
Proof.
  unfold HungarianMatcher_init. rewrite <- !Qzero_true.
  destruct (Qzero c), (Qzero b), (Qzero g); simpl; intuition congruence.
Qed.

(** ** TokenClassificationPipeline.__init__ *)

(** C9: with a tokenizer that is not fast, the strategies first, max and
    average (given by name or as enum members) make the constructor raise
    a ValueError; simple and none are accepted with any tokenizer. *)
Theorem C9_slow_tokenizer_strategies (grouped_entities ignore_subwords : option bool)
    (is_fast : bool) :
  TokenClassificationPipeline_init false grouped_entities ignore_subwords
    (Some (ByName "first")) = Raise ValueError
  /\ TokenClassificationPipeline_init false grouped_entities ignore_subwords
       (Some (ByName "max")) = Raise ValueError
  /\ TokenClassificationPipeline_init false grouped_entities ignore_subwords
       (Some (ByName "average")) = Raise ValueError
  /\ TokenClassificationPipeline_init false grouped_entities ignore_subwords
       (Some (ByEnum FIRST)) = Raise ValueError
  /\ TokenClassificationPipeline_init false grouped_entities ignore_subwords
       (Some (ByEnum MAX)) = Raise ValueError
  /\ TokenClassificationPipeline_init false grouped_entities ignore_subwords
       (Some (ByEnum AVERAGE)) = Raise ValueError
  /\ TokenClassificationPipeline_init is_fast grouped_entities ignore_subwords
       (Some (ByName "simple")) = Ok SIMPLE
  /\ TokenClassificationPipeline_init is_fast grouped_entities ignore_subwords
       (Some (ByName "none")) = Ok NONE
  /\ TokenClassificationPipeline_init is_fast grouped_entities ignore_subwords
       (Some (ByEnum SIMPLE)) = Ok SIMPLE
  /\ TokenClassificationPipeline_init is_fast grouped_entities ignore_subwords
       (Some (ByEnum NONE)) = Ok NONE.
Proof. repeat split; reflexivity. Qed.

(** With a fast tokenizer every strategy is accepted. *)
Lemma TokenClassificationPipeline_init_fast (g i : option bool) (a : AggregationStrategy) :
  TokenClassificationPipeline_init true g i (Some (ByEnum a)) = Ok a.
Proof. by destruct a. Qed.

(** The deprecated flags [grouped_entities] and [ignore_subwords] select
    FIRST, which a slow tokenizer cannot serve either. *)
Lemma TokenClassificationPipeline_init_deprecated_flags :
  TokenClassificationPipeline_init false (Some true) (Some true) None = Raise ValueError
  /\ TokenClassificationPipeline_init false (Some true) None None = Ok SIMPLE
  /\ TokenClassificationPipeline_init false None None None = Ok NONE.
Proof. repeat split; reflexivity. Qed.

(** ** EuclideanCodebook.expire_codes_ *)

(** C8: with [threshold_ema_dead_code == 0], [expire_codes_] returns at once:
    no code is replaced and the codebook (embeddings and every other buffer)
    is the one before the call, whatever the cluster sizes and the batch. *)
Theorem C8_expire_codes_disabled (randperm : nat -> list nat)
    (randint : nat -> nat -> list nat) (self : EuclideanCodebook)
    (batch_samples : list (list (list Q))) :
  threshold_ema_dead_code self = 0%Z ->
  expire_codes_ randperm randint self batch_samples = Ok self.
Proof. intros H. unfold expire_codes_. by rewrite H. Qed.

Lemma C8_expire_codes_disabled_witness :
  expire_codes_ (fun n => seq 0 n) (fun h n => replicate n 0%nat) (dead_codebook 0)
    [[[7; 7]; [8; 8]]] = Ok (dead_codebook 0).
Proof. apply C8_expire_codes_disabled. reflexivity. Defined.

(** With a positive threshold the same call does replace the dead code. *)
Lemma expire_codes_enabled_example :
  embed <$> expire_codes_ (fun n => seq 0 n) (fun h n => replicate n 0%nat) (dead_codebook 2)
              [[[7; 7]; [8; 8]]]
  = Ok [[7; 7]; [2; 2]].
Proof. reflexivity. Qed.

(** ** ResidualVectorQuantizer.get_num_quantizers_for_bandwidth *)

(** Closed goals on floats are decided by evaluation. *)
Ltac float_compute := vm_compute; first [reflexivity | discriminate].

Lemma round64_no_overflow (x : Q) : no_overflow x -> round64 x = Finite (double x).
Proof.
  unfold no_overflow, double, round64. intros H.
  destruct (Qle_bool _ _) eqn:E; [|done]. apply Qle_bool_iff in E. lra.
Qed.

(** C3, as stated, fails in its bound: with the default 8 quantizers of 1024
    bins at 75 frames per second, a bandwidth of 24 (kbps) yields 32 stages. *)
Lemma C3_stage_count_exceeds_n_q :
  ~ (forall (self : ResidualVectorQuantizer) (frame_rate : Z) (bandwidth : Q) (n : Z),
       0 < bandwidth ->
       get_num_quantizers_for_bandwidth log2_exact self frame_rate (Some bandwidth) = Ok n ->
       (n <= n_q self)%Z).
Proof.
  intros H.
  specialize (H default_quantizer 75%Z 24 32%Z).
  assert (Hle : (32 <= n_q default_quantizer)%Z).
  { apply H; [reflexivity|]. vm_compute. reflexivity. }
  simpl in Hle. lia.
Qed.

(** C3, amended.  The codebook size is looked at first: [math.log2] raises
    on a size that is not positive, whatever the bandwidth.  Otherwise, when
    the bandwidth per quantizer is a float (the frame rate converts), the
    function returns the configured n_q for no bandwidth and for a bandwidth
    that is not positive; for a positive bandwidth and a nonzero bandwidth
    per quantizer it returns max(1, floor(bandwidth * 1000 / (log2(bins) *
    frame_rate))) with every product and the quotient rounded to the nearest
    float, which is at least 1 and is not capped by the configured n_q; when
    the two numbers of bits are whole numbers below 2^26 the floor is that
    of their exact quotient. *)
Theorem C3_num_quantizers_for_bandwidth (math_log2 : Z -> Q)
    (self : ResidualVectorQuantizer) (frame_rate : Z) :
  ((bins self <= 0)%Z ->
   forall bandwidth,
     get_num_quantizers_for_bandwidth math_log2 self frame_rate bandwidth
     = Raise ValueError)
  /\ (forall bw_per_q,
        get_bandwidth_per_quantizer math_log2 self frame_rate = Ok bw_per_q ->
        get_num_quantizers_for_bandwidth math_log2 self frame_rate None = Ok (n_q self)
        /\ forall bandwidth, no_overflow bandwidth -> double bandwidth <= 0 ->
             get_num_quantizers_for_bandwidth math_log2 self frame_rate (Some bandwidth)
             = Ok (n_q self))
  /\ ((0 < bins self)%Z -> (Z.abs frame_rate < 2 ^ 53)%Z ->
      let log2_bins := double (math_log2 (bins self)) in
      let bw_per_q := double (log2_bins * inject_Z frame_rate) in
      no_overflow (math_log2 (bins self)) ->
      no_overflow (log2_bins * inject_Z frame_rate) ->
      get_bandwidth_per_quantizer math_log2 self frame_rate = Ok (Finite bw_per_q)
      /\ forall bandwidth,
           let bits := double (double bandwidth * 1000) in
           let q := double (bits / bw_per_q) in
           0 < double bandwidth -> ~ bw_per_q == 0 ->
           no_overflow bandwidth -> no_overflow (double bandwidth * 1000) ->
           no_overflow (bits / bw_per_q) ->
           get_num_quantizers_for_bandwidth math_log2 self frame_rate (Some bandwidth)
           = Ok (Z.max 1 (Qfloor q))
           /\ (1 <= Z.max 1 (Qfloor q))%Z
           /\ forall B P : Z,
                bits == inject_Z B -> bw_per_q == inject_Z P ->
                (0 <= B < 2 ^ 26)%Z -> (0 < P < 2 ^ 26)%Z ->
                Qfloor q = (B / P)%Z).
Proof.
  split; [|split].
  - intros Hb bandwidth.
    unfold get_num_quantizers_for_bandwidth, get_bandwidth_per_quantizer, log2_of_int.
    by destruct (Z.leb_spec (bins self) 0); [|lia].
  - intros bw_per_q E. unfold get_num_quantizers_for_bandwidth. rewrite E.
    cbn [mbind result_bind]. split; [done|].
    intros bandwidth Hno Hle. rewrite (round64_no_overflow _ Hno).
    cbn [float_bool float_gt0]. apply Qltb_false in Hle. rewrite Hle.
    by rewrite andb_false_r.
  - intros Hb Hfr log2_bins bw_per_q Hl Hp.
    assert (E : get_bandwidth_per_quantizer math_log2 self frame_rate
                = Ok (Finite bw_per_q)).
    { unfold get_bandwidth_per_quantizer, log2_of_int.
      destruct (Z.leb_spec (bins self) 0); [lia|]. cbn [mbind result_bind].
      rewrite (float_of_int_exact _ Hfr). cbn [mbind result_bind].
      rewrite (round64_no_overflow _ Hl). cbn [float_mul].
      fold log2_bins. by rewrite (round64_no_overflow _ Hp). }
    split; [done|].
    intros bandwidth bits q Hpos Hnz Hb1 Hb2 Hb3. split; [|split; [lia|]].
    2:{ intros B P EB EP HB HP. unfold q, double.
        rewrite (round_to_comp _ _ _ (inject_Z B / inject_Z P)) by (by rewrite EB, EP).
        by apply floor_double_quotient. }
    unfold get_num_quantizers_for_bandwidth. rewrite E. cbn [mbind result_bind].
    rewrite (round64_no_overflow _ Hb1). cbn [float_bool float_gt0 float_mul].
    assert (Hz : Qzero (double bandwidth) = false) by (apply Qzero_false; lra).
    apply Qltb_true in Hpos. rewrite Hz, Hpos. cbn [negb andb].
    rewrite (round64_no_overflow _ Hb2). fold bits. cbn [float_truediv].
    apply Qzero_false in Hnz. rewrite Hnz. cbn [mbind result_bind].
    by rewrite (round64_no_overflow _ Hb3).
Qed.

Lemma C3_num_quantizers_for_bandwidth_witness :
  get_num_quantizers_for_bandwidth log2_exact default_quantizer 75 (Some 6) = Ok 8%Z
  /\ get_num_quantizers_for_bandwidth log2_exact default_quantizer 75 (Some (3 # 2)) = Ok 2%Z
  /\ get_num_quantizers_for_bandwidth log2_exact default_quantizer 75 (Some (-1)) = Ok 8%Z.
Proof.
  pose proof (C3_num_quantizers_for_bandwidth log2_exact default_quantizer 75)
    as (_ & Hle & Hpos).
  destruct Hpos as [Ebw Hpos]; [float_compute..|].
  split; [|split].
  - destruct (Hpos 6) as [E _]; [float_compute..|exact E].
  - destruct (Hpos (3 # 2)) as [E _]; [float_compute..|exact E].
  - apply (proj2 (Hle _ Ebw) (-1)); float_compute.
Defined.

(** A bandwidth too small for one stage still yields one stage, a zero
    frame rate makes the division fail, and a codebook size that is not
    positive makes [math.log2] fail.  The floor is taken of the rounded
    quotient: the float 0.03 times 1000 is the float 30, so a budget just
    under 30 bits yields 3 stages of 10 bits, and 2.01 yields 200 stages
    where the quotient of the numbers as written is 201. *)
Lemma get_num_quantizers_for_bandwidth_examples :
  get_num_quantizers_for_bandwidth log2_exact default_quantizer 75 (Some (1 # 10)) = Ok 1%Z
  /\ get_num_quantizers_for_bandwidth log2_exact default_quantizer 0 (Some 6)
     = Raise ZeroDivisionError
  /\ get_num_quantizers_for_bandwidth log2_exact
       {| dimension := 256; n_q := 8; bins := 0; vq := {| layers := [] |} |} 75 None
     = Raise ValueError
  /\ get_num_quantizers_for_bandwidth log2_exact default_quantizer 1
       (Some three_hundredths) = Ok 3%Z
  /\ double three_hundredths < three_hundredths
  /\ get_num_quantizers_for_bandwidth log2_exact default_quantizer 1
       (Some two_and_a_hundredth) = Ok 200%Z.
Proof. repeat split; vm_compute; reflexivity. Qed.

(** The rounding agrees with the Standard Library's specification of the
    binary64 division, multiplication and addition on the sample pairs, in
    the subnormal range and at the overflow threshold too. *)
Lemma round64_agrees_with_SpecFloat :
  forallb (fun ab : Z * Z =>
             let x := double (inject_Z ab.1) in
             let y := double (inject_Z ab.2) in
             let q := SFdiv 53 1024 (Z2SF ab.1) (Z2SF ab.2) in
             match SF2Q q, SF2Q (SFmul 53 1024 q (Z2SF ab.2)),
                   SF2Q (SFadd 53 1024 q (Z2SF 1)) with
             | Some d, Some m, Some s =>
                 Qeq_bool d (double (x / y))
                 && Qeq_bool m (double (double (x / y) * y))
                 && Qeq_bool s (double (double (x / y) + 1))
             | _, _, _ => false
             end) rounding_samples = true
  /\ forallb (fun ab : Z * Z =>
                let small := SFdiv 53 1024 (Z2SF 1) (Z2SF ab.1) in
                match SF2Q (SFdiv 53 1024 small (Z2SF ab.2)),
                      float_truediv (round64 (1 / inject_Z ab.1)) (Finite (inject_Z ab.2)) with
                | Some d, Ok (Finite d') => Qeq_bool d d'
                | _, _ => false
                end) tiny_samples = true
  /\ forallb (fun ab : Z * Z =>
                match SFmul 53 1024 (Z2SF ab.1) (Z2SF ab.2),
                      float_mul (Finite (inject_Z ab.1)) (Finite (inject_Z ab.2)) with
                | S754_infinity s, Infinity s' => Bool.eqb s s'
                | _, _ => false
                end) huge_samples = true.
Proof. repeat split; vm_compute; reflexivity. Qed.

(** ** box_iou and generalized_box_iou *)

Lemma Qmax_same (a : Q) : Qmax a a = a.
Proof. unfold Qmax. by destruct (Qle_bool a a). Qed.

Lemma Qmin_same (a : Q) : Qmin a a = a.
Proof. unfold Qmin. by destruct (Qle_bool a a). Qed.

Lemma clamp_min0_spec (a : Q) :
  (0 <= a /\ clamp_min0 a == a) \/ (a < 0 /\ clamp_min0 a = 0).
Proof.
  unfold clamp_min0. destruct (Qmax_spec a 0) as [[H E]|[H E]]; rewrite E.
  - destruct (Qlt_le_dec a 0); [by right|]. left. split; [done|lra].
  - left. split; [lra|reflexivity].
Qed.

Lemma clamp_min0_nonneg (a : Q) : 0 <= clamp_min0 a.
Proof. destruct (clamp_min0_spec a) as [[H E]|[H E]]; rewrite E; lra. Qed.

Lemma clamp_min0_pos (a : Q) : 0 < a -> clamp_min0 a = a.
Proof.
  intros H. unfold clamp_min0. destruct (Qmax_spec a 0) as [[H' E]|[H' E]]; [lra|done].
Qed.

Lemma positive_box_ordered (b : Box) : positive_box b -> corners_ordered b = true.
Proof.
  intros [Hx Hy]. unfold corners_ordered.
  apply andb_true_iff. split; apply Qle_bool_iff; lra.
Qed.

Lemma box_iou1_union_pos (a b : Box) :
  positive_box a -> positive_box b -> 0 < (box_iou1 a b).2.
Proof.
  intros [Hax Hay] [Hbx Hby]. unfold box_iou1, box_area. simpl.
  set (wx := clamp_min0 _). set (wy := clamp_min0 _).
  assert (Hwx : 0 <= wx /\ wx <= b2 a - b0 a).
  { subst wx. split; [apply clamp_min0_nonneg|].
    destruct (clamp_min0_spec (Qmin (b2 a) (b2 b) - Qmax (b0 a) (b0 b))) as [[H E]|[H E]];
      rewrite E; [|lra].
    destruct (Qmin_spec (b2 a) (b2 b)) as [[? ->]|[? ->]];
      destruct (Qmax_spec (b0 a) (b0 b)) as [[? ->]|[? ->]]; lra. }
  assert (Hwy : 0 <= wy /\ wy <= b3 a - b1 a).
  { subst wy. split; [apply clamp_min0_nonneg|].
    destruct (clamp_min0_spec (Qmin (b3 a) (b3 b) - Qmax (b1 a) (b1 b))) as [[H E]|[H E]];
      rewrite E; [|lra].
    destruct (Qmin_spec (b3 a) (b3 b)) as [[? ->]|[? ->]];
      destruct (Qmax_spec (b1 a) (b1 b)) as [[? ->]|[? ->]]; lra. }
  clearbody wx wy.
  assert (0 < (b2 b - b0 b) * (b3 b - b1 b)) by nra.
  assert (wx * wy <= (b2 a - b0 a) * (b3 a - b1 a)) by nra.
  lra.
Qed.

Lemma enclosing_area_pos (a b : Box) :
  positive_box a ->
  0 < clamp_min0 (Qmax (b2 a) (b2 b) - Qmin (b0 a) (b0 b))
      * clamp_min0 (Qmax (b3 a) (b3 b) - Qmin (b1 a) (b1 b)).
Proof.
  intros [Hax Hay].
  assert (Hx : 0 < Qmax (b2 a) (b2 b) - Qmin (b0 a) (b0 b)).
  { destruct (Qmax_spec (b2 a) (b2 b)) as [[? ->]|[? ->]];
      destruct (Qmin_spec (b0 a) (b0 b)) as [[? ->]|[? ->]]; lra. }
  assert (Hy : 0 < Qmax (b3 a) (b3 b) - Qmin (b1 a) (b1 b)).
  { destruct (Qmax_spec (b3 a) (b3 b)) as [[? ->]|[? ->]];
      destruct (Qmin_spec (b1 a) (b1 b)) as [[? ->]|[? ->]]; lra. }
  rewrite !clamp_min0_pos by done. nra.
Qed.

(** Between boxes of positive width and height every GIoU entry is finite. *)
Lemma generalized_box_iou1_finite (a b : Box) :
  positive_box a -> positive_box b -> is_Some (generalized_box_iou1 a b).
Proof.
  intros Ha Hb. unfold generalized_box_iou1.
  pose proof (box_iou1_union_pos a b Ha Hb) as Hu.
  pose proof (enclosing_area_pos a b Ha) as Harea.
  destruct (box_iou1 a b) as [iou union] eqn:E.
  assert (Hiou : is_Some iou).
  { unfold box_iou1 in E. injection E as <- <-. simpl in Hu.
    rewrite fdiv_nonzero; [done|]. unfold box_iou1 in Hu. simpl in Hu. lra. }
  destruct Hiou as [i ->]. rewrite fdiv_nonzero; [done|lra].
Qed.

(** For a box of positive width and height the GIoU with itself is 1. *)
Lemma generalized_box_iou1_self (a : Box) :
  positive_box a -> exists r, generalized_box_iou1 a a = Some r /\ r == 1.
Proof.
  intros [Hx Hy]. unfold generalized_box_iou1, box_iou1, box_area.
  rewrite !Qmax_same, !Qmin_same, !clamp_min0_pos by lra.
  assert (0 < (b2 a - b0 a) * (b3 a - b1 a)) by nra.
  rewrite !fdiv_nonzero by lra. simpl. eexists. split; [done|]. field. lra.
Qed.

Lemma generalized_box_iou_self (a : Box) :
  positive_box a ->
  exists r, generalized_box_iou [a] [a] = Ok [[Some r]] /\ r == 1.
Proof.
  intros Ha. destruct (generalized_box_iou1_self a Ha) as (r & E & Hr).
  exists r. split; [|done]. unfold generalized_box_iou. simpl.
  rewrite (positive_box_ordered a Ha). simpl. by rewrite E.
Qed.

(** C6 at a box that passes both assertions but has no area: intersection,
    union and enclosing area are all zero, and the result is 0/0 - 0/0, which
    is not a number, where the claim promises 1. *)
Theorem C6_point_box_self_giou_not_finite :
  corners_ordered point_box = true
  /\ generalized_box_iou [point_box] [point_box] = Ok [[None]].
Proof. split; reflexivity. Qed.

(** The same happens for any box of zero width (or zero height). *)
Lemma generalized_box_iou_self_zero_width (x y0 y1 : Q) :
  y0 <= y1 ->
  generalized_box_iou [mkBox x y0 x y1] [mkBox x y0 x y1] = Ok [[None]].
Proof.
  intros Hy. unfold generalized_box_iou. simpl.
  assert (Hc : corners_ordered (mkBox x y0 x y1) = true).
  { unfold corners_ordered. simpl. apply andb_true_iff.
    split; apply Qle_bool_iff; lra. }
  rewrite Hc. simpl. unfold generalized_box_iou1, box_iou1, box_area. simpl.
  rewrite !Qmax_same, !Qmin_same.
  assert (Hw : clamp_min0 (x - x) == 0).
  { destruct (clamp_min0_spec (x - x)) as [[? E]|[? E]]; rewrite E; lra. }
  rewrite (fdiv_zero (clamp_min0 (x - x) * clamp_min0 (y1 - y0))); [done|].
  rewrite Hw. lra.
Qed.

(** ** SetCriterion: the normalization by num_boxes *)

Lemma forward_num_boxes_spec (targets : list Target) :
  forward_num_boxes targets == inject_Z (Z.max 1 (Z.of_nat (total_target_boxes targets)))
  /\ 1 <= forward_num_boxes targets.
Proof.
  unfold forward_num_boxes.
  set (n := Z.of_nat (total_target_boxes targets)).
  destruct (Qmax_spec (inject_Z n) 1) as [[H E]|[H E]]; rewrite E.
  - assert (Hn : (n <= 1)%Z) by (by rewrite (Zle_Qle n 1)).
    rewrite Z.max_l by lia. split; [reflexivity|lra].
  - assert (Hn : (1 < n)%Z) by (by rewrite (Zlt_Qlt 1 n)).
    rewrite Z.max_r by lia. split; [reflexivity|lra].
Qed.

Lemma forward_num_boxes_no_targets (targets : list Target) :
  total_target_boxes targets = 0%nat -> forward_num_boxes targets = 1.
Proof. intros H. unfold forward_num_boxes. by rewrite H. Qed.

(** ** Lists, loops that may raise, and matrices *)

Lemma mapR_ok_map {A B} (f : A -> result B) (g : A -> B) (l : list A) :
  Forall (fun x => f x = Ok (g x)) l -> mapR f l = Ok (g <$> l).
Proof.
  induction 1 as [|x l Hx _ IH]; simpl; [done|]. by rewrite Hx, IH.
Qed.

Lemma mapR_ok_length {A B} (f : A -> result B) (l : list A) (ys : list B) :
  mapR f l = Ok ys -> length ys = length l.
Proof.
  revert ys. induction l as [|x l IH]; simpl; intros ys H.
  - by injection H as <-.
  - destruct (f x); [|done]. destruct (mapR f l) eqn:E; [|done].
    injection H as <-. simpl. f_equal. by apply IH.
Qed.

Lemma mapR_ok_Forall2 {A B} (f : A -> result B) (l : list A) (ys : list B) :
  mapR f l = Ok ys -> Forall2 (fun x y => f x = Ok y) l ys.
Proof.
  revert ys. induction l as [|x l IH]; simpl; intros ys H.
  - injection H as <-. constructor.
  - destruct (f x) eqn:Ex; [|done]. destruct (mapR f l) eqn:E; [|done].
    injection H as <-. constructor; [done|]. by apply IH.
Qed.

Lemma Qsum_app (l1 l2 : list Q) : Qsum (l1 ++ l2) == Qsum l1 + Qsum l2.
Proof.
  induction l1 as [|a l1 IH]; simpl; [lra|]. rewrite IH. lra.
Qed.

Lemma Qsum_le (f g : list Q) : Forall2 Qle f g -> Qsum f <= Qsum g.
Proof. induction 1; simpl; lra. Qed.

Lemma Qsum_eq (f g : list Q) : Forall2 Qeq f g -> Qsum f == Qsum g.
Proof. induction 1 as [|x y l l' Hxy _ IH]; simpl; [reflexivity|]. rewrite Hxy, IH. reflexivity. Qed.

Lemma rect_cons {A} (d n : nat) (r : list A) (m : list (list A)) :
  rect (S d) n (r :: m) <-> length r = n /\ rect d n m.
Proof.
  unfold rect. simpl. rewrite Forall_cons. split.
  - intros (? & ? & ?). split; [done|]. split; [lia|done].
  - intros (? & ? & ?). split; [lia|]. by split.
Qed.

Lemma transpose_cons {A} (r r' : list A) (m : list (list A)) :
  transpose (r :: r' :: m) = zip_with cons r (transpose (r' :: m)).
Proof. reflexivity. Qed.

Lemma transpose_rect {A} (d n : nat) (m : list (list A)) :
  rect (S d) n m -> rect n (S d) (transpose m).
Proof.
  revert m. induction d as [|d IH]; intros [|r m] H; try (destruct H as [? _]; simpl in *; lia).
  - apply rect_cons in H as [Hr [Hm _]]. destruct m; [|done]. simpl.
    split; [by rewrite length_fmap|]. apply Forall_fmap, Forall_true. done.
  - apply rect_cons in H as [Hr Hm]. destruct m as [|r' m]; [destruct Hm; simpl in *; lia|].
    rewrite transpose_cons. apply IH in Hm as [Hl Hf].
    split.
    + rewrite length_zip_with. lia.
    + clear Hl. revert Hf. subst n. generalize (transpose (r' :: m)).
      clear. intros t. revert r. induction t as [|c t IHt]; intros [|a r] Hf; simpl; try constructor.
      * simpl. f_equal. by inversion Hf.
      * apply IHt. by inversion Hf.
Qed.

(** Transposing the transpose of a matrix with at least one column. *)
Lemma transpose_singletons {A} (r : list A) :
  r <> [] -> transpose ((fun a => [a]) <$> r) = [r].
Proof.
  induction r as [|a r IH]; [done|]. intros _. destruct r as [|a' r]; [done|].
  specialize (IH ltac:(done)).
  rewrite !fmap_cons in *. rewrite transpose_cons, IH. reflexivity.
Qed.

Lemma transpose_zip_cons {A} (c : list A) (m : list (list A)) :
  m <> [] -> length c = length m -> Forall (fun r => r <> []) m ->
  transpose (zip_with cons c m) = c :: transpose m.
Proof.
  revert c. induction m as [|r m IH]; [done|]. intros [|a c] _ Hlen Hne; [done|].
  simpl in Hlen. destruct m as [|r' m].
  - destruct c; [|done]. simpl. destruct r as [|b r]; [by inversion Hne|]. done.
  - destruct c as [|a' c]; [done|].
    change (zip_with cons (a :: a' :: c) (r :: r' :: m))
      with ((a :: r) :: (a' :: r') :: zip_with cons c m).
    rewrite transpose_cons.
    change ((a' :: r') :: zip_with cons c m) with (zip_with cons (a' :: c) (r' :: m)).
    rewrite IH; [|done|simpl in *; lia|by inversion Hne].
    reflexivity.
Qed.

Lemma transpose_involutive {A} (d n : nat) (m : list (list A)) :
  rect (S d) (S n) m -> transpose (transpose m) = m.
Proof.
  revert m. induction d as [|d IH]; intros [|r m] H; try (destruct H as [? _]; simpl in *; lia).
  - apply rect_cons in H as [Hr [Hm _]]. destruct m; [|done]. simpl.
    apply transpose_singletons. destruct r; [done|done].
  - apply rect_cons in H as [Hr Hm]. destruct m as [|r' m]; [destruct Hm; simpl in *; lia|].
    rewrite transpose_cons.
    pose proof (transpose_rect _ _ _ Hm) as [Hl Hf].
    rewrite transpose_zip_cons.
    + by rewrite IH.
    + intros E. rewrite E in Hl. simpl in Hl. lia.
    + lia.
    + eapply Forall_impl; [exact Hf|]. simpl. intros x Hx ->. done.
Qed.

Lemma transpose_zip_with {A} (f : A -> A -> A) (d n : nat) (a b : list (list A)) :
  rect d n a -> rect d n b ->
  transpose (zip_with (zip_with f) a b) = zip_with (zip_with f) (transpose a) (transpose b).
Proof.
  revert a b. induction d as [|d IH]; intros [|ra a] [|rb b] Ha Hb;
    try (destruct Ha as [? _]; destruct Hb as [? _]; simpl in *; lia); [done|].
  apply rect_cons in Ha as [Hra Ha]. apply rect_cons in Hb as [Hrb Hb].
  destruct a as [|ra' a], b as [|rb' b];
    try (destruct Ha as [? _]; destruct Hb as [? _]; simpl in *; lia).
  - simpl. clear. revert rb. induction ra as [|x ra IHr]; intros [|y rb]; simpl; try done.
    by rewrite IHr.
  - change (zip_with (zip_with f) (ra :: ra' :: a) (rb :: rb' :: b))
      with (zip_with f ra rb :: zip_with (zip_with f) (ra' :: a) (rb' :: b)).
    assert (Hne : exists z zs, zip_with (zip_with f) (ra' :: a) (rb' :: b) = z :: zs)
      by (simpl; eauto).
    destruct Hne as (z & zs & Ez). rewrite Ez, transpose_cons, <- Ez.
    rewrite (IH _ _ Ha Hb), !transpose_cons.
    generalize (transpose (ra' :: a)) (transpose (rb' :: b)). clear.
    intros ta tb. revert rb ta tb. induction ra as [|x ra IHr]; intros [|y rb] [|u ta] [|v tb];
      simpl; try done.
    by rewrite IHr.
Qed.

(** ** EuclideanCodebook: quantize picks a nearest codebook vector *)

Lemma argmax_from_spec (l pre : list Q) (best_i i : nat) (best : Q) :
  length pre = i -> pre !! best_i = Some best -> Forall (fun y => y <= best) pre ->
  exists m, (pre ++ l) !! argmax_from best_i best i l = Some m
            /\ Forall (fun y => y <= m) (pre ++ l).
Proof.
  revert pre best_i i best. induction l as [|v l IH]; intros pre bi i b Hlen Hb Hall; simpl.
  - rewrite app_nil_r. eauto.
  - replace (pre ++ v :: l) with ((pre ++ [v]) ++ l) by (by rewrite <- app_assoc).
    destruct (Qltb b v) eqn:E.
    + apply Qltb_true in E. apply IH.
      * rewrite length_app. simpl. lia.
      * rewrite lookup_app_r by lia. by replace (i - length pre)%nat with 0%nat by lia.
      * apply Forall_app. split.
        -- eapply Forall_impl; [exact Hall|]. simpl. intros. lra.
        -- repeat constructor. lra.
    + apply Qltb_false in E. apply IH.
      * rewrite length_app. simpl. lia.
      * by apply lookup_app_l_Some.
      * apply Forall_app. split; [done|]. by repeat constructor.
Qed.

Lemma argmax_spec (v : Q) (l : list Q) :
  exists j m, argmax (v :: l) = Ok j /\ (v :: l) !! j = Some m
              /\ Forall (fun y => y <= m) (v :: l).
Proof.
  destruct (argmax_from_spec l [v] 0 1 v) as (m & Hm & Hall); try done.
  { repeat constructor. lra. }
  exists (argmax_from 0 v 1 l), m. by repeat split.
Qed.

Lemma quantize1_spec (d : nat) (cb : EuclideanCodebook) (x : list Q) :
  codebook_ok d cb -> length x = d ->
  exists i e, quantize1 cb x = Ok i /\ embed cb !! i = Some e
              /\ Forall (fun e' => neg_sq_dist x e' <= neg_sq_dist x e) (embed cb).
Proof.
  intros [Hne Hdim] Hx. unfold quantize1.
  assert (Hall : forallb (fun e => (length e =? length x)%nat) (embed cb) = true).
  { apply forallb_forall. intros e He. apply Nat.eqb_eq.
    rewrite Forall_forall in Hdim. rewrite Hx. apply Hdim. by apply list_elem_of_In. }
  rewrite Hall. destruct (embed cb) as [|e0 es] eqn:E; [done|].
  destruct (argmax_spec (neg_sq_dist x e0) (neg_sq_dist x <$> es)) as (j & m & Hj & Hm & Hmax).
  change (neg_sq_dist x e0 :: (neg_sq_dist x <$> es)) with (neg_sq_dist x <$> (e0 :: es)) in *.
  rewrite list_lookup_fmap in Hm.
  destruct ((e0 :: es) !! j) as [e|] eqn:Ee; [|done].
  exists j, e. split; [done|]. split; [done|].
  simpl in Hm. injection Hm as <-. rewrite Forall_forall in Hmax.
  apply Forall_forall. intros e' He'. apply Hmax. by apply list_elem_of_fmap_2.
Qed.

Lemma nearest_spec (d : nat) (cb : EuclideanCodebook) (x : list Q) :
  codebook_ok d cb -> length x = d ->
  quantize1 cb x = Ok (nearest cb x)
  /\ embed cb !! nearest cb x = Some (qframe cb x)
  /\ length (qframe cb x) = d
  /\ Forall (fun e' => neg_sq_dist x e' <= neg_sq_dist x (qframe cb x)) (embed cb).
Proof.
  intros Hcb Hx. destruct (quantize1_spec d cb x Hcb Hx) as (i & e & Hq & He & Hmax).
  unfold qframe, nearest. rewrite Hq, He. simpl. repeat split; try done.
  destruct Hcb as [_ Hdim]. rewrite Forall_forall in Hdim. apply Hdim.
  by eapply list_elem_of_lookup_2.
Qed.

Lemma sumsq_cons (a : Q) (x : list Q) : sumsq (a :: x) = a * a + sumsq x.
Proof. reflexivity. Qed.

Lemma dot_cons (a b : Q) (x e : list Q) : dot (a :: x) (b :: e) = a * b + dot x e.
Proof. reflexivity. Qed.

Lemma sumsq_sub (x e : list Q) :
  length x = length e ->
  sumsq (zip_with Qminus x e) == sumsq x - 2 * dot x e + sumsq e.
Proof.
  revert e. induction x as [|a x IH]; intros [|b e] Hlen; try done.
  change (zip_with Qminus (a :: x) (b :: e)) with ((a - b) :: zip_with Qminus x e).
  rewrite !sumsq_cons, dot_cons, IH by (simpl in Hlen; lia). ring.
Qed.

Lemma sumsq_nonneg (x : list Q) : 0 <= sumsq x.
Proof.
  induction x as [|a x IH]; [by compute|]. rewrite sumsq_cons. nra.
Qed.

Lemma sumsq_sub_zero (x z : list Q) :
  length x = length z -> Forall (fun a => a == 0) z ->
  sumsq (zip_with Qminus x z) == sumsq x.
Proof.
  revert z. induction x as [|a x IH]; intros [|b z] Hlen Hz; try done.
  change (zip_with Qminus (a :: x) (b :: z)) with ((a - b) :: zip_with Qminus x z).
  inversion Hz as [|? ? Hb Hz']; subst.
  rewrite !sumsq_cons, IH by (simpl in Hlen; lia || done). rewrite Hb. ring.
Qed.

(** The chosen vector is at least as close as any other codebook vector. *)
Lemma qframe_nearest (d : nat) (cb : EuclideanCodebook) (x e : list Q) :
  codebook_ok d cb -> length x = d -> e ∈ embed cb ->
  sumsq (zip_with Qminus x (qframe cb x)) <= sumsq (zip_with Qminus x e).
Proof.
  intros Hcb Hx He. destruct (nearest_spec d cb x Hcb Hx) as (_ & _ & Hlen & Hmax).
  rewrite Forall_forall in Hmax. specialize (Hmax e He).
  assert (Hle : length e = d).
  { destruct Hcb as [_ Hdim]. rewrite Forall_forall in Hdim. by apply Hdim. }
  unfold neg_sq_dist in Hmax.
  rewrite !sumsq_sub by congruence. lra.
Qed.

(** With the zero vector in the codebook, a stage cannot lengthen a frame. *)
Lemma qframe_shrinks (d : nat) (cb : EuclideanCodebook) (x : list Q) :
  codebook_ok d cb -> has_zero_vector cb -> length x = d ->
  sumsq (zip_with Qminus x (qframe cb x)) <= sumsq x.
Proof.
  intros Hcb Hz Hx. apply Exists_exists in Hz as (z & Hin & Hz).
  pose proof (qframe_nearest d cb x z Hcb Hx Hin) as Hle.
  rewrite (sumsq_sub_zero x z) in Hle; [exact Hle| |exact Hz].
  destruct Hcb as [_ Hdim]. rewrite Forall_forall in Hdim. rewrite Hx. symmetry. by apply Hdim.
Qed.

Lemma postprocess_emb_concat {A B} (g : A -> B) (x : list (list A)) :
  postprocess_emb (g <$> concat x) x = fmap (M:=list) (fmap (M:=list) g) x.
Proof.
  induction x as [|r x IH]; simpl; [done|].
  rewrite fmap_app, take_app_length', drop_app_length' by (by rewrite length_fmap).
  by rewrite IH.
Qed.

(** [frames] has shape [b, n, d]. *)
Lemma EuclideanCodebook_encode_ok (d : nat) (cb : EuclideanCodebook)
    (frames : list (list (list Q))) :
  codebook_ok d cb -> Forall (Forall (fun f => length f = d)) frames ->
  EuclideanCodebook_encode cb frames = Ok (fmap (M:=list) (fmap (M:=list) (nearest cb)) frames).
Proof.
  intros Hcb Hf. unfold EuclideanCodebook_encode, quantize.
  destruct (embed cb) eqn:E; [by destruct Hcb|]. clear E.
  rewrite (mapR_ok_map _ (nearest cb)).
  - simpl. by rewrite postprocess_emb_concat.
  - apply Forall_concat. eapply Forall_impl; [exact Hf|]. simpl. intros fs Hfs.
    eapply Forall_impl; [exact Hfs|]. simpl. intros f Hlen.
    by destruct (nearest_spec d cb f Hcb Hlen) as [-> _].
Qed.

Lemma EuclideanCodebook_decode_ok (d : nat) (cb : EuclideanCodebook)
    (frames : list (list (list Q))) :
  codebook_ok d cb -> Forall (Forall (fun f => length f = d)) frames ->
  EuclideanCodebook_decode cb (fmap (M:=list) (fmap (M:=list) (nearest cb)) frames)
  = Ok (fmap (M:=list) (fmap (M:=list) (qframe cb)) frames).
Proof.
  intros Hcb Hf. unfold EuclideanCodebook_decode, dequantize.
  induction Hf as [|fs frames Hfs _ IH]; [done|].
  rewrite !fmap_cons. cbn [mapR]. rewrite IH. unfold index_rows.
  rewrite (mapR_ok_map _ (fun i => default [] (embed cb !! i))).
  - f_equal. f_equal. rewrite <- list_fmap_compose. done.
  - apply Forall_fmap. eapply Forall_impl; [exact Hfs|]. simpl. intros f Hlen.
    destruct (nearest_spec d cb f Hcb Hlen) as (_ & -> & _). done.
Qed.

(** ** VectorQuantization: one stage of the residual chain *)

Lemma rearrange_swap_frames {A} (d n : nat) (r : list (list (list A))) :
  shape3 (S d) n r -> Forall (rect n (S d)) (rearrange_swap r).
Proof.
  intros H. apply Forall_fmap. eapply Forall_impl; [exact H|]. simpl.
  intros m Hm. by apply transpose_rect.
Qed.

Lemma frames_dim {A} (d n : nat) (fs : list (list (list A))) :
  Forall (rect n d) fs -> Forall (Forall (fun f => length f = d)) fs.
Proof. intros H. eapply Forall_impl; [exact H|]. by intros m [_ Hm]. Qed.

Lemma VectorQuantization_encode_ok (d n : nat) (l : VectorQuantization)
    (r : list (list (list Q))) :
  layer_ok (S d) l -> shape3 (S d) n r ->
  VectorQuantization_encode l r = Ok (layer_indices l r).
Proof.
  intros Hl Hr. unfold VectorQuantization_encode, layer_indices.
  apply (EuclideanCodebook_encode_ok (S d)); [done|].
  eapply frames_dim, rearrange_swap_frames, Hr.
Qed.

Lemma VectorQuantization_decode_ok (d n : nat) (l : VectorQuantization)
    (r : list (list (list Q))) :
  layer_ok (S d) l -> shape3 (S d) n r ->
  VectorQuantization_decode l (layer_indices l r) = Ok (layer_quantized l r).
Proof.
  intros Hl Hr. unfold VectorQuantization_decode, layer_indices, layer_quantized.
  rewrite (EuclideanCodebook_decode_ok (S d)); [done|done|].
  eapply frames_dim, rearrange_swap_frames, Hr.
Qed.

Lemma qframes_rect (d n : nat) (cb : EuclideanCodebook) (fs : list (list Q)) :
  codebook_ok d cb -> rect n d fs -> rect n d (qframe cb <$> fs).
Proof.
  intros Hcb [Hlen Hf]. split; [by rewrite length_fmap|].
  apply Forall_fmap. eapply Forall_impl; [exact Hf|]. simpl. intros f Hd.
  by destruct (nearest_spec d cb f Hcb Hd) as (_ & _ & ? & _).
Qed.

Lemma layer_quantized_shape (d n : nat) (l : VectorQuantization)
    (r : list (list (list Q))) :
  layer_ok (S d) l -> shape3 (S d) (S n) r -> shape3 (S d) (S n) (layer_quantized l r).
Proof.
  intros Hl Hr. unfold layer_quantized, rearrange_swap, shape3.
  rewrite <- !list_fmap_compose. apply Forall_fmap.
  eapply Forall_impl; [exact Hr|]. simpl. intros m Hm.
  apply transpose_rect, qframes_rect; [done|]. by apply transpose_rect.
Qed.

Lemma rect_zip_with {A} (f : A -> A -> A) (d n : nat) (a b : list (list A)) :
  rect d n a -> rect d n b -> rect d n (zip_with (zip_with f) a b).
Proof.
  intros [Ha Hfa] [Hb Hfb]. split; [rewrite length_zip_with; lia|].
  clear Ha Hb. revert b Hfb. induction Hfa as [|ra a Hra _ IH]; intros [|rb b] Hfb;
    simpl; try constructor.
  - rewrite length_zip_with. inversion Hfb; subst. lia.
  - apply IH. by inversion Hfb.
Qed.

Lemma shape3_zip3 (f : Q -> Q -> Q) (d n : nat) (x y : list (list (list Q))) :
  shape3 d n x -> shape3 d n y -> shape3 d n (zip3 f x y).
Proof.
  unfold shape3, zip3. intros Hx. revert y.
  induction Hx as [|a x Ha _ IH]; intros [|b y] Hy; simpl; try constructor.
  - apply rect_zip_with; [done|]. by inversion Hy.
  - apply IH. by inversion Hy.
Qed.

Lemma stage_shape (d n : nat) (l : VectorQuantization) (r : list (list (list Q))) :
  layer_ok (S d) l -> shape3 (S d) (S n) r -> shape3 (S d) (S n) (stage l r).
Proof.
  intros Hl Hr. apply shape3_zip3; [done|]. by apply layer_quantized_shape.
Qed.

Lemma zip_with_fmap_same {A B} (f : A -> B -> A) (g : A -> B) (l : list A) :
  zip_with f l (g <$> l) = (fun a => f a (g a)) <$> l.
Proof.
  induction l as [|a l IH]; [done|].
  rewrite !fmap_cons. cbn [zip_with]. by rewrite IH.
Qed.

(** In frame layout, a stage subtracts from each frame its codebook vector. *)
Lemma rearrange_swap_stage (d n : nat) (l : VectorQuantization)
    (r : list (list (list Q))) :
  layer_ok (S d) l -> shape3 (S d) (S n) r ->
  rearrange_swap (stage l r)
  = fmap (M:=list) (fmap (M:=list) (fun f => zip_with Qminus f (qframe (_codebook l) f))) (rearrange_swap r).
Proof.
  intros Hl Hr. unfold stage, layer_quantized, rearrange_swap, zip3.
  induction Hr as [|m r Hm _ IH]; [done|].
  rewrite !fmap_cons. cbn [zip_with]. rewrite !fmap_cons. f_equal; [|exact IH].
  pose proof (transpose_rect _ _ _ Hm) as Ht.
  pose proof (qframes_rect _ _ _ _ Hl Ht) as Hq.
  rewrite (transpose_zip_with Qminus (S d) (S n)); [|done|by apply transpose_rect].
  rewrite (transpose_involutive n d) by done.
  apply zip_with_fmap_same.
Qed.

(** *** Sums of squares *)

Lemma Qsum_cons (a : Q) (l : list Q) : Qsum (a :: l) = a + Qsum l.
Proof. reflexivity. Qed.

Lemma Qsum_sumsq_zip_cons (r : list Q) (t : list (list Q)) :
  length r = length t ->
  Qsum (sumsq <$> zip_with cons r t) == sumsq r + Qsum (sumsq <$> t).
Proof.
  revert t. induction r as [|a r IH]; intros [|c t] Hlen; try done.
  change (zip_with cons (a :: r) (c :: t)) with ((a :: c) :: zip_with cons r t).
  rewrite !fmap_cons, !Qsum_cons, !sumsq_cons, IH by (simpl in Hlen; lia). ring.
Qed.

Lemma Qsum_sumsq_singletons (r : list Q) :
  Qsum (sumsq <$> ((fun a => [a]) <$> r)) == sumsq r.
Proof.
  induction r as [|a r IH]; [reflexivity|].
  rewrite !fmap_cons, Qsum_cons, !sumsq_cons, IH. change (sumsq []) with 0. ring.
Qed.

Lemma Qsum_sumsq_transpose (d n : nat) (m : list (list Q)) :
  rect (S d) n m -> Qsum (sumsq <$> transpose m) == Qsum (sumsq <$> m).
Proof.
  revert m. induction d as [|d IH]; intros [|r m] H; try (destruct H as [? _]; simpl in *; lia).
  - apply rect_cons in H as [Hr [Hm _]]. destruct m; [|done].
    change (transpose [r]) with ((fun a => [a]) <$> r).
    rewrite Qsum_sumsq_singletons. rewrite fmap_cons, Qsum_cons. change (Qsum (sumsq <$> [])) with 0. ring.
  - apply rect_cons in H as [Hr Hm]. destruct m as [|r' m]; [destruct Hm; simpl in *; lia|].
    rewrite transpose_cons, Qsum_sumsq_zip_cons.
    + rewrite (IH _ Hm). rewrite (fmap_cons sumsq r), Qsum_cons. reflexivity.
    + destruct (transpose_rect _ _ _ Hm) as [Hl _]. lia.
Qed.

Lemma sumsq3_cons (m : list (list Q)) (x : list (list (list Q))) :
  sumsq3 (m :: x) = Qsum (sumsq <$> m) + sumsq3 x.
Proof. reflexivity. Qed.

Lemma sumsq3_rearrange_swap (d n : nat) (x : list (list (list Q))) :
  shape3 (S d) n x -> sumsq3 (rearrange_swap x) == sumsq3 x.
Proof.
  induction 1 as [|m x Hm _ IH]; [reflexivity|].
  unfold rearrange_swap in *. rewrite fmap_cons, !sumsq3_cons, IH.
  by rewrite (Qsum_sumsq_transpose d n m Hm).
Qed.

Lemma sumsq3_frames_shrink (d : nat) (cb : EuclideanCodebook)
    (fs : list (list (list Q))) :
  codebook_ok d cb -> has_zero_vector cb ->
  Forall (Forall (fun f => length f = d)) fs ->
  sumsq3 (fmap (M:=list) (fmap (M:=list) (fun f => zip_with Qminus f (qframe cb f))) fs) <= sumsq3 fs.
Proof.
  intros Hcb Hz. induction 1 as [|m fs Hm _ IH]; [by compute|].
  rewrite fmap_cons, !sumsq3_cons.
  assert (Qsum (sumsq <$> fmap (fun f => zip_with Qminus f (qframe cb f)) m)
          <= Qsum (sumsq <$> m)); [|lra].
  clear IH. induction Hm as [|f m Hf _ IH]; [by compute|].
  rewrite !fmap_cons, !Qsum_cons.
  pose proof (qframe_shrinks d cb f Hcb Hz Hf). lra.
Qed.

(** With the zero vector in its codebook, a stage does not increase the
    norm of the residual. *)
Lemma stage_shrinks (d n : nat) (l : VectorQuantization) (r : list (list (list Q))) :
  layer_ok (S d) l -> has_zero_vector (_codebook l) -> shape3 (S d) (S n) r ->
  sumsq3 (stage l r) <= sumsq3 r.
Proof.
  intros Hl Hz Hr.
  rewrite <- (sumsq3_rearrange_swap d (S n) (stage l r)) by (by apply stage_shape).
  rewrite <- (sumsq3_rearrange_swap d (S n) r) by done.
  rewrite (rearrange_swap_stage d n) by done.
  apply (sumsq3_frames_shrink (S d)); [done|done|].
  eapply frames_dim, rearrange_swap_frames, Hr.
Qed.

(** ** ResidualVectorQuantization: encode and decode along the chain *)

Lemma encode_loop_ok (d n : nat) (ls : list VectorQuantization)
    (r : list (list (list Q))) :
  Forall (layer_ok (S d)) ls -> shape3 (S d) (S n) r ->
  encode_loop ls r = Ok (stage_indices ls r).
Proof.
  intros Hls. revert r. induction Hls as [|l ls Hl _ IH]; intros r Hr; [done|].
  cbn [encode_loop stage_indices].
  rewrite (VectorQuantization_encode_ok d (S n)) by done. cbn [mbind result_bind].
  rewrite (VectorQuantization_decode_ok d (S n)) by done. cbn [mbind result_bind].
  fold (stage l r). rewrite IH by (by apply stage_shape). done.
Qed.

Lemma stage_indices_length (ls : list VectorQuantization) (r : list (list (list Q))) :
  length (stage_indices ls r) = length ls.
Proof. revert r. induction ls as [|l ls IH]; intros r; simpl; [done|]. by rewrite IH. Qed.

Lemma decode_loop_ok (d n : nat) (self : ResidualVectorQuantization)
    (ls : list VectorQuantization) (i : nat) (r : list (list (list Q))) (out : tensor) :
  Forall (layer_ok (S d)) ls -> shape3 (S d) (S n) r ->
  (forall k l, ls !! k = Some l -> layers self !! (i + k)%nat = Some l) ->
  decode_loop self i (stage_indices ls r) out = Ok (decoded ls r out).
Proof.
  intros Hls. revert i r out.
  induction Hls as [|l ls Hl _ IH]; intros i r out Hr Hlk; [done|].
  cbn [decode_loop stage_indices decoded].
  rewrite <- (Nat.add_0_r i) at 1. rewrite (Hlk 0%nat l) by done.
  rewrite (VectorQuantization_decode_ok d (S n)) by done. cbn [mbind result_bind].
  apply IH; [by apply stage_shape|].
  intros k l' Hk. replace (S i + k)%nat with (i + S k)%nat by lia. by apply Hlk.
Qed.

Lemma residual_after_shape (d n : nat) (ls : list VectorQuantization)
    (r : list (list (list Q))) :
  Forall (layer_ok (S d)) ls -> shape3 (S d) (S n) r ->
  shape3 (S d) (S n) (residual_after ls r).
Proof.
  intros Hls. revert r. induction Hls as [|l ls Hl _ IH]; intros r Hr; [done|].
  apply IH. by apply stage_shape.
Qed.

Lemma residual_after_shrinks (d n : nat) (ls : list VectorQuantization)
    (r : list (list (list Q))) :
  Forall (layer_ok (S d)) ls ->
  Forall (fun l => has_zero_vector (_codebook l)) ls ->
  shape3 (S d) (S n) r ->
  sumsq3 (residual_after ls r) <= sumsq3 r.
Proof.
  intros Hls. revert r. induction Hls as [|l ls Hl _ IH]; intros r Hz Hr; [simpl; lra|].
  inversion Hz as [|? ? Hzl Hzs]; subst.
  change (residual_after (l :: ls) r) with (residual_after ls (stage l r)).
  pose proof (IH (stage l r) Hzs (stage_shape d n l r Hl Hr)).
  pose proof (stage_shrinks d n l r Hl Hzl Hr). lra.
Qed.

(** *** The reconstruction error is the norm of the last residual *)

Lemma Forall2_zip_step {A} (R S : A -> A -> Prop) (sub add : A -> A -> A) :
  (forall x o r q, R (sub x o) r -> S q r -> R (sub x (add o q)) (sub r q)) ->
  forall xs os rs qs,
    Forall2 R (zip_with sub xs os) rs -> Forall2 S qs rs ->
    Forall2 R (zip_with sub xs (zip_with add os qs)) (zip_with sub rs qs).
Proof.
  intros Hstep. induction xs as [|x xs IH]; intros os rs qs H1 H2.
  - cbn in H1. inversion H1; subst. inversion H2; subst. cbn. constructor.
  - destruct os as [|o os]; cbn in H1.
    + inversion H1; subst. inversion H2; subst. cbn. constructor.
    + inversion H1 as [|? r ? rs' Hr Hrs]; subst.
      inversion H2 as [|q ? qs' ? Hq Hqs]; subst. cbn.
      constructor; [by apply Hstep|by apply IH].
Qed.

Lemma Forall2_zip_fmap {A} (R : A -> A -> Prop) (sub : A -> A -> A) (g : A -> A) :
  (forall x q, R (sub x (g q)) (sub x q)) ->
  forall xs qs, Forall2 R (zip_with sub xs (g <$> qs)) (zip_with sub xs qs).
Proof.
  intros H. induction xs as [|x xs IH]; intros [|q qs]; cbn; constructor; eauto.
Qed.

Lemma Forall2_of_Forall {A} (P P' : A -> Prop) (R : A -> A -> Prop) (l k : list A) :
  (forall a b, P a -> P' b -> R a b) ->
  length l = length k -> Forall P l -> Forall P' k -> Forall2 R l k.
Proof.
  intros HR. revert k. induction l as [|a l IH]; intros [|b k] Hlen Hl Hk; try done.
  inversion Hl; subst. inversion Hk; subst. constructor; [by apply HR|].
  apply IH; [simpl in Hlen; lia|done|done].
Qed.

Lemma same_shape_rel3 (d n : nat) (q r : list (list (list Q))) :
  length q = length r -> shape3 d n q -> shape3 d n r -> rel3 (fun _ _ => True) q r.
Proof.
  intros Hlen Hq Hr. unfold rel3.
  apply (Forall2_of_Forall (rect d n) (rect d n)); [|done|exact Hq|exact Hr].
  intros a b [Ha Hfa] [Hb Hfb].
  apply (Forall2_of_Forall (fun r => length r = n) (fun r => length r = n));
    [|congruence|exact Hfa|exact Hfb].
  intros u v Hu Hv. apply Forall2_true; [done|congruence].
Qed.

Lemma residual_step (x o r q : list (list (list Q))) :
  rel3 Qeq (zip3 Qminus x o) r -> rel3 (fun _ _ => True) q r ->
  rel3 Qeq (zip3 Qminus x (zip3 Qplus o q)) (zip3 Qminus r q).
Proof.
  unfold rel3, zip3. apply Forall2_zip_step. clear.
  intros x o r q. apply Forall2_zip_step. clear.
  intros x o r q. apply Forall2_zip_step. clear.
  intros x o r q H _. rewrite <- H. ring.
Qed.

Lemma residual_first (x q : list (list (list Q))) :
  rel3 Qeq (zip3 Qminus x (map3 (Qplus 0) q)) (zip3 Qminus x q).
Proof.
  unfold rel3, zip3, map3. apply Forall2_zip_fmap. clear.
  intros x q. apply Forall2_zip_fmap. clear.
  intros x q. apply Forall2_zip_fmap. clear.
  intros x q. ring.
Qed.

Lemma sumsq_eq (a b : list Q) : Forall2 Qeq a b -> sumsq a == sumsq b.
Proof.
  induction 1 as [|x y a b Hxy _ IH]; [reflexivity|].
  rewrite !sumsq_cons, IH, Hxy. reflexivity.
Qed.

Lemma sumsq3_eq (a b : list (list (list Q))) : rel3 Qeq a b -> sumsq3 a == sumsq3 b.
Proof.
  induction 1 as [|m m' a b Hm _ IH]; [reflexivity|].
  rewrite !sumsq3_cons, IH.
  assert (Qsum (sumsq <$> m) == Qsum (sumsq <$> m')) as ->; [|reflexivity].
  clear IH. induction Hm as [|u v m m' Huv _ IH]; [reflexivity|].
  rewrite !fmap_cons, !Qsum_cons, IH, (sumsq_eq u v Huv). reflexivity.
Qed.

Lemma layer_quantized_length (l : VectorQuantization) (r : list (list (list Q))) :
  length (layer_quantized l r) = length r.
Proof. unfold layer_quantized, rearrange_swap. by rewrite !length_fmap. Qed.

Lemma decoded_error (d n : nat) (ls : list VectorQuantization)
    (x o r : list (list (list Q))) :
  Forall (layer_ok (S d)) ls -> shape3 (S d) (S n) r ->
  rel3 Qeq (zip3 Qminus x o) r ->
  reconstruction_error x (decoded ls r (Tensor3 o)) == sumsq3 (residual_after ls r).
Proof.
  intros Hls. revert o r. induction Hls as [|l ls Hl _ IH]; intros o r Hr Hrel.
  - simpl. by apply sumsq3_eq.
  - cbn [decoded tensor_add].
    change (residual_after (l :: ls) r) with (residual_after ls (stage l r)).
    apply IH; [by apply stage_shape|].
    apply residual_step; [done|].
    apply (same_shape_rel3 (S d) (S n)); [apply layer_quantized_length| |done].
    by apply layer_quantized_shape.
Qed.

(** After at least one stage, the error of the decoded sum is the squared
    norm of the residual the stages leave. *)
Lemma decoded_error_from_zero (d n : nat) (l : VectorQuantization)
    (ls : list VectorQuantization) (x : list (list (list Q))) :
  Forall (layer_ok (S d)) (l :: ls) -> shape3 (S d) (S n) x ->
  reconstruction_error x (decoded (l :: ls) x (Scalar 0))
  == sumsq3 (residual_after (l :: ls) x).
Proof.
  intros Hls Hx. inversion Hls as [|? ? Hl Hls']; subst.
  cbn [decoded tensor_add].
  change (residual_after (l :: ls) x) with (residual_after ls (stage l x)).
  apply (decoded_error d n); [done|by apply stage_shape|].
  apply residual_first.
Qed.

Lemma slice_to_nonneg {A} (l : list A) (n : Z) :
  (0 <= n)%Z -> slice_to l n = take (Z.to_nat n) l.
Proof. intros H. unfold slice_to. by rewrite (proj2 (Z.leb_le 0 n) H). Qed.

Lemma slice_to_all {A} (l : list A) : slice_to l (Z.of_nat (length l)) = l.
Proof.
  rewrite slice_to_nonneg by lia. rewrite Nat2Z.id. apply firstn_all.
Qed.

Lemma encode_slice_ok (d n : nat) (self : ResidualVectorQuantization)
    (x : list (list (list Q))) (k : nat) :
  Forall (layer_ok (S d)) (layers self) -> shape3 (S d) (S n) x ->
  (0 < k)%nat -> layers self <> [] ->
  (encode_loop (take k (layers self)) x ≫= torch_stack)
  = Ok (stage_indices (take k (layers self)) x)
  /\ length (stage_indices (take k (layers self)) x) = (k `min` length (layers self))%nat.
Proof.
  intros Hls Hx Hk Hne.
  rewrite (encode_loop_ok d n) by (by apply Forall_take || done).
  split; [|by rewrite stage_indices_length, length_take].
  destruct (layers self) as [|l ls]; [done|]. destruct k; [lia|]. done.
Qed.

Lemma encode_positive_ok (d n : nat) (self : ResidualVectorQuantization)
    (x : list (list (list Q))) :
  layers self <> [] ->
  Forall (layer_ok (S d)) (layers self) ->
  shape3 (S d) (S n) x ->
  forall k : Z, (0 < k)%Z ->
    ResidualVectorQuantization_encode self x (Some k)
    = Ok (stage_indices (take (Z.to_nat k) (layers self)) x)
    /\ length (stage_indices (take (Z.to_nat k) (layers self)) x)
       = (Z.to_nat k `min` length (layers self))%nat.
Proof.
  intros Hne Hls Hx k Hk. unfold ResidualVectorQuantization_encode, n_q_or_len.
  rewrite (proj2 (Z.eqb_neq k 0)) by lia.
  rewrite slice_to_nonneg by lia.
  apply (encode_slice_ok d n); [done|done|lia|done].
Qed.

(** C10: on an input of shape [b, d, n] (d, n >= 1) that fits the codebooks,
    [encode(x, n_q)] with a positive [n_q] runs min(n_q, number of layers)
    stages and returns one index tensor per stage run, so a request larger
    than the number of layers is capped by the slice and does not raise;
    with [n_q] None or 0 all layers are used. *)
Theorem C10_encode_runs_min_stages (d n : nat) (self : ResidualVectorQuantization)
    (x : list (list (list Q))) :
  layers self <> [] ->
  Forall (layer_ok (S d)) (layers self) ->
  shape3 (S d) (S n) x ->
  (forall k : Z, (0 < k)%Z ->
     exists codes,
       ResidualVectorQuantization_encode self x (Some k) = Ok codes
       /\ codes = stage_indices (take (Z.to_nat k) (layers self)) x
       /\ length codes = (Z.to_nat k `min` length (layers self))%nat)
  /\ (exists codes,
        ResidualVectorQuantization_encode self x None = Ok codes
        /\ length codes = length (layers self))
  /\ (exists codes,
        ResidualVectorQuantization_encode self x (Some 0%Z) = Ok codes
        /\ length codes = length (layers self)).
Proof.
  intros Hne Hls Hx.
  assert (Hall : exists codes,
             (encode_loop (slice_to (layers self) (Z.of_nat (length (layers self)))) x
                ≫= torch_stack) = Ok codes
             /\ length codes = length (layers self)).
  { rewrite slice_to_all.
    destruct (encode_slice_ok d n self x (length (layers self)) Hls Hx) as [E L]; [|done|].
    { destruct (layers self); [done|simpl; lia]. }
    rewrite firstn_all in E, L. eexists. split; [exact E|]. rewrite L. lia. }
  split; [|split].
  - intros k Hk. destruct (encode_positive_ok d n self x Hne Hls Hx k Hk) as [E L].
    eexists. split; [exact E|]. by split.
  - exact Hall.
  - exact Hall.
Qed.

Lemma small_rvq_ok : Forall (layer_ok 2) (layers small_rvq).
Proof. repeat constructor; try done. Qed.

Lemma small_input_shape : shape3 2 2 small_input.
Proof. repeat constructor. Qed.

Lemma C10_encode_runs_min_stages_witness :
  (exists codes,
     ResidualVectorQuantization_encode small_rvq small_input (Some 7%Z) = Ok codes
     /\ length codes = 3%nat)
  /\ (exists codes,
        ResidualVectorQuantization_encode small_rvq small_input (Some 2%Z) = Ok codes
        /\ length codes = 2%nat)
  /\ (exists codes,
        ResidualVectorQuantization_encode small_rvq small_input None = Ok codes
        /\ length codes = 3%nat).
Proof.
  destruct (C10_encode_runs_min_stages 1 1 small_rvq small_input)
    as (Hpos & Hnone & _); [done|exact small_rvq_ok|exact small_input_shape|].
  split; [|split].
  - destruct (Hpos 7%Z) as (codes & E & _ & L); [lia|]. by exists codes.
  - destruct (Hpos 2%Z) as (codes & E & _ & L); [lia|]. by exists codes.
  - exact Hnone.
Defined.

(** A negative [n_q] is taken by the slice as "all but the last"; an empty
    list of layers makes [torch.stack] fail. *)
Lemma encode_other_requests :
  length <$> ResidualVectorQuantization_encode small_rvq small_input (Some (-1)%Z) = Ok 2%nat
  /\ ResidualVectorQuantization_encode {| layers := [] |} small_input None
     = Raise RuntimeError.
Proof. split; reflexivity. Qed.

(** ** The reconstruction error along the stages *)

(** C2, as stated, fails: with the codebooks {1} and {5} and the input 0, one
    stage reconstructs 1 (squared error 1) and two stages reconstruct 6
    (squared error 36). *)
Lemma C2_error_can_grow :
  ~ (forall (self : ResidualVectorQuantization) (x : list (list (list Q)))
            (n_q1 n_q2 : Z) c1 c2 y1 y2,
       (0 < n_q1 <= n_q2)%Z -> (n_q2 <= Z.of_nat (length (layers self)))%Z ->
       ResidualVectorQuantization_encode self x (Some n_q1) = Ok c1 ->
       ResidualVectorQuantization_decode self c1 = Ok y1 ->
       ResidualVectorQuantization_encode self x (Some n_q2) = Ok c2 ->
       ResidualVectorQuantization_decode self c2 = Ok y2 ->
       reconstruction_error x y2 <= reconstruction_error x y1).
Proof.
  intros H.
  specialize (H far_rvq [[[0]]] 1%Z 2%Z [[[0%nat]]] [[[0%nat]]; [[0%nat]]]
                (Tensor3 [[[0 + 1]]]) (Tensor3 [[[0 + 1 + 5]]])).
  assert (Hle : reconstruction_error [[[0]]] (Tensor3 [[[0 + 1 + 5]]])
                <= reconstruction_error [[[0]]] (Tensor3 [[[0 + 1]]])).
  { apply H; try reflexivity; simpl; lia. }
  revert Hle. vm_compute. intros Hle. by apply Hle.
Qed.

Lemma take_take_drop {A} (l : list A) (a b : nat) :
  (a <= b)%nat -> take b l = take a l ++ take (b - a) (drop a l).
Proof.
  intros H. rewrite <- (take_drop a (take b l)).
  rewrite take_take, Nat.min_l by lia. f_equal.
  rewrite skipn_firstn_comm. done.
Qed.

Lemma residual_after_app (ls1 ls2 : list VectorQuantization) (r : list (list (list Q))) :
  residual_after (ls1 ++ ls2) r = residual_after ls2 (residual_after ls1 r).
Proof. unfold residual_after. apply foldl_app. Qed.

Lemma decode_encoded (d n : nat) (self : ResidualVectorQuantization)
    (x : list (list (list Q))) (k : nat) :
  Forall (layer_ok (S d)) (layers self) -> shape3 (S d) (S n) x ->
  ResidualVectorQuantization_decode self (stage_indices (take k (layers self)) x)
  = Ok (decoded (take k (layers self)) x (Scalar 0)).
Proof.
  intros Hls Hx. unfold ResidualVectorQuantization_decode.
  apply (decode_loop_ok d n); [by apply Forall_take|done|].
  intros j l Hj. simpl. apply lookup_take_Some in Hj. by destruct Hj.
Qed.

(** C2, amended: for an input of shape [b, d, n] that fits the codebooks and
    stage counts 0 < n_q1 <= n_q2, encode and decode succeed, decode returns
    the running sum of the dequantized vectors of the stages, and the squared
    reconstruction error is the squared norm of the residual left after the
    stages; when every codebook holds the zero vector, the error with n_q2
    stages is no larger than the error with n_q1 stages. *)
Theorem C2_error_monotone_with_zero_vector (d n : nat)
    (self : ResidualVectorQuantization) (x : list (list (list Q))) (n_q1 n_q2 : Z) :
  layers self <> [] ->
  Forall (layer_ok (S d)) (layers self) ->
  Forall (fun l => has_zero_vector (_codebook l)) (layers self) ->
  shape3 (S d) (S n) x ->
  (0 < n_q1 <= n_q2)%Z ->
  exists c1 c2 y1 y2,
    ResidualVectorQuantization_encode self x (Some n_q1) = Ok c1
    /\ ResidualVectorQuantization_decode self c1 = Ok y1
    /\ y1 = decoded (take (Z.to_nat n_q1) (layers self)) x (Scalar 0)
    /\ ResidualVectorQuantization_encode self x (Some n_q2) = Ok c2
    /\ ResidualVectorQuantization_decode self c2 = Ok y2
    /\ y2 = decoded (take (Z.to_nat n_q2) (layers self)) x (Scalar 0)
    /\ reconstruction_error x y1
       == sumsq3 (residual_after (take (Z.to_nat n_q1) (layers self)) x)
    /\ reconstruction_error x y2
       == sumsq3 (residual_after (take (Z.to_nat n_q2) (layers self)) x)
    /\ reconstruction_error x y2 <= reconstruction_error x y1.
Proof.
  intros Hne Hls Hz Hx Hn.
  destruct (encode_positive_ok d n self x Hne Hls Hx n_q1) as (E1 & _); [lia|].
  destruct (encode_positive_ok d n self x Hne Hls Hx n_q2) as (E2 & _); [lia|].
  set (k1 := Z.to_nat n_q1) in *. set (k2 := Z.to_nat n_q2) in *.
  assert (Hk : (0 < k1 <= k2)%nat) by lia.
  exists (stage_indices (take k1 (layers self)) x), (stage_indices (take k2 (layers self)) x),
         (decoded (take k1 (layers self)) x (Scalar 0)),
         (decoded (take k2 (layers self)) x (Scalar 0)).
  assert (Herr : forall k, (0 < k)%nat ->
            reconstruction_error x (decoded (take k (layers self)) x (Scalar 0))
            == sumsq3 (residual_after (take k (layers self)) x)).
  { intros k Hk0. destruct (take k (layers self)) as [|l ls] eqn:E.
    - destruct (layers self); [done|]. destruct k; [lia|done].
    - apply (decoded_error_from_zero d n); [|done]. rewrite <- E. by apply Forall_take. }
  repeat split; try done.
  - by apply (decode_encoded d n).
  - by apply (decode_encoded d n).
  - apply Herr. lia.
  - apply Herr. lia.
  - rewrite !Herr by lia.
    rewrite (take_take_drop (layers self) k1 k2) by lia.
    rewrite residual_after_app.
    apply (residual_after_shrinks d n).
    + by apply Forall_take, Forall_drop.
    + by apply Forall_take, Forall_drop.
    + apply residual_after_shape; [by apply Forall_take|done].
Qed.

Lemma small_rvq_zero : Forall (fun l => has_zero_vector (_codebook l)) (layers small_rvq).
Proof.
  repeat constructor; apply Exists_cons_hd; repeat constructor; reflexivity.
Qed.

Lemma C2_error_monotone_with_zero_vector_witness :
  exists c1 c2 y1 y2,
    ResidualVectorQuantization_encode small_rvq small_input (Some 1%Z) = Ok c1
    /\ ResidualVectorQuantization_decode small_rvq c1 = Ok y1
    /\ y1 = decoded (take (Z.to_nat 1) (layers small_rvq)) small_input (Scalar 0)
    /\ ResidualVectorQuantization_encode small_rvq small_input (Some 3%Z) = Ok c2
    /\ ResidualVectorQuantization_decode small_rvq c2 = Ok y2
    /\ y2 = decoded (take (Z.to_nat 3) (layers small_rvq)) small_input (Scalar 0)
    /\ reconstruction_error small_input y1
       == sumsq3 (residual_after (take (Z.to_nat 1) (layers small_rvq)) small_input)
    /\ reconstruction_error small_input y2
       == sumsq3 (residual_after (take (Z.to_nat 3) (layers small_rvq)) small_input)
    /\ reconstruction_error small_input y2 <= reconstruction_error small_input y1.
Proof.
  apply (C2_error_monotone_with_zero_vector 1 1 small_rvq small_input 1 3).
  - done.
  - exact small_rvq_ok.
  - exact small_rvq_zero.
  - exact small_input_shape.
  - lia.
Defined.

(** The errors of the example after one, two and three stages. *)
Lemma small_rvq_errors :
  sumsq3 (residual_after (take 1 (layers small_rvq)) small_input) == 3
  /\ sumsq3 (residual_after (take 2 (layers small_rvq)) small_input) == 1
  /\ sumsq3 (residual_after (take 3 (layers small_rvq)) small_input) == 1 # 4.
Proof. repeat split; vm_compute; reflexivity. Qed.

(** ** Dicts *)

Lemma dict_get_set {V} (k k' : string) (v : V) (d : dict V) :
  dict_get k (dict_set k' v d) = if decide (k' = k) then Some v else dict_get k d.
Proof.
  induction d as [|[k0 v0] d IH]; simpl.
  - destruct (String.eqb_spec k' k); by case_decide.
  - destruct (String.eqb_spec k0 k') as [->|Hne]; simpl.
    + destruct (String.eqb_spec k' k); by case_decide.
    + rewrite IH. destruct (String.eqb_spec k0 k) as [->|Hne']; [|done].
      by case_decide.
Qed.

Lemma dict_get_set_eq {V} (k : string) (v : V) (d : dict V) :
  dict_get k (dict_set k v d) = Some v.
Proof. rewrite dict_get_set. by case_decide. Qed.

Lemma dict_get_set_ne {V} (k k' : string) (v : V) (d : dict V) :
  k' <> k -> dict_get k (dict_set k' v d) = dict_get k d.
Proof. intros H. rewrite dict_get_set. by case_decide. Qed.

Lemma dict_update_nil {V} (d : dict V) : dict_update d [] = d.
Proof. reflexivity. Qed.

Lemma dict_update_cons {V} (d d2 : dict V) (k : string) (v : V) :
  dict_update d ((k, v) :: d2) = dict_update (dict_set k v d) d2.
Proof. reflexivity. Qed.

(** ** The loss keys and their suffixed forms *)

Ltac key_in := unfold loss_key, loss_keys; by repeat constructor.

Lemma suffixed_inj (k k' : string) (i j : nat) :
  loss_key k -> loss_key k' -> suffixed k i = suffixed k' j -> k = k' /\ i = j.
Proof.
  unfold loss_key, loss_keys, suffixed. intros Hk Hk' E.
  assert (Hsame : forall s : string, s +:+ "_" +:+ pretty i = s +:+ "_" +:+ pretty j -> i = j).
  { intros s Hs. apply (inj (String.app s)) in Hs. apply (inj (String.app "_")) in Hs.
    by apply (inj pretty) in Hs. }
  revert E. generalize (Hsame k). clear Hsame.
  generalize (pretty i) (pretty j). intros s t Hsame E.
  repeat (apply elem_of_cons in Hk as [->|Hk]);
    try (by apply elem_of_nil in Hk);
    repeat (apply elem_of_cons in Hk' as [->|Hk']);
    try (by apply elem_of_nil in Hk');
    try (simpl in E; discriminate E);
    (split; [done|by apply Hsame]).
Qed.

Lemma suffixed_not_loss_key (k k' : string) (i : nat) :
  loss_key k -> loss_key k' -> suffixed k i <> k'.
Proof.
  unfold loss_key, loss_keys, suffixed. intros Hk Hk'.
  generalize (pretty i). intros s E.
  repeat (apply elem_of_cons in Hk as [->|Hk]);
    try (by apply elem_of_nil in Hk);
    repeat (apply elem_of_cons in Hk' as [->|Hk']);
    try (by apply elem_of_nil in Hk');
    simpl in E; discriminate E.
Qed.

Lemma loss_dict_of_keys (loss : string) (ld : dict F) (k : string) (v : F) :
  loss_dict_of loss ld -> dict_get k ld = Some v -> loss_key k.
Proof.
  unfold loss_key, loss_keys.
  intros H Hk. destruct H; cbn [dict_get] in Hk;
    repeat (match type of Hk with
            | context [String.eqb ?a k] => destruct (String.eqb_spec a k) as [<-|?]
            end; [key_in|]); done.
Qed.

(** A key belongs to one loss only. *)
Lemma loss_dict_of_key_unique (l1 l2 : string) (d1 d2 : dict F) (k : string) (v1 v2 : F) :
  loss_dict_of l1 d1 -> loss_dict_of l2 d2 ->
  dict_get k d1 = Some v1 -> dict_get k d2 = Some v2 -> l1 = l2.
Proof.
  intros H1 H2 Hk1 Hk2. destruct H1, H2; try done; cbn [dict_get] in Hk1, Hk2;
    repeat (match type of Hk1 with
            | context [String.eqb ?a k] => destruct (String.eqb_spec a k) as [<-|?]
            end; try done).
Qed.

Lemma dict_get_suffix_update (i : nat) (loss : string) (ld acc : dict F)
    (k : string) (v : F) :
  loss_dict_of loss ld -> dict_get k ld = Some v ->
  dict_get (suffixed k i) (dict_update acc (suffix_keys i ld)) = Some v.
Proof.
  intros H Hk. destruct H; cbn [dict_get] in Hk.
  - destruct (String.eqb_spec "loss_ce" k) as [<-|?]; [|done]. injection Hk as <-.
    apply dict_get_set_eq.
  - destruct (String.eqb_spec "cardinality_error" k) as [<-|?]; [|done]. injection Hk as <-.
    apply dict_get_set_eq.
  - assert (Hs : suffix_keys i [("loss_bbox", a); ("loss_giou", b)]
                 = [(suffixed "loss_bbox" i, a); (suffixed "loss_giou" i, b)]).
    { unfold suffix_keys, suffixed. generalize (pretty i). by intros s. }
    rewrite Hs, !dict_update_cons, dict_update_nil.
    destruct (String.eqb_spec "loss_bbox" k) as [<-|?].
    + injection Hk as <-. rewrite dict_get_set_ne, dict_get_set_eq; [done|].
      intros E. apply suffixed_inj in E as [? _]; [done|key_in|key_in].
    + destruct (String.eqb_spec "loss_giou" k) as [<-|?]; [|done]. injection Hk as <-.
      apply dict_get_set_eq.
  - assert (Hs : suffix_keys i [("loss_mask", a); ("loss_dice", b)]
                 = [(suffixed "loss_mask" i, a); (suffixed "loss_dice" i, b)]).
    { unfold suffix_keys, suffixed. generalize (pretty i). by intros s. }
    rewrite Hs, !dict_update_cons, dict_update_nil.
    destruct (String.eqb_spec "loss_mask" k) as [<-|?].
    + injection Hk as <-. rewrite dict_get_set_ne, dict_get_set_eq; [done|].
      intros E. apply suffixed_inj in E as [? _]; [done|key_in|key_in].
    + destruct (String.eqb_spec "loss_dice" k) as [<-|?]; [|done]. injection Hk as <-.
      apply dict_get_set_eq.
Qed.

Lemma dict_get_suffix_update_other (i : nat) (loss : string) (ld acc : dict F)
    (K : string) :
  loss_dict_of loss ld ->
  (forall k v, dict_get k ld = Some v -> suffixed k i <> K) ->
  dict_get K (dict_update acc (suffix_keys i ld)) = dict_get K acc.
Proof.
  intros H Hne. destruct H.
  - apply dict_get_set_ne. by apply (Hne _ v).
  - apply dict_get_set_ne. by apply (Hne _ v).
  - assert (Hs : suffix_keys i [("loss_bbox", a); ("loss_giou", b)]
                 = [(suffixed "loss_bbox" i, a); (suffixed "loss_giou" i, b)]).
    { unfold suffix_keys, suffixed. generalize (pretty i). by intros s. }
    rewrite Hs, !dict_update_cons, dict_update_nil.
    rewrite !dict_get_set_ne; [done| |]; by eapply Hne.
  - assert (Hs : suffix_keys i [("loss_mask", a); ("loss_dice", b)]
                 = [(suffixed "loss_mask" i, a); (suffixed "loss_dice" i, b)]).
    { unfold suffix_keys, suffixed. generalize (pretty i). by intros s. }
    rewrite Hs, !dict_update_cons, dict_update_nil.
    rewrite !dict_get_set_ne; [done| |]; by eapply Hne.
Qed.

Lemma dict_get_update_other (loss : string) (ld acc : dict F) (K : string) :
  loss_dict_of loss ld -> ~ loss_key K ->
  dict_get K (dict_update acc ld) = dict_get K acc.
Proof.
  unfold loss_key, loss_keys. intros H Hne. destruct H;
    rewrite ?dict_update_cons, ?dict_update_nil, ?dict_get_set_ne; try done;
    intros <-; apply Hne; key_in.
Qed.

(** ** SetCriterion.forward: the losses of the intermediate layers *)

Section CriterionFacts.

Context (cross_entropy_matched :
           list (list (list Q)) -> list Target -> Indices -> nat -> Q -> result F)
        (cardinality_l1 : list (list (list Q)) -> list Target -> F)
        (focal_and_dice :
           list (list (list (list Q))) -> list Target -> Indices -> Q -> result (F * F)).

Abbreviation get_loss' := (get_loss cross_entropy_matched cardinality_l1 focal_and_dice).
Abbreviation aux_layer_losses' :=
  (aux_layer_losses cross_entropy_matched cardinality_l1 focal_and_dice).
Abbreviation aux_losses' := (aux_losses cross_entropy_matched cardinality_l1 focal_and_dice).
Abbreviation final_layer_losses' :=
  (final_layer_losses cross_entropy_matched cardinality_l1 focal_and_dice).
Abbreviation forward' :=
  (SetCriterion_forward cross_entropy_matched cardinality_l1 focal_and_dice).

Lemma get_loss_shape (self : SetCriterion) (loss : string) (outputs : Outputs)
    (targets : list Target) (indices : Indices) (num_boxes : Q) (ld : dict F) :
  get_loss' self loss outputs targets indices num_boxes = Ok ld ->
  loss_dict_of loss ld.
Proof.
  unfold get_loss.
  destruct (String.eqb_spec loss "labels") as [->|_].
  { unfold loss_labels. destruct (logits outputs); [|done].
    destruct (cross_entropy_matched _ _ _ _ _); [|done].
    intros [= <-]. constructor. }
  destruct (String.eqb_spec loss "cardinality") as [->|_].
  { unfold loss_cardinality. destruct (logits outputs); [|done].
    intros [= <-]. constructor. }
  destruct (String.eqb_spec loss "boxes") as [->|_].
  { unfold loss_boxes. destruct (loss_boxes_sums _ _ _); [|done].
    intros [= <-]. constructor. }
  destruct (String.eqb_spec loss "masks") as [->|_]; [|done].
  unfold loss_masks. destruct (pred_masks outputs); [|done].
  destruct (focal_and_dice _ _ _ _); [|done].
  intros [= <-]. constructor.
Qed.

Section Layer.

Variables (self : SetCriterion) (i : nat) (auxiliary_outputs : Outputs)
          (targets : list Target) (indices : Indices) (num_boxes : Q).

Abbreviation layer_loss loss :=
  (get_loss' self loss auxiliary_outputs targets indices num_boxes).

(** The value a key receives in this layer does not depend on which
    entry of [self.losses] computes it. *)
Lemma layer_value_unique (l1 l2 : string) (d1 d2 : dict F) (k : string) (v1 v2 : F) :
  layer_loss l1 = Ok d1 -> layer_loss l2 = Ok d2 ->
  dict_get k d1 = Some v1 -> dict_get k d2 = Some v2 -> v1 = v2.
Proof.
  intros H1 H2 Hk1 Hk2.
  assert (l1 = l2) as ->.
  { eapply loss_dict_of_key_unique; eauto using get_loss_shape. }
  congruence.
Qed.

Lemma aux_layer_losses_preserve (names : list string) (acc acc' : dict F)
    (k : string) (v : F) :
  aux_layer_losses' self names i auxiliary_outputs targets indices num_boxes acc = Ok acc' ->
  loss_key k ->
  (forall loss ld v', layer_loss loss = Ok ld -> dict_get k ld = Some v' -> v' = v) ->
  dict_get (suffixed k i) acc = Some v ->
  dict_get (suffixed k i) acc' = Some v.
Proof.
  intros Hrun Hkey Huniq. revert acc Hrun.
  induction names as [|loss names IH]; intros acc Hrun Hacc; cbn [aux_layer_losses] in Hrun.
  - by injection Hrun as <-.
  - destruct (String.eqb loss "masks"); [by apply (IH acc)|].
    destruct (layer_loss loss) as [ld|] eqn:E; [|done]. cbn [mbind result_bind] in Hrun.
    apply (IH _ Hrun).
    pose proof (get_loss_shape _ _ _ _ _ _ _ E) as Hshape.
    destruct (dict_get k ld) as [v'|] eqn:Ek.
    + rewrite (dict_get_suffix_update i loss ld acc k v' Hshape Ek).
      f_equal. by eapply Huniq.
    + rewrite (dict_get_suffix_update_other i loss ld acc); [done|done|].
      intros k' v' Hk' Heq.
      apply suffixed_inj in Heq as [-> _]; [congruence| |done].
      by eapply loss_dict_of_keys.
Qed.

Lemma aux_layer_losses_written (names : list string) (acc acc' : dict F)
    (loss : string) :
  aux_layer_losses' self names i auxiliary_outputs targets indices num_boxes acc = Ok acc' ->
  loss ∈ names -> loss <> "masks" ->
  exists ld, layer_loss loss = Ok ld
             /\ forall k v, dict_get k ld = Some v -> dict_get (suffixed k i) acc' = Some v.
Proof.
  intros Hrun Hin Hnm. revert acc Hrun.
  induction names as [|loss' names IH]; intros acc Hrun; [by apply elem_of_nil in Hin|].
  cbn [aux_layer_losses] in Hrun.
  destruct (decide (loss' = loss)) as [->|Hne].
  - destruct (String.eqb_spec loss "masks"); [done|].
    destruct (layer_loss loss) as [ld|] eqn:E; [|done]. cbn [mbind result_bind] in Hrun.
    exists ld. split; [done|]. intros k v Hk.
    pose proof (get_loss_shape _ _ _ _ _ _ _ E) as Hshape.
    eapply aux_layer_losses_preserve; [exact Hrun| | |].
    + by eapply loss_dict_of_keys.
    + intros l2 d2 v2 H2 Hk2. symmetry. by eapply (layer_value_unique loss l2).
    + by eapply dict_get_suffix_update.
  - apply elem_of_cons in Hin as [->|Hin]; [done|].
    destruct (String.eqb loss' "masks"); [by apply (IH Hin acc)|].
    destruct (layer_loss loss') as [ld'|]; [|done]. by apply (IH Hin _ Hrun).
Qed.

(** Keys that are not a non-mask loss key with suffix [i] are untouched. *)
Lemma aux_layer_losses_frame (names : list string) (acc acc' : dict F) (K : string) :
  aux_layer_losses' self names i auxiliary_outputs targets indices num_boxes acc = Ok acc' ->
  (forall loss ld k v, loss <> "masks" -> layer_loss loss = Ok ld ->
                       dict_get k ld = Some v -> suffixed k i <> K) ->
  dict_get K acc' = dict_get K acc.
Proof.
  intros Hrun Hne. revert acc Hrun.
  induction names as [|loss names IH]; intros acc Hrun; cbn [aux_layer_losses] in Hrun.
  - by injection Hrun as <-.
  - destruct (String.eqb_spec loss "masks"); [by apply IH|].
    destruct (layer_loss loss) as [ld|] eqn:E; [|done]. cbn [mbind result_bind] in Hrun.
    rewrite (IH _ Hrun).
    apply (dict_get_suffix_update_other i loss); [by eapply get_loss_shape|].
    intros k v Hk. by eapply Hne.
Qed.

End Layer.

Lemma get_loss_not_mask_key (self : SetCriterion) (loss : string) (outputs : Outputs)
    (targets : list Target) (indices : Indices) (num_boxes : Q) (ld : dict F)
    (k : string) (v : F) :
  loss <> "masks" ->
  get_loss' self loss outputs targets indices num_boxes = Ok ld ->
  dict_get k ld = Some v ->
  loss_key k /\ k <> "loss_mask" /\ k <> "loss_dice".
Proof.
  intros Hnm E Hk. pose proof (get_loss_shape _ _ _ _ _ _ _ E) as Hshape.
  split; [by eapply loss_dict_of_keys|].
  destruct Hshape; try done; cbn [dict_get] in Hk;
    repeat (match type of Hk with
            | context [String.eqb ?a k] => destruct (String.eqb_spec a k) as [<-|?]
            end; try done).
Qed.

Lemma aux_losses_frame (self : SetCriterion) (targets : list Target) (num_boxes : Q)
    (auxs : list Outputs) (i0 : nat) (acc acc' : dict F) (K : string) :
  aux_losses' self i0 auxs targets num_boxes acc = Ok acc' ->
  not_written_from i0 K ->
  dict_get K acc' = dict_get K acc.
Proof.
  revert i0 acc. induction auxs as [|a auxs IH]; intros i0 acc Hrun HK;
    cbn [aux_losses] in Hrun.
  - by injection Hrun as <-.
  - destruct (matcher self a targets) as [idx|]; [|done]. cbn [mbind result_bind] in Hrun.
    destruct (aux_layer_losses' _ _ _ _ _ _ _ _) as [acc1|] eqn:E1; [|done].
    cbn [mbind result_bind] in Hrun.
    rewrite (IH _ _ Hrun).
    + eapply aux_layer_losses_frame; [exact E1|].
      intros loss ld k v Hnm El Hk.
      destruct (get_loss_not_mask_key _ _ _ _ _ _ _ _ _ Hnm El Hk) as (? & ? & ?).
      by apply HK.
    + intros k j ? ? ? ?. apply HK; try done. lia.
Qed.

Lemma aux_losses_written (self : SetCriterion) (targets : list Target) (num_boxes : Q)
    (auxs : list Outputs) (i0 : nat) (acc acc' : dict F) (j : nat) (aux_j : Outputs) :
  aux_losses' self i0 auxs targets num_boxes acc = Ok acc' ->
  auxs !! j = Some aux_j ->
  exists indices,
    matcher self aux_j targets = Ok indices
    /\ forall loss, loss ∈ losses self -> loss <> "masks" ->
         exists ld,
           get_loss' self loss aux_j targets indices num_boxes = Ok ld
           /\ forall k v, dict_get k ld = Some v ->
                          dict_get (suffixed k (i0 + j)) acc' = Some v.
Proof.
  revert i0 acc j. induction auxs as [|a auxs IH]; intros i0 acc j Hrun Hj; [done|].
  cbn [aux_losses] in Hrun.
  destruct (matcher self a targets) as [idx|] eqn:Em; [|done].
  cbn [mbind result_bind] in Hrun.
  destruct (aux_layer_losses' _ _ _ _ _ _ _ _) as [acc1|] eqn:E1; [|done].
  cbn [mbind result_bind] in Hrun.
  destruct j as [|j].
  - injection Hj as <-. exists idx. split; [done|]. intros loss Hin Hnm.
    destruct (aux_layer_losses_written _ _ _ _ _ _ _ _ _ _ E1 Hin Hnm) as (ld & El & Hld).
    exists ld. split; [done|]. intros k v Hk.
    rewrite (aux_losses_frame _ _ _ _ _ _ _ _ Hrun).
    + rewrite Nat.add_0_r. by apply Hld.
    + intros k' j' Hk' _ _ Hj' Heq.
      destruct (get_loss_not_mask_key _ _ _ _ _ _ _ _ _ Hnm El Hk) as (? & _).
      apply suffixed_inj in Heq as [_ ?]; [lia|done|done].
  - destruct (IH (S i0) acc1 j Hrun Hj) as (indices & Hm & Hall).
    exists indices. split; [done|]. intros loss Hin Hnm.
    destruct (Hall loss Hin Hnm) as (ld & El & Hld). exists ld. split; [done|].
    intros k v Hk. replace (i0 + S j)%nat with (S i0 + j)%nat by lia. by apply Hld.
Qed.

Lemma final_layer_losses_frame (self : SetCriterion) (names : list string)
    (outputs : Outputs) (targets : list Target) (indices : Indices) (num_boxes : Q)
    (acc acc' : dict F) (K : string) :
  final_layer_losses' self names outputs targets indices num_boxes acc = Ok acc' ->
  ~ loss_key K -> dict_get K acc' = dict_get K acc.
Proof.
  intros Hrun HK. revert acc Hrun.
  induction names as [|loss names IH]; intros acc Hrun; cbn [final_layer_losses] in Hrun.
  - by injection Hrun as <-.
  - destruct (get_loss' _ _ _ _ _ _) as [ld|] eqn:E; [|done].
    cbn [mbind result_bind] in Hrun. rewrite (IH _ Hrun).
    eapply dict_get_update_other; [by eapply get_loss_shape|done].
Qed.

(** What [SetCriterion.forward] stores for the intermediate layers. *)
Lemma forward_aux_entries (self : SetCriterion) (outputs : Outputs)
    (targets : list Target) (auxs : list Outputs) (result : dict F) :
  auxiliary_outputs outputs = Some auxs ->
  forward' self outputs targets = Ok result ->
  forall i aux_i, auxs !! i = Some aux_i ->
    (exists indices,
       matcher self aux_i targets = Ok indices
       /\ forall loss, loss ∈ losses self -> loss <> "masks" ->
            exists l_dict,
              get_loss' self loss aux_i targets indices (forward_num_boxes targets)
              = Ok l_dict
              /\ forall k v, dict_get k l_dict = Some v ->
                             dict_get (suffixed k i) result = Some v)
    /\ dict_get (suffixed "loss_mask" i) result = None
    /\ dict_get (suffixed "loss_dice" i) result = None.
Proof.
  intros Haux Hrun i aux_i Hi. unfold SetCriterion_forward in Hrun.
  destruct (matcher self _ targets) as [idx0|]; [|done]. cbn [mbind result_bind] in Hrun.
  destruct (first_value_device outputs); [|done]. cbn [mbind result_bind] in Hrun.
  destruct (final_layer_losses' _ _ _ _ _ _ _) as [acc0|] eqn:E0; [|done].
  cbn [mbind result_bind] in Hrun. rewrite Haux in Hrun.
  split.
  - destruct (aux_losses_written _ _ _ _ _ _ _ _ _ Hrun Hi) as (indices & Hm & Hall).
    exists indices. by split.
  - assert (Hmask : forall k, k = "loss_mask" \/ k = "loss_dice" ->
                      dict_get (suffixed k i) result = None).
    { intros k Hk.
      rewrite (aux_losses_frame _ _ _ _ _ _ _ _ Hrun).
      - rewrite (final_layer_losses_frame _ _ _ _ _ _ _ _ _ E0); [done|].
        intros Hkey. eapply (suffixed_not_loss_key k); [|exact Hkey|done].
        destruct Hk as [-> | ->]; key_in.
      - intros k' j Hk' Hm Hd _ Heq.
        apply suffixed_inj in Heq as [-> _]; [by destruct Hk|done|].
        destruct Hk as [-> | ->]; key_in. }
    split; apply Hmask; auto.
Qed.

End CriterionFacts.

(** ** SetCriterion.forward returns when the matcher and the losses do *)

Section CriterionReturns.

Context (cross_entropy_matched :
           list (list (list Q)) -> list Target -> Indices -> nat -> Q -> result F)
        (cardinality_l1 : list (list (list Q)) -> list Target -> F)
        (focal_and_dice :
           list (list (list (list Q))) -> list Target -> Indices -> Q -> result (F * F)).

Lemma final_layer_losses_returns (self : SetCriterion) (names : list string)
    (outputs : Outputs) (targets : list Target) (indices : Indices) (num_boxes : Q)
    (acc : dict F) :
  Forall (fun loss =>
            returns (get_loss cross_entropy_matched cardinality_l1 focal_and_dice
                       self loss outputs targets indices num_boxes)) names ->
  returns (final_layer_losses cross_entropy_matched cardinality_l1 focal_and_dice
             self names outputs targets indices num_boxes acc).
Proof.
  intros H. revert acc. induction H as [|loss names Hl _ IH]; intros acc; [done|].
  cbn [final_layer_losses]. destruct (get_loss _ _ _ _ _ _ _ _ _); [|done]. apply IH.
Qed.

Lemma aux_layer_losses_returns (self : SetCriterion) (names : list string) (i : nat)
    (auxiliary_outputs : Outputs) (targets : list Target) (indices : Indices)
    (num_boxes : Q) (acc : dict F) :
  Forall (fun loss =>
            loss <> "masks" ->
            returns (get_loss cross_entropy_matched cardinality_l1 focal_and_dice
                       self loss auxiliary_outputs targets indices num_boxes)) names ->
  returns (aux_layer_losses cross_entropy_matched cardinality_l1 focal_and_dice
             self names i auxiliary_outputs targets indices num_boxes acc).
Proof.
  intros H. revert acc. induction H as [|loss names Hl _ IH]; intros acc; [done|].
  cbn [aux_layer_losses]. destruct (String.eqb_spec loss "masks") as [->|Hne]; [apply IH|].
  specialize (Hl Hne). destruct (get_loss _ _ _ _ _ _ _ _ _); [|done]. apply IH.
Qed.

Lemma aux_losses_returns (self : SetCriterion) (auxs : list Outputs) (i : nat)
    (targets : list Target) (num_boxes : Q) (acc : dict F) :
  Forall (fun aux =>
            exists indices,
              matcher self aux targets = Ok indices
              /\ Forall (fun loss =>
                           loss <> "masks" ->
                           returns (get_loss cross_entropy_matched cardinality_l1
                                      focal_and_dice self loss aux targets indices
                                      num_boxes)) (losses self)) auxs ->
  returns (aux_losses cross_entropy_matched cardinality_l1 focal_and_dice
             self i auxs targets num_boxes acc).
Proof.
  intros H. revert i acc.
  induction H as [|aux auxs (indices & Em & Hl) _ IH]; intros i acc; [done|].
  cbn [aux_losses]. rewrite Em. cbn [mbind result_bind].
  pose proof (aux_layer_losses_returns self (losses self) i aux targets indices
                num_boxes acc Hl) as Hr.
  destruct (aux_layer_losses _ _ _ _ _ _ _ _ _ _ _); [|done]. apply IH.
Qed.

(** The criterion fails only if the matcher or one of the requested losses
    fails on the final layer or on an intermediate layer. *)
Lemma SetCriterion_forward_returns (self : SetCriterion) (outputs : Outputs)
    (targets : list Target) (indices : Indices) :
  matcher self (mkOutputs (logits outputs) (pred_boxes outputs) (pred_masks outputs) None)
    targets = Ok indices ->
  returns (first_value_device outputs) ->
  Forall (fun loss =>
            returns (get_loss cross_entropy_matched cardinality_l1 focal_and_dice
                       self loss outputs targets indices (forward_num_boxes targets)))
         (losses self) ->
  Forall (fun aux =>
            exists indices,
              matcher self aux targets = Ok indices
              /\ Forall (fun loss =>
                           loss <> "masks" ->
                           returns (get_loss cross_entropy_matched cardinality_l1
                                      focal_and_dice self loss aux targets indices
                                      (forward_num_boxes targets))) (losses self))
         (default [] (auxiliary_outputs outputs)) ->
  returns (SetCriterion_forward cross_entropy_matched cardinality_l1 focal_and_dice
             self outputs targets).
Proof.
  intros Em Hdev Hfinal Haux. unfold SetCriterion_forward. rewrite Em.
  cbn [mbind result_bind].
  destruct (first_value_device outputs); [|done]. cbn [mbind result_bind].
  pose proof (final_layer_losses_returns self (losses self) outputs targets indices
                (forward_num_boxes targets) [] Hfinal) as Hr.
  destruct (final_layer_losses _ _ _ _ _ _ _ _ _ _); [|done].
  cbn [mbind result_bind].
  destruct (auxiliary_outputs outputs) as [auxs|]; [|done].
  by apply aux_losses_returns.
Qed.

End CriterionReturns.

(** ** SetCriterion.forward: the box losses and their normalization *)

Lemma forward_num_boxes_eq (targets : list Target) :
  Forall (fun t => length (class_labels t) = length (boxes t)) targets ->
  forward_num_boxes targets
  = inject_Z (Z.max 1 (Z.of_nat (num_target_boxes targets))).
Proof.
  intros Hl.
  assert (E : total_target_boxes targets = num_target_boxes targets).
  { unfold total_target_boxes, num_target_boxes. f_equal. by apply Forall_fmap_ext. }
  unfold forward_num_boxes. rewrite E.
  set (n := Z.of_nat (num_target_boxes targets)).
  destruct (Qmax_spec (inject_Z n) 1) as [[H ->]|[H ->]].
  - assert (Hn : (n <= 1)%Z) by (by rewrite (Zle_Qle n 1)). by rewrite Z.max_l by lia.
  - assert (Hn : (1 < n)%Z) by (by rewrite (Zlt_Qlt 1 n)). by rewrite Z.max_r by lia.
Qed.

Lemma dict_get_update_loss (loss : string) (ld acc : dict F) (k : string) :
  loss_dict_of loss ld ->
  dict_get k (dict_update acc ld)
  = match dict_get k ld with
    | Some v => Some v
    | None => dict_get k acc
    end.
Proof.
  intros H. destruct H; rewrite ?dict_update_cons, ?dict_update_nil, ?dict_get_set;
    cbn [dict_get];
    repeat (match goal with
            | |- context [String.eqb ?a k] => destruct (String.eqb_spec a k) as [<-|?]
            end; repeat case_decide; try done).
Qed.

(** The entries of [loss_boxes] for a divisor that is at least 1. *)
Lemma loss_boxes_entries (outputs : Outputs) (targets : list Target)
    (indices : Indices) (n : Z) (ld : dict F) :
  (1 <= n)%Z ->
  loss_boxes outputs targets indices (inject_Z n) = Ok ld ->
  exists sums,
    loss_boxes_sums outputs targets indices = Ok sums
    /\ ld = [("loss_bbox", Some (sums.1 / inject_Z n));
             ("loss_giou", (fun g => g / inject_Z n) <$> sums.2)].
Proof.
  intros Hn. unfold loss_boxes.
  destruct (loss_boxes_sums outputs targets indices) as [sums|]; [|done].
  cbn [mbind result_bind]. intros [= <-]. exists sums. split; [done|].
  assert (Hnz : ~ inject_Z n == 0).
  { intros E. assert (1 <= inject_Z n); [|lra]. change 1 with (inject_Z 1).
    by rewrite <- Zle_Qle. }
  rewrite fdiv_nonzero by done.
  destruct sums as [s1 [g|]]; cbn [fst snd fdiv_by fmap option_fmap option_map]; [|done].
  by rewrite fdiv_nonzero.
Qed.

Section CriterionBoxes.

Context (cross_entropy_matched :
           list (list (list Q)) -> list Target -> Indices -> nat -> Q -> result F)
        (cardinality_l1 : list (list (list Q)) -> list Target -> F)
        (focal_and_dice :
           list (list (list (list Q))) -> list Target -> Indices -> Q -> result (F * F)).

(** What the loop over [self.losses] leaves in the dict for a requested
    loss: the entries that loss returns. *)
Lemma final_layer_losses_written (self : SetCriterion) (names : list string)
    (outputs : Outputs) (targets : list Target) (indices : Indices) (num_boxes : Q)
    (acc acc' : dict F) (loss : string) :
  final_layer_losses cross_entropy_matched cardinality_l1 focal_and_dice
    self names outputs targets indices num_boxes acc = Ok acc' ->
  loss ∈ names ->
  exists ld,
    get_loss cross_entropy_matched cardinality_l1 focal_and_dice
      self loss outputs targets indices num_boxes = Ok ld
    /\ forall k v, dict_get k ld = Some v -> dict_get k acc' = Some v.
Proof.
  intros Hrun Hin.
  assert (Hkeep : forall names acc acc' k v,
            final_layer_losses cross_entropy_matched cardinality_l1 focal_and_dice
              self names outputs targets indices num_boxes acc = Ok acc' ->
            (forall l2 d2 v2,
               get_loss cross_entropy_matched cardinality_l1 focal_and_dice
                 self l2 outputs targets indices num_boxes = Ok d2 ->
               dict_get k d2 = Some v2 -> v2 = v) ->
            dict_get k acc = Some v -> dict_get k acc' = Some v).
  { clear. intros names. induction names as [|l names IH]; intros acc acc' k v Hrun Hu Hk;
      cbn [final_layer_losses] in Hrun.
    - by injection Hrun as <-.
    - destruct (get_loss _ _ _ _ _ _ _ _ _) as [ld|] eqn:E; [|done].
      cbn [mbind result_bind] in Hrun. apply (IH _ _ _ _ Hrun Hu).
      rewrite (dict_get_update_loss l) by (by eapply get_loss_shape).
      destruct (dict_get k ld) as [v'|] eqn:Ek; [|done]. f_equal. by eapply Hu. }
  revert acc Hrun. induction names as [|l names IH]; intros acc Hrun;
    [by apply elem_of_nil in Hin|].
  cbn [final_layer_losses] in Hrun.
  destruct (get_loss _ _ _ _ l _ _ _ _) as [ld|] eqn:E; [|done].
  cbn [mbind result_bind] in Hrun.
  destruct (decide (l = loss)) as [->|Hne].
  - exists ld. split; [done|]. intros k v Hk.
    apply (Hkeep _ _ _ _ _ Hrun).
    + intros l2 d2 v2 E2 Hk2. symmetry.
      by eapply (layer_value_unique _ _ _ self outputs targets indices num_boxes loss l2).
    + rewrite (dict_get_update_loss loss) by (by eapply get_loss_shape). by rewrite Hk.
  - apply elem_of_cons in Hin as [->|Hin]; [done|]. by apply (IH Hin _ Hrun).
Qed.

(** C7: for targets with one class label per box, the count by which
    [SetCriterion.forward] divides the two box losses is
    max(1, number of target boxes of the whole batch), for the final layer
    and for every intermediate layer: whenever "boxes" is among the
    requested losses and [forward] returns, the entries loss_bbox and
    loss_giou it returns are the sums of [loss_boxes] on the layer's matching
    divided by that count.  The count is at least 1, also when no image has
    a target box (then it is 1), so neither division is a division by zero:
    loss_bbox is a finite number, and loss_giou is finite when its sum is. *)
Theorem C7_num_boxes_clamped_no_zero_division (self : SetCriterion)
    (outputs : Outputs) (targets : list Target) (result : dict F) :
  Forall (fun t => length (class_labels t) = length (boxes t)) targets ->
  "boxes" ∈ losses self ->
  SetCriterion_forward cross_entropy_matched cardinality_l1 focal_and_dice
    self outputs targets = Ok result ->
  let num_boxes := Z.max 1 (Z.of_nat (num_target_boxes targets)) in
  (1 <= num_boxes)%Z
  /\ (Forall (fun t => boxes t = []) targets -> num_boxes = 1%Z)
  /\ (exists indices sums,
        matcher self (without_aux outputs) targets = Ok indices
        /\ loss_boxes_sums outputs targets indices = Ok sums
        /\ dict_get "loss_bbox" result = Some (Some (sums.1 / inject_Z num_boxes))
        /\ dict_get "loss_giou" result
           = Some ((fun g => g / inject_Z num_boxes) <$> sums.2))
  /\ (forall auxs i aux_i,
        auxiliary_outputs outputs = Some auxs -> auxs !! i = Some aux_i ->
        exists indices sums,
          matcher self aux_i targets = Ok indices
          /\ loss_boxes_sums aux_i targets indices = Ok sums
          /\ dict_get (suffixed "loss_bbox" i) result
             = Some (Some (sums.1 / inject_Z num_boxes))
          /\ dict_get (suffixed "loss_giou" i) result
             = Some ((fun g => g / inject_Z num_boxes) <$> sums.2)).
Proof.
  intros Hl Hin Hrun num_boxes.
  assert (Hn : (1 <= num_boxes)%Z) by (unfold num_boxes; lia).
  pose proof (forward_num_boxes_eq targets Hl) as Enb. fold num_boxes in Enb.
  split; [done|]. split; [|split].
  - intros He. unfold num_boxes, num_target_boxes.
    assert (E0 : sum_list ((fun t => length (boxes t)) <$> targets) = 0%nat).
    { clear -He. induction He as [|t ts Ht _ IH]; [done|]. cbn. by rewrite Ht, IH. }
    by rewrite E0.
  - pose proof Hrun as Hrun'. unfold SetCriterion_forward in Hrun'.
    change (mkOutputs (logits outputs) (pred_boxes outputs) (pred_masks outputs) None)
      with (without_aux outputs) in Hrun'.
    destruct (matcher self (without_aux outputs) targets) as [indices|] eqn:Em; [|done].
    cbn [mbind result_bind] in Hrun'.
    destruct (first_value_device outputs); [|done]. cbn [mbind result_bind] in Hrun'.
    destruct (final_layer_losses _ _ _ _ _ _ _ _ _ _) as [acc0|] eqn:E0; [|done].
    cbn [mbind result_bind] in Hrun'.
    destruct (final_layer_losses_written _ _ _ _ _ _ _ _ "boxes" E0 Hin) as (ld & El & Hld).
    unfold get_loss in El. cbn [String.eqb Ascii.eqb Bool.eqb] in El.
    rewrite Enb in El.
    apply loss_boxes_entries in El as (sums & Es & ->); [|done].
    exists indices, sums. split; [done|]. split; [done|].
    assert (Hfinal : forall k v,
              dict_get k [("loss_bbox", Some (sums.1 / inject_Z num_boxes));
                          ("loss_giou", (fun g => g / inject_Z num_boxes) <$> sums.2)]
              = Some v -> dict_get k result = Some v).
    { intros k v Hk.
      assert (Hkey : loss_key k).
      { eapply (loss_dict_of_keys "boxes"); [constructor|exact Hk]. }
      destruct (auxiliary_outputs outputs) as [auxs|].
      - rewrite (aux_losses_frame _ _ _ _ _ _ _ _ _ _ _ Hrun'); [by apply Hld|].
        intros k' j Hk' _ _ _ E. by apply (suffixed_not_loss_key k' k j).
      - injection Hrun' as <-. by apply Hld. }
    split; apply Hfinal; reflexivity.
  - intros auxs i aux_i Haux Hi.
    destruct (forward_aux_entries _ _ _ self outputs targets auxs result Haux Hrun i aux_i Hi)
      as ((indices & Em & Hall) & _).
    destruct (Hall "boxes" Hin ltac:(discriminate)) as (ld & El & Hld).
    unfold get_loss in El. cbn [String.eqb Ascii.eqb Bool.eqb] in El.
    rewrite Enb in El.
    apply loss_boxes_entries in El as (sums & Es & ->); [|done].
    exists indices, sums. split; [done|]. split; [done|].
    split; apply Hld; reflexivity.
Qed.

End CriterionBoxes.

Lemma C7_num_boxes_clamped_no_zero_division_witness :
  let num_boxes := Z.max 1 (Z.of_nat (num_target_boxes [empty_target; empty_target])) in
  (1 <= num_boxes)%Z
  /\ (Forall (fun t => boxes t = []) [empty_target; empty_target] -> num_boxes = 1%Z)
  /\ (exists indices sums,
        matcher example_criterion (without_aux two_query_outputs)
          [empty_target; empty_target] = Ok indices
        /\ loss_boxes_sums two_query_outputs [empty_target; empty_target] indices = Ok sums
        /\ dict_get "loss_bbox" no_target_losses = Some (Some (sums.1 / inject_Z num_boxes))
        /\ dict_get "loss_giou" no_target_losses
           = Some ((fun g => g / inject_Z num_boxes) <$> sums.2))
  /\ (forall auxs i aux_i,
        auxiliary_outputs two_query_outputs = Some auxs -> auxs !! i = Some aux_i ->
        exists indices sums,
          matcher example_criterion aux_i [empty_target; empty_target] = Ok indices
          /\ loss_boxes_sums aux_i [empty_target; empty_target] indices = Ok sums
          /\ dict_get (suffixed "loss_bbox" i) no_target_losses
             = Some (Some (sums.1 / inject_Z num_boxes))
          /\ dict_get (suffixed "loss_giou" i) no_target_losses
             = Some ((fun g => g / inject_Z num_boxes) <$> sums.2)).
Proof.
  apply (C7_num_boxes_clamped_no_zero_division unit_cross_entropy unit_cardinality
           no_masks example_criterion two_query_outputs [empty_target; empty_target]
           no_target_losses).
  - by repeat constructor.
  - unfold example_criterion. cbn [losses]. by repeat constructor.
  - vm_compute. reflexivity.
Defined.


(** ** DetrForObjectDetection: the weight dict and the total loss *)

Lemma dict_get_app {V} (k : string) (d1 d2 : dict V) :
  dict_get k (d1 ++ d2)
  = match dict_get k d1 with
    | Some v => Some v
    | None => dict_get k d2
    end.
Proof.
  induction d1 as [|[k0 v0] d1 IH]; [done|].
  cbn [app dict_get]. by destruct (String.eqb k0 k).
Qed.

Lemma dict_set_fresh {V} (k : string) (v : V) (d : dict V) :
  dict_get k d = None -> dict_set k v d = d ++ [(k, v)].
Proof.
  induction d as [|[k0 v0] d IH]; [done|].
  cbn [app dict_get dict_set]. destruct (String.eqb_spec k0 k) as [->|Hne]; [done|].
  intros H. destruct (String.eqb_spec k0 k); [done|]. by rewrite IH.
Qed.

Lemma dict_get_base_weights_suffixed (config : DetrConfig) (k : string) (i : nat) :
  loss_key k -> dict_get (suffixed k i) (base_weights config) = None.
Proof.
  intros Hk. unfold base_weights. cbn [dict_get].
  repeat (match goal with
          | |- context [String.eqb ?a ?b] =>
              destruct (String.eqb_spec a b) as [E|_];
              [symmetry in E; by apply suffixed_not_loss_key in E; [|done|key_in]|]
          end).
  done.
Qed.

Lemma dict_get_layer_weights_other (config : DetrConfig) (K : string) (i : nat) :
  (forall k, loss_key k -> suffixed k i <> K) ->
  dict_get K (layer_weights config i) = None.
Proof.
  intros HK. unfold layer_weights. cbn [dict_get].
  repeat (match goal with
          | |- context [String.eqb ?a ?b] =>
              destruct (String.eqb_spec a b) as [E|_];
              [by apply HK in E; [|key_in]|]
          end).
  done.
Qed.

Lemma dict_get_layer_weights (config : DetrConfig) (k : string) (i : nat) :
  loss_key k ->
  dict_get (suffixed k i) (layer_weights config i) = dict_get k (base_weights config).
Proof.
  intros Hk. unfold layer_weights, base_weights. cbn [dict_get].
  assert (Heq : forall b, loss_key b ->
            String.eqb (suffixed b i) (suffixed k i) = String.eqb b k).
  { intros b Hb. destruct (String.eqb_spec b k) as [->|Hne]; [apply String.eqb_refl|].
    apply String.eqb_neq. intros E. by apply suffixed_inj in E as [? _]. }
  rewrite !Heq by key_in. done.
Qed.

(** The weights of the layers below [n], in insertion order. *)
Lemma dict_get_flat_layer_weights_fresh (config : DetrConfig) (n j : nat) (k : string) :
  loss_key k -> (n <= j)%nat ->
  dict_get (suffixed k j) (flat_map (layer_weights config) (seq 0 n)) = None.
Proof.
  intros Hk. induction n as [|n IH]; intros Hj; [done|].
  rewrite seq_S, flat_map_app, dict_get_app, IH by lia.
  cbn [flat_map]. rewrite app_nil_r.
  apply dict_get_layer_weights_other. intros b Hb E.
  apply suffixed_inj in E as [_ ?]; [lia|done|done].
Qed.

Lemma dict_update_fresh_layer (config : DetrConfig) (d : dict Q) (i : nat) :
  (forall k, loss_key k -> dict_get (suffixed k i) d = None) ->
  dict_update d (suffix_keys i (base_weights config)) = d ++ layer_weights config i.
Proof.
  intros Hd.
  assert (Hs : suffix_keys i (base_weights config) = layer_weights config i).
  { unfold suffix_keys, base_weights, layer_weights, suffixed.
    generalize (pretty i). by intros s. }
  rewrite Hs. unfold layer_weights.
  rewrite !dict_update_cons, dict_update_nil.
  rewrite (dict_set_fresh (suffixed "loss_ce" i)) by (apply Hd; key_in).
  rewrite (dict_set_fresh (suffixed "loss_bbox" i)).
  2:{ rewrite dict_get_app, Hd by key_in. cbn [dict_get].
      destruct (String.eqb_spec (suffixed "loss_ce" i) (suffixed "loss_bbox" i)) as [E|_]; [|done].
      by apply suffixed_inj in E as [? _]; [|key_in|key_in]. }
  rewrite (dict_set_fresh (suffixed "loss_giou" i)).
  2:{ rewrite !dict_get_app, Hd by key_in. cbn [dict_get].
      destruct (String.eqb_spec (suffixed "loss_ce" i) (suffixed "loss_giou" i)) as [E|_];
        [by apply suffixed_inj in E as [? _]; [|key_in|key_in]|].
      destruct (String.eqb_spec (suffixed "loss_bbox" i) (suffixed "loss_giou" i)) as [E|_];
        [by apply suffixed_inj in E as [? _]; [|key_in|key_in]|].
      done. }
  by rewrite <- !app_assoc.
Qed.

Lemma aux_weight_dict_closed (config : DetrConfig) (n : nat) :
  foldl (fun aux i => dict_update aux (suffix_keys i (base_weights config))) [] (seq 0 n)
  = flat_map (layer_weights config) (seq 0 n).
Proof.
  induction n as [|n IH]; [done|].
  rewrite seq_S, foldl_app, IH, flat_map_app. cbn [foldl flat_map]. rewrite app_nil_r.
  apply dict_update_fresh_layer. intros k Hk.
  by apply dict_get_flat_layer_weights_fresh.
Qed.

Lemma dict_update_app {V} (d d2 d3 : dict V) :
  dict_update d (d2 ++ d3) = dict_update (dict_update d d2) d3.
Proof. unfold dict_update. apply foldl_app. Qed.

Lemma suffix_keys_base_weights (config : DetrConfig) (i : nat) :
  suffix_keys i (base_weights config) = layer_weights config i.
Proof.
  unfold suffix_keys, base_weights, layer_weights, suffixed.
  generalize (pretty i). by intros s.
Qed.

Lemma dict_update_base_flat (config : DetrConfig) (n : nat) :
  dict_update (base_weights config) (flat_map (layer_weights config) (seq 0 n))
  = base_weights config ++ flat_map (layer_weights config) (seq 0 n).
Proof.
  induction n as [|n IH]; [by rewrite app_nil_r|].
  rewrite seq_S, flat_map_app. cbn [flat_map]. rewrite app_nil_r.
  rewrite dict_update_app, IH, <- suffix_keys_base_weights.
  rewrite dict_update_fresh_layer; [by rewrite suffix_keys_base_weights, app_assoc|].
  intros k Hk. rewrite dict_get_app, dict_get_base_weights_suffixed by done.
  by apply dict_get_flat_layer_weights_fresh.
Qed.

(** With auxiliary losses, the weight dict lists the three weighted terms of
    the final layer and then those of each of the [decoder_layers - 1]
    intermediate layers. *)
Lemma detr_weight_dict_closed (config : DetrConfig) :
  auxiliary_loss config = true ->
  detr_weight_dict config
  = base_weights config
    ++ flat_map (layer_weights config) (seq 0 (decoder_layers config - 1)).
Proof.
  intros Haux. unfold detr_weight_dict. rewrite Haux.
  change (dict_set "loss_giou" (giou_loss_coefficient config)
            [("loss_ce", 1); ("loss_bbox", bbox_loss_coefficient config)])
    with (base_weights config).
  by rewrite aux_weight_dict_closed, dict_update_base_flat.
Qed.

Lemma dict_get_flat_layer_weights (config : DetrConfig) (n i : nat) (k : string) :
  loss_key k -> (i < n)%nat ->
  dict_get (suffixed k i) (flat_map (layer_weights config) (seq 0 n))
  = dict_get k (base_weights config).
Proof.
  intros Hk. induction n as [|n IH]; intros Hi; [lia|].
  rewrite seq_S, flat_map_app, dict_get_app. cbn [flat_map]. rewrite app_nil_r.
  destruct (decide (i = n)) as [->|Hne].
  - rewrite dict_get_flat_layer_weights_fresh by done. by apply dict_get_layer_weights.
  - rewrite IH by lia. destruct (dict_get k (base_weights config)) eqn:E; [done|].
    apply dict_get_layer_weights_other. intros b Hb Eb.
    apply suffixed_inj in Eb as [_ ?]; [lia|done|done].
Qed.

Lemma detr_weight_dict_lookup (config : DetrConfig) :
  auxiliary_loss config = true ->
  (forall k w, dict_get k (base_weights config) = Some w ->
     dict_get k (detr_weight_dict config) = Some w
     /\ forall i, (i < decoder_layers config - 1)%nat ->
          dict_get (suffixed k i) (detr_weight_dict config) = Some w)
  /\ dict_get "cardinality_error" (detr_weight_dict config) = None
  /\ forall i, dict_get (suffixed "cardinality_error" i) (detr_weight_dict config) = None.
Proof.
  intros Haux. rewrite (detr_weight_dict_closed config Haux).
  split; [|split].
  - intros k w Hk. rewrite dict_get_app, Hk. split; [done|]. intros i Hi.
    assert (Hkey : loss_key k).
    { unfold base_weights in Hk. cbn [dict_get] in Hk.
      repeat (match type of Hk with
              | context [String.eqb ?a k] => destruct (String.eqb_spec a k) as [<-|?]
              end; [key_in|]). done. }
    rewrite dict_get_app, dict_get_base_weights_suffixed by done.
    by rewrite dict_get_flat_layer_weights.
  - rewrite dict_get_app. change (dict_get "cardinality_error" (base_weights config)) with (@None Q).
    generalize (decoder_layers config - 1)%nat. intros n.
    induction n as [|n IH]; [done|].
    rewrite seq_S, flat_map_app, dict_get_app, IH. cbn [flat_map]. rewrite app_nil_r.
    apply dict_get_layer_weights_other. intros k Hk E.
    by apply suffixed_not_loss_key in E; [|done|key_in].
  - intros i. rewrite dict_get_app, dict_get_base_weights_suffixed by key_in.
    generalize (decoder_layers config - 1)%nat. intros n.
    induction n as [|n IH]; [done|].
    rewrite seq_S, flat_map_app, dict_get_app, IH. cbn [flat_map]. rewrite app_nil_r.
    unfold layer_weights. cbn [dict_get].
    repeat (match goal with
            | |- context [String.eqb ?a ?b] =>
                destruct (String.eqb_spec a b) as [E|_];
                [by apply suffixed_inj in E as [? _]; [|key_in|key_in]|]
            end).
    done.
Qed.

(** *** The loss dict of the detection model, term by term *)

Lemma dict_update_fresh {V} (d l : dict V) :
  NoDup l.*1 -> (forall k, k ∈ l.*1 -> dict_get k d = None) ->
  dict_update d l = d ++ l.
Proof.
  revert d. induction l as [|[k v] l IH]; intros d Hnd Hf.
  - by rewrite dict_update_nil, app_nil_r.
  - cbn [fmap list_fmap fst] in Hnd. inversion Hnd as [|? ? Hk Hnd']; subst.
    rewrite dict_update_cons, dict_set_fresh by (apply Hf; cbn; by left).
    rewrite IH; [by rewrite <- app_assoc|done|].
    intros k' Hk'. rewrite dict_get_app, Hf by (cbn; by right). cbn [dict_get].
    destruct (String.eqb_spec k k') as [->|_]; [done|done].
Qed.

Lemma layer_entries_keys (i : nat) (t : LayerTerms) :
  NoDup (layer_entries (fun k => suffixed k i) t).*1.
Proof.
  cbn. repeat (constructor; [rewrite ?elem_of_cons, elem_of_nil; intros H;
    repeat (destruct H as [H|H]; [by apply suffixed_inj in H as [? _]; [|key_in|key_in]|]);
    done|]). constructor.
Qed.

Lemma layer_entries_get_other (i j : nat) (k : string) (t : LayerTerms) :
  loss_key k -> i <> j ->
  dict_get (suffixed k j) (layer_entries (fun k => suffixed k i) t) = None.
Proof.
  intros Hk Hij. unfold layer_entries. cbn [dict_get].
  repeat (match goal with
          | |- context [String.eqb ?a ?b] =>
              destruct (String.eqb_spec a b) as [E|_];
              [by apply suffixed_inj in E as [_ ?]; [|key_in|done]|]
          end).
  done.
Qed.

Lemma layer_entries_get_suffixed (k : string) (j : nat) (t : LayerTerms) :
  loss_key k -> dict_get (suffixed k j) (layer_entries id t) = None.
Proof.
  intros Hk. unfold layer_entries, id. cbn [dict_get].
  repeat (match goal with
          | |- context [String.eqb ?a ?b] =>
              destruct (String.eqb_spec a b) as [E|_];
              [symmetry in E; by apply suffixed_not_loss_key in E; [|done|key_in]|]
          end).
  done.
Qed.

Section DetrShape.

Context (cross_entropy_matched :
           list (list (list Q)) -> list Target -> Indices -> nat -> Q -> result F)
        (cardinality_l1 : list (list (list Q)) -> list Target -> F)
        (focal_and_dice :
           list (list (list (list Q))) -> list Target -> Indices -> Q -> result (F * F)).

(** The three losses of the detection model return four terms. *)
Lemma layer_terms (self : SetCriterion) (outputs : Outputs) (targets : list Target)
    (indices : Indices) (num_boxes : Q) (d1 d2 d3 : dict F) :
  get_loss cross_entropy_matched cardinality_l1 focal_and_dice
    self "labels" outputs targets indices num_boxes = Ok d1 ->
  get_loss cross_entropy_matched cardinality_l1 focal_and_dice
    self "boxes" outputs targets indices num_boxes = Ok d2 ->
  get_loss cross_entropy_matched cardinality_l1 focal_and_dice
    self "cardinality" outputs targets indices num_boxes = Ok d3 ->
  exists t, d1 = [("loss_ce", term_ce t)]
            /\ d2 = [("loss_bbox", term_bbox t); ("loss_giou", term_giou t)]
            /\ d3 = [("cardinality_error", term_cardinality t)].
Proof.
  intros H1 H2 H3.
  apply get_loss_shape in H1, H2, H3. inversion H1; inversion H2; inversion H3; subst.
  by eexists {| term_ce := _; term_bbox := _; term_giou := _; term_cardinality := _ |}.
Qed.

Lemma final_layer_losses_detr (self : SetCriterion) (outputs : Outputs)
    (targets : list Target) (indices : Indices) (num_boxes : Q) (acc : dict F) :
  final_layer_losses cross_entropy_matched cardinality_l1 focal_and_dice
    self ["labels"; "boxes"; "cardinality"] outputs targets indices num_boxes [] = Ok acc ->
  exists t, acc = layer_entries id t.
Proof.
  cbn [final_layer_losses]. intros H.
  destruct (get_loss _ _ _ _ "labels" _ _ _ _) as [d1|] eqn:E1; [|done].
  cbn [mbind result_bind] in H.
  destruct (get_loss _ _ _ _ "boxes" _ _ _ _) as [d2|] eqn:E2; [|done].
  cbn [mbind result_bind] in H.
  destruct (get_loss _ _ _ _ "cardinality" _ _ _ _) as [d3|] eqn:E3; [|done].
  cbn [mbind result_bind] in H.
  destruct (layer_terms _ _ _ _ _ _ _ _ E1 E2 E3) as (t & -> & -> & ->).
  exists t. by injection H as <-.
Qed.

Lemma aux_layer_losses_detr (self : SetCriterion) (i : nat) (outputs : Outputs)
    (targets : list Target) (indices : Indices) (num_boxes : Q) (acc acc' : dict F) :
  aux_layer_losses cross_entropy_matched cardinality_l1 focal_and_dice
    self ["labels"; "boxes"; "cardinality"] i outputs targets indices num_boxes acc
  = Ok acc' ->
  (forall k, loss_key k -> dict_get (suffixed k i) acc = None) ->
  exists t, acc' = acc ++ layer_entries (fun k => suffixed k i) t.
Proof.
  cbn [aux_layer_losses String.eqb Ascii.eqb Bool.eqb]. intros H Hf.
  destruct (get_loss _ _ _ _ "labels" _ _ _ _) as [d1|] eqn:E1; [|done].
  cbn [mbind result_bind] in H.
  destruct (get_loss _ _ _ _ "boxes" _ _ _ _) as [d2|] eqn:E2; [|done].
  cbn [mbind result_bind] in H.
  destruct (get_loss _ _ _ _ "cardinality" _ _ _ _) as [d3|] eqn:E3; [|done].
  cbn [mbind result_bind] in H.
  destruct (layer_terms _ _ _ _ _ _ _ _ E1 E2 E3) as (t & -> & -> & ->).
  exists t. injection H as <-.
  change (dict_update acc (layer_entries (fun k => suffixed k i) t)
          = acc ++ layer_entries (fun k => suffixed k i) t).
  apply (dict_update_fresh acc (layer_entries (fun k => suffixed k i) t)).
  - apply layer_entries_keys.
  - intros k Hk. cbn in Hk.
    repeat (apply elem_of_cons in Hk as [->|Hk]; [apply Hf; key_in|]).
    by apply elem_of_nil in Hk.
Qed.

Lemma aux_losses_detr (self : SetCriterion) (targets : list Target) (num_boxes : Q)
    (auxs : list Outputs) (i0 : nat) (acc acc' : dict F) :
  losses self = ["labels"; "boxes"; "cardinality"] ->
  aux_losses cross_entropy_matched cardinality_l1 focal_and_dice
    self i0 auxs targets num_boxes acc = Ok acc' ->
  (forall k j, loss_key k -> (i0 <= j)%nat -> dict_get (suffixed k j) acc = None) ->
  exists layers,
    length layers = length auxs
    /\ acc' = acc ++ concat (imap (fun j => layer_entries (fun k => suffixed k (i0 + j))) layers).
Proof.
  intros Hl. revert i0 acc. induction auxs as [|a auxs IH]; intros i0 acc Hrun Hf;
    cbn [aux_losses] in Hrun.
  - injection Hrun as <-. exists []. by rewrite app_nil_r.
  - destruct (matcher self a targets) as [idx|]; [|done]. cbn [mbind result_bind] in Hrun.
    rewrite Hl in Hrun.
    destruct (aux_layer_losses _ _ _ _ _ _ _ _ _ _ _) as [acc1|] eqn:E1; [|done].
    cbn [mbind result_bind] in Hrun.
    apply aux_layer_losses_detr in E1 as (t & ->); [|intros k Hk; by apply Hf].
    destruct (IH (S i0) _ Hrun) as (layers & Hlen & ->).
    { intros k j Hk Hj. rewrite dict_get_app, Hf by (done || lia).
      apply layer_entries_get_other; [done|lia]. }
    exists (t :: layers). split; [cbn; by rewrite Hlen|].
    rewrite <- app_assoc. f_equal. cbn [imap concat]. rewrite Nat.add_0_r. f_equal.
    f_equal. apply imap_ext. intros j x _. unfold layer_entries, compose. cbn beta.
    by replace (i0 + S j)%nat with (S i0 + j)%nat by lia.
Qed.

Lemma forward_detr_shape (self : SetCriterion) (outputs : Outputs)
    (targets : list Target) (result : dict F) :
  losses self = ["labels"; "boxes"; "cardinality"] ->
  SetCriterion_forward cross_entropy_matched cardinality_l1 focal_and_dice
    self outputs targets = Ok result ->
  exists final layers,
    length layers = length (default [] (auxiliary_outputs outputs))
    /\ result
       = layer_entries id final
         ++ concat (imap (fun i => layer_entries (fun k => suffixed k i)) layers).
Proof.
  intros Hl Hrun. unfold SetCriterion_forward in Hrun.
  destruct (matcher self _ targets) as [idx|]; [|done]. cbn [mbind result_bind] in Hrun.
  destruct (first_value_device outputs); [|done]. cbn [mbind result_bind] in Hrun.
  rewrite Hl in Hrun.
  destruct (final_layer_losses _ _ _ _ _ _ _ _ _ _) as [acc0|] eqn:E0; [|done].
  cbn [mbind result_bind] in Hrun.
  apply final_layer_losses_detr in E0 as (final & ->). exists final.
  destruct (auxiliary_outputs outputs) as [auxs|].
  - apply aux_losses_detr in Hrun as (layers & Hlen & ->); [|done|].
    + exists layers. split; [done|]. f_equal.
    + intros k j Hk _. by apply layer_entries_get_suffixed.
  - injection Hrun as <-. exists []. by rewrite app_nil_r.
Qed.

End DetrShape.

(** *** The weighted total, layer by layer *)

Lemma feq_refl (a : F) : feq a a.
Proof. destruct a; cbn; [reflexivity|done]. Qed.

Lemma feq_trans (a b c : F) : feq a b -> feq b c -> feq a c.
Proof. destruct a, b, c; cbn; try done. intros H1 H2. by rewrite H1. Qed.

Lemma fadd_layer_assoc (acc a b c r : F) :
  feq (fadd (fadd (fadd (fadd acc a) b) c) r) (fadd acc (fadd (fadd (fadd a b) c) r)).
Proof. destruct acc, a, b, c, r; cbn; try done. ring. Qed.

Lemma fadd_zero_r (a : F) : feq a (fadd a (Some 0)).
Proof. destruct a; cbn; [ring|done]. Qed.

Lemma fadd_zero_l (a : F) : feq a (fadd (Some 0) a).
Proof. destruct a; cbn; [ring|done]. Qed.

Lemma weighted_total_app (d1 d2 : dict F) (wd : dict Q) :
  weighted_total (d1 ++ d2) wd
  = foldl (fun total kv =>
             match dict_get kv.1 wd with
             | Some w => fadd total (fmul kv.2 (Some w))
             | None => total
             end) (weighted_total d1 wd) d2.
Proof. unfold weighted_total. apply foldl_app. Qed.

Lemma detr_weight_base (config : DetrConfig) (k : string) :
  auxiliary_loss config = true -> loss_key k ->
  dict_get k (detr_weight_dict config) = dict_get k (base_weights config).
Proof.
  intros Haux Hk. rewrite (detr_weight_dict_closed config Haux), dict_get_app.
  destruct (dict_get k (base_weights config)); [done|].
  generalize (decoder_layers config - 1)%nat. intros n.
  induction n as [|n IH]; [done|].
  rewrite seq_S, flat_map_app, dict_get_app, IH. cbn [flat_map]. rewrite app_nil_r.
  apply dict_get_layer_weights_other. intros b Hb E.
  by apply suffixed_not_loss_key in E.
Qed.

Lemma detr_weight_suffixed (config : DetrConfig) (k : string) (i : nat) :
  auxiliary_loss config = true -> loss_key k ->
  dict_get (suffixed k i) (detr_weight_dict config)
  = if (i <? decoder_layers config - 1)%nat then dict_get k (base_weights config)
    else None.
Proof.
  intros Haux Hk. rewrite (detr_weight_dict_closed config Haux), dict_get_app.
  rewrite dict_get_base_weights_suffixed by done.
  destruct (Nat.ltb_spec i (decoder_layers config - 1)).
  - by apply dict_get_flat_layer_weights.
  - by apply dict_get_flat_layer_weights_fresh.
Qed.

Section WeightedTotal.

Variable config : DetrConfig.
Hypothesis Haux : auxiliary_loss config = true.

Abbreviation step :=
  (fun (total : F) (kv : string * F) =>
     match dict_get kv.1 (detr_weight_dict config) with
     | Some w => fadd total (fmul kv.2 (Some w))
     | None => total
     end).

Lemma step_final_layer (acc : F) (t : LayerTerms) :
  foldl step acc (layer_entries id t)
  = fadd (fadd (fadd acc (fmul (term_ce t) (Some 1)))
               (fmul (term_bbox t) (Some (bbox_loss_coefficient config))))
         (fmul (term_giou t) (Some (giou_loss_coefficient config))).
Proof.
  unfold layer_entries, id. cbn [foldl fst snd].
  rewrite !(detr_weight_base config _ Haux) by key_in. reflexivity.
Qed.

Lemma step_aux_layer (acc : F) (i : nat) (t : LayerTerms) :
  foldl step acc (layer_entries (fun k => suffixed k i) t)
  = if (i <? decoder_layers config - 1)%nat
    then fadd (fadd (fadd acc (fmul (term_ce t) (Some 1)))
                    (fmul (term_bbox t) (Some (bbox_loss_coefficient config))))
              (fmul (term_giou t) (Some (giou_loss_coefficient config)))
    else acc.
Proof.
  unfold layer_entries. cbn [foldl fst snd].
  rewrite !(detr_weight_suffixed config _ _ Haux) by key_in.
  by destruct (i <? decoder_layers config - 1)%nat.
Qed.

Lemma fold_aux_layers (layers : list LayerTerms) (i0 : nat) (acc : F) :
  feq (foldl step acc
         (concat (imap (fun j => layer_entries (fun k => suffixed k (i0 + j))) layers)))
      (fadd acc (fsum (weighted_layer config
                         <$> take (decoder_layers config - 1 - i0) layers))).
Proof.
  revert i0 acc. induction layers as [|t layers IH]; intros i0 acc.
  - rewrite take_nil. apply fadd_zero_r.
  - cbn [imap concat]. rewrite foldl_app, Nat.add_0_r, step_aux_layer.
    assert (Hshift : imap ((fun j => layer_entries (fun k => suffixed k (i0 + j))) ∘ S) layers
                     = imap (fun j => layer_entries (fun k => suffixed k (S i0 + j))) layers).
    { apply imap_ext. intros j x _. unfold layer_entries, compose. cbn beta.
      by replace (i0 + S j)%nat with (S i0 + j)%nat by lia. }
    rewrite Hshift.
    destruct (Nat.ltb_spec i0 (decoder_layers config - 1)) as [Hlt|Hge].
    + replace (decoder_layers config - 1 - i0)%nat
        with (S (decoder_layers config - 1 - S i0)) by lia.
      cbn [take fmap list_fmap fsum foldr].
      eapply feq_trans; [apply IH|]. apply fadd_layer_assoc.
    + replace (decoder_layers config - 1 - i0)%nat with 0%nat by lia.
      rewrite take_0. eapply feq_trans; [apply IH|].
      replace (decoder_layers config - 1 - S i0)%nat with 0%nat by lia.
      rewrite take_0. apply feq_refl.
Qed.

(** The total of a loss dict of the detection model: the weighted terms of
    the final layer and of the intermediate layers that have weights. *)
Lemma weighted_total_layers (final : LayerTerms) (layers : list LayerTerms) :
  feq (weighted_total
         (layer_entries id final
          ++ concat (imap (fun i => layer_entries (fun k => suffixed k i)) layers))
         (detr_weight_dict config))
      (fadd (weighted_layer config final)
            (fsum (weighted_layer config <$> take (decoder_layers config - 1) layers))).
Proof.
  rewrite weighted_total_app. unfold weighted_total. rewrite step_final_layer.
  eapply feq_trans; [apply (fold_aux_layers layers 0)|].
  rewrite Nat.sub_0_r.
  generalize (fsum (weighted_layer config <$> take (decoder_layers config - 1) layers)).
  intros r. unfold weighted_layer.
  destruct (term_ce final), (term_bbox final), (term_giou final), r; cbn; try done. ring.
Qed.

End WeightedTotal.

(** C4, as stated, fails in its last part: the loss dict holds the terms
    cardinality_error and cardinality_error_0, which have no configured
    weight, so "every resulting term times its weight" is not defined, while
    the model returns the total 10 = (1 + 5/2 + 3/2) + (1 + 5/2 + 3/2) of the
    weighted terms only. *)
Lemma C4_cardinality_terms_have_no_weight :
  exists loss loss_dict,
    DetrForObjectDetection_loss normalize unit_cross_entropy unit_cardinality no_masks
      example_config example_logits example_boxes
      [example_logits; example_logits] [example_boxes; example_boxes] [example_target]
    = Ok (loss, loss_dict)
    /\ feq loss (Some 10)
    /\ dict_get "cardinality_error" loss_dict = Some (Some 1)
    /\ dict_get "cardinality_error" (detr_weight_dict example_config) = None
    /\ dict_get (suffixed "cardinality_error" 0) loss_dict = Some (Some 1)
    /\ dict_get (suffixed "cardinality_error" 0) (detr_weight_dict example_config) = None
    /\ spec_weighted_total loss_dict (detr_weight_dict example_config) = Raise KeyError
    /\ spec_weighted_total loss_dict (detr_weight_dict example_config) <> Ok loss.
Proof.
  eexists _, _. split; [vm_compute; reflexivity|].
  repeat split; try (vm_compute; reflexivity). by vm_compute.
Qed.

(** C4, amended: when the outputs carry auxiliary outputs, the criterion
    computes for every intermediate layer i a fresh matching on that layer's
    outputs and, for every requested loss except the mask loss, stores each
    of its terms under the original key suffixed with "_i" (no mask term is
    stored for an intermediate layer); the loss dict of the model holds, for the
    final layer and for every intermediate layer, the four terms loss_ce,
    loss_bbox, loss_giou and cardinality_error, and the model's total loss is
    the sum of loss_ce * 1 + loss_bbox * bbox_loss_coefficient + loss_giou *
    giou_loss_coefficient over the final layer and the first
    decoder_layers - 1 intermediate layers: the terms that have a configured
    weight; the cardinality_error terms have no weight and do not enter the
    total. *)
Theorem C4_aux_losses_suffixed_and_weighted_total
    (cross_entropy_matched :
       list (list (list Q)) -> list Target -> Indices -> nat -> Q -> result F)
    (cardinality_l1 : list (list (list Q)) -> list Target -> F)
    (focal_and_dice :
       list (list (list (list Q))) -> list Target -> Indices -> Q -> result (F * F))
    (self : SetCriterion) (outputs : Outputs) (targets : list Target)
    (auxs : list Outputs) (result : dict F) (config : DetrConfig) :
  auxiliary_outputs outputs = Some auxs ->
  SetCriterion_forward cross_entropy_matched cardinality_l1 focal_and_dice
    self outputs targets = Ok result ->
  auxiliary_loss config = true ->
  (forall i aux_i, auxs !! i = Some aux_i ->
     (exists indices,
        matcher self aux_i targets = Ok indices
        /\ forall loss, loss ∈ losses self -> loss <> "masks" ->
             exists l_dict,
               get_loss cross_entropy_matched cardinality_l1 focal_and_dice
                 self loss aux_i targets indices (forward_num_boxes targets) = Ok l_dict
               /\ forall k v, dict_get k l_dict = Some v ->
                              dict_get (suffixed k i) result = Some v)
     /\ dict_get (suffixed "loss_mask" i) result = None
     /\ dict_get (suffixed "loss_dice" i) result = None)
  /\ detr_weight_dict config
     = base_weights config
       ++ flat_map (layer_weights config) (seq 0 (decoder_layers config - 1))
  /\ (forall k w, dict_get k (base_weights config) = Some w ->
        dict_get k (detr_weight_dict config) = Some w
        /\ forall i, (i < decoder_layers config - 1)%nat ->
             dict_get (suffixed k i) (detr_weight_dict config) = Some w)
  /\ dict_get "cardinality_error" (detr_weight_dict config) = None
  /\ (forall i, dict_get (suffixed "cardinality_error" i) (detr_weight_dict config) = None)
  /\ (forall softmax lg pb outputs_class outputs_coord labels loss loss_dict,
        DetrForObjectDetection_loss softmax cross_entropy_matched cardinality_l1
          focal_and_dice config lg pb outputs_class outputs_coord labels
        = Ok (loss, loss_dict) ->
        exists final layers,
          length layers = length (_set_aux_loss outputs_class outputs_coord)
          /\ loss_dict
             = layer_entries id final
               ++ concat (imap (fun i => layer_entries (fun k => suffixed k i)) layers)
          /\ feq loss
               (fadd (weighted_layer config final)
                     (fsum (weighted_layer config
                              <$> take (decoder_layers config - 1) layers)))).
Proof.
  intros Haux Hrun Hcfg.
  split; [by apply (forward_aux_entries _ _ _ self outputs targets auxs)|].
  split; [by apply detr_weight_dict_closed|].
  destruct (detr_weight_dict_lookup config Hcfg) as (Hw & Hc & Hci).
  repeat split; try done; try (by apply Hw).
  intros softmax lg pb oc od labels loss loss_dict Hl.
  unfold DetrForObjectDetection_loss in Hl.
  destruct (HungarianMatcher_init _ _ _); [|done]. cbn [mbind result_bind] in Hl.
  match type of Hl with
  | ?m ≫= _ = _ => destruct m as [ld|] eqn:Ef; [|done]
  end.
  cbn [mbind result_bind] in Hl. injection Hl as <- <-.
  apply forward_detr_shape in Ef as (final & layers & Hlen & ->); [|done].
  cbn [auxiliary_outputs] in Hlen. rewrite Hcfg in Hlen. cbn [default] in Hlen.
  exists final, layers. split; [done|]. split; [done|].
  by apply weighted_total_layers.
Qed.

Lemma C4_aux_losses_suffixed_and_weighted_total_witness :
  (exists indices,
     matcher example_criterion (mkOutputs (Some example_logits) (Some example_boxes) None None)
       [example_target] = Ok indices
     /\ forall loss, loss ∈ losses example_criterion -> loss <> "masks" ->
          exists l_dict,
            get_loss unit_cross_entropy unit_cardinality no_masks example_criterion loss
              (mkOutputs (Some example_logits) (Some example_boxes) None None)
              [example_target] indices (forward_num_boxes [example_target]) = Ok l_dict
            /\ forall k v, dict_get k l_dict = Some v ->
                 dict_get (suffixed k 0)
                   example_losses
                 = Some v)
  /\ dict_get (suffixed "loss_ce" 0) (detr_weight_dict example_config) = Some 1
  /\ dict_get (suffixed "cardinality_error" 0) (detr_weight_dict example_config) = None.
Proof.
  pose proof (C4_aux_losses_suffixed_and_weighted_total
                unit_cross_entropy unit_cardinality no_masks
                example_criterion example_outputs [example_target]
                [mkOutputs (Some example_logits) (Some example_boxes) None None]
                example_losses
                example_config eq_refl) as H.
  destruct H as (Hlayers & _ & Hw & _ & Hc & _); [vm_compute; reflexivity|reflexivity|].
  split; [|split].
  - by destruct (Hlayers 0%nat _ eq_refl) as (Hl & _).
  - destruct (Hw "loss_ce" 1 eq_refl) as [_ Hi]. apply Hi. simpl. lia.
  - apply Hc.
Defined.

(** ** linear_sum_assignment: the shape of its result *)

Lemma arrangements_spec (k m : nat) (s : list nat) :
  s ∈ arrangements k m ->
  length s = k /\ NoDup s /\ Forall (fun j => (j < m)%nat) s.
Proof.
  revert s. induction k as [|k IH]; intros s Hs.
  - apply list_elem_of_singleton in Hs as ->. repeat split; constructor.
  - cbn [arrangements] in Hs. apply list_elem_of_In, in_flat_map in Hs as (s' & Hs' & Hs).
    apply list_elem_of_In in Hs', Hs.
    apply list_elem_of_fmap in Hs as (j & -> & Hj).
    apply list_elem_of_filter in Hj as [Hnot Hj]. apply elem_of_seq in Hj.
    destruct (IH s' Hs') as (Hlen & Hnd & Hlt).
    repeat split.
    + simpl. lia.
    + by constructor.
    + constructor; [lia|done].
Qed.

Lemma arrangements_nonempty (k m : nat) : (k <= m)%nat -> arrangements k m <> [].
Proof.
  induction k as [|k IH]; intros Hk; [done|].
  destruct (arrangements k m) as [|s' rest] eqn:E; [by destruct IH; [lia|]|].
  assert (Hs' : s' ∈ arrangements k m) by (rewrite E; left).
  destruct (arrangements_spec k m s' Hs') as (Hlen & Hnd & _).
  cbn [arrangements]. rewrite E. cbn [flat_map].
  destruct (filter (fun j => j ∉ s') (seq 0 m)) as [|j js] eqn:Ef; [|done].
  exfalso.
  assert (Hsub : seq 0 m ⊆+ s').
  { apply NoDup_submseteq; [apply NoDup_seq|]. intros x Hx.
    destruct (decide (x ∈ s')) as [|Hn]; [done|].
    by destruct (filter_nil_not_elem_of _ _ x Ef Hn). }
  apply submseteq_length in Hsub. rewrite length_seq in Hsub. lia.
Qed.

Lemma argmin_by_elem {A} (f : A -> Q) (best : A) (l : list A) :
  argmin_by f best l ∈ best :: l.
Proof.
  revert best. induction l as [|x l IH]; intros best; [left|].
  cbn [argmin_by]. specialize (IH (if Qltb (f x) (f best) then x else best)).
  apply elem_of_cons in IH as [->|IH].
  - destruct (Qltb (f x) (f best)); [right; left|left].
  - right. by right.
Qed.

Lemma first_argmin_elem {A} (f : A -> Q) (d : A) (l : list A) :
  l <> [] -> first_argmin f d l ∈ l.
Proof. destruct l as [|x l]; [done|]. intros _. apply argmin_by_elem. Qed.

(** The chosen candidate costs no more than any other. *)
Lemma argmin_by_le {A} (f : A -> Q) (best : A) (l : list A) :
  Forall (fun x => f (argmin_by f best l) <= f x) (best :: l).
Proof.
  revert best. induction l as [|x l IH]; intros best.
  - constructor; [apply Qle_refl|constructor].
  - cbn [argmin_by]. specialize (IH (if Qltb (f x) (f best) then x else best)).
    inversion IH as [|? ? Hb Hl]; subst.
    destruct (Qltb (f x) (f best)) eqn:E.
    + apply Qltb_true in E. constructor; [lra|]. by constructor.
    + apply Qltb_false in E. constructor; [done|]. constructor; [lra|done].
Qed.

Lemma mapR_finite (row : list F) :
  Forall is_Some row -> exists qs, mapR finite row = Ok qs /\ length qs = length row.
Proof.
  induction 1 as [|x row [q ->] _ (qs & E & L)]; [by exists []|].
  exists (q :: qs). cbn [mapR finite]. rewrite E. split; [done|]. simpl. by rewrite L.
Qed.

Lemma mapR_mapR_finite (n m : nat) (M : list (list F)) :
  mat n m is_Some M ->
  exists c, mapR (mapR finite) M = Ok c
            /\ length c = n /\ Forall (fun r => length r = m) c.
Proof.
  intros [Hn HM]. revert n Hn. induction HM as [|row M [Hm Hrow] _ IH]; intros n Hn.
  - exists []. by repeat split.
  - destruct (mapR_finite row Hrow) as (qs & E & L).
    destruct (IH _ eq_refl) as (c & Ec & Lc & Fc).
    exists (qs :: c). cbn [mapR]. rewrite E, Ec. split; [done|]. split.
    + simpl in *. lia.
    + constructor; [exact (eq_trans L Hm)|done].
Qed.

(** On a finite [n] by [m] cost matrix the solver returns min(n, m) pairs
    of distinct rows and distinct columns. *)
Lemma linear_sum_assignment_spec (n m : nat) (M : list (list F)) :
  mat n m is_Some M ->
  exists rows cols,
    linear_sum_assignment M = Ok (rows, cols)
    /\ length rows = (n `min` m)%nat /\ length cols = (n `min` m)%nat
    /\ NoDup rows /\ NoDup cols
    /\ Forall (fun i => (i < n)%nat) rows /\ Forall (fun j => (j < m)%nat) cols.
Proof.
  intros HM. destruct (mapR_mapR_finite n m M HM) as (c & Ec & Lc & Fc).
  unfold linear_sum_assignment. rewrite Ec. cbn [mbind result_bind].
  rewrite Lc.
  destruct (decide (n = 0)%nat) as [->|Hn0].
  { destruct c; [|done]. simpl. exists [], []. repeat split; constructor. }
  assert (Hm : length (hd [] c) = m).
  { destruct c as [|r c]; [simpl in Lc; lia|]. by inversion Fc. }
  rewrite Hm. destruct (n <=? m)%nat eqn:Enm.
  - apply Nat.leb_le in Enm.
    set (cols := first_argmin _ _ _).
    assert (Hc : cols ∈ arrangements n m).
    { apply first_argmin_elem. by apply arrangements_nonempty. }
    destruct (arrangements_spec n m cols Hc) as (Hl & Hnd & Hlt).
    exists (seq 0 n), cols. rewrite length_seq. repeat split; try done; try lia.
    + apply NoDup_seq.
    + apply Forall_forall. intros i Hi. apply elem_of_seq in Hi. lia.
  - apply Nat.leb_gt in Enm.
    set (rows := first_argmin _ _ _).
    assert (Hr : rows ∈ arrangements m n).
    { apply first_argmin_elem. apply arrangements_nonempty. lia. }
    destruct (arrangements_spec m n rows Hr) as (Hl & Hnd & Hlt).
    set (pairs := merge_sort fst_le (zip rows (seq 0 m))).
    assert (Hp : pairs ≡ₚ zip rows (seq 0 m)) by apply merge_sort_Permutation.
    assert (H1 : pairs.*1 ≡ₚ rows).
    { rewrite Hp. rewrite fst_zip; [done|]. rewrite length_seq. lia. }
    assert (H2 : pairs.*2 ≡ₚ seq 0 m).
    { rewrite Hp. rewrite snd_zip; [done|]. rewrite length_seq. lia. }
    exists (pairs.*1), (pairs.*2). repeat split.
    + rewrite H1. lia.
    + rewrite H2, length_seq. lia.
    + by rewrite H1.
    + rewrite H2. apply NoDup_seq.
    + by rewrite H1.
    + rewrite H2. apply Forall_forall. intros j Hj. apply elem_of_seq in Hj. lia.
Qed.

(** *** The assignment returned is of least cost *)

Lemma first_argmin_le {A} (f : A -> Q) (d : A) (l : list A) (x : A) :
  x ∈ l -> f (first_argmin f d l) <= f x.
Proof.
  destruct l as [|y l]; [by intros ?%elem_of_nil|]. intros Hx.
  pose proof (argmin_by_le f y l) as H. rewrite Forall_forall in H. by apply H.
Qed.

Lemma arrangements_complete (k m : nat) (s : list nat) :
  length s = k -> NoDup s -> Forall (fun j => (j < m)%nat) s -> s ∈ arrangements k m.
Proof.
  revert s. induction k as [|k IH]; intros s Hl Hnd Hlt.
  - destruct s; [left|done].
  - destruct s as [|j s]; [done|]. inversion Hnd; subst. inversion Hlt; subst.
    cbn [arrangements]. apply list_elem_of_In, in_flat_map. exists s. split.
    + apply list_elem_of_In, IH; [simpl in Hl; lia|done|done].
    + apply list_elem_of_In, list_elem_of_fmap. exists j. split; [done|].
      apply list_elem_of_filter. split; [done|]. apply elem_of_seq. lia.
Qed.

(** With no more rows than columns, every row receives a column, and no
    other way to give the rows pairwise distinct columns costs less. *)
Lemma linear_sum_assignment_optimal (n m : nat) (M : list (list F))
    (c : list (list Q)) (rows cols cols' : list nat) :
  mat n m is_Some M -> (n <= m)%nat ->
  mapR (mapR finite) M = Ok c ->
  linear_sum_assignment M = Ok (rows, cols) ->
  length cols' = n -> NoDup cols' -> Forall (fun j => (j < m)%nat) cols' ->
  rows = seq 0 n
  /\ assignment_cost c rows cols <= assignment_cost c rows cols'.
Proof.
  intros HM Hnm Ec E Hl Hnd Hlt.
  destruct (mapR_mapR_finite n m M HM) as (c0 & Ec0 & Lc & Fc).
  assert (c0 = c) as -> by congruence.
  unfold linear_sum_assignment in E. rewrite Ec in E. cbn [mbind result_bind] in E.
  rewrite Lc in E.
  destruct (decide (n = 0)%nat) as [->|Hn0].
  { destruct c; [|done]. simpl in E. injection E as <- <-.
    destruct cols'; [|done]. split; [done|]. apply Qle_refl. }
  assert (Hm : length (hd [] c) = m).
  { destruct c as [|r c]; [simpl in Lc; lia|]. by inversion Fc. }
  rewrite Hm, (proj2 (Nat.leb_le n m) Hnm) in E. injection E as <- <-.
  split; [done|].
  apply (first_argmin_le (fun s => assignment_cost c (seq 0 n) s)).
  by apply arrangements_complete.
Qed.

(** ** HungarianMatcher.forward *)

Lemma mapR_ok_exists {A B} (f : A -> result B) (P : B -> Prop) (l : list A) :
  Forall (fun x => exists y, f x = Ok y /\ P y) l ->
  exists ys, mapR f l = Ok ys /\ length ys = length l /\ Forall P ys.
Proof.
  induction 1 as [|x l (y & E & Hy) _ (ys & Es & L & Hys)]; [by exists []|].
  exists (y :: ys). cbn [mapR]. rewrite E, Es. repeat split.
  - simpl. by rewrite L.
  - by constructor.
Qed.

Lemma class_cost_matrix_ok (nc : nat) (out_prob : list (list Q)) (tgt_ids : list nat) :
  Forall (fun p => length p = nc) out_prob ->
  Forall (fun c => (c < nc)%nat) tgt_ids ->
  exists M, class_cost_matrix out_prob tgt_ids = Ok M
            /\ mat (length out_prob) (length tgt_ids) (fun _ => True) M.
Proof.
  intros Hp Hids. unfold class_cost_matrix.
  destruct (mapR_ok_exists
              (fun p => mapR (fun id => match p !! id with
                                        | Some v => Ok (- v)
                                        | None => Raise IndexError
                                        end) tgt_ids)
              (fun r => length r = length tgt_ids /\ Forall (fun _ => True) r)
              out_prob) as (M & E & L & HM).
  - eapply Forall_impl; [exact Hp|]. intros p Hlen. cbn beta in *.
    destruct (mapR_ok_exists
                (fun id => match p !! id with
                           | Some v => Ok (- v)
                           | None => Raise IndexError
                           end) (fun _ => True) tgt_ids) as (r & Er & Lr & Hr).
    + eapply Forall_impl; [exact Hids|]. intros c Hc. cbn beta in *.
      destruct (lookup_lt_is_Some_2 p c) as [v ->]; [lia|]. eauto.
    + exists r. by repeat split.
  - exists M. by repeat split.
Qed.

Lemma center_to_corners_positive (b : Box) :
  positive_extent b -> positive_box (center_to_corners_format b).
Proof. intros [Hw Hh]. unfold positive_box, center_to_corners_format. simpl. lra. Qed.

Lemma forallb_corners_ordered (bs : list Box) :
  Forall positive_extent bs ->
  forallb corners_ordered (center_to_corners_format <$> bs) = true.
Proof.
  intros H. apply forallb_forall. intros b Hb.
  apply list_elem_of_In, list_elem_of_fmap in Hb as (b' & -> & Hb').
  apply positive_box_ordered, center_to_corners_positive.
  rewrite Forall_forall in H. by apply H.
Qed.

Lemma generalized_box_iou_ok (bs1 bs2 : list Box) :
  Forall positive_extent bs1 -> Forall positive_extent bs2 ->
  exists M, generalized_box_iou (center_to_corners_format <$> bs1)
                                (center_to_corners_format <$> bs2) = Ok M
            /\ mat (length bs1) (length bs2) is_Some M.
Proof.
  intros H1 H2. unfold generalized_box_iou.
  rewrite !forallb_corners_ordered by done. cbn [negb].
  eexists. split; [done|]. split; [by rewrite !length_fmap|].
  apply Forall_fmap, Forall_fmap. eapply Forall_impl; [exact H1|]. intros a Ha. cbn.
  split; [by rewrite !length_fmap|].
  apply Forall_fmap, Forall_fmap. eapply Forall_impl; [exact H2|]. intros b Hb. cbn.
  by apply generalized_box_iou1_finite; apply center_to_corners_positive.
Qed.

Lemma cdist_l1_mat (xs ys : list Box) :
  mat (length xs) (length ys) (fun _ => True) (cdist_l1 xs ys).
Proof.
  unfold cdist_l1. split; [by rewrite length_fmap|].
  apply Forall_fmap, Forall_true. intros x. cbn. split; [by rewrite length_fmap|].
  by apply Forall_true.
Qed.

Lemma zip_with3_spec {A B C D} (f : A -> B -> C -> D)
    (P1 : A -> Prop) (P2 : B -> Prop) (P3 : C -> Prop) (P4 : D -> Prop)
    (n : nat) (l1 : list A) (l2 : list B) (l3 : list C) :
  (forall a b c, P1 a -> P2 b -> P3 c -> P4 (f a b c)) ->
  length l1 = n -> length l2 = n -> length l3 = n ->
  Forall P1 l1 -> Forall P2 l2 -> Forall P3 l3 ->
  length (zip_with3 f l1 l2 l3) = n /\ Forall P4 (zip_with3 f l1 l2 l3).
Proof.
  intros Hf. revert n l2 l3.
  induction l1 as [|a l1 IH]; intros n [|b l2] [|c l3] L1 L2 L3 H1 H2 H3;
    simpl in *; try lia; try (split; [done|constructor]).
  inversion H1; subst. inversion H2; subst. inversion H3; subst.
  destruct (IH (length l1) l2 l3) as [L HP]; try done; try lia.
  unfold zip_with3 in *. cbn. split; [by rewrite L|]. constructor; [by apply Hf|done].
Qed.

Lemma cost_matrix_mat (self : HungarianMatcher) (r t : nat)
    (cost_bbox cost_class : list (list Q)) (cost_giou : list (list F)) :
  mat r t (fun _ => True) cost_bbox -> mat r t (fun _ => True) cost_class ->
  mat r t is_Some cost_giou ->
  mat r t is_Some (zip_with3 (zip_with3 (cost_entry self)) cost_bbox cost_class cost_giou).
Proof.
  intros [L1 H1] [L2 H2] [L3 H3].
  apply (zip_with3_spec _ (fun r => length r = t /\ Forall (fun _ => True) r)
           (fun r => length r = t /\ Forall (fun _ => True) r)
           (fun r => length r = t /\ Forall is_Some r)); try done.
  intros a b c [La _] [Lb _] [Lc Hc].
  apply (zip_with3_spec _ (fun _ => True) (fun _ => True) is_Some); try done.
  - intros x y z _ _ [g ->]. by eexists.
  - by apply Forall_true.
  - by apply Forall_true.
Qed.

Lemma fneg_mat (r t : nat) (M : list (list F)) :
  mat r t is_Some M -> mat r t is_Some (fmap (M:=list) (fmap (M:=list) fneg) M).
Proof.
  intros [L H]. split; [by rewrite length_fmap|].
  apply Forall_fmap. eapply Forall_impl; [exact H|]. intros row [Lr Hr]. cbn.
  split; [by rewrite length_fmap|].
  apply Forall_fmap. eapply Forall_impl; [exact Hr|]. by intros x [q ->]; eexists.
Qed.

Lemma chunks_spec {A} (P : A -> Prop) (k n : nat) (l : list A) :
  length l = (k * n)%nat -> Forall P l ->
  mat k n P (chunks k n l).
Proof.
  revert l. induction k as [|k IH]; intros l L H; [by split|].
  cbn [chunks]. destruct (IH (drop n l)) as [Lk Hk].
  - rewrite length_drop. lia.
  - by apply Forall_drop.
  - split; [simpl; lia|]. constructor; [|done].
    split; [rewrite length_take; lia|by apply Forall_take].
Qed.

Lemma split_last_spec {A} (P : A -> Prop) (nq : nat) (sizes : list nat) (t : nat)
    (C : list (list (list A))) :
  (sum_list sizes <= t)%nat ->
  Forall (mat nq t P) C ->
  Forall2 (fun s ck => length ck = length C /\ Forall (mat nq s P) ck)
          sizes (split_last sizes C).
Proof.
  revert t C. induction sizes as [|s sizes IH]; intros t C Hsum HC; [constructor|].
  cbn [split_last]. simpl in Hsum. constructor.
  - split; [by rewrite length_fmap|].
    apply Forall_fmap. eapply Forall_impl; [exact HC|]. intros M [LM HM]. cbn.
    split; [by rewrite length_fmap|].
    apply Forall_fmap. eapply Forall_impl; [exact HM|]. intros row [Lr Hr]. cbn.
    split; [rewrite length_take; lia|by apply Forall_take].
  - assert (HC' : Forall (mat nq (t - s) P)
                    (fmap (M:=list) (fmap (M:=list) (drop s)) C)).
    { apply Forall_fmap. eapply Forall_impl; [exact HC|]. intros M [LM HM]. cbn.
      split; [by rewrite length_fmap|].
      apply Forall_fmap. eapply Forall_impl; [exact HM|]. intros row [Lr Hr]. cbn.
      split; [rewrite length_drop; lia|by apply Forall_drop]. }
    specialize (IH (t - s)%nat _ ltac:(lia) HC').
    eapply Forall2_impl; [exact IH|]. intros s' ck [Lck Hck].
    split; [by rewrite Lck, length_fmap|done].
Qed.

Lemma assign_blocks (nq bs : nat) (sizes : list nat)
    (cs : list (list (list (list F)))) (i0 : nat) :
  Forall2 (fun s ck => length ck = bs /\ Forall (mat nq s is_Some) ck) sizes cs ->
  (i0 + length cs <= bs)%nat ->
  exists res,
    mapR (fun ic => match ic.2 !! ic.1 with
                    | Some ci => linear_sum_assignment ci
                    | None => Raise IndexError
                    end) (enumerate_from i0 cs) = Ok res
    /\ Forall2 (fun s ij =>
                  length ij.1 = (nq `min` s)%nat /\ length ij.2 = (nq `min` s)%nat
                  /\ NoDup ij.1 /\ NoDup ij.2
                  /\ Forall (fun i => (i < nq)%nat) ij.1
                  /\ Forall (fun j => (j < s)%nat) ij.2) sizes res.
Proof.
  intros H. revert i0. induction H as [|s ck sizes cs [Lck Hck] _ IH]; intros i0 Hi0.
  - exists []. split; [done|constructor].
  - cbn [enumerate_from mapR]. cbn beta. cbn [fst snd].
    destruct (lookup_lt_is_Some_2 ck i0) as [ci Eci]; [simpl in Hi0; lia|].
    assert (Hci : mat nq s is_Some ci).
    { rewrite Forall_forall in Hck. apply Hck. by eapply list_elem_of_lookup_2. }
    destruct (linear_sum_assignment_spec nq s ci Hci)
      as (rows & cols & E & L1 & L2 & N1 & N2 & F1 & F2).
    destruct (IH (S i0)) as (res & Er & Hres); [simpl in Hi0; lia|].
    exists ((rows, cols) :: res). split; [by rewrite Eci, E, Er|].
    constructor; [|done]. by repeat split.
Qed.

Lemma length_concat_uniform {A} (n : nat) (l : list (list A)) :
  Forall (fun m => length m = n) l -> length (concat l) = (length l * n)%nat.
Proof.
  induction 1 as [|m l Hm _ IH]; [done|].
  cbn [concat]. rewrite length_app, IH, Hm. simpl. lia.
Qed.

Lemma torch_cat_ok {A} (ts : list (list A)) :
  ts <> [] -> torch_cat ts = Ok (concat ts).
Proof. by destruct ts. Qed.

Lemma sum_list_boxes (targets : list Target) :
  length (concat (boxes <$> targets))
  = sum_list ((fun v => length (boxes v)) <$> targets).
Proof.
  induction targets as [|t targets IH]; [done|].
  rewrite !fmap_cons. cbn [concat]. rewrite length_app, IH. done.
Qed.

Lemma length_concat_labels (targets : list Target) :
  Forall (fun t => length (class_labels t) = length (boxes t)) targets ->
  length (concat (class_labels <$> targets)) = length (concat (boxes <$> targets)).
Proof.
  induction 1 as [|t targets Ht _ IH]; [done|].
  rewrite !fmap_cons. cbn [concat]. by rewrite !length_app, IH, Ht.
Qed.

(** With shapes as documented and boxes of positive width and height, the
    matcher returns, and returns a valid assignment for every image. *)
Lemma HungarianMatcher_forward_ok (softmax : list Q -> list Q)
    (self : HungarianMatcher) (bs nq nc : nat) (outputs : Outputs)
    (targets : list Target) :
  (forall row, length (softmax row) = length row) ->
  matcher_inputs_ok bs nq nc outputs targets ->
  boxes_have_extent outputs targets ->
  exists indices,
    HungarianMatcher_forward softmax self outputs targets = Ok indices
    /\ Forall2 (valid_assignment nq) targets indices.
Proof.
  intros Hsm (lg & pb & Hlg & Hpb & Hbs & Hnq & Llg & Flg & Lpb & Fpb & Lt & Ft) [Hpe Hte].
  specialize (Hpe pb Hpb).
  unfold HungarianMatcher_forward. rewrite Hlg, Hpb. cbn [getitem mbind result_bind].
  assert (Hne : targets <> []) by (destruct targets; [simpl in Lt; lia|done]).
  rewrite !torch_cat_ok by (by destruct targets).
  cbn [mbind result_bind].
  (* shapes of the flattened tensors *)
  assert (Hhd : length (hd [] lg) = nq).
  { destruct lg as [|m lg]; [simpl in Llg; lia|]. by inversion Flg as [|? ? [? _]]. }
  rewrite Hhd, Llg.
  set (out_prob := softmax <$> concat lg).
  set (out_bbox := concat pb).
  set (tgt_ids := concat (class_labels <$> targets)).
  set (tgt_bbox := concat (boxes <$> targets)).
  assert (Lrows : length out_prob = (bs * nq)%nat).
  { subst out_prob. rewrite length_fmap, (length_concat_uniform nq), Llg; [done|].
    eapply Forall_impl; [exact Flg|]. by intros m [? _]. }
  assert (Lbox : length out_bbox = (bs * nq)%nat).
  { subst out_bbox. by rewrite (length_concat_uniform nq), Lpb. }
  assert (Lids : length tgt_ids = length tgt_bbox).
  { apply length_concat_labels. eapply Forall_impl; [exact Ft|]. by intros t [? _]. }
  (* the three cost matrices *)
  destruct (class_cost_matrix_ok nc out_prob tgt_ids) as (cost_class & Ecc & Hcc).
  { subst out_prob. apply Forall_fmap, Forall_concat.
    eapply Forall_impl; [exact Flg|]. intros m [_ Hm].
    eapply Forall_impl; [exact Hm|]. intros r Hr. cbn. by rewrite Hsm. }
  { subst tgt_ids. apply Forall_concat, Forall_fmap.
    eapply Forall_impl; [exact Ft|]. by intros t [_ ?]. }
  rewrite Ecc. cbn [mbind result_bind].
  destruct (generalized_box_iou_ok out_bbox tgt_bbox) as (giou & Eg & Hg).
  { subst out_bbox. by apply Forall_concat. }
  { subst tgt_bbox. by apply Forall_concat, Forall_fmap. }
  rewrite Eg. cbn [mbind result_bind].
  rewrite Lrows, Lbox, Lids, !Nat.eqb_refl. cbn [andb negb].
  set (C := zip_with3 _ _ _ _).
  assert (HC : mat (bs * nq) (length tgt_bbox) is_Some C).
  { subst C. apply cost_matrix_mat.
    - rewrite <- Lbox. apply cdist_l1_mat.
    - by rewrite <- Lrows, <- Lids.
    - apply fneg_mat. by rewrite <- Lbox. }
  destruct HC as [LC FC].
  unfold view3. rewrite LC, Nat.eqb_refl.
  destruct (bs * nq =? 0)%nat eqn:Ez; [apply Nat.eqb_eq in Ez; nia|].
  cbn [mbind result_bind].
  destruct (chunks_spec _ bs nq C LC FC) as [Lch Fch].
  pose proof (split_last_spec is_Some nq
                ((fun v => length (boxes v)) <$> targets) (length tgt_bbox)
                (chunks bs nq C)) as Hsplit.
  rewrite Lch in Hsplit.
  destruct (assign_blocks nq bs _ _ 0 (Hsplit ltac:(subst tgt_bbox; by rewrite sum_list_boxes) Fch))
    as (res & Er & Hres).
  { apply Forall2_length in Hsplit;
      [|subst tgt_bbox; by rewrite sum_list_boxes|done].
    rewrite <- Hsplit, length_fmap. lia. }
  exists res. split; [exact Er|].
  apply Forall2_fmap_l in Hres. eapply Forall2_impl; [exact Hres|].
  intros t ij H. exact H.
Qed.

Lemma normalize_length (row : list Q) : length (normalize row) = length row.
Proof. unfold normalize. destruct (Qzero _); [done|]. by rewrite length_fmap. Qed.

(** C1, as stated, fails: on inputs of the documented shapes the matcher does
    not always return; a target box of negative width makes the assertion of
    [generalized_box_iou] fail. *)
Lemma C1_inverted_box_raises :
  ~ (forall (softmax : list Q -> list Q) (self : HungarianMatcher)
            (bs nq nc : nat) (outputs : Outputs) (targets : list Target),
       (forall row, length (softmax row) = length row) ->
       matcher_inputs_ok bs nq nc outputs targets ->
       exists indices,
         HungarianMatcher_forward softmax self outputs targets = Ok indices
         /\ Forall2 (valid_assignment nq) targets indices).
Proof.
  intros H.
  destruct (H normalize example_matcher 1%nat 2%nat 2%nat example_layer_outputs
              [inverted_target] normalize_length) as (indices & E & _).
  - exists example_logits, example_boxes.
    repeat split; try done; try lia; repeat constructor.
  - assert (Hr : HungarianMatcher_forward normalize example_matcher example_layer_outputs
                   [inverted_target] = Raise AssertionError) by (vm_compute; reflexivity).
    congruence.
Qed.

(** C1, amended: for logits of shape [batch_size, num_queries, num_classes]
    and predicted boxes (batch_size, num_queries >= 1), one target per image
    with as many in-range class labels as boxes, and all boxes, predicted and
    target, of positive width and height, [HungarianMatcher.forward] returns
    one pair (index_i, index_j) per image with
    len(index_i) == len(index_j) == min(num_queries, num_target_boxes), the
    entries of index_i pairwise distinct query indices and the entries of
    index_j pairwise distinct target indices. *)
Theorem C1_matcher_returns_valid_assignment (softmax : list Q -> list Q)
    (self : HungarianMatcher) (bs nq nc : nat) (outputs : Outputs)
    (targets : list Target) :
  (forall row, length (softmax row) = length row) ->
  matcher_inputs_ok bs nq nc outputs targets ->
  boxes_have_extent outputs targets ->
  exists indices,
    HungarianMatcher_forward softmax self outputs targets = Ok indices
    /\ length indices = bs
    /\ Forall2 (fun t ij =>
                  length ij.1 = (nq `min` length (boxes t))%nat
                  /\ length ij.2 = (nq `min` length (boxes t))%nat
                  /\ NoDup ij.1 /\ NoDup ij.2
                  /\ Forall (fun i => (i < nq)%nat) ij.1
                  /\ Forall (fun j => (j < length (boxes t))%nat) ij.2)
               targets indices.
Proof.
  intros Hsm Hok Hext.
  destruct (HungarianMatcher_forward_ok softmax self bs nq nc outputs targets Hsm Hok Hext)
    as (indices & E & Hv).
  exists indices. split; [done|]. split; [|exact Hv].
  apply Forall2_length in Hv. destruct Hok as (lg & pb & _ & _ & _ & _ & _ & _ & _ & _ & Lt & _).
  lia.
Qed.

Lemma C1_matcher_returns_valid_assignment_witness :
  exists indices,
    HungarianMatcher_forward normalize example_matcher example_layer_outputs
      [example_target] = Ok indices
    /\ length indices = 1%nat
    /\ Forall2 (fun t ij =>
                  length ij.1 = (2 `min` length (boxes t))%nat
                  /\ length ij.2 = (2 `min` length (boxes t))%nat
                  /\ NoDup ij.1 /\ NoDup ij.2
                  /\ Forall (fun i => (i < 2)%nat) ij.1
                  /\ Forall (fun j => (j < length (boxes t))%nat) ij.2)
               [example_target] indices.
Proof.
  apply (C1_matcher_returns_valid_assignment normalize example_matcher 1 2 2
           example_layer_outputs [example_target] normalize_length).
  - exists example_logits, example_boxes.
    repeat split; try done; try lia; repeat constructor.
  - split.
    + intros pb [= <-]. repeat constructor.
    + repeat constructor.
Defined.

(** The assignment on the example: the second query is matched to the only
    target; without target boxes the assignment is empty. *)
Lemma HungarianMatcher_forward_examples :
  HungarianMatcher_forward normalize example_matcher example_layer_outputs
    [example_target] = Ok [([1%nat], [0%nat])]
  /\ HungarianMatcher_forward normalize example_matcher example_layer_outputs
       [empty_target] = Ok [([], [])]
  /\ HungarianMatcher_forward normalize example_matcher example_layer_outputs []
     = Raise RuntimeError.
Proof. repeat split; vm_compute; reflexivity. Qed.

(** * Further properties of the matching and loss code *)

(** ** generalized_box_iou: range and symmetry *)

Lemma Qmax_comm (a b : Q) : Qmax a b == Qmax b a.
Proof.
  destruct (Qmax_spec a b) as [[? ->]|[? ->]];
    destruct (Qmax_spec b a) as [[? ->]|[? ->]]; lra.
Qed.

Lemma Qmin_comm (a b : Q) : Qmin a b == Qmin b a.
Proof.
  destruct (Qmin_spec a b) as [[? ->]|[? ->]];
    destruct (Qmin_spec b a) as [[? ->]|[? ->]]; lra.
Qed.

Lemma clamp_min0_proper (a b : Q) : a == b -> clamp_min0 a == clamp_min0 b.
Proof.
  intros E.
  destruct (clamp_min0_spec a) as [[? ->]|[? ->]];
    destruct (clamp_min0_spec b) as [[? ->]|[? ->]]; lra.
Qed.

Lemma fdiv_proper (a a' b b' : Q) : a == a' -> b == b' -> feq (fdiv a b) (fdiv a' b').
Proof.
  intros Ea Eb. unfold fdiv.
  destruct (Qzero b) eqn:Hb; destruct (Qzero b') eqn:Hb'; cbn.
  - done.
  - apply Qzero_true in Hb. apply Qzero_false in Hb'. lra.
  - apply Qzero_false in Hb. apply Qzero_true in Hb'. lra.
  - apply Qzero_false in Hb. by rewrite Ea, Eb.
Qed.

Lemma fsub_proper (a a' b b' : F) : feq a a' -> feq b b' -> feq (fsub a b) (fsub a' b').
Proof.
  destruct a, a', b, b'; cbn; try done. intros -> ->. reflexivity.
Qed.

Lemma generalized_box_iou1_comm (a b : Box) :
  feq (generalized_box_iou1 a b) (generalized_box_iou1 b a).
Proof.
  unfold generalized_box_iou1, box_iou1, box_area.
  assert (Hi : clamp_min0 (Qmin (b2 a) (b2 b) - Qmax (b0 a) (b0 b))
               * clamp_min0 (Qmin (b3 a) (b3 b) - Qmax (b1 a) (b1 b))
               == clamp_min0 (Qmin (b2 b) (b2 a) - Qmax (b0 b) (b0 a))
                  * clamp_min0 (Qmin (b3 b) (b3 a) - Qmax (b1 b) (b1 a))).
  { rewrite (clamp_min0_proper (Qmin (b2 a) (b2 b) - Qmax (b0 a) (b0 b))
                               (Qmin (b2 b) (b2 a) - Qmax (b0 b) (b0 a)))
      by (rewrite Qmin_comm, Qmax_comm; reflexivity).
    rewrite (clamp_min0_proper (Qmin (b3 a) (b3 b) - Qmax (b1 a) (b1 b))
                               (Qmin (b3 b) (b3 a) - Qmax (b1 b) (b1 a)))
      by (rewrite Qmin_comm, Qmax_comm; reflexivity).
    reflexivity. }
  assert (Ha : clamp_min0 (Qmax (b2 a) (b2 b) - Qmin (b0 a) (b0 b))
               * clamp_min0 (Qmax (b3 a) (b3 b) - Qmin (b1 a) (b1 b))
               == clamp_min0 (Qmax (b2 b) (b2 a) - Qmin (b0 b) (b0 a))
                  * clamp_min0 (Qmax (b3 b) (b3 a) - Qmin (b1 b) (b1 a))).
  { rewrite (clamp_min0_proper (Qmax (b2 a) (b2 b) - Qmin (b0 a) (b0 b))
                               (Qmax (b2 b) (b2 a) - Qmin (b0 b) (b0 a)))
      by (rewrite Qmin_comm, Qmax_comm; reflexivity).
    rewrite (clamp_min0_proper (Qmax (b3 a) (b3 b) - Qmin (b1 a) (b1 b))
                               (Qmax (b3 b) (b3 a) - Qmin (b1 b) (b1 a)))
      by (rewrite Qmin_comm, Qmax_comm; reflexivity).
    reflexivity. }
  apply fsub_proper; apply fdiv_proper; try done.
  - rewrite Hi. ring.
  - rewrite Hi, Ha. ring.
Qed.

Lemma lookup2_fmap {A B C} (f : A -> B -> C) (l1 : list A) (l2 : list B) (i j : nat) :
  (fmap (fun a => fmap (fun b => f a b) l2) l1 !! i) ≫= (fun row => row !! j)
  = match l1 !! i, l2 !! j with
    | Some a, Some b => Some (f a b)
    | _, _ => None
    end.
Proof.
  rewrite list_lookup_fmap. destruct (l1 !! i) as [a|]; cbn; [|done].
  rewrite list_lookup_fmap. by destruct (l2 !! j).
Qed.

(** X1 (generalized_box_iou): the GIoU matrix of the swapped arguments is
    the transposed matrix.  Whenever [generalized_box_iou boxes1 boxes2]
    returns, so does [generalized_box_iou boxes2 boxes1], and entry (j, i)
    of the latter is the same value as entry (i, j) of the former, also
    when that value is not finite. *)
Theorem generalized_box_iou_symmetric (boxes1 boxes2 : list Box) (M : list (list F)) :
  generalized_box_iou boxes1 boxes2 = Ok M ->
  exists M',
    generalized_box_iou boxes2 boxes1 = Ok M'
    /\ length M = length boxes1 /\ length M' = length boxes2
    /\ forall i j x, (M !! i) ≫= (fun row => row !! j) = Some x ->
         exists y, (M' !! j) ≫= (fun row => row !! i) = Some y /\ feq x y.
Proof.
  unfold generalized_box_iou.
  destruct (forallb corners_ordered boxes1) eqn:E1; [|done]. cbn [negb].
  destruct (forallb corners_ordered boxes2) eqn:E2; [|done]. cbn [negb].
  intros [= <-]. eexists. split; [done|].
  rewrite !length_fmap. split; [done|]. split; [done|].
  intros i j x. rewrite !lookup2_fmap.
  destruct (boxes1 !! i) as [a|]; [|done].
  destruct (boxes2 !! j) as [b|]; [|done].
  intros [= <-]. eexists. split; [done|]. apply generalized_box_iou1_comm.
Qed.

Lemma generalized_box_iou_symmetric_witness :
  exists M',
    generalized_box_iou far_boxes corner_boxes = Ok M'
    /\ length corner_far_giou = length corner_boxes
    /\ length M' = length far_boxes
    /\ forall i j x,
         (corner_far_giou !! i) ≫= (fun row => row !! j) = Some x ->
         exists y, (M' !! j) ≫= (fun row => row !! i) = Some y /\ feq x y.
Proof. by apply (generalized_box_iou_symmetric corner_boxes far_boxes). Defined.

(** The two boxes overlap on [w1 + w2 - W] horizontally, where [W] is the
    width of the enclosing box. *)
Lemma overlap_width (a0 a2 c0 c2 : Q) :
  Qmin a2 c2 - Qmax a0 c0 == (a2 - a0) + (c2 - c0) - (Qmax a2 c2 - Qmin a0 c0).
Proof.
  destruct (Qmin_spec a2 c2) as [[? ->]|[? ->]];
    destruct (Qmax_spec a0 c0) as [[? ->]|[? ->]];
    destruct (Qmax_spec a2 c2) as [[? ->]|[? ->]];
    destruct (Qmin_spec a0 c0) as [[? ->]|[? ->]]; lra.
Qed.

Lemma enclosing_width (a0 a2 c0 c2 : Q) :
  a2 - a0 <= Qmax a2 c2 - Qmin a0 c0 /\ c2 - c0 <= Qmax a2 c2 - Qmin a0 c0.
Proof.
  destruct (Qmax_spec a2 c2) as [[? ->]|[? ->]];
    destruct (Qmin_spec a0 c0) as [[? ->]|[? ->]]; lra.
Qed.

(** Intersection, union and enclosing area of two boxes of positive width
    and height: [0 <= inter <= union <= area] and [0 < union]. *)
Lemma union_le_enclosing (w1 h1 w2 h2 W H wx wy : Q) :
  0 < w1 -> 0 < h1 -> 0 < w2 -> 0 < h2 ->
  w1 <= W -> w2 <= W -> h1 <= H -> h2 <= H ->
  (0 <= w1 + w2 - W /\ wx == w1 + w2 - W) \/ (w1 + w2 - W < 0 /\ wx == 0) ->
  (0 <= h1 + h2 - H /\ wy == h1 + h2 - H) \/ (h1 + h2 - H < 0 /\ wy == 0) ->
  0 <= wx * wy /\ wx * wy <= w1 * h1 + w2 * h2 - wx * wy
  /\ 0 < w1 * h1 + w2 * h2 - wx * wy
  /\ w1 * h1 + w2 * h2 - wx * wy <= W * H.
Proof.
  intros ? ? ? ? ? ? ? ? [[? Ex]|[? Ex]] [[? Ey]|[? Ey]]; rewrite Ex, Ey.
  - assert (0 <= (W - w1) * (H - h2)) by nra.
    assert (0 <= (W - w2) * (H - h1)) by nra.
    assert (0 <= (W - w2) * h1) by nra.
    assert (0 <= (W - w1) * h2) by nra.
    assert (0 <= (H - h2) * w1) by nra.
    assert (0 <= (H - h1) * w2) by nra.
    assert (0 <= (w1 + w2 - W) * (h1 + h2 - H)) by nra.
    assert (0 < w1 * h1) by nra. assert (0 < w2 * h2) by nra.
    repeat split; nra.
  - assert (0 < w1 * h1) by nra. assert (0 < w2 * h2) by nra.
    assert (0 <= (H - h1 - h2) * W) by nra.
    assert (0 <= h1 * (W - w1)) by nra. assert (0 <= h2 * (W - w2)) by nra.
    repeat split; nra.
  - assert (0 < w1 * h1) by nra. assert (0 < w2 * h2) by nra.
    assert (0 <= (W - w1 - w2) * H) by nra.
    assert (0 <= w1 * (H - h1)) by nra. assert (0 <= w2 * (H - h2)) by nra.
    repeat split; nra.
  - assert (0 < w1 * h1) by nra. assert (0 < w2 * h2) by nra.
    assert (0 <= (W - w1 - w2) * H) by nra.
    assert (0 <= w1 * (H - h1)) by nra. assert (0 <= w2 * (H - h2)) by nra.
    repeat split; nra.
Qed.

Lemma clamp_overlap (w1 w2 W o : Q) :
  o == w1 + w2 - W ->
  (0 <= w1 + w2 - W /\ clamp_min0 o == w1 + w2 - W)
  \/ (w1 + w2 - W < 0 /\ clamp_min0 o == 0).
Proof.
  intros E. destruct (clamp_min0_spec o) as [[? E']|[? E']]; rewrite E'.
  - left. split; lra.
  - right. split; lra.
Qed.

(** The range of one entry for boxes of positive width and height. *)
Lemma generalized_box_iou1_range (a b : Box) :
  positive_box a -> positive_box b ->
  exists g i, generalized_box_iou1 a b = Some g /\ (box_iou1 a b).1 = Some i
              /\ -1 < g /\ g <= i /\ 0 <= i /\ i <= 1.
Proof.
  intros Ha Hb.
  pose proof (box_iou1_union_pos a b Ha Hb) as Hu.
  pose proof (enclosing_area_pos a b Ha) as Harea.
  destruct Ha as [Hax Hay], Hb as [Hbx Hby].
  unfold generalized_box_iou1. unfold box_iou1, box_area in *. cbn [fst snd] in *.
  set (wx := clamp_min0 (Qmin (b2 a) (b2 b) - Qmax (b0 a) (b0 b))) in *.
  set (wy := clamp_min0 (Qmin (b3 a) (b3 b) - Qmax (b1 a) (b1 b))) in *.
  set (W := Qmax (b2 a) (b2 b) - Qmin (b0 a) (b0 b)) in *.
  set (H := Qmax (b3 a) (b3 b) - Qmin (b1 a) (b1 b)) in *.
  destruct (enclosing_width (b0 a) (b2 a) (b0 b) (b2 b)) as [HW1 HW2].
  destruct (enclosing_width (b1 a) (b3 a) (b1 b) (b3 b)) as [HH1 HH2].
  fold W in HW1, HW2. fold H in HH1, HH2.
  assert (HcW : clamp_min0 W = W) by (apply clamp_min0_pos; lra).
  assert (HcH : clamp_min0 H = H) by (apply clamp_min0_pos; lra).
  rewrite HcW, HcH in *.
  pose proof (clamp_overlap (b2 a - b0 a) (b2 b - b0 b) W _
                (overlap_width (b0 a) (b2 a) (b0 b) (b2 b))) as Hwx.
  pose proof (clamp_overlap (b3 a - b1 a) (b3 b - b1 b) H _
                (overlap_width (b1 a) (b3 a) (b1 b) (b3 b))) as Hwy.
  fold wx in Hwx. fold wy in Hwy.
  destruct (union_le_enclosing (b2 a - b0 a) (b3 a - b1 a) (b2 b - b0 b) (b3 b - b1 b)
              W H wx wy) as (Hi0 & Hiu & Hu0 & HuA); try done; try lra.
  clearbody wx wy W H.
  set (inter := wx * wy) in *.
  set (union := (b2 a - b0 a) * (b3 a - b1 a) + (b2 b - b0 b) * (b3 b - b1 b) - inter) in *.
  set (area := W * H) in *.
  clearbody inter union area.
  rewrite !fdiv_nonzero by lra. cbn [fsub].
  eexists _, _. split; [done|]. split; [done|].
  assert (Hq1 : 0 <= inter / union) by (apply Qle_shift_div_l; lra).
  assert (Hq2 : inter / union <= 1) by (apply Qle_shift_div_r; lra).
  assert (Hq3 : 0 <= (area - union) / area) by (apply Qle_shift_div_l; lra).
  assert (Hq4 : (area - union) / area < 1) by (apply Qlt_shift_div_r; lra).
  repeat split; lra.
Qed.

(** X2 (generalized_box_iou, box_iou): for boxes in corner format that
    all have positive width and height, [generalized_box_iou] returns a
    [len(boxes1)] x [len(boxes2)] matrix of finite values; each entry lies
    in (-1, 1] and is at most the IoU of the pair, which lies in [0, 1]. *)
Theorem generalized_box_iou_range (boxes1 boxes2 : list Box) :
  Forall positive_box boxes1 -> Forall positive_box boxes2 ->
  exists M,
    generalized_box_iou boxes1 boxes2 = Ok M
    /\ Forall2 (Forall2 (fun (x : F) (iu : F * Q) =>
                           exists g i, x = Some g /\ iu.1 = Some i
                                       /\ -1 < g /\ g <= i /\ 0 <= i /\ i <= 1))
         M (box_iou boxes1 boxes2).
Proof.
  intros H1 H2. unfold generalized_box_iou.
  assert (E1 : forallb corners_ordered boxes1 = true).
  { apply forallb_forall. intros x Hx%list_elem_of_In.
    rewrite Forall_forall in H1. by apply positive_box_ordered, H1. }
  assert (E2 : forallb corners_ordered boxes2 = true).
  { apply forallb_forall. intros x Hx%list_elem_of_In.
    rewrite Forall_forall in H2. by apply positive_box_ordered, H2. }
  rewrite E1, E2. cbn [negb]. eexists. split; [done|].
  unfold box_iou. apply Forall2_fmap, Forall_Forall2_diag.
  eapply Forall_impl; [exact H1|]. intros a Ha. cbn.
  apply Forall2_fmap, Forall_Forall2_diag.
  eapply Forall_impl; [exact H2|]. intros b Hb. cbn.
  by apply generalized_box_iou1_range.
Qed.

Lemma generalized_box_iou_range_witness :
  exists M,
    generalized_box_iou corner_boxes far_boxes = Ok M
    /\ Forall2 (Forall2 (fun (x : F) (iu : F * Q) =>
                           exists g i, x = Some g /\ iu.1 = Some i
                                       /\ -1 < g /\ g <= i /\ 0 <= i /\ i <= 1))
         M (box_iou corner_boxes far_boxes).
Proof.
  apply (generalized_box_iou_range corner_boxes far_boxes);
    repeat constructor; cbn; lra.
Defined.

(** ** The forward methods of the quantizer classes *)

Lemma argmax_from_lt (l : list Q) (best_i i : nat) (best : Q) :
  (best_i < i)%nat -> (argmax_from best_i best i l < i + length l)%nat.
Proof.
  revert best_i i best. induction l as [|v l IH]; intros bi i b Hlt; cbn [argmax_from length].
  - lia.
  - destruct (Qltb b v).
    + pose proof (IH i (S i) v ltac:(lia)). lia.
    + pose proof (IH bi (S i) b ltac:(lia)). lia.
Qed.

Lemma argmax_lt (l : list Q) (j : nat) : argmax l = Ok j -> (j < length l)%nat.
Proof.
  destruct l as [|v l]; [done|]. intros [= <-].
  pose proof (argmax_from_lt l 0 1 v ltac:(lia)). cbn [length]. lia.
Qed.

Lemma quantize_lt (self : EuclideanCodebook) (x : list (list Q)) (inds : list nat) :
  quantize self x = Ok inds ->
  embed self <> [] /\ Forall (fun i => (i < length (embed self))%nat) inds.
Proof.
  unfold quantize. destruct (embed self) as [|e es] eqn:E; [done|]. rewrite <- E.
  intros H. split; [by rewrite E|].
  apply mapR_ok_Forall2 in H. induction H as [|f i fs js Hq _ IH]; constructor; [|done].
  unfold quantize1 in Hq. destruct (forallb _ _); [|done].
  apply argmax_lt in Hq. by rewrite length_fmap in Hq.
Qed.

Lemma one_hot_check_ok (self : EuclideanCodebook) (x : list (list Q)) (inds : list nat) :
  quantize self x = Ok inds -> codebook_size self = length (embed self) ->
  one_hot_check inds (codebook_size self) = Ok ().
Proof.
  intros [Hne Hlt]%quantize_lt ->. unfold one_hot_check.
  destruct inds as [|i inds].
  - destruct (embed self); done.
  - assert (E : forallb (fun i0 => (i0 <? length (embed self))%nat) (i :: inds) = true).
    { apply forallb_forall. intros j Hj%list_elem_of_In. apply Nat.ltb_lt.
      rewrite Forall_forall in Hlt. by apply Hlt. }
    by rewrite E.
Qed.

Section ForwardFacts.

Context (kmeans : list (list Q) -> nat -> nat -> result (list (list Q) * list Q)).

Lemma EuclideanCodebook_forward_inited (self : EuclideanCodebook)
    (x : list (list (list Q))) :
  inited self = true -> codebook_size self = length (embed self) ->
  EuclideanCodebook_forward kmeans self x
  = (embed_ind ← EuclideanCodebook_encode self x;
     quantize ← EuclideanCodebook_decode self embed_ind;
     Ok (self, (quantize, embed_ind))).
Proof.
  intros Hi Hs. unfold EuclideanCodebook_forward, init_embed_, EuclideanCodebook_encode,
    EuclideanCodebook_decode.
  rewrite Hi. cbn [mbind result_bind].
  destruct (quantize self (concat x)) as [inds|e] eqn:E; [|done].
  cbn [mbind result_bind]. by rewrite (one_hot_check_ok self (concat x) inds).
Qed.

Lemma VectorQuantization_forward_eval (l : VectorQuantization)
    (x : list (list (list Q))) :
  layer_inited l ->
  VectorQuantization_forward kmeans false l x
  = (embed_ind ← VectorQuantization_encode l x;
     quantize ← VectorQuantization_decode l embed_ind;
     Ok (l, (quantize, embed_ind, Some 0))).
Proof.
  intros [Hi Hs]. unfold VectorQuantization_forward, VectorQuantization_encode,
    VectorQuantization_decode.
  rewrite EuclideanCodebook_forward_inited by done.
  destruct (EuclideanCodebook_encode _ _) as [i|]; [|done]. cbn [mbind result_bind].
  destruct (EuclideanCodebook_decode _ _) as [q|]; [|done]. cbn [mbind result_bind].
  cbn [fst snd andb]. by destruct l.
Qed.

Lemma forward_loop_eval (self : ResidualVectorQuantization)
    (ls : list VectorQuantization) (i : nat) (r : list (list (list Q))) (out : tensor) :
  Forall layer_inited ls ->
  (forall k l, ls !! k = Some l -> layers self !! (i + k)%nat = Some l) ->
  forward_loop kmeans false ls r out
  = (all_indices ← encode_loop ls r;
     o ← decode_loop self i all_indices out;
     Ok (ls, (o, all_indices, replicate (length all_indices) (Some 0)))).
Proof.
  intros Hls. revert i r out.
  induction Hls as [|l ls Hl _ IH]; intros i r out Hlk; [done|].
  cbn [forward_loop encode_loop]. rewrite VectorQuantization_forward_eval by done.
  destruct (VectorQuantization_encode l r) as [idx|]; [|done]. cbn [mbind result_bind].
  destruct (VectorQuantization_decode l idx) as [q|] eqn:Eq; [|done].
  cbn [mbind result_bind fst snd].
  rewrite (IH (S i)).
  2:{ intros k l' Hk. replace (S i + k)%nat with (i + S k)%nat by lia. by apply Hlk. }
  destruct (encode_loop ls _) as [all|]; [|done]. cbn [mbind result_bind decode_loop].
  rewrite <- (Nat.add_0_r i) at 2. rewrite (Hlk 0%nat l) by done.
  rewrite Eq. cbn [mbind result_bind].
  by destruct (decode_loop self (S i) all _).
Qed.

Lemma take_drop_length {A} (l : list A) (m : nat) :
  take m l ++ drop (length (take m l)) l = l.
Proof.
  rewrite length_take. destruct (decide (m <= length l)%nat).
  - rewrite Nat.min_l by lia. apply take_drop.
  - rewrite Nat.min_r by lia. rewrite take_ge, drop_all by lia. by rewrite app_nil_r.
Qed.

Lemma slice_to_prefix {A} (l : list A) (n : Z) : exists m, slice_to l n = take m l.
Proof. unfold slice_to. destruct (0 <=? n)%Z; eauto. Qed.

End ForwardFacts.

(** X3 (ResidualVectorQuantization.forward, VectorQuantization.forward,
    EuclideanCodebook.forward): in evaluation mode, on layers whose
    codebooks are initialised and hold [codebook_size] vectors, [forward]
    is [encode] followed by [decode]: it fails exactly when [encode] does and
    with the same exception, and otherwise returns the indices of [encode],
    the tensor [decode] rebuilds from them and one zero loss per stage, and
    leaves the layers as they were. *)
Theorem ResidualVectorQuantization_forward_is_encode_decode
    (kmeans : list (list Q) -> nat -> nat -> result (list (list Q) * list Q))
    (self : ResidualVectorQuantization) (x : list (list (list Q))) (n_q : option Z) :
  Forall layer_inited (layers self) ->
  ResidualVectorQuantization_forward kmeans false self x n_q
  = (out_indices ← ResidualVectorQuantization_encode self x n_q;
     quantized_out ← ResidualVectorQuantization_decode self out_indices;
     Ok (self, (quantized_out, out_indices,
                replicate (length out_indices) (Some 0)))).
Proof.
  intros Hls. unfold ResidualVectorQuantization_forward,
    ResidualVectorQuantization_encode, ResidualVectorQuantization_decode.
  destruct (slice_to_prefix (layers self) (n_q_or_len n_q (length (layers self))))
    as [m ->].
  rewrite (forward_loop_eval kmeans self _ 0).
  2:{ by apply Forall_take. }
  2:{ intros k l Hk. by apply lookup_take_Some in Hk as [? _]. }
  destruct (encode_loop (take m (layers self)) x) as [all|] eqn:E; [|done].
  cbn [mbind result_bind].
  destruct all as [|i0 all].
  { cbn [decode_loop mbind result_bind fst snd torch_stack replicate length]. done. }
  cbn [torch_stack mbind result_bind].
  destruct (decode_loop self 0 (i0 :: all) (Scalar 0)) as [o|]; [|done].
  cbn [mbind result_bind fst snd torch_stack replicate length].
  rewrite take_drop_length. by destruct self.
Qed.

Lemma ResidualVectorQuantization_forward_is_encode_decode_witness :
  Forall layer_inited (layers small_rvq)
  /\ ResidualVectorQuantization_forward first_samples false small_rvq small_input (Some 2%Z)
     = (out_indices ← ResidualVectorQuantization_encode small_rvq small_input (Some 2%Z);
        quantized_out ← ResidualVectorQuantization_decode small_rvq out_indices;
        Ok (small_rvq, (quantized_out, out_indices,
                        replicate (length out_indices) (Some 0)))).
Proof.
  assert (H : Forall layer_inited (layers small_rvq)) by (by repeat constructor).
  split; [exact H|].
  exact (ResidualVectorQuantization_forward_is_encode_decode
           first_samples small_rvq small_input (Some 2%Z) H).
Defined.

Lemma forward_loop_lengths
    (kmeans : list (list Q) -> nat -> nat -> result (list (list Q) * list Q))
    (training : bool) (ls : list VectorQuantization) (r : list (list (list Q)))
    (out : tensor) (res : list VectorQuantization
                          * (tensor * list (list (list nat)) * list F)) :
  forward_loop kmeans training ls r out = Ok res ->
  length res.1 = length ls /\ length res.2.1.2 = length ls
  /\ length res.2.2 = length ls.
Proof.
  revert r out res. induction ls as [|l ls IH]; intros r out res; cbn [forward_loop].
  - by intros [= <-].
  - destruct (VectorQuantization_forward _ _ _ _) as [[l' [[q i] loss]]|]; [|done].
    cbn [mbind result_bind fst snd].
    destruct (forward_loop _ _ _ _ _) as [[ls' [[o idx] losses]]|] eqn:E; [|done].
    cbn [mbind result_bind fst snd]. intros [= <-]. cbn [fst snd length].
    destruct (IH _ _ _ E) as (H1 & H2 & H3). cbn [fst snd] in *. lia.
Qed.

Lemma slice_to_length {A} (l : list A) (n : Z) :
  (0 <= n)%Z -> length (slice_to l n) = (Z.to_nat n `min` length l)%nat.
Proof.
  intros Hn. unfold slice_to. destruct (Z.leb_spec 0 n); [|lia]. by rewrite length_take.
Qed.

(** X4 (ResidualVectorQuantizer.forward, get_num_quantizers_for_bandwidth,
    get_bandwidth_per_quantizer): when [forward] returns, the bandwidth it
    reports is the float product n_q * bw_per_q as a float32 tensor, for the
    n_q that [get_num_quantizers_for_bandwidth] returns, whereas the codes
    hold min(n_q, len(layers)) stages (n_q is at least 1 for a positive
    target bandwidth).  For a whole number p of bits per quantizer and
    n_q * p below 2^24 it is exactly n_q * p: the bandwidth of n_q stages,
    also when the quantizer has fewer layers. *)
Theorem ResidualVectorQuantizer_forward_bandwidth
    (kmeans : list (list Q) -> nat -> nat -> result (list (list Q) * list Q))
    (training : bool) (math_log2 : Z -> Q)
    (self self' : ResidualVectorQuantizer) (x : list (list (list Q)))
    (frame_rate : Z) (target : option Q) (r : QuantizedResult) :
  ResidualVectorQuantizer_forward kmeans training math_log2 self x frame_rate target
  = Ok (self', r) ->
  exists bw_per_q n nf,
    get_bandwidth_per_quantizer math_log2 self frame_rate = Ok bw_per_q
    /\ get_num_quantizers_for_bandwidth math_log2 self frame_rate target = Ok n
    /\ float_of_int n = Ok nf
    /\ bandwidth r = torch_tensor (float_mul nf bw_per_q)
    /\ ((1 <= n)%Z ->
        length (codes r) = (Z.to_nat n `min` length (layers (vq self)))%nat)
    /\ (forall b, target = Some b -> no_overflow b -> 0 < double b -> (1 <= n)%Z)
    /\ (forall p : Z, bw_per_q = Finite (inject_Z p) -> (Z.abs (n * p) < 2 ^ 24)%Z ->
          bandwidth r = Some (inject_Z (n * p))).
Proof.
  intros Hrun. unfold ResidualVectorQuantizer_forward in Hrun.
  destruct (get_bandwidth_per_quantizer math_log2 self frame_rate) as [bw_per_q|] eqn:Eb;
    [|done].
  cbn [mbind result_bind] in Hrun.
  destruct (get_num_quantizers_for_bandwidth math_log2 self frame_rate target)
    as [n|] eqn:En; [|done].
  cbn [mbind result_bind] in Hrun.
  destruct (ResidualVectorQuantization_forward kmeans training (vq self) x (Some n))
    as [[vq1 [[qz cs] commit_loss]]|] eqn:Ef; [|done].
  cbn [mbind result_bind fst snd] in Hrun.
  destruct (float_of_int n) as [nf|] eqn:Enf; [|done].
  cbn [mbind result_bind] in Hrun. injection Hrun as _ <-. cbn [bandwidth codes].
  exists bw_per_q, n, nf. do 4 (split; [done|]). split; [|split].
  - intros Hn. unfold ResidualVectorQuantization_forward in Ef.
    assert (Hnq : n_q_or_len (Some n) (length (layers (vq self))) = n).
    { unfold n_q_or_len. destruct (Z.eqb_spec n 0); [lia|done]. }
    rewrite Hnq in Ef.
    destruct (forward_loop _ _ _ _ _) as [[ls' [[o idx] losses]]|] eqn:E; [|done].
    cbn [mbind result_bind fst snd] in Ef.
    destruct (forward_loop_lengths _ _ _ _ _ _ E) as (_ & Hidx & Hlosses).
    cbn [fst snd] in Hidx, Hlosses.
    destruct losses as [|l0 losses]; [done|]. cbn [torch_stack mbind result_bind] in Ef.
    destruct idx as [|i0 idx]; [done|]. cbn [torch_stack mbind result_bind fst snd] in Ef.
    injection Ef as _ _ <- _. rewrite Hidx. apply slice_to_length. lia.
  - intros b -> Hno Hpos. unfold get_num_quantizers_for_bandwidth in En.
    rewrite Eb in En. cbn [mbind result_bind] in En.
    rewrite (round64_no_overflow _ Hno) in En. cbn [float_bool float_gt0] in En.
    assert (Hz : Qzero (double b) = false) by (apply Qzero_false; lra).
    apply Qltb_true in Hpos. rewrite Hz, Hpos in En. cbn [negb andb] in En.
    destruct (float_truediv _ _) as [q|]; [|done]. cbn [mbind result_bind] in En.
    destruct (math_floor q) as [m|]; [|done]. cbn [mbind result_bind] in En.
    injection En as <-. lia.
  - intros p -> Hnp.
    destruct (Z_lt_le_dec (Z.abs n) (2 ^ 53)) as [Hn|Hbig].
    + rewrite (float_of_int_exact n Hn) in Enf. injection Enf as <-.
      cbn [float_mul].
      rewrite (round64_comp _ (inject_Z (n * p))) by (by rewrite inject_Z_mult).
      rewrite round64_int by lia. cbn [torch_tensor]. by apply round32_int.
    + assert (p = 0%Z) as -> by nia. rewrite Z.mul_0_r.
      unfold float_of_int in Enf.
      destruct (round64 (inject_Z n)) as [xn| |]; try done. injection Enf as <-.
      cbn [float_mul]. rewrite (round64_comp _ 0) by (change (inject_Z 0) with 0; ring).
      reflexivity.
Qed.

Lemma ResidualVectorQuantizer_forward_bandwidth_witness :
  exists r bw_per_q n nf,
    ResidualVectorQuantizer_forward first_samples false log2_exact small_quantizer
      small_input 75 (Some (3 # 5)) = Ok (small_quantizer, r)
    /\ get_bandwidth_per_quantizer log2_exact small_quantizer 75 = Ok bw_per_q
    /\ get_num_quantizers_for_bandwidth log2_exact small_quantizer 75 (Some (3 # 5)) = Ok n
    /\ float_of_int n = Ok nf
    /\ bandwidth r = torch_tensor (float_mul nf bw_per_q)
    /\ ((1 <= n)%Z ->
        length (codes r) = (Z.to_nat n `min` length (layers (vq small_quantizer)))%nat)
    /\ (forall b, Some (3 # 5) = Some b -> no_overflow b -> 0 < double b -> (1 <= n)%Z)
    /\ (forall p : Z, bw_per_q = Finite (inject_Z p) -> (Z.abs (n * p) < 2 ^ 24)%Z ->
          bandwidth r = Some (inject_Z (n * p))).
Proof.
  eexists. 
  assert (Hrun : ResidualVectorQuantizer_forward first_samples false log2_exact
                   small_quantizer small_input 75 (Some (3 # 5))
                 = Ok (small_quantizer, _)) by (vm_compute; reflexivity).
  destruct (ResidualVectorQuantizer_forward_bandwidth _ _ _ _ _ _ _ _ _ Hrun)
    as (bw_per_q & n & nf & H).
  exists bw_per_q, n, nf. split; [exact Hrun|exact H].
Defined.

(** X5 (ResidualVectorQuantization.decode): indices with more stages than
    the quantizer has layers cannot be decoded: [self.layers[i]] is out of
    range for the first surplus stage, so [decode] raises. *)
Theorem ResidualVectorQuantization_decode_surplus_stages
    (self : ResidualVectorQuantization) (q_indices : list (list (list nat))) :
  (length (layers self) < length q_indices)%nat ->
  raises (ResidualVectorQuantization_decode self q_indices).
Proof.
  unfold ResidualVectorQuantization_decode. generalize (Scalar 0).
  assert (H : forall i out,
             (i <= length (layers self))%nat ->
             (length (layers self) < i + length q_indices)%nat ->
             raises (decode_loop self i q_indices out)).
  { induction q_indices as [|idx rest IH]; intros i out Hi Hlen; cbn [decode_loop].
    - cbn [length] in Hlen. lia.
    - destruct (layers self !! i) as [layer|] eqn:El; [|done].
      apply lookup_lt_Some in El.
      destruct (VectorQuantization_decode layer idx); [|done]. cbn [mbind result_bind].
      apply IH; [lia|]. cbn [length] in Hlen. lia. }
  intros out Hlen. apply H; lia.
Qed.

Lemma ResidualVectorQuantization_decode_surplus_stages_witness :
  raises (ResidualVectorQuantization_decode far_rvq [[[0%nat]]; [[0%nat]]; [[0%nat]]]).
Proof.
  apply (ResidualVectorQuantization_decode_surplus_stages far_rvq). cbn. lia.
Defined.

(** ** SetCriterion.forward: unknown loss names, and the final layer's entries *)

Section CriterionEdges.

Context (cross_entropy_matched :
           list (list (list Q)) -> list Target -> Indices -> nat -> Q -> result F)
        (cardinality_l1 : list (list (list Q)) -> list Target -> F)
        (focal_and_dice :
           list (list (list (list Q))) -> list Target -> Indices -> Q -> result (F * F)).

Lemma get_loss_unsupported (self : SetCriterion) (loss : string) (outputs : Outputs)
    (targets : list Target) (indices : Indices) (num_boxes : Q) :
  loss ∉ loss_map ->
  get_loss cross_entropy_matched cardinality_l1 focal_and_dice
    self loss outputs targets indices num_boxes = Raise AssertionError.
Proof.
  intros H. unfold get_loss, loss_map in *.
  destruct (String.eqb_spec loss "labels") as [->|_]; [by destruct H; repeat constructor|].
  destruct (String.eqb_spec loss "cardinality") as [->|_];
    [by destruct H; repeat constructor|].
  destruct (String.eqb_spec loss "boxes") as [->|_]; [by destruct H; repeat constructor|].
  destruct (String.eqb_spec loss "masks") as [->|_]; [by destruct H; repeat constructor|].
  done.
Qed.

Lemma final_layer_losses_unsupported (self : SetCriterion) (names : list string)
    (outputs : Outputs) (targets : list Target) (indices : Indices) (num_boxes : Q)
    (acc : dict F) :
  Exists (fun loss => loss ∉ loss_map) names ->
  raises (final_layer_losses cross_entropy_matched cardinality_l1 focal_and_dice
            self names outputs targets indices num_boxes acc).
Proof.
  intros H. revert acc. induction H as [loss names Hl|loss names _ IH]; intros acc;
    cbn [final_layer_losses].
  - by rewrite get_loss_unsupported.
  - destruct (get_loss _ _ _ _ _ _ _ _ _); [|done]. cbn [mbind result_bind]. apply IH.
Qed.

(** X6 (SetCriterion.forward, get_loss): a criterion whose [losses] list
    holds a name other than "labels", "cardinality", "boxes" and "masks"
    never returns a loss dict: [forward] raises on every input (the
    assertion of [get_loss], unless the matcher or an earlier loss raises
    first). *)
Theorem SetCriterion_forward_unsupported_loss (self : SetCriterion)
    (outputs : Outputs) (targets : list Target) :
  Exists (fun loss => loss ∉ loss_map) (losses self) ->
  raises (SetCriterion_forward cross_entropy_matched cardinality_l1 focal_and_dice
            self outputs targets).
Proof.
  intros H. unfold SetCriterion_forward.
  destruct (matcher self _ targets) as [indices|]; [|done]. cbn [mbind result_bind].
  destruct (first_value_device outputs); [|done]. cbn [mbind result_bind].
  pose proof (final_layer_losses_unsupported self (losses self) outputs targets indices
                (forward_num_boxes targets) [] H) as Hr.
  by destruct (final_layer_losses _ _ _ _ _ _ _ _ _ _).
Qed.

Lemma get_loss_without_aux (self : SetCriterion) (loss : string) (outputs : Outputs)
    (targets : list Target) (indices : Indices) (num_boxes : Q) :
  get_loss cross_entropy_matched cardinality_l1 focal_and_dice
    self loss (without_aux outputs) targets indices num_boxes
  = get_loss cross_entropy_matched cardinality_l1 focal_and_dice
      self loss outputs targets indices num_boxes.
Proof. by destruct outputs. Qed.

Lemma final_layer_losses_without_aux (self : SetCriterion) (names : list string)
    (outputs : Outputs) (targets : list Target) (indices : Indices) (num_boxes : Q)
    (acc : dict F) :
  final_layer_losses cross_entropy_matched cardinality_l1 focal_and_dice
    self names (without_aux outputs) targets indices num_boxes acc
  = final_layer_losses cross_entropy_matched cardinality_l1 focal_and_dice
      self names outputs targets indices num_boxes acc.
Proof.
  revert acc. induction names as [|loss names IH]; intros acc; cbn [final_layer_losses];
    [done|].
  rewrite get_loss_without_aux.
  destruct (get_loss _ _ _ _ _ _ _ _ _); [|done]. cbn [mbind result_bind]. apply IH.
Qed.

(** X7 (SetCriterion.forward): the losses of the intermediate layers never
    overwrite those of the final layer.  When [forward] returns on outputs
    with auxiliary outputs, it also returns on the same outputs without
    them, and under every unsuffixed loss key (loss_ce, cardinality_error,
    loss_bbox, loss_giou, loss_mask, loss_dice) the two dicts agree. *)
Theorem SetCriterion_forward_final_entries (self : SetCriterion)
    (outputs : Outputs) (targets : list Target) (result : dict F) :
  SetCriterion_forward cross_entropy_matched cardinality_l1 focal_and_dice
    self outputs targets = Ok result ->
  exists result0,
    SetCriterion_forward cross_entropy_matched cardinality_l1 focal_and_dice
      self (without_aux outputs) targets = Ok result0
    /\ forall k, loss_key k -> dict_get k result = dict_get k result0.
Proof.
  unfold SetCriterion_forward. intros Hrun.
  change (mkOutputs (logits (without_aux outputs)) (pred_boxes (without_aux outputs))
            (pred_masks (without_aux outputs)) None) with (without_aux outputs).
  change (mkOutputs (logits outputs) (pred_boxes outputs) (pred_masks outputs) None)
    with (without_aux outputs) in Hrun.
  destruct (matcher self (without_aux outputs) targets) as [indices|]; [|done].
  cbn [mbind result_bind] in *.
  assert (Hdev : first_value_device (without_aux outputs) = first_value_device outputs
                 \/ raises (first_value_device outputs)).
  { by destruct outputs as [[?|] [?|] [?|] [?|]]; [left..|right|right]. }
  destruct Hdev as [-> | Hdev]; [|by destruct (first_value_device outputs)].
  destruct (first_value_device outputs); [|done].
  cbn [mbind result_bind] in *. rewrite final_layer_losses_without_aux.
  destruct (final_layer_losses _ _ _ _ _ _ _ _ _ _) as [acc|]; [|done].
  cbn [mbind result_bind] in *. cbn [auxiliary_outputs without_aux].
  exists acc. split; [done|]. intros k Hk.
  destruct (auxiliary_outputs outputs) as [auxs|]; [|by injection Hrun as <-].
  eapply aux_losses_frame; [exact Hrun|].
  intros k' j Hk' _ _ _ E. by apply (suffixed_not_loss_key k' k j).
Qed.

End CriterionEdges.

Lemma SetCriterion_forward_unsupported_loss_witness :
  raises (SetCriterion_forward unit_cross_entropy unit_cardinality no_masks
            typo_criterion example_outputs [example_target]).
Proof.
  apply SetCriterion_forward_unsupported_loss.
  apply Exists_cons_tl, Exists_cons_hd. unfold loss_map.
  intros H. repeat (apply elem_of_cons in H as [H|H]; [discriminate H|]).
  by apply elem_of_nil in H.
Defined.

Lemma SetCriterion_forward_final_entries_witness :
  exists result0,
    SetCriterion_forward unit_cross_entropy unit_cardinality no_masks
      example_criterion (without_aux example_outputs) [example_target] = Ok result0
    /\ forall k, loss_key k -> dict_get k example_losses = dict_get k result0.
Proof.
  apply (SetCriterion_forward_final_entries unit_cross_entropy unit_cardinality no_masks
           example_criterion example_outputs [example_target] example_losses).
  vm_compute. reflexivity.
Defined.

(** ** EnCodec: padding for the strided convolutions *)

Lemma F_pad_spec (x : list Q) (left right : nat) (mode : string) (y : list Q) :
  F_pad x left right mode = Return y ->
  exists a b, y = a ++ x ++ b /\ length a = left /\ length b = right.
Proof.
  unfold F_pad.
  destruct (String.eqb mode "constant").
  { intros [= <-]. eexists _, _. split; [done|]. by rewrite !length_replicate. }
  destruct (String.eqb mode "reflect").
  { destruct (Nat.ltb_spec left (length x)); [|done].
    destruct (Nat.ltb_spec right (length x)); [|done]. cbn [andb].
    intros [= <-]. eexists _, _. split; [done|].
    rewrite length_reverse, !length_take, !length_drop, length_reverse. lia. }
  destruct (String.eqb mode "replicate").
  { destruct x as [|x0 x']; [done|]. destruct (last (x0 :: x')) as [xl|]; [|done].
    intros [= <-]. eexists _, _. split; [done|]. by rewrite !length_replicate. }
  destruct (String.eqb mode "circular"); [|done].
  destruct (Nat.leb_spec left (length x)); [|done].
  destruct (Nat.leb_spec right (length x)); [|done]. cbn [andb].
  intros [= <-]. eexists _, _. split; [done|].
  rewrite length_take, length_drop. lia.
Qed.

Lemma unpad1d_app (a x b : list Q) :
  unpad1d (a ++ x ++ b) (Z.of_nat (length a), Z.of_nat (length b)) = Return x.
Proof.
  unfold unpad1d.
  destruct (Z.leb_spec 0 (Z.of_nat (length a))); [|lia].
  destruct (Z.leb_spec 0 (Z.of_nat (length b))); [|lia]. cbn [andb negb].
  rewrite !length_app.
  destruct (Z.leb_spec (Z.of_nat (length a) + Z.of_nat (length b))
              (Z.of_nat (length a + (length x + length b)))); [|lia].
  cbn [negb]. f_equal.
  rewrite Nat2Z.id, drop_app_length.
  replace (Z.to_nat (Z.of_nat (length a + (length x + length b)) - Z.of_nat (length b))
           - length a)%nat with (length x) by lia.
  by rewrite take_app_length.
Qed.

Lemma pad1d_spec (x : list Q) (paddings : Z * Z) (mode : string) (y : list Q) :
  pad1d x paddings mode = Return y ->
  (0 <= paddings.1)%Z /\ (0 <= paddings.2)%Z
  /\ exists a b, y = a ++ x ++ b /\ length a = Z.to_nat paddings.1
                 /\ length b = Z.to_nat paddings.2.
Proof.
  destruct paddings as [pl pr]. unfold pad1d. cbn [fst snd].
  destruct (Z.leb_spec 0 pl); [|done]. destruct (Z.leb_spec 0 pr); [|done].
  cbn [andb negb]. intros Hrun. split; [done|]. split; [done|].
  destruct (String.eqb mode "reflect"); [|by apply F_pad_spec in Hrun].
  destruct (Nat.leb_spec (length x) (Z.to_nat pl `max` Z.to_nat pr)) as [Hshort|Hlong].
  - set (extra := (Z.to_nat pl `max` Z.to_nat pr - length x + 1)%nat) in *.
    change (F_pad x 0 extra "constant") with (Return (E:=pad_exn) ([] ++ x ++ replicate extra 0))
      in Hrun.
    cbn [mbind outcome_bind app] in Hrun.
    destruct (F_pad _ _ _ _) as [padded|] eqn:E; [|done].
    cbn [mbind outcome_bind] in Hrun. injection Hrun as <-.
    apply F_pad_spec in E as (a & b & -> & Ha & Hb).
    exists a, (take (Z.to_nat pr) (replicate extra 0 ++ b)).
    split; [|split; [done|]].
    + rewrite !length_app, length_replicate.
      replace (length a + (length x + extra + length b) - extra)%nat
        with (length a + (length x + Z.to_nat pr))%nat by lia.
      rewrite take_app_add', <- app_assoc, take_app_add' by done. done.
    + rewrite length_take, length_app, length_replicate. lia.
  - cbn [mbind outcome_bind] in Hrun.
    destruct (F_pad _ _ _ _) as [padded|] eqn:E; [|done].
    cbn [mbind outcome_bind] in Hrun. injection Hrun as <-.
    rewrite Nat.sub_0_r, firstn_all. by apply F_pad_spec in E.
Qed.

(** X8 (pad1d, unpad1d): whenever [pad1d] returns, in any of its modes, the
    row it returns is [padding_left + padding_right] longer than the
    input, and [unpad1d] with the same paddings gives the input back. *)
Theorem unpad1d_pad1d (x : list Q) (paddings : Z * Z) (mode : string) (y : list Q) :
  pad1d x paddings mode = Return y ->
  Z.of_nat (length y) = (paddings.1 + Z.of_nat (length x) + paddings.2)%Z
  /\ unpad1d y paddings = Return x.
Proof.
  intros (Hl & Hr & a & b & -> & Ha & Hb)%pad1d_spec. split.
  - rewrite !length_app. lia.
  - destruct paddings as [pl pr]. cbn [fst snd] in *.
    replace pl with (Z.of_nat (length a)) by lia.
    replace pr with (Z.of_nat (length b)) by lia. apply unpad1d_app.
Qed.

Lemma unpad1d_pad1d_witness :
  pad1d short_row (2, 1)%Z "reflect" = Return short_row_reflected
  /\ Z.of_nat (length short_row_reflected) = (2 + Z.of_nat (length short_row) + 1)%Z
  /\ unpad1d short_row_reflected (2, 1)%Z = Return short_row.
Proof.
  assert (H : pad1d short_row (2, 1)%Z "reflect" = Return short_row_reflected)
    by reflexivity.
  split; [exact H|]. exact (unpad1d_pad1d _ _ _ _ H).
Defined.

Lemma pad1d_reflect_total (x : list Q) (padding_left padding_right : Z) :
  (0 <= padding_left)%Z -> (0 <= padding_right)%Z ->
  exists y, pad1d x (padding_left, padding_right) "reflect" = Return y.
Proof.
  intros Hl Hr. unfold pad1d.
  destruct (Z.leb_spec 0 padding_left); [|lia].
  destruct (Z.leb_spec 0 padding_right); [|lia]. cbn [andb negb String.eqb].
  change (String.eqb "reflect" "reflect") with true. cbn match.
  set (l := Z.to_nat padding_left). set (r := Z.to_nat padding_right).
  destruct (Nat.leb_spec (length x) (l `max` r)) as [Hshort|Hlong].
  - change (F_pad x 0 (l `max` r - length x + 1) "constant")
      with (Return (E:=pad_exn) ([] ++ x ++ replicate (l `max` r - length x + 1)%nat 0)).
    cbn [mbind outcome_bind app]. unfold F_pad.
    change (String.eqb "reflect" "constant") with false.
    change (String.eqb "reflect" "reflect") with true. cbn match.
    rewrite length_app, length_replicate.
    destruct (Nat.ltb_spec l (length x + (l `max` r - length x + 1))); [|lia].
    destruct (Nat.ltb_spec r (length x + (l `max` r - length x + 1))); [|lia].
    cbn [andb mbind outcome_bind]. eauto.
  - cbn [mbind outcome_bind]. unfold F_pad.
    change (String.eqb "reflect" "constant") with false.
    change (String.eqb "reflect" "reflect") with true. cbn match.
    destruct (Nat.ltb_spec l (length x)); [|lia].
    destruct (Nat.ltb_spec r (length x)); [|lia].
    cbn [andb mbind outcome_bind]. eauto.
Qed.

(** X9 (pad1d): reflect padding on small input.  With paddings that are
    not negative, [pad1d] in "reflect" mode returns for every row, also
    for a row no longer than the larger padding (and for the empty row),
    on which [F.pad] alone refuses to reflect. *)
Theorem pad1d_reflect_returns (x : list Q) (padding_left padding_right : Z) :
  (0 <= padding_left)%Z -> (0 <= padding_right)%Z ->
  (exists y, pad1d x (padding_left, padding_right) "reflect" = Return y)
  /\ ((length x <= Z.to_nat padding_left `max` Z.to_nat padding_right)%nat ->
      F_pad x (Z.to_nat padding_left) (Z.to_nat padding_right) "reflect"
      = Throw PadRuntimeError).
Proof.
  intros Hl Hr. split; [by apply pad1d_reflect_total|].
  intros Hshort. unfold F_pad.
  change (String.eqb "reflect" "constant") with false.
  change (String.eqb "reflect" "reflect") with true. cbn match.
  destruct (Nat.ltb_spec (Z.to_nat padding_left) (length x));
    destruct (Nat.ltb_spec (Z.to_nat padding_right) (length x)); try done. lia.
Qed.

Lemma pad1d_reflect_returns_witness :
  (exists y, pad1d short_row (5, 1)%Z "reflect" = Return y)
  /\ ((length short_row <= Z.to_nat 5 `max` Z.to_nat 1)%nat ->
      F_pad short_row (Z.to_nat 5) (Z.to_nat 1) "reflect" = Throw PadRuntimeError).
Proof. apply (pad1d_reflect_returns short_row 5 1); lia. Defined.

(** X10 (pad1d): the default mode.  ["zero"], the default of [pad1d], is
    not a padding mode of [F.pad]: called without a mode, [pad1d] raises
    for every row and all paddings that pass its assertion. *)
Theorem pad1d_default_mode_raises (x : list Q) (padding_left padding_right : Z) :
  (0 <= padding_left)%Z -> (0 <= padding_right)%Z ->
  pad1d x (padding_left, padding_right) "zero" = Throw PadNotImplementedError.
Proof.
  intros Hl Hr. unfold pad1d.
  destruct (Z.leb_spec 0 padding_left); [|lia].
  destruct (Z.leb_spec 0 padding_right); [|lia]. reflexivity.
Qed.

Lemma pad1d_default_mode_raises_witness :
  pad1d short_row (1, 1)%Z "zero" = Throw PadNotImplementedError.
Proof. apply pad1d_default_mode_raises; lia. Defined.

(** ** The number of frames of a strided convolution, in floats *)

Lemma Qceiling_unique (y : Q) (z : Z) :
  inject_Z (z - 1) < y -> y <= inject_Z z -> Qceiling y = z.
Proof.
  intros Hl Hu. pose proof (Qle_ceiling y) as H1. pose proof (Qceiling_lt y) as H2.
  assert ((Qceiling y - 1 < z)%Z) by (rewrite Zlt_Qlt; lra).
  assert ((z - 1 < Qceiling y)%Z) by (rewrite Zlt_Qlt; lra).
  lia.
Qed.

(** For a dividend and a positive stride below 2^51 the two roundings do
    not move [n / stride + 1] across an integer. *)
Lemma frames_ceiling (n s : Z) :
  (Z.abs n < 2 ^ 51)%Z -> (0 < s < 2 ^ 51)%Z ->
  exists q,
    int_truediv n s = Ok (Finite q)
    /\ math_ceil (float_add (Finite q) (Finite 1))
       = Ok (n / s + if (n mod s =? 0)%Z then 1 else 2)%Z.
Proof.
  intros Hn Hs.
  set (x := inject_Z n / inject_Z s).
  assert (HS : 0 < inject_Z s) by (change 0 with (inject_Z 0); rewrite <- Zlt_Qlt; lia).
  assert (HS1 : 1 <= inject_Z s) by (change 1 with (inject_Z 1); rewrite <- Zle_Qle; lia).
  assert (HS2 : inject_Z s < inject_Z (2 ^ 51)) by (rewrite <- Zlt_Qlt; lia).
  pose proof (Z.div_mod n s ltac:(lia)) as Hdm.
  pose proof (Z.mod_pos_bound n s ltac:(lia)) as Hr.
  set (f := (n / s)%Z) in *. set (r := (n mod s)%Z) in *.
  assert (Hx : x * inject_Z s == inject_Z n) by (unfold x; field; lra).
  assert (Hxf : x == inject_Z f + inject_Z r / inject_Z s).
  { unfold x. rewrite Hdm at 1. rewrite inject_Z_plus, inject_Z_mult. field. lra. }
  assert (Hf : (Z.abs f < 2 ^ 51)%Z).
  { assert (Z.abs f <= Z.abs n)%Z; [|lia]. nia. }
  assert (HN : - inject_Z (2 ^ 51) < inject_Z n < inject_Z (2 ^ 51)).
  { rewrite <- inject_Z_opp, <- !Zlt_Qlt. lia. }
  (* |x| < 2^51 *)
  assert (Hxl : - inject_Z (2 ^ 51) < x).
  { unfold x. apply Qlt_shift_div_l; [done|]. nra. }
  assert (Hxu : x < inject_Z (2 ^ 51)).
  { unfold x. apply Qlt_shift_div_r; [done|]. nra. }
  assert (P51 : pow2 51 == inject_Z (2 ^ 51)) by (by apply pow2_Z).
  assert (P53 : pow2 53 == inject_Z (2 ^ 53)) by (by apply pow2_Z).
  assert (H5153 : inject_Z (2 ^ 51) * 4 == inject_Z (2 ^ 53)) by reflexivity.
  assert (Hx53 : Qabs x < pow2 53).
  { apply Qabs_lt_condition. lra. }
  set (q := double x).
  assert (Eq : int_truediv n s = Ok (Finite q)).
  { unfold int_truediv. destruct (Z.eqb_spec s 0); [lia|].
    fold x. by rewrite (round64_finite x Hx53). }
  exists q. split; [done|].
  assert (Hq1 : q <= inject_Z (2 ^ 51)) by (apply round_to_le; [lia|done|lra]).
  assert (Hq2 : inject_Z (- 2 ^ 51) <= q) by (apply round_to_ge; [lia|done|rewrite inject_Z_opp; lra]).
  rewrite inject_Z_opp in Hq2.
  assert (H51 : 1 <= inject_Z (2 ^ 51)) by (change 1 with (inject_Z 1); by rewrite <- Zle_Qle).
  assert (Hq53 : Qabs (q + 1) < pow2 53) by (apply Qabs_lt_condition; lra).
  cbn [float_add]. rewrite (round64_finite _ Hq53). cbn [math_ceil float_to_int].
  f_equal. fold (double (q + 1)).
  destruct (Z.eqb_spec r 0) as [Er|Er].
  - (* the quotient is an integer *)
    assert (Exf : x == inject_Z f).
    { rewrite Hxf, Er. change (inject_Z 0) with 0. field. lra. }
    assert (Eqf : q = inject_Z f).
    { unfold q, double. rewrite (round_to_comp _ _ _ _ Exf).
      apply round_to_int_eq; [lia|]. apply Qabs_inject_Z_lt; lia. }
    rewrite Eqf. unfold double.
    rewrite (round_to_comp _ _ _ (inject_Z (f + 1))) by (by rewrite inject_Z_plus).
    rewrite round_to_int_eq; [apply Qceiling_Z|lia|]. apply Qabs_inject_Z_lt; lia.
  - apply Qceiling_unique.
    + (* strictly above f + 1 *)
      replace (f + 2 - 1)%Z with (f + 1)%Z by lia. rewrite inject_Z_plus.
      change (inject_Z 1) with 1.
      set (d := 1 / inject_Z s).
      assert (Hd : d * inject_Z s == 1) by (unfold d; field; lra).
      assert (Hd0 : 0 < d) by (unfold d; apply Qlt_shift_div_l; lra).
      assert (Hd51 : 1 < d * inject_Z (2 ^ 51)) by nra.
      assert (Hrs : d <= inject_Z r / inject_Z s).
      { unfold d. apply Qle_shift_div_l; [done|].
        assert (1 / inject_Z s * inject_Z s == 1) by (field; lra).
        assert (1 <= inject_Z r) by (change 1 with (inject_Z 1); rewrite <- Zle_Qle; lia).
        lra. }
      pose proof (double_error x) as E1. fold q in E1.
      pose proof (double_error (q + 1)) as E2.
      set (y := double (q + 1)) in *.
      assert (A0 : 0 <= Qabs x) by apply Qabs_nonneg.
      assert (A1 : Qabs x <= inject_Z (2 ^ 51) * d).
      { assert (Qabs x * inject_Z s == Qabs (inject_Z n)).
        { rewrite <- Hx, Qabs_Qmult, (Qabs_pos (inject_Z s)) by lra. reflexivity. }
        assert (Qabs (inject_Z n) <= inject_Z (2 ^ 51)).
        { apply Qabs_Qle_condition. lra. }
        assert (Qabs x == Qabs x * inject_Z s * d) by (rewrite <- Qmult_assoc, (Qmult_comm _ d), Hd; ring).
        nra. }
      assert (Eps : pow2 (-53) == 1 # 9007199254740992) by reflexivity.
      assert (Eta : pow2 (-1075) <= 1 # 81129638414606681695789005144064).
      { assert (E106 : pow2 (-106) == 1 # 81129638414606681695789005144064) by reflexivity.
        rewrite <- E106. apply pow2_le. lia. }
      assert (C51 : inject_Z (2 ^ 51) == 2251799813685248) by reflexivity.
      pose proof (pow2_pos (-1075)) as Et.
      apply Qabs_Qle_condition in E1.
      assert (B : Qabs (q + 1) <= Qabs x + (Qabs x * pow2 (-53) + pow2 (-1075)) + 1).
      { apply Qabs_Qle_condition. pose proof (Qle_Qabs x) as G1.
        pose proof (Qle_Qabs (- x)) as G2. rewrite Qabs_opp in G2. lra. }
      apply Qabs_Qle_condition in E2.
      rewrite Eps in E1, E2, B. rewrite C51 in A1, Hd51.
      lra.
    + rewrite inject_Z_plus. change (inject_Z 2) with 2.
      assert (Hxu' : x <= inject_Z (f + 1)).
      { rewrite inject_Z_plus, Hxf. change (inject_Z 1) with 1.
        assert (inject_Z r / inject_Z s <= 1); [|lra].
        apply Qle_shift_div_r; [done|]. rewrite Qmult_1_l, <- Zle_Qle. lia. }
      assert (Hqu : q <= inject_Z (f + 1)) by (by apply round_to_le; [lia|done|]).
      rewrite inject_Z_plus in Hqu. change (inject_Z 1) with 1 in Hqu.
      change (2 : Q) with (inject_Z 2). rewrite <- inject_Z_plus.
      apply round_to_le; [lia|done|]. rewrite inject_Z_plus. change (inject_Z 2) with 2. lra.
Qed.

Lemma get_extra_padding_range (len kernel_size stride padding_total : Z) :
  (0 < stride < 2 ^ 51)%Z -> (Z.abs (len - kernel_size + padding_total) < 2 ^ 51)%Z ->
  exists extra,
    get_extra_padding_for_conv1d len kernel_size stride padding_total = Ok extra
    /\ (0 <= extra < stride)%Z
    /\ ((len + extra - kernel_size + padding_total) mod stride = 0)%Z.
Proof.
  intros Hs Hn. unfold get_extra_padding_for_conv1d.
  set (a := (len - kernel_size + padding_total)%Z) in *.
  destruct (frames_ceiling a stride Hn Hs) as (q & -> & Hc).
  cbn [mbind result_bind]. rewrite Hc. cbn [mbind result_bind].
  eexists. split; [done|].
  pose proof (Z.div_mod a stride ltac:(lia)) as Hdm.
  pose proof (Z.mod_pos_bound a stride ltac:(lia)) as Hr.
  set (c := (a / stride + if (a mod stride =? 0)%Z then 1 else 2)%Z).
  assert (Hc1 : ((c - 1) * stride - a = if (a mod stride =? 0)%Z then 0 else stride - a mod stride)%Z).
  { unfold c. destruct (Z.eqb_spec (a mod stride) 0); lia. }
  split.
  - replace ((c - 1) * stride + (kernel_size - padding_total) - len)%Z
      with ((c - 1) * stride - a)%Z by lia.
    rewrite Hc1. destruct (Z.eqb_spec (a mod stride) 0); lia.
  - replace (len + ((c - 1) * stride + (kernel_size - padding_total) - len)
             - kernel_size + padding_total)%Z with ((c - 1) * stride)%Z by lia.
    apply Z_mod_mult.
Qed.

(** X11 (get_extra_padding_for_conv1d): for a positive stride and an
    input length for which stride and length - kernel_size + padding_total
    stay below 2^51 in absolute value, the float computation of the number
    of frames is not affected by rounding: the extra padding is the least
    number of samples, between 0 and stride - 1, by which the input has to
    grow so that the strided windows cover it exactly, that is,
    (length + extra - kernel_size + padding_total) is a multiple of the
    stride. *)
Theorem get_extra_padding_for_conv1d_spec (len kernel_size stride padding_total : Z) :
  (0 < stride < 2 ^ 51)%Z -> (Z.abs (len - kernel_size + padding_total) < 2 ^ 51)%Z ->
  exists extra,
    get_extra_padding_for_conv1d len kernel_size stride padding_total = Ok extra
    /\ (0 <= extra < stride)%Z
    /\ ((len + extra - kernel_size + padding_total) mod stride = 0)%Z
    /\ forall e, (0 <= e < extra)%Z ->
         ((len + e - kernel_size + padding_total) mod stride <> 0)%Z.
Proof.
  intros Hs Hn.
  destruct (get_extra_padding_range len kernel_size stride padding_total Hs Hn)
    as (extra & E & Hr & Hm).
  exists extra. repeat split; try done; try lia.
  intros e He Hme.
  apply Z.mod_divide in Hm as [m Hm]; [|lia].
  apply Z.mod_divide in Hme as [m' Hme]; [|lia].
  assert (extra - e = (m - m') * stride)%Z by lia.
  assert (0 < m - m')%Z by nia.
  nia.
Qed.

Lemma get_extra_padding_for_conv1d_spec_witness :
  exists extra,
    get_extra_padding_for_conv1d 10 7 4 3 = Ok extra
    /\ (0 <= extra < 4)%Z
    /\ ((10 + extra - 7 + 3) mod 4 = 0)%Z
    /\ forall e, (0 <= e < extra)%Z -> ((10 + e - 7 + 3) mod 4 <> 0)%Z.
Proof. apply (get_extra_padding_for_conv1d_spec 10 7 4 3); reflexivity || (split; reflexivity). Defined.

(** Beyond these sizes the rounding shows: for an input of 2^53 + 1
    samples, kernel size 1 and stride 2, the quotient 2^52 + 1/2 is rounded
    to 2^52 and the extra padding is -1. *)
Lemma get_extra_padding_for_conv1d_long_input :
  get_extra_padding_for_conv1d (2 ^ 53 + 1) 1 2 1 = Ok (-1)%Z.
Proof. vm_compute. reflexivity. Qed.

(** X12 (SConv1d.forward, get_extra_padding_for_conv1d, pad1d): for a
    positive stride and an input length below 2^51 and an effective kernel
    size (kernel_size - 1) * dilation + 1 of at least the stride, the
    paddings computed by [SConv1d.forward], causal or not, are not negative,
    reflect padding with them returns, and the padded row has length
    m * stride + (effective kernel size - stride) for m = ceil(T / stride):
    the convolution sees exactly m full windows and drops no sample. *)
Theorem SConv1d_padding_exact (causal : bool) (kernel_size stride dilation : Z)
    (x : list Q) :
  (0 < stride < 2 ^ 51)%Z -> (Z.of_nat (length x) < 2 ^ 51)%Z ->
  (stride <= (kernel_size - 1) * dilation + 1)%Z ->
  exists padding_left padding_right y,
    SConv1d_paddings causal kernel_size stride dilation (Z.of_nat (length x))
    = Ok (padding_left, padding_right)
    /\ pad1d x (padding_left, padding_right) "reflect" = Return y
    /\ Z.of_nat (length y)
       = (((Z.of_nat (length x) + stride - 1) / stride) * stride
          + ((kernel_size - 1) * dilation + 1 - stride))%Z.
Proof.
  intros Hs HT Hk. unfold SConv1d_paddings.
  set (k := ((kernel_size - 1) * dilation + 1)%Z) in *.
  set (T := Z.of_nat (length x)) in *.
  assert (Hn : (Z.abs (T - k + (k - stride)) < 2 ^ 51)%Z) by lia.
  destruct (get_extra_padding_range T k stride (k - stride) Hs Hn) as (extra & -> & Hr & Hm).
  cbn [mbind result_bind].
  replace (T + extra - k + (k - stride))%Z with (T + extra - stride)%Z in Hm by lia.
  apply Z.mod_divide in Hm as [m Hm]; [|lia].
  assert (Hceil : ((T + stride - 1) / stride = m + 1)%Z).
  { symmetry. apply (Z.div_unique_pos _ _ _ (stride - 1 - extra)); lia. }
  assert (Hdiv : (0 <= (k - stride) / 2 <= k - stride)%Z).
  { split; [apply Z.div_pos; lia|]. apply Z.div_le_upper_bound; lia. }
  destruct causal.
  - destruct (pad1d_reflect_total x (k - stride) extra) as [y Hy]; [lia|lia|].
    exists (k - stride)%Z, extra, y. split; [done|]. split; [done|].
    apply pad1d_spec in Hy as (_ & _ & a & b & -> & Ha & Hb). cbn [fst snd] in *.
    rewrite !length_app, Hceil. fold T. lia.
  - destruct (pad1d_reflect_total x (k - stride - (k - stride) / 2)
                ((k - stride) / 2 + extra)) as [y Hy]; [lia|lia|].
    eexists _, _, y. split; [done|]. split; [done|].
    apply pad1d_spec in Hy as (_ & _ & a & b & -> & Ha & Hb). cbn [fst snd] in *.
    rewrite !length_app, Hceil. fold T. lia.
Qed.

Lemma SConv1d_padding_exact_witness :
  exists padding_left padding_right y,
    SConv1d_paddings true 7 2 1 (Z.of_nat (length short_row))
    = Ok (padding_left, padding_right)
    /\ pad1d short_row (padding_left, padding_right) "reflect" = Return y
    /\ Z.of_nat (length y)
       = (((Z.of_nat (length short_row) + 2 - 1) / 2) * 2 + ((7 - 1) * 1 + 1 - 2))%Z.
Proof.
  apply (SConv1d_padding_exact true 7 2 1 short_row);
    reflexivity || (split; reflexivity) || (cbn; lia).
Defined.

(** ** dice_loss: finite and within [0, N / num_boxes] *)

Lemma dice_row (p t : list Q) :
  Forall (fun a => 0 < a /\ a < 1) p -> Forall (fun a => 0 <= a /\ a <= 1) t ->
  length p = length t ->
  0 <= Qsum (zip_with Qmult p t)
  /\ 2 * Qsum (zip_with Qmult p t) <= Qsum p + Qsum t.
Proof.
  intros Hp. revert t. induction Hp as [|a p [Ha0 Ha1] _ IH]; intros t Ht Hlen.
  - destruct t; [|done]. cbn. lra.
  - destruct t as [|b t]; [done|]. inversion Ht as [|? ? [Hb0 Hb1] Ht']; subst.
    destruct (IH t Ht' ltac:(by injection Hlen)) as [IH0 IH1].
    cbn [zip_with]. rewrite !Qsum_cons.
    assert (0 <= a * b) by nra.
    assert (a * b <= a) by nra. assert (a * b <= b) by nra.
    split; lra.
Qed.

Lemma fsum_cons (a : F) (l : list F) : fsum (a :: l) = fadd a (fsum l).
Proof. done. Qed.

Section DiceFacts.

Variable sigmoid : Q -> Q.
Hypothesis sigmoid_range : forall x, 0 < sigmoid x /\ sigmoid x < 1.

Lemma dice_rows (inputs targets : list (list Q)) :
  Forall2 (fun i t => length i = length t) inputs targets ->
  Forall (Forall (fun a => 0 <= a /\ a <= 1)) targets ->
  exists s,
    fsum (zip_with (fun n d => fsub (Some 1) (fdiv (n + 1) (d + 1)))
            (zip_with (fun i t => 2 * Qsum (zip_with Qmult i t))
               (fmap (M:=list) (fmap (M:=list) sigmoid) inputs) targets)
            (zip_with (fun i t => Qsum i + Qsum t)
               (fmap (M:=list) (fmap (M:=list) sigmoid) inputs) targets))
    = Some s
    /\ 0 <= s /\ s <= inject_Z (Z.of_nat (length inputs)).
Proof.
  intros Hshape. induction Hshape as [|i t inputs targets Hlen _ IH]; intros Ht.
  - exists 0. split; [done|]. change (inject_Z (Z.of_nat (length (@nil (list Q))))) with 0.
    split; lra.
  - inversion Ht as [|? ? Ht0 Ht']; subst.
    destruct (IH Ht') as (s & Es & Hs0 & Hs1).
    rewrite fmap_cons. cbn [zip_with]. rewrite fsum_cons, Es.
    destruct (dice_row (sigmoid <$> i) t) as [Hn0 Hn1]; [|done|by rewrite length_fmap|].
    { apply Forall_fmap, Forall_forall. intros x _. apply sigmoid_range. }
    set (n := Qsum (zip_with Qmult (sigmoid <$> i) t)) in *.
    set (d := Qsum (sigmoid <$> i) + Qsum t) in *. clearbody n d.
    rewrite fdiv_nonzero by lra. cbn [fsub fadd].
    eexists. split; [done|].
    assert (Hr0 : 0 < (2 * n + 1) / (d + 1)) by (apply Qlt_shift_div_l; lra).
    assert (Hr1 : (2 * n + 1) / (d + 1) <= 1) by (apply Qle_shift_div_r; lra).
    cbn [length]. rewrite Nat2Z.inj_succ, <- Z.add_1_r, inject_Z_plus.
    change (inject_Z 1) with 1. split; lra.
Qed.

(** X13 (dice_loss): for predictions and binary (or soft, in [0, 1])
    targets of one shape [N, L] and a positive [num_boxes], the Dice loss
    is a finite number between 0 and N / num_boxes: the "+ 1" in numerator
    and denominator keeps every per-mask term within [0, 1), also for
    empty masks. *)
Theorem dice_loss_range (inputs targets : list (list Q)) (num_boxes : Q) :
  Forall2 (fun i t => length i = length t) inputs targets ->
  Forall (Forall (fun a => 0 <= a /\ a <= 1)) targets ->
  0 < num_boxes ->
  exists v, dice_loss sigmoid inputs targets num_boxes = Some v
            /\ 0 <= v /\ v * num_boxes <= inject_Z (Z.of_nat (length inputs)).
Proof.
  intros Hshape Ht Hn. unfold dice_loss.
  destruct (dice_rows inputs targets Hshape Ht) as (s & -> & Hs0 & Hs1).
  cbn [fdiv_by]. rewrite fdiv_nonzero by lra. eexists. split; [done|].
  assert (Hq : s / num_boxes * num_boxes == s) by (field; lra).
  split; [apply Qle_shift_div_l; lra|]. lra.
Qed.

End DiceFacts.

Lemma soft_sign_range (x : Q) : 0 < soft_sign x /\ soft_sign x < 1.
Proof.
  unfold soft_sign.
  assert (Ha : 0 <= Qabs x) by apply Qabs_nonneg.
  assert (Hx : - Qabs x <= x /\ x <= Qabs x).
  { split; [|apply Qle_Qabs].
    rewrite <- (Qopp_involutive x) at 2. apply Qopp_le_compat.
    rewrite <- Qabs_opp. apply Qle_Qabs. }
  assert (H1 : x / (2 * (1 + Qabs x)) < 1 # 2).
  { apply Qlt_shift_div_r; lra. }
  assert (H2 : - (1 # 2) < x / (2 * (1 + Qabs x))).
  { apply Qlt_shift_div_l; lra. }
  split; lra.
Qed.

Lemma dice_loss_range_witness :
  exists v, dice_loss soft_sign example_mask_logits example_mask_targets 2 = Some v
            /\ 0 <= v
            /\ v * 2 <= inject_Z (Z.of_nat (length example_mask_logits)).
Proof.
  apply (dice_loss_range soft_sign soft_sign_range).
  - by repeat constructor.
  - repeat constructor; cbn; lra.
  - reflexivity.
Defined.

(** ** _linear_overlap_add puts the frames of a signal back together *)

Lemma iadd_slice_lookup (t v : list Q) (a b : nat) :
  (a <= b)%nat -> (b <= length t)%nat -> length v = (b - a)%nat ->
  exists t',
    iadd_slice t a b v = Ok t' /\ length t' = length t
    /\ forall i,
         t' !! i = if decide (a <= i < b)%nat
                   then t !! i ≫= fun ti => v !! (i - a)%nat ≫= fun vi => Some (ti + vi)
                   else t !! i.
Proof.
  intros Hab Hb Hv. unfold iadd_slice.
  rewrite (Nat.min_l a) by lia. rewrite (Nat.min_l b) by lia.
  assert (Hs : length (take (b - a) (drop a t)) = (b - a)%nat).
  { rewrite length_take, length_drop. lia. }
  rewrite Hs, Hv, Nat.eqb_refl. eexists. split; [done|].
  assert (Hz : length (zip_with Qplus (take (b - a) (drop a t)) v) = (b - a)%nat).
  { rewrite length_zip_with, Hs, Hv. lia. }
  split.
  { rewrite !length_app, Hz, length_take, length_drop. lia. }
  intros i. destruct (decide (a <= i < b)%nat) as [Hi|Hi].
  - rewrite lookup_app_r by (rewrite length_take; lia).
    rewrite length_take, (Nat.min_l a) by lia.
    rewrite lookup_app_l by (rewrite Hz; lia).
    rewrite lookup_zip_with, lookup_take_lt, lookup_drop by lia.
    by replace (a + (i - a))%nat with i by lia.
  - destruct (decide (i < a)%nat).
    + rewrite lookup_app_l by (rewrite length_take; lia). by rewrite lookup_take_lt.
    + rewrite lookup_app_r by (rewrite length_take; lia).
      rewrite length_take, (Nat.min_l a) by lia.
      rewrite lookup_app_r by (rewrite Hz; lia).
      rewrite Hz, lookup_drop. f_equal. lia.
Qed.

Lemma triangle_pos (t : Q) : 0 < t -> t < 1 -> 0 < (1 # 2) - Qabs (t - (1 # 2)).
Proof.
  intros H0 H1. assert (Qabs (t - (1 # 2)) < 1 # 2); [|lra].
  apply Qabs_Qlt_condition. split; lra.
Qed.

Lemma linspace_inner_lookup (n j : nat) :
  (j < n)%nat ->
  exists t, linspace_inner n !! j = Some t /\ 0 < t /\ t < 1.
Proof.
  intros Hj. unfold linspace_inner. rewrite list_lookup_fmap, lookup_seq_lt by done.
  cbn. eexists. split; [done|].
  assert (Hn : 0 < inject_Z (Z.of_nat (n + 1))).
  { change 0 with (inject_Z 0). rewrite <- Zlt_Qlt. lia. }
  split.
  - apply Qlt_shift_div_l; [done|]. rewrite Qmult_0_l.
    change 0 with (inject_Z 0). rewrite <- Zlt_Qlt. lia.
  - apply Qlt_shift_div_r; [done|]. rewrite Qmult_1_l. rewrite <- Zlt_Qlt. lia.
Qed.

Lemma last_fmap_seq {A} (f : nat -> A) (k : nat) : last (f <$> seq 0 (S k)) = Some (f k).
Proof. rewrite seq_S, fmap_app. exact (last_snoc _ _). Qed.

Section OverlapAdd.

Variables (x : list Q) (n stride : nat).
Hypothesis Hstride : (1 <= stride)%nat.
Hypothesis Hwindow : (stride <= n)%nat.
Hypothesis Hx : (1 <= length x)%nat.

Abbreviation T := (length x).
Abbreviation K := ((length x + stride - 1) / stride)%nat.
Abbreviation weight := (overlap_weight (n `min` length x)).
Abbreviation overlap_inv' := (overlap_inv x n stride).

Lemma frame_index (k : nat) : (k < K)%nat <-> (k * stride < T)%nat.
Proof.
  split.
  - intros Hk.
    assert (stride * S k <= length x + stride - 1)%nat; [|lia].
    transitivity (stride * ((length x + stride - 1) / stride))%nat.
    + apply Nat.mul_le_mono_l. lia.
    + apply Nat.Div0.mul_div_le.
  - intros Hk.
    assert (S k <= (length x + stride - 1) / stride)%nat; [|lia].
    apply Nat.div_le_lower_bound; lia.
Qed.

Lemma frames_positive : (1 <= K)%nat.
Proof. assert (0 < K)%nat; [|lia]. apply frame_index. lia. Qed.

Lemma last_frame_end : ((K - 1) * stride < T /\ T <= (K - 1) * stride + stride)%nat.
Proof.
  pose proof frames_positive as HK. split.
  - apply frame_index. lia.
  - destruct (decide (T <= (K - 1) * stride + stride)%nat) as [|Hn]; [done|].
    assert (K < K)%nat; [|lia]. apply frame_index.
    replace (K * stride)%nat with ((K - 1) * stride + stride)%nat by nia. lia.
Qed.

Lemma weight_lookup (j : nat) :
  (j < n `min` T)%nat -> exists w, weight !! j = Some w /\ 0 < w.
Proof.
  intros Hj. destruct (linspace_inner_lookup _ _ Hj) as (t & Et & H0 & H1).
  unfold overlap_weight. rewrite list_lookup_fmap, Et. cbn.
  eexists. split; [done|]. by apply triangle_pos.
Qed.

Lemma weight_length : length weight = (n `min` T)%nat.
Proof. unfold overlap_weight, linspace_inner. by rewrite !length_fmap, length_seq. Qed.

Lemma overlap_step (k : nat) (out sum_weight : list Q) :
  (k < K)%nat -> overlap_inv' k out sum_weight ->
  exists out' sum_weight',
    (wf ← mul1 (take (length (take n (drop (k * stride) x))) weight)
            (take n (drop (k * stride) x));
     out ← iadd_slice out (k * stride)
             (k * stride + length (take n (drop (k * stride) x))) wf;
     sum_weight ← iadd_slice sum_weight (k * stride)
                     (k * stride + length (take n (drop (k * stride) x)))
                     (take (length (take n (drop (k * stride) x))) weight);
     Ok (out, sum_weight)) = Ok (out', sum_weight')
    /\ overlap_inv' (S k) out' sum_weight'.
Proof.
  intros Hk (Hlo & Hlw & Hinv). apply frame_index in Hk.
  set (frame := take n (drop (k * stride) x)).
  set (L := (n `min` (T - k * stride))%nat).
  assert (HL : length frame = L).
  { unfold frame, L. by rewrite length_take, length_drop. }
  rewrite HL.
  assert (Hw : length (take L weight) = L).
  { rewrite length_take, weight_length. unfold L. lia. }
  unfold mul1. rewrite Hw, HL, Nat.eqb_refl. cbn [mbind result_bind].
  destruct (iadd_slice_lookup out (zip_with Qmult (take L weight) frame)
              (k * stride) (k * stride + L)) as (out' & -> & Hlo' & Hout');
    [lia|unfold L; lia|rewrite length_zip_with, Hw, HL; lia|].
  cbn [mbind result_bind].
  destruct (iadd_slice_lookup sum_weight (take L weight)
              (k * stride) (k * stride + L)) as (sw' & -> & Hlw' & Hsw');
    [lia|unfold L; lia|rewrite Hw; lia|].
  cbn [mbind result_bind]. exists out', sw'. split; [done|].
  split; [lia|]. split; [lia|].
  intros i xi Hxi. destruct (Hinv i xi Hxi) as (o & w & Ho & Hsw & Heq & Hw0 & Hpos).
  assert (Hi : (i < T)%nat) by (by apply lookup_lt_Some in Hxi).
  rewrite Hout', Hsw'.
  destruct (decide (k * stride <= i < k * stride + L)%nat) as [Hin|Hout].
  - destruct (weight_lookup (i - k * stride)) as (wt & Ewt & Hwt); [unfold L in *; lia|].
    assert (Ef : frame !! (i - k * stride)%nat = Some xi).
    { unfold frame. rewrite lookup_take_lt, lookup_drop by (unfold L in *; lia).
      by replace (k * stride + (i - k * stride))%nat with i by lia. }
    rewrite Ho, Hsw. cbn [mbind option_bind].
    rewrite lookup_zip_with, lookup_take_lt, Ewt, Ef by lia. cbn [mbind option_bind].
    eexists _, _. split; [done|]. split; [done|].
    split; [rewrite Heq; ring|]. split; [lra|]. intros _ _. lra.
  - exists o, w. split; [done|]. split; [done|]. split; [done|]. split; [done|].
    intros _ Hcov. replace (S k - 1)%nat with k in Hcov by lia.
    assert (Hlt : (i < k * stride)%nat) by (unfold L in *; lia).
    apply Hpos; [lia|]. nia.
Qed.

Lemma overlap_loop (m k : nat) (out sum_weight : list Q) :
  (k + m = K)%nat -> overlap_inv' k out sum_weight ->
  exists out' sum_weight',
    overlap_add_loop weight stride
      ((fun j => take n (drop (j * stride) x)) <$> seq k m) (k * stride) out sum_weight
    = Ok (out', sum_weight')
    /\ overlap_inv' K out' sum_weight'.
Proof.
  revert k out sum_weight. induction m as [|m IH]; intros k out sw Hk Hinv.
  - cbn. replace K with k by lia. eauto.
  - cbn [seq fmap list_fmap overlap_add_loop].
    destruct (overlap_step k out sw ltac:(lia) Hinv) as (out1 & sw1 & Hstep & Hinv1).
    destruct (mul1 _ _) as [wf|]; [|done]. cbn [mbind result_bind] in *.
    destruct (iadd_slice out _ _ _) as [o1|]; [|done]. cbn [mbind result_bind] in *.
    destruct (iadd_slice sw _ _ _) as [s1|]; [|done]. cbn [mbind result_bind] in *.
    injection Hstep as -> ->.
    replace (k * stride + stride)%nat with (S k * stride)%nat by lia.
    apply IH; [lia|done].
Qed.

Lemma overlap_add_cut_frames :
  exists out, _linear_overlap_add (cut_frames x n stride) stride = Ok out
              /\ Forall2 Qeq out x.
Proof.
  pose proof frames_positive as HK. pose proof last_frame_end as [Hlast1 Hlast2].
  unfold _linear_overlap_add, cut_frames.
  assert (Hl : last ((fun k => take n (drop (k * stride) x)) <$> seq 0 K)
               = Some (take n (drop ((K - 1) * stride) x))).
  { destruct (Nat.lt_exists_pred 0 K) as (K' & EK & _); [lia|].
    rewrite EK, last_fmap_seq. do 3 f_equal. lia. }
  rewrite Hl.
  rewrite length_fmap, length_seq, length_take, length_drop.
  replace (stride * (K - 1) + n `min` (length x - (K - 1) * stride))%nat with T
    by nia.
  assert (Hhd : length (hd [] ((fun k => take n (drop (k * stride) x)) <$> seq 0 K))
                = (n `min` T)%nat).
  { destruct (Nat.lt_exists_pred 0 K) as (K' & EK & _); [lia|].
    rewrite EK. cbn. by rewrite length_take. }
  rewrite Hhd. fold (overlap_weight (n `min` T)).
  destruct (overlap_loop K 0 (replicate T 0) (replicate T 0))
    as (out & sw & Hloop & Hinv); [lia| |].
  { split; [by rewrite length_replicate|]. split; [by rewrite length_replicate|].
    intros i xi Hxi. apply lookup_lt_Some in Hxi.
    exists 0, 0. rewrite !lookup_replicate_2 by done.
    split; [done|]. split; [done|]. split; [ring|]. split; [lra|]. lia. }
  change (0 * stride)%nat with 0%nat in Hloop. rewrite Hloop.
  cbn [mbind result_bind fst snd].
  destruct Hinv as (Hlo & Hlw & Hinv).
  destruct sw as [|w0 sw]; [cbn in Hlw; lia|].
  assert (Hall : forallb (Qltb 0) (w0 :: sw) = true).
  { apply forallb_forall. intros w Hw%list_elem_of_In%list_elem_of_lookup_1.
    destruct Hw as [i Hi].
    assert (Hlt : (i < T)%nat) by (apply lookup_lt_Some in Hi; lia).
    destruct (lookup_lt_is_Some_2 x i Hlt) as [xi Hxi].
    destruct (Hinv i xi Hxi) as (o & w' & _ & Hw' & _ & _ & Hpos).
    rewrite Hi in Hw'. injection Hw' as <-. apply Qltb_true. apply Hpos; [lia|]. nia. }
  rewrite Hall. eexists. split; [done|].
  apply Forall2_same_length_lookup_2.
  { rewrite length_zip_with. lia. }
  intros i q xi Hq Hxi. destruct (Hinv i xi Hxi) as (o & w & Ho & Hw & Heq & _ & Hpos).
  rewrite lookup_zip_with, Ho, Hw in Hq. cbn in Hq. injection Hq as <-.
  assert (0 < w).
  { apply Hpos; [lia|]. apply lookup_lt_Some in Hxi. nia. }
  rewrite Heq. field. lra.
Qed.

End OverlapAdd.

(** X14 (_linear_overlap_add, with the framing of EnCodecModel.encode):
    overlap-add inverts the cutting into frames.  For a signal of one
    dimension with at least one sample, cut into windows of [n] samples
    every [stride] samples with 1 <= stride <= n (the frames that [encode]
    takes, the last ones shorter), [_linear_overlap_add] returns, and it
    returns the signal: where frames overlap, their triangular weights
    cancel in the normalisation by [sum_weight]. *)
Theorem linear_overlap_add_cut_frames (x : list Q) (n stride : nat) :
  (1 <= stride)%nat -> (stride <= n)%nat -> (1 <= length x)%nat ->
  exists out, _linear_overlap_add (cut_frames x n stride) stride = Ok out
              /\ Forall2 Qeq out x.
Proof. apply overlap_add_cut_frames. Qed.

Lemma linear_overlap_add_cut_frames_witness :
  exists out, _linear_overlap_add (cut_frames seven_samples 4 3) 3 = Ok out
              /\ Forall2 Qeq out seven_samples.
Proof. apply (linear_overlap_add_cut_frames seven_samples 4 3); cbn; lia. Defined.

(** ** EnCodecModel.encode: the frames *)

Lemma py_slice_window {A} (l : list A) (a : nat) (n : Z) :
  (0 <= n)%Z ->
  py_slice l (Z.of_nat a) (Z.of_nat a + n) = take (Z.to_nat n) (drop a l).
Proof.
  intros Hn. unfold py_slice, py_index.
  destruct (Z.ltb_spec (Z.of_nat a) 0); [lia|].
  destruct (Z.ltb_spec (Z.of_nat a + n) 0); [lia|].
  rewrite Nat2Z.id. replace (Z.to_nat (Z.of_nat a + n)) with (a + Z.to_nat n)%nat by lia.
  destruct (decide (a <= length l)%nat) as [Ha|Ha].
  - rewrite (Nat.min_l a) by lia.
    destruct (decide (a + Z.to_nat n <= length l)%nat).
    + rewrite Nat.min_l by lia. f_equal. lia.
    + rewrite Nat.min_r by lia.
      rewrite !take_ge; [done| |]; rewrite length_drop; lia.
  - rewrite !Nat.min_r by lia. rewrite Nat.sub_diag.
    rewrite (drop_ge l a) by lia. by rewrite take_nil, take_0.
Qed.

Lemma mapR_fmap {A B C} (f : B -> result C) (g : A -> B) (l : list A) :
  mapR f (g <$> l) = mapR (fun a => f (g a)) l.
Proof. induction l as [|a l IH]; [done|]. cbn. by rewrite IH. Qed.

Lemma mapR_ext {A B} (f g : A -> result B) (l : list A) :
  (forall a, a ∈ l -> f a = g a) -> mapR f l = mapR g l.
Proof.
  induction l as [|a l IH]; intros H; [done|]. cbn.
  rewrite (H a) by constructor. rewrite IH; [done|].
  intros b Hb. apply H. by constructor.
Qed.

Lemma Qtrunc_bounds (q : Q) (z : Z) :
  0 <= q -> q <= inject_Z z -> (0 <= Qtrunc q <= z)%Z.
Proof.
  intros H0 Hq. unfold Qtrunc.
  assert (E : Qle_bool 0 q = true) by (by apply Qle_bool_iff). rewrite E.
  pose proof (Qfloor_le q). split.
  - change 0%Z with (Qfloor 0). by apply Qfloor_resp_le.
  - rewrite Zle_Qle. lra.
Qed.

(** The stride of a model whose overlap lies between 0 and 1: no rounding
    takes the kept part of a segment out of [0, segment_length]. *)
Lemma segment_stride_bounds (self : EnCodecModel) (sl : Z) :
  segment_length self = Ok (Some sl) -> (1 <= sl < 2 ^ 53)%Z ->
  0 <= overlap self -> overlap self <= 1 ->
  exists st,
    segment_stride self = Ok (Some st)
    /\ st = Z.max 1 (Qtrunc (double (double (1 + - double (overlap self)) * inject_Z sl)))
    /\ (1 <= st <= sl)%Z.
Proof.
  intros Hsl Hb Ho0 Ho1. unfold segment_stride. rewrite Hsl. cbn [mbind result_bind].
  assert (P53 : pow2 53 == inject_Z (2 ^ 53)) by (by apply pow2_Z).
  assert (C53 : inject_Z (2 ^ 53) == 9007199254740992) by reflexivity.
  assert (Hsl1 : 1 <= inject_Z sl) by (change 1 with (inject_Z 1); rewrite <- Zle_Qle; lia).
  assert (Hsl2 : inject_Z sl < inject_Z (2 ^ 53)) by (rewrite <- Zlt_Qlt; lia).
  (* the float of the overlap *)
  assert (Ho : Qabs (overlap self) < pow2 53) by (apply Qabs_lt_condition; lra).
  rewrite (round64_finite _ Ho). fold (double (overlap self)).
  assert (Hd0 : 0 <= double (overlap self)).
  { change 0 with (inject_Z 0). apply round_to_ge; [lia|done|done]. }
  assert (Hd1 : double (overlap self) <= 1).
  { change 1 with (inject_Z 1). apply round_to_le; [lia|done|done]. }
  (* 1 - overlap *)
  cbn [float_sub float_neg float_add].
  assert (Hk : Qabs (1 + - double (overlap self)) < pow2 53) by (apply Qabs_lt_condition; lra).
  rewrite (round64_finite _ Hk). fold (double (1 + - double (overlap self))).
  set (keep := double (1 + - double (overlap self))).
  assert (Hk0 : 0 <= keep).
  { change 0 with (inject_Z 0). apply round_to_ge; [lia|done|]. change (inject_Z 0) with 0. lra. }
  assert (Hk1 : keep <= 1).
  { change 1 with (inject_Z 1). apply round_to_le; [lia|done|]. change (inject_Z 1) with 1. lra. }
  (* times the segment length *)
  rewrite float_of_int_exact by lia. cbn [mbind result_bind float_mul].
  assert (Hp : Qabs (keep * inject_Z sl) < pow2 53) by (apply Qabs_lt_condition; nra).
  rewrite (round64_finite _ Hp). fold (double (keep * inject_Z sl)).
  cbn [int_of_float float_to_int mbind result_bind].
  eexists. split; [done|]. split; [done|].
  assert (Hp0 : 0 <= double (keep * inject_Z sl)).
  { change 0 with (inject_Z 0). apply round_to_ge; [lia|done|]. change (inject_Z 0) with 0. nra. }
  assert (Hp1 : double (keep * inject_Z sl) <= inject_Z sl).
  { apply round_to_le; [lia|done|]. nra. }
  pose proof (Qtrunc_bounds _ _ Hp0 Hp1). lia.
Qed.

Section FramesFacts.

Context (EncodedFrame : Type)
        (_encode_frame : list (list (list Q)) -> result EncodedFrame).

(** X15 (EnCodecModel.encode, segment_length, segment_stride): a model
    with a segment length of at least one sample (below 2^53) and an
    overlap between 0 and 1 has a stride, max(1, int((1 - overlap) *
    segment_length)) in float arithmetic, which is at least 1 and at most
    the segment length, so that consecutive frames leave no gap; [encode]
    cuts an input of [len] samples (one or two channels) into
    ceil(len / stride) frames, frame k holding the samples from k * stride
    up to segment_length more on every row, and encodes them in order. *)
Theorem EnCodecModel_encode_frames (self : EnCodecModel) (x : list (list (list Q)))
    (sl : Z) :
  segment_length self = Ok (Some sl) -> (1 <= sl < 2 ^ 53)%Z ->
  0 <= overlap self -> overlap self <= 1 ->
  (1 <= length (hd [] x) <= 2)%nat ->
  let len := length (hd [] (hd [] x)) in
  exists st,
    segment_stride self = Ok (Some st)
    /\ st = Z.max 1 (Qtrunc (double (double (1 + - double (overlap self)) * inject_Z sl)))
    /\ (1 <= st <= sl)%Z
    /\ EnCodecModel_encode EncodedFrame _encode_frame self x
       = mapR (fun k =>
                 _encode_frame
                   (fmap (M:=list)
                      (fmap (M:=list)
                         (fun row => take (Z.to_nat sl) (drop (k * Z.to_nat st) row))) x))
              (seq 0 ((len + Z.to_nat st - 1) / Z.to_nat st)).
Proof.
  intros Hsl Hb Ho0 Ho1 Hch len.
  destruct (segment_stride_bounds self sl Hsl Hb Ho0 Ho1) as (st & Est & Hst & Hr).
  exists st. do 3 (split; [done|]).
  unfold EnCodecModel_encode. rewrite Hsl.
  destruct (Nat.ltb_spec 0 (length (hd [] x))); [|lia].
  destruct (Nat.leb_spec (length (hd [] x)) 2); [|lia].
  cbn [andb negb mbind result_bind]. rewrite Est. cbn [mbind result_bind]. unfold range0.
  destruct (Z.eqb_spec st 0); [lia|]. destruct (Z.ltb_spec st 0); [lia|].
  cbn [mbind result_bind]. rewrite mapR_fmap. fold len.
  apply mapR_ext. intros k _. f_equal.
  apply list_fmap_ext. intros ? m _. apply list_fmap_ext. intros ? row _.
  apply py_slice_window. lia.
Qed.

(** X16 (EnCodecModel.encode): without segmenting (segment is None, the
    setting [__init__] fixes) an input of one or two channels and at least
    one sample is encoded as one frame, the whole input; an input without
    samples makes the step of [range] zero, which raises. *)
Theorem EnCodecModel_encode_whole (self : EnCodecModel) (x : list (list (list Q))) :
  segment self = None -> (1 <= length (hd [] x) <= 2)%nat ->
  Forall (Forall (fun row => length row = length (hd [] (hd [] x)))) x ->
  EnCodecModel_encode EncodedFrame _encode_frame self x
  = if (length (hd [] (hd [] x)) =? 0)%nat then Raise ValueError
    else frame ← _encode_frame x; Ok [frame].
Proof.
  intros Hseg Hch Hrect. unfold EnCodecModel_encode, segment_length. rewrite Hseg.
  destruct (Nat.ltb_spec 0 (length (hd [] x))); [|lia].
  destruct (Nat.leb_spec (length (hd [] x)) 2); [|lia].
  cbn [andb negb mbind result_bind]. unfold range0.
  set (len := length (hd [] (hd [] x))) in *.
  destruct (Nat.eqb_spec len 0) as [E|E].
  { rewrite E. reflexivity. }
  destruct (Z.eqb_spec (Z.of_nat len) 0); [lia|].
  destruct (Z.ltb_spec (Z.of_nat len) 0); [lia|].
  cbn [mbind result_bind]. rewrite Nat2Z.id.
  replace ((len + len - 1) / len)%nat with 1%nat.
  2:{ apply (Nat.div_unique _ _ _ (len - 1)); lia. }
  cbn [seq fmap list_fmap mapR].
  assert (Ex : fmap (M:=list)
                 (fmap (M:=list)
                    (fun row => py_slice row (Z.of_nat (0 * len))
                                  (Z.of_nat (0 * len) + Z.of_nat len))) x = x).
  { rewrite <- (list_fmap_id x) at 2. apply Forall_fmap_ext.
    eapply Forall_impl; [exact Hrect|]. intros m Hm. cbn.
    rewrite <- (list_fmap_id m) at 2. apply Forall_fmap_ext.
    eapply Forall_impl; [exact Hm|]. intros row Hrow. cbn.
    rewrite py_slice_window by lia. rewrite Nat2Z.id. cbn beta in Hrow.
    change (drop (0 * len) row) with row. apply take_ge. lia. }
  rewrite Ex. by destruct (_encode_frame x).
Qed.

End FramesFacts.

Lemma EnCodecModel_encode_frames_witness :
  let len := length (hd [] (hd [] [[seven_samples]])) in
  exists st,
    segment_stride segmenting_model = Ok (Some st)
    /\ st = Z.max 1 (Qtrunc (double (double (1 + - double (overlap segmenting_model))
                                     * inject_Z 4)))
    /\ (1 <= st <= 4)%Z
    /\ EnCodecModel_encode _ keep_frame segmenting_model [[seven_samples]]
       = mapR (fun k =>
                 keep_frame
                   (fmap (M:=list)
                      (fmap (M:=list)
                         (fun row => take (Z.to_nat 4) (drop (k * Z.to_nat st) row)))
                      [[seven_samples]]))
              (seq 0 ((len + Z.to_nat st - 1) / Z.to_nat st)).
Proof.
  apply (EnCodecModel_encode_frames _ keep_frame segmenting_model [[seven_samples]] 4).
  - vm_compute. reflexivity.
  - split; [lia|reflexivity].
  - discriminate.
  - discriminate.
  - cbn. lia.
Defined.

(** Strides in float arithmetic: the default overlap 0.01 on segments of
    48000 samples keeps 47520 samples, and an overlap of 0.9 on segments of
    20 samples keeps 1, where the product of the numbers as written is 2; a
    segment of 0.3 seconds at 10 samples per second holds 3 samples. *)
Lemma segment_stride_examples :
  segment_stride {| sample_rate := 48000; segment := Some 1; overlap := 1 # 100 |}
  = Ok (Some 47520%Z)
  /\ segment_stride {| sample_rate := 20; segment := Some 1; overlap := 9 # 10 |}
     = Ok (Some 1%Z)
  /\ segment_length {| sample_rate := 10; segment := Some (3 # 10); overlap := 0 |}
     = Ok (Some 3%Z).
Proof. repeat split; vm_compute; reflexivity. Qed.

Lemma EnCodecModel_encode_whole_witness :
  EnCodecModel_encode _ keep_frame plain_model [[seven_samples]]
  = if (length (hd [] (hd [] [[seven_samples]])) =? 0)%nat then Raise ValueError
    else frame ← keep_frame [[seven_samples]]; Ok [frame].
Proof.
  apply (EnCodecModel_encode_whole _ keep_frame plain_model [[seven_samples]]).
  - reflexivity.
  - cbn. lia.
  - by repeat constructor.
Defined.

(** ** Token classification: grouping the entities *)

Section AggregationFacts.

Context (convert_tokens_to_string : list string -> string)
        (id2label : nat -> option string).

Abbreviation group_entities' := (group_entities convert_tokens_to_string).
Abbreviation group_entities_loop' := (group_entities_loop convert_tokens_to_string).
Abbreviation group_sub_entities' := (group_sub_entities convert_tokens_to_string).

(** X17 (aggregate, aggregate_words, aggregate_word): no entities.  On
    the empty list (every token filtered out) [aggregate] returns the empty
    list for the strategies NONE and SIMPLE, but for FIRST, AVERAGE and MAX
    [aggregate_words] passes its initial [word_group], None, to
    [aggregate_word], which raises a TypeError. *)
Theorem aggregate_no_entities (aggregation_strategy : AggregationStrategy) :
  aggregate convert_tokens_to_string id2label [] aggregation_strategy
  = match aggregation_strategy with
    | NONE => Return (inl [])
    | SIMPLE => Return (inr [])
    | _ => Throw TypeError
    end.
Proof. by destruct aggregation_strategy. Qed.

Lemma group_sub_entities_returns (g : list Entity) :
  g <> [] -> exists grp, group_sub_entities' g = Return grp.
Proof.
  intros Hg. unfold group_sub_entities. destruct g as [|e0 g]; [done|].
  destruct (last (e0 :: g)) eqn:E; [eauto|].
  by apply last_None in E.
Qed.

Lemma same_tag_group_snoc (disagg : list Entity) (previous ent : Entity)
    (bi tag lbi ltag : string) :
  same_tag_group disagg -> last disagg = Some previous ->
  split_on dash (entity ent) = [bi; tag] ->
  split_on dash (entity previous) = [lbi; ltag] ->
  tag = ltag -> bi <> "B" -> follows previous ent ->
  same_tag_group (disagg ++ [ent]).
Proof.
  intros Hg Hlast Hs Hls -> Hbi Hfol. destruct disagg as [|e0 rest]; [done|].
  destruct Hg as [Htags Hadj]. split.
  - apply Forall_app. split; [done|]. constructor; [|done].
    exists bi, ltag. split; [done|]. split; [done|].
    destruct rest as [|e1 rest'] using rev_ind.
    + cbn in Hlast. injection Hlast as <-. by rewrite Hls.
    + rewrite app_comm_cons, last_snoc in Hlast. injection Hlast as <-.
      apply Forall_app in Htags as [_ Hp]. inversion Hp as [|? ? (b' & t' & E & _ & Ht) _].
      subst. rewrite Hls in E. by injection E as _ <-.
  - intros k p e Hp He.
    destruct (decide (S k < length (e0 :: rest))%nat) as [Hk|Hk].
    + rewrite lookup_app_l in Hp by lia. rewrite lookup_app_l in He by done.
      by eapply Hadj.
    + assert (Hlen : S k = length (e0 :: rest)).
      { apply lookup_lt_Some in He. rewrite length_app in He. cbn in He, Hk |- *. lia. }
      change ((e0 :: rest) ++ [ent]) with ((e0 :: rest) ++ [ent]) in *.
      rewrite lookup_app_r in He by lia.
      replace (S k - length (e0 :: rest))%nat with 0%nat in He by lia.
      injection He as <-.
      rewrite lookup_app_l in Hp by lia.
      rewrite last_lookup in Hlast.
      replace (pred (length (e0 :: rest))) with k in Hlast by lia.
      rewrite Hp in Hlast. by injection Hlast as ->.
Qed.

Lemma group_entities_loop_spec (entities : list Entity) (groups : list EntityGroup)
    (disagg : list Entity) (st : list EntityGroup * list Entity) :
  group_entities_loop' entities groups disagg = Return st ->
  disagg = [] \/ same_tag_group disagg ->
  exists gs new,
    st.1 = groups ++ new
    /\ Forall2 (fun g grp => group_sub_entities' g = Return grp) gs new
    /\ Forall same_tag_group gs
    /\ concat gs ++ st.2 = disagg ++ entities
    /\ (st.2 = [] \/ same_tag_group st.2).
Proof.
  revert groups disagg. induction entities as [|ent rest IH]; intros groups disagg Hrun Hd.
  - cbn in Hrun. injection Hrun as <-. exists [], []. cbn.
    rewrite !app_nil_r. by repeat split.
  - cbn [group_entities_loop] in Hrun.
    destruct (last disagg) as [previous|] eqn:Hlast.
    + destruct Hd as [->|Hd]; [done|].
      destruct (split_on dash (entity ent)) as [|bi [|tag [|? ?]]] eqn:Hs; try done.
      cbn [unpack2 mbind outcome_bind] in Hrun.
      destruct (split_on dash (entity previous)) as [|lbi [|ltag [|? ?]]] eqn:Hls; try done.
      cbn [unpack2 mbind outcome_bind fst snd] in Hrun.
      assert (Hidx : exists b,
                 match index ent with
                 | Some i => j ← key (index previous); Return (i =? j + 1)%nat
                 | None => Return true
                 end = Return (E:=pipe_exn) b /\ (b = true -> follows previous ent)).
      { unfold follows. destruct (index ent) as [i|]; [|eauto].
        destruct (index previous) as [j|]; [|done]. cbn.
        eexists. split; [done|]. intros Hb%Nat.eqb_eq. eauto. }
      destruct Hidx as (b & Eb & Hb). rewrite Eb in Hrun. cbn [mbind outcome_bind] in Hrun.
      destruct (String.eqb_spec tag ltag) as [Et|Et];
        [destruct (String.eqb_spec bi "B") as [Ebi|Ebi]|]; cbn [andb negb] in Hrun;
        [| destruct b|].
      * destruct (group_sub_entities_returns disagg) as [g Eg]; [by intros ->|].
        rewrite Eg in Hrun. cbn [mbind outcome_bind] in Hrun.
        destruct (IH _ _ Hrun) as (gs & new & E1 & HF & Hsame & Hcat & Hlast');
          [right; split; [by constructor|]; by intros [|?] ? ? ? ?|].
        exists (disagg :: gs), (g :: new). rewrite E1, <- app_assoc.
        split; [done|]. split; [by constructor|]. split; [by constructor|].
        split; [|done]. cbn [concat]. by rewrite <- app_assoc, Hcat.
      * destruct (IH _ _ Hrun) as (gs & new & E1 & HF & Hsame & Hcat & Hlast');
          [right; by eapply same_tag_group_snoc; eauto|].
        exists gs, new. split; [done|]. split; [done|]. split; [done|].
        split; [|done]. by rewrite Hcat, <- app_assoc.
      * destruct (group_sub_entities_returns disagg) as [g Eg]; [by intros ->|].
        rewrite Eg in Hrun. cbn [mbind outcome_bind] in Hrun.
        destruct (IH _ _ Hrun) as (gs & new & E1 & HF & Hsame & Hcat & Hlast');
          [right; split; [by constructor|]; by intros [|?] ? ? ? ?|].
        exists (disagg :: gs), (g :: new). rewrite E1, <- app_assoc.
        split; [done|]. split; [by constructor|]. split; [by constructor|].
        split; [|done]. cbn [concat]. by rewrite <- app_assoc, Hcat.
      * destruct (group_sub_entities_returns disagg) as [g Eg]; [by intros ->|].
        rewrite Eg in Hrun. cbn [mbind outcome_bind] in Hrun.
        destruct (IH _ _ Hrun) as (gs & new & E1 & HF & Hsame & Hcat & Hlast');
          [right; split; [by constructor|]; by intros [|?] ? ? ? ?|].
        exists (disagg :: gs), (g :: new). rewrite E1, <- app_assoc.
        split; [done|]. split; [by constructor|]. split; [by constructor|].
        split; [|done]. cbn [concat]. by rewrite <- app_assoc, Hcat.
    + apply last_None in Hlast as ->.
      destruct (IH _ _ Hrun) as (gs & new & E1 & HF & Hsame & Hcat & Hlast');
        [right; split; [by constructor|]; by intros [|?] ? ? ? ?|].
      exists gs, new. by repeat split.
Qed.

(** X18 (group_entities, group_sub_entities): whenever [group_entities]
    returns, its groups are consecutive runs of the input: the input is the
    concatenation of non-empty runs, one per returned group and in the same
    order, the group being [group_sub_entities] of the run; inside a run
    every entity after the first has a label "X-tag" whose tag is the
    group's name and whose X is not "B", and continues the index of its
    predecessor when it has one. *)
Theorem group_entities_runs (entities : list Entity) (groups : list EntityGroup) :
  group_entities' entities = Return groups ->
  exists gs,
    concat gs = entities
    /\ Forall same_tag_group gs
    /\ Forall2 (fun g grp => group_sub_entities' g = Return grp) gs groups.
Proof.
  unfold group_entities. intros Hrun.
  destruct (group_entities_loop' entities [] []) as [[groups0 disagg]|] eqn:E; [|done].
  cbn [mbind outcome_bind fst snd] in Hrun.
  destruct (group_entities_loop_spec _ _ _ _ E) as (gs & new & E1 & HF & Hsame & Hcat & Hd);
    [by left|].
  cbn [fst snd app] in *. subst groups0.
  destruct disagg as [|d0 disagg].
  - injection Hrun as <-. exists gs. rewrite app_nil_r in Hcat. by repeat split.
  - destruct Hd as [|Hd]; [done|].
    destruct (group_sub_entities' (d0 :: disagg)) as [g|] eqn:Eg; [|done].
    cbn [mbind outcome_bind] in Hrun. injection Hrun as <-.
    exists (gs ++ [d0 :: disagg]). split; [|split].
    + rewrite concat_app. cbn [concat]. by rewrite app_nil_r.
    + apply Forall_app. split; [done|]. by constructor.
    + apply Forall2_app; [done|]. by constructor.
Qed.

Lemma index_uniform_app (l1 l2 : list Entity) :
  index_uniform (l1 ++ l2) -> index_uniform l1 /\ index_uniform l2.
Proof.
  intros [H|H]; apply Forall_app in H as [H1 H2]; split; by (left + right).
Qed.

Lemma group_entities_loop_returns (entities : list Entity) (groups : list EntityGroup)
    (disagg : list Entity) :
  Forall bi_label (disagg ++ entities) -> index_uniform (disagg ++ entities) ->
  exists st, group_entities_loop' entities groups disagg = Return st.
Proof.
  revert groups disagg. induction entities as [|ent rest IH]; intros groups disagg Hl Hi.
  - cbn. eauto.
  - cbn [group_entities_loop].
    assert (Hl' : Forall bi_label ([ent] ++ rest)).
    { by apply Forall_app in Hl as [_ ?]. }
    assert (Hi' : index_uniform ([ent] ++ rest)).
    { by apply index_uniform_app in Hi as [_ ?]. }
    destruct (last disagg) as [previous|] eqn:Hlast; [|by apply IH].
    assert (Hp : previous ∈ disagg ++ ent :: rest).
    { apply elem_of_app. left. by apply last_Some_elem_of. }
    assert (He : ent ∈ disagg ++ ent :: rest).
    { apply elem_of_app. right. by constructor. }
    rewrite Forall_forall in Hl.
    destruct (Hl _ He) as (bi & tag & ->). destruct (Hl _ Hp) as (lbi & ltag & ->).
    cbn [unpack2 mbind outcome_bind fst snd].
    assert (Hidx : exists b,
               match index ent with
               | Some i => j ← key (index previous); Return (i =? j + 1)%nat
               | None => Return true
               end = Return (E:=pipe_exn) b).
    { destruct (index ent) as [i|] eqn:Ei; [|eauto].
      destruct Hi as [Hn|Hs]; rewrite Forall_forall in *.
      - specialize (Hn _ He). congruence.
      - destruct (Hs _ Hp) as [j ->]. cbn. eauto. }
    destruct Hidx as [b ->]. cbn [mbind outcome_bind].
    destruct (_ && b).
    + apply IH; rewrite <- app_assoc; [by apply Forall_forall|done].
    + destruct (group_sub_entities_returns disagg) as [g ->]; [by intros ->|].
      cbn [mbind outcome_bind]. by apply IH.
Qed.

Lemma group_entities_loop_labels (entities : list Entity) (groups : list EntityGroup)
    (disagg : list Entity) (previous : Entity)
    (st : list EntityGroup * list Entity) :
  last disagg = Some previous ->
  group_entities_loop' entities groups disagg = Return st ->
  Forall bi_label entities /\ (entities <> [] -> bi_label previous).
Proof.
  revert groups disagg previous. induction entities as [|ent rest IH];
    intros groups disagg previous Hlast Hrun; [done|].
  cbn [group_entities_loop] in Hrun. rewrite Hlast in Hrun.
  destruct (split_on dash (entity ent)) as [|bi [|tag [|? ?]]] eqn:Hs; try done.
  cbn [unpack2 mbind outcome_bind] in Hrun.
  destruct (split_on dash (entity previous)) as [|lbi [|ltag [|? ?]]] eqn:Hls; try done.
  cbn [unpack2 mbind outcome_bind fst snd] in Hrun.
  assert (Hent : bi_label ent) by (by exists bi, tag).
  assert (Hprev : bi_label previous) by (by exists lbi, ltag).
  destruct (match index ent with
            | Some i => j ← key (index previous); Return (i =? j + 1)%nat
            | None => Return true
            end) as [b|]; [|done].
  cbn [mbind outcome_bind] in Hrun.
  destruct (_ && b).
  - destruct (IH _ (disagg ++ [ent]) ent (last_snoc _ _) Hrun) as [Hrest _].
    split; [by constructor|done].
  - destruct (group_sub_entities' disagg); [|done]. cbn [mbind outcome_bind] in Hrun.
    destruct (IH _ [ent] ent eq_refl Hrun) as [Hrest _].
    split; [by constructor|done].
Qed.

(** X19 (group_entities): labels without exactly one dash.  For two or
    more entities that all carry an index, or none of which does,
    [group_entities] returns exactly when every label has the form "X-tag"
    with a single dash; a label such as "O" (kept when [ignore_labels] is
    empty) or "B-PER-X" makes the unpacking of [split("-")] fail. *)
Theorem group_entities_returns_iff (entities : list Entity) :
  (2 <= length entities)%nat -> index_uniform entities ->
  (exists groups, group_entities' entities = Return groups)
  <-> Forall bi_label entities.
Proof.
  intros Hlen Hi. split.
  - intros [groups Hrun]. unfold group_entities in Hrun.
    destruct (group_entities_loop' entities [] []) as [st|] eqn:E; [|done].
    destruct entities as [|e0 [|e1 rest]]; [cbn in Hlen; lia..|].
    cbn [group_entities_loop last] in E.
    destruct (group_entities_loop_labels (e1 :: rest) [] [e0] e0 st eq_refl E) as [H1 H0].
    constructor; [by apply H0|done].
  - intros Hl.
    destruct (group_entities_loop_returns entities [] []) as [[groups disagg] E];
      [done|done|].
    unfold group_entities. rewrite E. cbn [mbind outcome_bind fst snd].
    destruct disagg as [|d0 disagg]; [eauto|].
    destruct (group_sub_entities_returns (d0 :: disagg)) as [g ->]; [done|].
    cbn [mbind outcome_bind]. eauto.
Qed.

Abbreviation aggregate_word' := (aggregate_word convert_tokens_to_string id2label).
Abbreviation aggregate_words_loop' :=
  (aggregate_words_loop convert_tokens_to_string id2label).

Lemma aggregate_word_keys (g : option (list Entity)) (s : AggregationStrategy)
    (w : Entity) :
  aggregate_word' g s = Return w ->
  index w = None /\ is_subword w = None /\ scores w = None
  /\ exists g0, g = Some g0 /\ g0 <> []
       /\ word w = convert_tokens_to_string (word <$> g0)
       /\ start w = head g0 ≫= start /\ end_ w = last g0 ≫= end_.
Proof.
  unfold aggregate_word. destruct g as [g|]; [|done].
  match goal with |- (?m ≫= _) = _ -> _ => destruct m as [es|] end; [|done].
  cbn [mbind outcome_bind]. destruct g as [|e0 g]; [done|].
  destruct (last (e0 :: g)) as [el|] eqn:El; [|done].
  intros [= <-]. cbn. repeat split. exists (e0 :: g). by rewrite El.
Qed.

Lemma aggregate_words_loop_spec (entities : list Entity) (s : AggregationStrategy)
    (word_entities : list Entity) (word_group : option (list Entity))
    (st : list Entity * option (list Entity)) :
  aggregate_words_loop' entities s word_entities word_group = Return st ->
  (word_group = None \/ exists g, word_group = Some g /\ word_run g) ->
  exists ws new,
    st.1 = word_entities ++ new
    /\ Forall2 (fun g w => aggregate_word' (Some g) s = Return w) ws new
    /\ Forall word_run ws
    /\ concat ws ++ default [] st.2 = default [] word_group ++ entities
    /\ (st.2 = None \/ exists g, st.2 = Some g /\ word_run g)
    /\ (word_group = None -> Forall starts_word (tail (ws ++ [default [] st.2])))
    /\ (forall g, word_group = Some g ->
          Forall starts_word (tail (ws ++ [default [] st.2]))).
Proof.
  revert word_entities word_group.
  induction entities as [|ent rest IH]; intros word_entities word_group Hrun Hg.
  - cbn in Hrun. injection Hrun as <-. exists [], []. cbn.
    rewrite !app_nil_r. by repeat split.
  - cbn [aggregate_words_loop] in Hrun. destruct word_group as [g|].
    + destruct Hg as [|(g' & [= <-] & Hg)]; [done|].
      destruct (is_subword ent) as [[|]|] eqn:Esub; [| |done];
        cbn [key mbind outcome_bind] in Hrun.
      * destruct (IH _ _ Hrun) as (ws & new & E1 & HF & Hruns & Hcat & Hst & _ & Hsw).
        { right. exists (g ++ [ent]). split; [done|].
          destruct g as [|g0 g]; [done|]. cbn. apply Forall_app. split; [done|].
          by repeat constructor. }
        exists ws, new. split; [done|]. split; [done|]. split; [done|].
        split; [by rewrite Hcat; cbn; rewrite <- app_assoc|]. split; [done|].
        split; [done|]. intros ? [= <-]. by apply (Hsw (g ++ [ent])).
      * destruct (aggregate_word' (Some g) s) as [w|] eqn:Ew; [|done].
        cbn [mbind outcome_bind] in Hrun.
        destruct (IH _ _ Hrun) as (ws & new & E1 & HF & Hruns & Hcat & Hst & _ & Hsw).
        { right. exists [ent]. split; [done|]. by constructor. }
        exists (g :: ws), (w :: new). rewrite E1, <- app_assoc.
        split; [done|]. split; [by constructor|]. split; [by constructor|].
        split; [by cbn [concat default] in *; rewrite <- app_assoc, Hcat|].
        split; [done|]. split; [done|]. intros ? [= <-]. cbn [app tail].
        specialize (Hsw [ent] eq_refl).
        assert (Hhead : starts_word (hd [] (ws ++ [default [] st.2]))).
        { destruct ws as [|w0 ws].
          - cbn in Hcat |- *. rewrite Hcat. by exists ent.
          - cbn in Hcat |- *.
            inversion Hruns as [|? ? Hw0 _]; subst.
            destruct w0 as [|e2 w0]; [done|]. injection Hcat as -> _.
            by exists ent. }
        destruct (ws ++ [default [] st.2]) as [|h t] eqn:Eh.
        { by destruct ws. }
        by constructor.
    + destruct (IH _ _ Hrun) as (ws & new & E1 & HF & Hruns & Hcat & Hst & _ & Hsw).
      { right. exists [ent]. split; [done|]. by constructor. }
      exists ws, new. split; [done|]. split; [done|]. split; [done|].
      split; [done|]. split; [done|]. split; [|done]. intros _. by apply (Hsw [ent]).
Qed.

(** X20 (aggregate_words, aggregate_word): whenever [aggregate_words]
    returns, it has cut the tokens into consecutive non-empty runs, one per
    returned word entity and in the same order, the word being
    [aggregate_word] of the run: in a run every token after the first is
    marked as a subword, and every run but the first starts with a token
    that is not.  The word entities have no "index" key, so the grouping
    that follows cannot compare token positions. *)
Theorem aggregate_words_runs (entities : list Entity)
    (aggregation_strategy : AggregationStrategy) (words : list Entity) :
  aggregate_words convert_tokens_to_string id2label entities aggregation_strategy
  = Return words ->
  exists ws,
    concat ws = entities
    /\ Forall word_run ws
    /\ Forall starts_word (tail ws)
    /\ Forall2 (fun g w => aggregate_word' (Some g) aggregation_strategy = Return w)
         ws words
    /\ Forall (fun w => index w = None) words.
Proof.
  unfold aggregate_words. intros Hrun.
  assert (Hloop : exists st w,
             aggregate_words_loop' entities aggregation_strategy [] None = Return st
             /\ aggregate_word' st.2 aggregation_strategy = Return w
             /\ words = st.1 ++ [w]).
  { destruct aggregation_strategy; try done;
      (destruct (aggregate_words_loop' entities _ [] None) as [st|]; [|done];
       cbn [mbind outcome_bind] in Hrun;
       destruct (aggregate_word' st.2 _) as [w|] eqn:Ew; [|done];
       cbn [mbind outcome_bind] in Hrun; injection Hrun as <-; eauto). }
  destruct Hloop as (st & w & Hloop & Hw & ->).
  destruct (aggregate_words_loop_spec _ _ _ _ _ Hloop)
    as (ws & new & E1 & HF & Hruns & Hcat & Hst & Hsw & _); [by left|].
  specialize (Hsw eq_refl).
  destruct (aggregate_word_keys _ _ _ Hw) as (_ & _ & _ & g & Eg & _).
  rewrite Eg in *. cbn [default app] in *.
  destruct Hst as [|(g' & [= <-] & Hg)]; [done|].
  exists (ws ++ [g]). split; [|split; [|split; [|split]]].
  - rewrite concat_app. cbn [concat]. by rewrite app_nil_r.
  - apply Forall_app. split; [done|]. by constructor.
  - done.
  - rewrite E1. apply Forall2_app; [done|]. by constructor.
  - apply Forall_forall. intros w' Hw'.
    apply elem_of_app in Hw' as [Hw'|Hw'].
    + rewrite E1 in Hw'. cbn in Hw'.
      apply list_elem_of_lookup_1 in Hw' as [i Hi].
      destruct (Forall2_lookup_r _ _ _ _ _ HF Hi) as (g0 & _ & Hg0).
      by apply aggregate_word_keys in Hg0 as [? _].
    + apply list_elem_of_singleton in Hw' as ->.
      by apply aggregate_word_keys in Hw as [? _].
Qed.

End AggregationFacts.

Lemma group_entities_runs_witness :
  exists groups gs,
    group_entities join_tokens example_tokens = Return groups
    /\ length groups = 2%nat
    /\ concat gs = example_tokens
    /\ Forall same_tag_group gs
    /\ Forall2 (fun g grp => group_sub_entities join_tokens g = Return grp) gs groups.
Proof.
  assert (H : exists groups, group_entities join_tokens example_tokens = Return groups
                             /\ length groups = 2%nat).
  { eexists. split; [vm_compute; reflexivity|reflexivity]. }
  destruct H as (groups & Hrun & Hlen).
  destruct (group_entities_runs join_tokens example_tokens groups Hrun) as (gs & H).
  exists groups, gs. by repeat split; try apply H.
Defined.

Lemma group_entities_returns_iff_witness :
  (exists groups, group_entities join_tokens tokens_with_outside = Return groups)
  <-> Forall bi_label tokens_with_outside.
Proof.
  apply (group_entities_returns_iff join_tokens tokens_with_outside).
  - cbn. lia.
  - right. repeat constructor; by eexists.
Defined.

Lemma aggregate_words_runs_witness :
  exists words ws,
    aggregate_words join_tokens no_labels subword_tokens FIRST = Return words
    /\ length words = 2%nat
    /\ concat ws = subword_tokens
    /\ Forall word_run ws
    /\ Forall starts_word (tail ws)
    /\ Forall2 (fun g w => aggregate_word join_tokens no_labels (Some g) FIRST = Return w)
         ws words
    /\ Forall (fun w => index w = None) words.
Proof.
  assert (H : exists words,
             aggregate_words join_tokens no_labels subword_tokens FIRST = Return words
             /\ length words = 2%nat).
  { eexists. split; [vm_compute; reflexivity|reflexivity]. }
  destruct H as (words & Hrun & Hlen).
  destruct (aggregate_words_runs join_tokens no_labels subword_tokens FIRST words Hrun)
    as (ws & H).
  exists words, ws. by repeat split; try apply H.
Defined.

(** ** loss_boxes on the assignment of the matcher *)

Lemma mapR_app {A B} (f : A -> result B) (l1 l2 : list A) :
  mapR f (l1 ++ l2)
  = match mapR f l1 with
    | Ok a => match mapR f l2 with
              | Ok b => Ok (a ++ b)
              | Raise e => Raise e
              end
    | Raise e => Raise e
    end.
Proof.
  induction l1 as [|x l1 IH]; cbn [mapR app].
  - by destruct (mapR f l2).
  - destruct (f x); [|done]. rewrite IH.
    destruct (mapR f l1); [|done]. by destruct (mapR f l2).
Qed.

Lemma zip_replicate {A B} (x : A) (l : list B) :
  zip (replicate (length l) x) l = (fun q => (x, q)) <$> l.
Proof. induction l as [|b l IH]; [done|]. cbn. by rewrite IH. Qed.

Lemma src_gather {A} (P : A -> Prop) (t : list (list A)) (indices : Indices) (i0 : nat) :
  (forall k ij, indices !! k = Some ij ->
     exists rows, t !! (i0 + k)%nat = Some rows
                  /\ Forall (fun q => exists r, rows !! q = Some r /\ P r) ij.1) ->
  exists l,
    index_pairs t
      (concat ((fun isrc : nat * (list nat * list nat) =>
                  replicate (length isrc.2.1) isrc.1) <$> enumerate_from i0 indices),
       concat (fst <$> indices)) = Ok l
    /\ Forall P l
    /\ length l = sum_list ((fun ij : list nat * list nat => length ij.1) <$> indices).
Proof.
  revert i0. induction indices as [|ij rest IH]; intros i0 H.
  - by exists [].
  - destruct (IH (S i0)) as (l2 & E2 & HP2 & L2).
    { intros k ij' Hk. destruct (H (S k) ij' Hk) as (rows & Hr & HF).
      exists rows. split; [|done]. by replace (S i0 + k)%nat with (i0 + S k)%nat by lia. }
    destruct (H 0%nat ij eq_refl) as (rows & Hr & HF). rewrite Nat.add_0_r in Hr.
    destruct (mapR_ok_exists
                (fun bi : nat * nat =>
                   match t !! bi.1 with
                   | Some rows => match rows !! bi.2 with
                                  | Some r => Ok r
                                  | None => Raise IndexError
                                  end
                   | None => Raise IndexError
                   end) P ((fun q => (i0, q)) <$> ij.1)) as (l1 & E1 & L1 & HP1).
    { apply Forall_fmap. eapply Forall_impl; [exact HF|]. intros q (r & Hq & HPr).
      cbn. rewrite Hr, Hq. eauto. }
    exists (l1 ++ l2). unfold index_pairs in *. cbn [fst snd] in *.
    cbn [enumerate_from fmap list_fmap concat]. cbn [fst snd].
    rewrite zip_with_app by (by rewrite length_replicate).
    change (zip_with pair (replicate (length ij.1) i0) ij.1)
      with (zip (replicate (length ij.1) i0) ij.1).
    rewrite zip_replicate, mapR_app, E1.
    change (zip_with pair ?a ?b) with (zip a b). rewrite E2.
    split; [done|]. split; [by apply Forall_app|].
    rewrite length_app, L1, L2, length_fmap. done.
Qed.

Lemma tgt_gather (P : Box -> Prop) (targets : list Target) (indices : Indices) :
  Forall2 (fun t (ij : list nat * list nat) =>
             Forall (fun j => exists r, boxes t !! j = Some r /\ P r) ij.2)
          targets indices ->
  exists tb,
    mapR (fun ti : Target * (list nat * list nat) => index_rows (boxes ti.1) ti.2.2)
         (zip targets indices) = Ok tb
    /\ Forall P (concat tb)
    /\ length (concat tb)
       = sum_list ((fun ij : list nat * list nat => length ij.2) <$> indices)
    /\ length tb = length indices.
Proof.
  induction 1 as [|t ij targets indices Hij _ (tb & E & HP & L & Lt)]; [by exists []|].
  destruct (mapR_ok_exists
              (fun i => match boxes t !! i with
                        | Some r => Ok r
                        | None => Raise IndexError
                        end) P ij.2) as (l1 & E1 & L1 & HP1).
  { eapply Forall_impl; [exact Hij|]. intros j (r & Hj & HPr). cbn. rewrite Hj. eauto. }
  exists (l1 :: tb). cbn [zip zip_with mapR]. cbn [fst snd]. unfold index_rows at 1.
  rewrite E1, E. split; [done|]. cbn [concat].
  split; [by apply Forall_app|]. rewrite length_app, L1, L. cbn. by rewrite Lt.
Qed.

Lemma diag_Forall {A} (P : A -> Prop) (M : list (list A)) :
  Forall (Forall P) M -> Forall P (diag M) /\ (length (diag M) <= length M)%nat.
Proof.
  intros H. unfold diag, enumerate. generalize 0%nat.
  induction H as [|row M Hrow _ IH]; intros i; [by split|].
  cbn [enumerate_from omap list_omap]. cbn [fst snd].
  destruct (IH (S i)) as [IH1 IH2].
  destruct (row !! i) as [x|] eqn:E; cbn [length].
  - split; [|lia]. constructor; [|done].
    rewrite Forall_forall in Hrow. by eapply Hrow, list_elem_of_lookup_2.
  - split; [done|lia].
Qed.

Lemma fsum_bounded (c : Q) (l : list F) :
  Forall (fun x : F => exists v, x = Some v /\ 0 <= v /\ v <= c) l ->
  exists s, fsum l = Some s /\ 0 <= s /\ s <= c * inject_Z (Z.of_nat (length l)).
Proof.
  induction 1 as [|x l (v & -> & Hv0 & Hvc) _ (s & Es & Hs0 & Hsc)].
  - exists 0. split; [done|]. change (inject_Z (Z.of_nat (length (@nil F)))) with 0.
    split; lra.
  - exists (v + s). rewrite fsum_cons, Es. split; [done|].
    cbn [length]. rewrite Nat2Z.inj_succ, <- Z.add_1_r, inject_Z_plus.
    change (inject_Z 1) with 1. split; lra.
Qed.

Lemma Qsum_nonneg (l : list Q) : Forall (fun v => 0 <= v) l -> 0 <= Qsum l.
Proof.
  induction 1 as [|v l Hv _ IH]; [cbn; lra|]. rewrite Qsum_cons. lra.
Qed.

Lemma l1_dist_nonneg (x y : Box) : 0 <= l1_dist x y.
Proof.
  unfold l1_dist.
  pose proof (Qabs_nonneg (b0 x - b0 y)). pose proof (Qabs_nonneg (b1 x - b1 y)).
  pose proof (Qabs_nonneg (b2 x - b2 y)). pose proof (Qabs_nonneg (b3 x - b3 y)). lra.
Qed.

Lemma sum_list_le (f g : list nat * list nat -> nat) (l : Indices) :
  Forall (fun x => (f x <= g x)%nat) l ->
  (sum_list (f <$> l) <= sum_list (g <$> l))%nat.
Proof. induction 1 as [|x l Hx _ IH]; cbn; lia. Qed.

(** The sums of [loss_boxes] on a valid assignment. *)
Lemma loss_boxes_sums_valid (nq : nat) (outputs : Outputs) (pb : list (list Box))
    (targets : list Target) (indices : Indices) :
  pred_boxes outputs = Some pb -> targets <> [] ->
  length pb = length targets -> Forall (fun m => length m = nq) pb ->
  Forall (Forall positive_extent) pb ->
  Forall (fun t => Forall positive_extent (boxes t)) targets ->
  Forall2 (valid_assignment nq) targets indices ->
  exists bbox giou,
    loss_boxes_sums outputs targets indices = Ok (bbox, Some giou)
    /\ 0 <= bbox /\ 0 <= giou
    /\ giou <= 2 * inject_Z (Z.of_nat (sum_list ((fun t => length (boxes t)) <$> targets))).
Proof.
  intros Hpb Hne Lpb Fpb Epb Etg Hv. unfold loss_boxes_sums. rewrite Hpb.
  pose proof (Forall2_length _ _ _ Hv) as Li.
  assert (Hine : indices <> []) by (destruct indices, targets; done).
  destruct (src_gather positive_extent pb indices 0) as (src & Esrc & Psrc & Lsrc).
  { intros k ij Hk. cbn [plus].
    destruct (Forall2_lookup_r _ _ _ _ _ Hv Hk) as (t & Ht & Hval).
    destruct (lookup_lt_is_Some_2 pb k) as [rows Hrows].
    { apply lookup_lt_Some in Hk. lia. }
    exists rows. split; [done|].
    destruct Hval as (_ & _ & _ & _ & Hq & _).
    eapply Forall_impl; [exact Hq|]. intros q Hlt. cbn in Hlt.
    rewrite Forall_forall in Fpb, Epb.
    pose proof (Fpb rows (list_elem_of_lookup_2 _ _ _ Hrows)) as Lrows.
    destruct (lookup_lt_is_Some_2 rows q) as [r Hr]; [lia|].
    exists r. split; [done|].
    pose proof (Epb rows (list_elem_of_lookup_2 _ _ _ Hrows)) as Erows.
    rewrite Forall_forall in Erows. by eapply Erows, list_elem_of_lookup_2. }
  destruct (tgt_gather positive_extent targets indices) as (tb & Etb & Ptb & Ltb & Ltb').
  { apply Forall2_same_length_lookup_2; [done|]. intros i t ij Ht Hij.
    destruct (Forall2_lookup_lr _ _ _ _ _ _ Hv Ht Hij) as (_ & _ & _ & _ & _ & Hj).
    eapply Forall_impl; [exact Hj|]. intros j Hlt. cbn in Hlt.
    destruct (lookup_lt_is_Some_2 (boxes t) j Hlt) as [r Hr].
    exists r. split; [done|].
    rewrite Forall_forall in Etg. specialize (Etg t (list_elem_of_lookup_2 _ _ _ Ht)).
    rewrite Forall_forall in Etg. by eapply Etg, list_elem_of_lookup_2. }
  assert (Lsame : length src = length (concat tb)).
  { rewrite Lsrc, Ltb. f_equal. apply Forall_fmap_ext, Forall_forall.
    intros ij Hij%list_elem_of_lookup_1. destruct Hij as [i Hi].
    destruct (Forall2_lookup_r _ _ _ _ _ Hv Hi) as (t & _ & H1 & H2 & _). cbn. lia. }
  unfold _get_src_permutation_idx.
  rewrite torch_cat_ok by (by destruct indices).
  cbn [mbind result_bind]. rewrite torch_cat_ok by (by destruct indices).
  cbn [mbind result_bind]. unfold enumerate. rewrite Esrc. cbn [mbind result_bind].
  rewrite Etb. cbn [mbind result_bind].
  rewrite torch_cat_ok by (destruct tb, indices; done).
  cbn [mbind result_bind]. rewrite Lsame, Nat.eqb_refl. cbn [negb].
  set (tgt := concat tb) in *.
  assert (Hgiou : generalized_box_iou (center_to_corners_format <$> src)
                    (center_to_corners_format <$> tgt)
                  = Ok (fmap (fun a => fmap (fun b => generalized_box_iou1 a b)
                                         (center_to_corners_format <$> tgt))
                          (center_to_corners_format <$> src))).
  { unfold generalized_box_iou. by rewrite !forallb_corners_ordered. }
  rewrite Hgiou. cbn [mbind result_bind].
  match goal with |- context [diag ?M0] => set (M := M0) end.
  assert (HM : Forall (Forall (fun x : F => exists g, x = Some g /\ -1 < g /\ g <= 1)) M).
  { subst M. apply Forall_fmap, Forall_fmap. eapply Forall_impl; [exact Psrc|].
    intros a Ha. cbn. apply Forall_fmap, Forall_fmap.
    eapply Forall_impl; [exact Ptb|]. intros b Hb. cbn.
    destruct (generalized_box_iou1_range (center_to_corners_format a)
                (center_to_corners_format b)) as (g & i & Eg & _ & Hg1 & Hg2 & _ & Hi);
      [by apply center_to_corners_positive..|].
    exists g. split; [done|]. split; lra. }
  destruct (diag_Forall _ M HM) as [Hdiag Ldiag].
  destruct (fsum_bounded 2 (fsub (Some 1) <$> diag M)) as (s & -> & Hs0 & Hs2).
  { apply Forall_fmap. eapply Forall_impl; [exact Hdiag|].
    intros x (g & -> & Hg1 & Hg2). cbn. eexists. split; [done|]. split; lra. }
  eexists _, s. split; [done|]. split.
  { apply Qsum_nonneg. apply Forall_forall.
    intros v Hv'%elem_of_lookup_zip_with. destruct Hv' as (i & x & y & -> & _ & _).
    apply l1_dist_nonneg. }
  split; [done|].
  assert (HLM : (length (fsub (Some 1%Q) <$> diag M)
                 <= sum_list ((fun t => length (boxes t)) <$> targets))%nat).
  { rewrite length_fmap. etransitivity; [exact Ldiag|].
    subst M. rewrite !length_fmap, Lsrc.
    clear -Hv. induction Hv as [|t ij targets indices Hval _ IH]; [done|].
    cbn. destruct Hval as (H1 & _). lia. }
  assert (inject_Z (Z.of_nat (length (fsub (Some 1) <$> diag M)))
          <= inject_Z (Z.of_nat (sum_list ((fun t => length (boxes t)) <$> targets)))).
  { rewrite <- Zle_Qle. lia. }
  lra.
Qed.

(** X21 (loss_boxes, _get_src_permutation_idx, HungarianMatcher.forward,
    generalized_box_iou): the box losses on the assignment of the matcher.
    For inputs of the documented shapes (a non-empty batch, at least one
    query, one target per image) whose boxes all have positive width and
    height, the matcher returns an assignment on which [loss_boxes], with
    the [num_boxes] that [SetCriterion.forward] passes, raises nothing:
    every index it gathers is in range, and it returns finite values with
    loss_bbox >= 0 and 0 <= loss_giou <= 2. *)
Theorem loss_boxes_on_matching (softmax : list Q -> list Q) (self : HungarianMatcher)
    (bs nq nc : nat) (outputs : Outputs) (targets : list Target) :
  (forall row, length (softmax row) = length row) ->
  matcher_inputs_ok bs nq nc outputs targets ->
  boxes_have_extent outputs targets ->
  exists indices bbox giou,
    HungarianMatcher_forward softmax self outputs targets = Ok indices
    /\ loss_boxes outputs targets indices (forward_num_boxes targets)
       = Ok [("loss_bbox", Some bbox); ("loss_giou", Some giou)]
    /\ 0 <= bbox /\ 0 <= giou /\ giou <= 2.
Proof.
  intros Hsm Hok Hext.
  destruct (HungarianMatcher_forward_ok softmax self bs nq nc outputs targets Hsm Hok Hext)
    as (indices & Em & Hv).
  destruct Hok as (lg & pb & Hlg & Hpb & Hbs & Hnq & Llg & Flg & Lpb & Fpb & Lt & Ft).
  destruct Hext as [Hpe Hte]. specialize (Hpe pb Hpb).
  destruct (loss_boxes_sums_valid nq outputs pb targets indices)
    as (bbox & giou & Es & Hb0 & Hg0 & Hg2); try done.
  { destruct targets; [cbn in Lt; lia|done]. }
  { lia. }
  destruct (forward_num_boxes_spec targets) as [Heq Hge].
  set (nb := forward_num_boxes targets) in *.
  exists indices, (bbox / nb), (giou / nb). split; [done|]. split.
  { unfold loss_boxes. rewrite Es. cbn [mbind result_bind fst snd fdiv_by].
    rewrite !fdiv_nonzero by lra. reflexivity. }
  assert (Hsum : sum_list ((fun t => length (boxes t)) <$> targets)
                 = total_target_boxes targets).
  { unfold total_target_boxes. f_equal. apply Forall_fmap_ext.
    eapply Forall_impl; [exact Ft|]. by intros t [-> _]. }
  rewrite Hsum in Hg2.
  assert (Hnb : inject_Z (Z.of_nat (total_target_boxes targets)) <= nb).
  { rewrite Heq, <- Zle_Qle. lia. }
  split; [apply Qle_shift_div_l; lra|]. split; [apply Qle_shift_div_l; lra|].
  apply Qle_shift_div_r; lra.
Qed.

Lemma loss_boxes_on_matching_witness :
  exists indices bbox giou,
    HungarianMatcher_forward normalize example_matcher example_layer_outputs
      [example_target] = Ok indices
    /\ loss_boxes example_layer_outputs [example_target] indices
         (forward_num_boxes [example_target])
       = Ok [("loss_bbox", Some bbox); ("loss_giou", Some giou)]
    /\ 0 <= bbox /\ 0 <= giou /\ giou <= 2.
Proof.
  apply (loss_boxes_on_matching normalize example_matcher 1 2 2
           example_layer_outputs [example_target] normalize_length).
  - exists example_logits, example_boxes.
    repeat split; try done; try lia; repeat constructor.
  - split.
    + intros pb [= <-]. repeat constructor.
    + repeat constructor.
Defined.

(** ** nested_tensor_from_tensor_list: padding to a common shape *)

Lemma shape_of_rect3 {A} (c h w : nat) (img : list (list (list A))) :
  rect3 c h w img -> (1 <= c)%nat -> (1 <= h)%nat -> shape_of img = [c; h; w].
Proof.
  intros [Hc Hch] H1 H2. unfold shape_of. rewrite Hc.
  destruct img as [|ch img]; [cbn in Hc; lia|]. cbn [hd].
  inversion Hch as [|? ? [Hh Hrows] _]; subst.
  destruct ch as [|row ch]; [cbn in H2; lia|]. cbn [hd].
  inversion Hrows as [|? ? Hw _]; subst. done.
Qed.

Lemma max_by_axis_fold {A} (l : list (list (list (list A)))) (c0 h0 w0 : nat) :
  Forall (fun img => exists c h w, rect3 c h w img /\ (1 <= c)%nat /\ (1 <= h)%nat) l ->
  exists C H W,
    foldl (fun acc sublist => maxes ← acc; max_into maxes sublist)
      (Ok [c0; h0; w0]) (shape_of <$> l) = Ok [C; H; W]
    /\ (c0 <= C)%nat /\ (h0 <= H)%nat /\ (w0 <= W)%nat
    /\ Forall (fits C H W) l.
Proof.
  intros Hl. revert c0 h0 w0.
  induction Hl as [|img l (c & h & w & Hr & Hc & Hh) _ IH]; intros c0 h0 w0.
  - exists c0, h0, w0. by repeat split.
  - rewrite fmap_cons. cbn [foldl]. rewrite (shape_of_rect3 c h w) by done.
    cbn [mbind result_bind max_into].
    destruct (IH (c0 `max` c) (h0 `max` h) (w0 `max` w))%nat
      as (C & H & W & E & H1 & H2 & H3 & Hfit).
    exists C, H, W. split; [done|]. repeat split; try lia.
    constructor; [|done]. exists c, h, w. split; [done|]. lia.
Qed.

Lemma pad_image_rect3 (C H W : nat) (img : list (list (list Q))) :
  fits C H W img -> rect3 C H W (pad_image C H W img).
Proof.
  intros (c & h & w & [Lc Hch] & Hc & Hh & Hw). unfold pad_image, rect3.
  split; [rewrite length_app, length_fmap, length_replicate; lia|].
  apply Forall_app. split.
  - apply Forall_fmap. eapply Forall_impl; [exact Hch|]. intros ch [Lh Hrows]. cbn.
    unfold pad_channel. split.
    + rewrite length_app, length_fmap, length_replicate. lia.
    + apply Forall_app. split.
      * apply Forall_fmap. eapply Forall_impl; [exact Hrows|]. intros row Lw.
        cbn beta in Lw. cbn. unfold pad_row. rewrite length_app, length_replicate. lia.
      * apply Forall_replicate. by rewrite length_replicate.
  - apply Forall_replicate. split; [by rewrite length_replicate|].
    apply Forall_replicate. by rewrite length_replicate.
Qed.

Lemma crop_pad_image (C H W c h w : nat) (img : list (list (list Q))) :
  rect3 c h w img -> crop c h w (pad_image C H W img) = img.
Proof.
  intros [Lc Hch]. unfold crop, pad_image.
  rewrite take_app_length' by (by rewrite length_fmap).
  rewrite <- list_fmap_compose. rewrite <- (list_fmap_id img) at 2.
  apply Forall_fmap_ext. eapply Forall_impl; [exact Hch|]. intros ch [Lh Hrows]. cbn.
  unfold pad_channel. rewrite take_app_length' by (by rewrite length_fmap).
  rewrite <- list_fmap_compose. rewrite <- (list_fmap_id ch) at 2.
  apply Forall_fmap_ext. eapply Forall_impl; [exact Hrows|]. intros row Lw.
  cbn beta in Lw. cbn. unfold pad_row. by rewrite take_app_length'.
Qed.

Lemma padding_mask_lookup (H W h w j k : nat) (b : bool) :
  (padding_mask H W h w !! j) ≫= (fun row => row !! k) = Some b ->
  (j < H)%nat /\ (k < W)%nat /\ (b = false <-> (j < h)%nat /\ (k < w)%nat).
Proof.
  unfold padding_mask. rewrite list_lookup_fmap.
  destruct (seq 0 H !! j) as [j'|] eqn:Ej; [|done]. cbn -[Nat.ltb].
  apply lookup_seq in Ej as [-> Hj]. rewrite list_lookup_fmap.
  destruct (seq 0 W !! k) as [k'|] eqn:Ek; [|done]. cbn -[Nat.ltb].
  apply lookup_seq in Ek as [-> Hk]. intros [= <-].
  split; [done|]. split; [done|].
  destruct (Nat.ltb_spec j h), (Nat.ltb_spec k w); cbn [negb andb];
    (split; [intros ?; try done; lia|intros [? ?]; try done; lia]).
Qed.

Lemma padding_mask_rect (H W h w : nat) : rect H W (padding_mask H W h w).
Proof.
  unfold padding_mask, rect. split; [by rewrite length_fmap, length_seq|].
  apply Forall_fmap, Forall_forall. intros j _. cbn. by rewrite length_fmap, length_seq.
Qed.

(** X22 (nested_tensor_from_tensor_list, _max_by_axis): for a non-empty
    list of images of three dimensions (channels and height not zero) the
    function returns a batch tensor and a mask of one common shape
    [C, H, W] and [H, W] into which every image fits; cropping the padded
    image to the shape of the image gives the image back, and the mask of
    an image is False exactly on the rows and columns of the image. *)
Theorem nested_tensor_from_tensor_list_spec (tensor_list : list (list (list (list Q)))) :
  tensor_list <> [] ->
  Forall (fun img => exists c h w, rect3 c h w img /\ (1 <= c)%nat /\ (1 <= h)%nat)
         tensor_list ->
  exists C H W tensor mask,
    nested_tensor_from_tensor_list tensor_list = Ok (tensor, mask)
    /\ Forall (rect3 C H W) tensor /\ Forall (rect H W) mask
    /\ Forall2 (fun img padded =>
                  exists c h w, rect3 c h w img /\ (c <= C)%nat /\ (h <= H)%nat
                                /\ (w <= W)%nat /\ crop c h w padded = img)
         tensor_list tensor
    /\ Forall2 (fun img m =>
                  forall j k b,
                    (m !! j) ≫= (fun row : list bool => row !! k) = Some b ->
                    (b = false <-> (j < length (hd [] img))%nat
                                   /\ (k < length (hd [] (hd [] img)))%nat))
         tensor_list mask.
Proof.
  intros Hne Hl. unfold nested_tensor_from_tensor_list, _max_by_axis.
  destruct tensor_list as [|img0 rest]; [done|].
  inversion Hl as [|? ? (c0 & h0 & w0 & Hr0 & Hc0 & Hh0) Hrest]; subst.
  rewrite fmap_cons, (shape_of_rect3 c0 h0 w0) by done.
  destruct (max_by_axis_fold rest c0 h0 w0 Hrest) as (C & H & W & -> & H1 & H2 & H3 & Hfit).
  cbn [mbind result_bind].
  assert (Hall : Forall (fits C H W) (img0 :: rest)).
  { constructor; [|done]. exists c0, h0, w0. split; [done|]. lia. }
  eexists C, H, W, _, _. split; [done|]. split; [|split; [|split]].
  - apply Forall_fmap. eapply Forall_impl; [exact Hall|]. intros img Himg.
    by apply pad_image_rect3.
  - apply Forall_fmap, Forall_forall. intros img _. apply padding_mask_rect.
  - apply Forall2_fmap_r, Forall_Forall2_diag.
    eapply Forall_impl; [exact Hall|].
    intros img (c & h & w & Hr & Hc & Hh & Hw). exists c, h, w.
    split; [done|]. split; [lia|]. split; [lia|]. split; [lia|].
    by apply crop_pad_image.
  - apply Forall2_fmap_r, Forall_Forall2_diag, Forall_forall.
    intros img _ j k b Hb. by apply padding_mask_lookup in Hb as (_ & _ & ?).
Qed.

Lemma nested_tensor_from_tensor_list_spec_witness :
  exists C H W tensor mask,
    nested_tensor_from_tensor_list two_masks = Ok (tensor, mask)
    /\ Forall (rect3 C H W) tensor /\ Forall (rect H W) mask
    /\ Forall2 (fun img padded =>
                  exists c h w, rect3 c h w img /\ (c <= C)%nat /\ (h <= H)%nat
                                /\ (w <= W)%nat /\ crop c h w padded = img)
         two_masks tensor
    /\ Forall2 (fun img m =>
                  forall j k b,
                    (m !! j) ≫= (fun row : list bool => row !! k) = Some b ->
                    (b = false <-> (j < length (hd [] img))%nat
                                   /\ (k < length (hd [] (hd [] img)))%nat))
         two_masks mask.
Proof.
  apply (nested_tensor_from_tensor_list_spec two_masks); [done|].
  repeat constructor.
  - exists 1%nat, 2%nat, 2%nat. split; [by repeat constructor|lia].
  - exists 1%nat, 1%nat, 3%nat. split; [by repeat constructor|lia].
Defined.

(** ** loss_labels: the classification targets on a valid assignment *)

Lemma cell_insert {A} (t : list (list A)) (row : list A) (b q b' q' : nat) (v : A) :
  t !! b = Some row -> (q < length row)%nat ->
  cell (<[b := <[q := v]> row]> t) b' q'
  = if decide (b' = b /\ q' = q) then Some v else cell t b' q'.
Proof.
  intros Hrow Hq. unfold cell. pose proof (lookup_lt_Some _ _ _ Hrow) as Hb.
  destruct (decide (b' = b)) as [->|Hne].
  - rewrite list_lookup_insert_eq by done. cbn. rewrite Hrow. cbn.
    destruct (decide (q' = q)) as [->|Hq'].
    + rewrite list_lookup_insert_eq by done. by rewrite decide_True.
    + rewrite list_lookup_insert_ne by done. rewrite decide_False; [done|]. by intros [_ ?].
  - rewrite list_lookup_insert_ne by done. rewrite decide_False; [done|]. by intros [? _].
Qed.

Lemma shape_insert {A} (t : list (list A)) (row : list A) (b q : nat) (v : A) :
  t !! b = Some row ->
  length <$> (<[b := <[q := v]> row]> t) = length <$> t.
Proof.
  intros Hrow. rewrite list_fmap_insert, length_insert.
  apply list_insert_id. by rewrite list_lookup_fmap, Hrow.
Qed.

Lemma index_put_loop_spec {A} (idx : list (nat * nat)) (vals : list A)
    (t : list (list A)) :
  length vals = length idx -> NoDup idx ->
  Forall (fun p => exists n, (length <$> t) !! p.1 = Some n /\ (p.2 < n)%nat) idx ->
  exists t',
    index_put_loop t idx vals = Ok t'
    /\ length <$> t' = length <$> t
    /\ (forall k p v, idx !! k = Some p -> vals !! k = Some v -> cell t' p.1 p.2 = Some v)
    /\ (forall b q, (b, q) ∉ idx -> cell t' b q = cell t b q).
Proof.
  revert vals t. induction idx as [|[b q] idx IH]; intros vals t Hlen Hnd Hin.
  - destruct vals; [|done]. exists t. repeat split; try done.
  - destruct vals as [|v vals]; [done|]. cbn [index_put_loop].
    inversion Hnd as [|? ? Hnotin Hnd']; subst.
    inversion Hin as [|? ? (n & Hn & Hq) Hin']; subst. cbn [fst snd] in *.
    rewrite list_lookup_fmap in Hn. destruct (t !! b) as [row|] eqn:Hrow; [|done].
    injection Hn as <-. destruct (Nat.ltb_spec q (length row)); [|lia].
    destruct (IH vals (<[b := <[q := v]> row]> t)) as (t' & E & Hshape & Hput & Hkeep).
    { by injection Hlen. }
    { done. }
    { by rewrite shape_insert. }
    exists t'. split; [done|]. split; [by rewrite Hshape, shape_insert|]. split.
    + intros [|k] p v' Hp Hv'; cbn in Hp, Hv'.
      * injection Hp as <-. injection Hv' as <-. cbn [fst snd].
        rewrite Hkeep by done. rewrite cell_insert by done. by rewrite decide_True.
      * by eapply Hput.
    + intros b' q' Hnot. rewrite Hkeep.
      * rewrite cell_insert by done. rewrite decide_False; [done|].
        intros [-> ->]. apply Hnot. by constructor.
      * intros Hel. apply Hnot. by constructor.
Qed.

Lemma index_put_loop_app {A} (l1 l2 : list (nat * nat)) (v1 v2 : list A)
    (t : list (list A)) :
  length l1 = length v1 ->
  index_put_loop t (l1 ++ l2) (v1 ++ v2)
  = t1 ← index_put_loop t l1 v1; index_put_loop t1 l2 v2.
Proof.
  revert v1 t. induction l1 as [|[b q] l1 IH]; intros v1 t Hlen.
  - destruct v1; [|done]. done.
  - destruct v1 as [|v v1]; [done|]. cbn [app index_put_loop].
    destruct (t !! b) as [row|]; [|done]. destruct (q <? length row)%nat; [|done].
    apply IH. by injection Hlen.
Qed.

Lemma zip_src_pairs (i0 : nat) (indices : Indices) :
  zip (concat ((fun isrc : nat * (list nat * list nat) =>
                  replicate (length isrc.2.1) isrc.1) <$> enumerate_from i0 indices))
      (concat (fst <$> indices))
  = src_pairs i0 indices.
Proof.
  unfold src_pairs. revert i0. induction indices as [|ij rest IH]; intros i0; [done|].
  cbn [enumerate_from fmap list_fmap concat]. cbn [fst snd].
  rewrite zip_with_app by (by rewrite length_replicate).
  change (zip_with pair (replicate (length ij.1) i0) ij.1)
    with (zip (replicate (length ij.1) i0) ij.1).
  rewrite zip_replicate. f_equal. apply IH.
Qed.

Lemma matched_classes_ok (nq : nat) (targets : list Target) (indices : Indices) :
  Forall (fun t => length (class_labels t) = length (boxes t)) targets ->
  Forall2 (valid_assignment nq) targets indices ->
  mapR (fun ti : Target * (list nat * list nat) =>
          index_rows (class_labels ti.1) ti.2.2) (zip targets indices)
  = Ok (matched_classes targets indices).
Proof.
  intros Hl Hv. unfold matched_classes. apply mapR_ok_map.
  induction Hv as [|t ij targets indices Hv _ IH]; [constructor|].
  inversion Hl as [|? ? Hlt Hl']; subst.
  cbn [zip_with]. constructor; [|by apply IH].
  cbn [fst snd]. unfold index_rows. apply mapR_ok_map.
  destruct Hv as (_ & _ & _ & _ & _ & HJ).
  eapply Forall_impl; [exact HJ|]. intros j Hj. cbn beta in Hj.
  rewrite <- Hlt in Hj. apply lookup_lt_is_Some_2 in Hj as [c ->]. done.
Qed.

Lemma put_images (nq : nat) (targets : list Target) (indices : Indices) :
  Forall (fun t => length (class_labels t) = length (boxes t)) targets ->
  Forall2 (valid_assignment nq) targets indices ->
  forall (i0 : nat) (t : list (list nat)),
  (forall m, (m < length indices)%nat -> (length <$> t) !! (i0 + m)%nat = Some nq) ->
  exists t',
    index_put_loop t (src_pairs i0 indices) (concat (matched_classes targets indices)) = Ok t'
    /\ length <$> t' = length <$> t
    /\ (forall b q, (b < i0)%nat -> cell t' b q = cell t b q)
    /\ (forall m tg ij, targets !! m = Some tg -> indices !! m = Some ij ->
          (forall k q j, ij.1 !! k = Some q -> ij.2 !! k = Some j ->
             cell t' (i0 + m) q = class_labels tg !! j)
          /\ (forall q, q ∉ ij.1 -> cell t' (i0 + m) q = cell t (i0 + m) q)).
Proof.
  intros Hl Hv. induction Hv as [|tg ij targets indices Hv Hvs IH]; intros i0 t Hrows.
  - exists t. repeat split; done.
  - inversion Hl as [|? ? Hlt Hl']; subst.
    destruct Hv as (LI & LJ & NI & _ & HI & HJ).
    unfold src_pairs, matched_classes.
    cbn [enumerate_from zip_with fmap list_fmap concat]. cbn [fst snd].
    fold (src_pairs (S i0) indices). 
    change (list_fmap _ _ ?f (zip_with pair targets indices))
      with (f <$> zip targets indices).
    fold (matched_classes targets indices).
    rewrite index_put_loop_app by (rewrite !length_fmap; lia).
    destruct (index_put_loop_spec ((fun q => (i0, q)) <$> ij.1)
                ((fun j => default 0%nat (class_labels tg !! j)) <$> ij.2) t)
      as (t1 & E1 & S1 & P1 & K1).
    { rewrite !length_fmap; lia. }
    { apply NoDup_fmap_2; [|done]. by intros ? ? [= ->]. }
    { apply Forall_fmap. eapply Forall_impl; [exact HI|]. intros q Hq. cbn in Hq |- *.
      exists nq. split; [|done]. specialize (Hrows 0%nat). rewrite Nat.add_0_r in Hrows.
      apply Hrows. cbn. lia. }
    rewrite E1. cbn [mbind result_bind].
    destruct (IH Hl' (S i0) t1) as (t' & E & S' & B' & M').
    { intros m Hm. rewrite S1. replace (S i0 + m)%nat with (i0 + S m)%nat by lia.
      apply Hrows. cbn. lia. }
    exists t'. split; [done|]. split; [by rewrite S', S1|]. split.
    + intros b q Hb. rewrite B' by lia. apply K1.
      intros Hel. apply list_elem_of_fmap in Hel as (? & [= -> _] & _). lia.
    + intros [|m] tg' ij' Htg Hij; cbn in Htg, Hij.
      * injection Htg as <-. injection Hij as <-. rewrite Nat.add_0_r. split.
        -- intros k q j Hq Hj. rewrite B' by lia.
           pose proof (proj1 (Forall_lookup _ _) HJ k j Hj) as Hjlt. cbn beta in Hjlt.
           rewrite <- Hlt in Hjlt. apply lookup_lt_is_Some_2 in Hjlt as [c Hc].
           rewrite Hc. apply (P1 k (i0, q) c).
           ++ by rewrite list_lookup_fmap, Hq.
           ++ by rewrite list_lookup_fmap, Hj; cbn; rewrite Hc.
        -- intros q Hq. rewrite B' by lia. apply K1.
           intros Hel. apply list_elem_of_fmap in Hel as (? & [= ->] & ?). done.
      * replace (i0 + S m)%nat with (S i0 + m)%nat by lia.
        destruct (M' m tg' ij' Htg Hij) as [Hput Hkeep]. split; [done|].
        intros q Hq. rewrite Hkeep by done. apply K1.
        intros Hel. apply list_elem_of_fmap in Hel as (? & [= ? _] & _). lia.
Qed.

Lemma cell_full {A} (bs nq : nat) (x : A) (t : list (list A)) (b q : nat) :
  t = replicate bs (replicate nq x) -> (b < bs)%nat -> (q < nq)%nat ->
  cell t b q = Some x.
Proof.
  intros -> Hb Hq. unfold cell.
  rewrite lookup_replicate_2 by done. cbn. by rewrite lookup_replicate_2.
Qed.

(** X23. [loss_labels] on a valid assignment: the tensor of classification
    targets is built without an exception, has one row of [nq] entries per
    image, holds at every matched query the class of the target it is
    matched to, and holds [num_classes] (the no-object class) at every
    other query. *)
Theorem loss_labels_target_classes (num_classes nq : nat)
    (src_logits : list (list (list Q))) (targets : list Target) (indices : Indices) :
  targets <> [] ->
  length src_logits = length targets ->
  Forall (fun m => length m = nq) src_logits ->
  Forall (fun t => length (class_labels t) = length (boxes t)) targets ->
  Forall2 (valid_assignment nq) targets indices ->
  exists tc,
    target_classes num_classes src_logits targets indices = Ok tc
    /\ length tc = length targets
    /\ Forall (fun row => length row = nq) tc
    /\ forall b t ij, targets !! b = Some t -> indices !! b = Some ij ->
         (forall k q j, ij.1 !! k = Some q -> ij.2 !! k = Some j ->
            cell tc b q = class_labels t !! j)
         /\ (forall q, (q < nq)%nat -> q ∉ ij.1 -> cell tc b q = Some num_classes).
Proof.
  intros Hne Hlen Hq Hl Hv.
  pose proof (Forall2_length _ _ _ Hv) as Hlen2.
  assert (Hfull : (fun m : list (list Q) => replicate (length m) num_classes) <$> src_logits
                  = replicate (length targets) (replicate nq num_classes)).
  { rewrite <- Hlen. clear -Hq. induction Hq as [|m l Hm _ IH]; [done|].
    cbn. by rewrite Hm, IH. }
  destruct (put_images nq targets indices Hl Hv 0%nat
              (replicate (length targets) (replicate nq num_classes)))
    as (tc & E & S & _ & M).
  { intros m Hm. rewrite list_lookup_fmap, lookup_replicate_2 by lia. cbn.
    by rewrite length_replicate. }
  exists tc. unfold target_classes, _get_src_permutation_idx, enumerate.
  assert (Hi : indices <> []) by (destruct targets, indices; done).
  assert (Hc1 : forall (f : nat * (list nat * list nat) -> list nat),
            torch_cat (f <$> enumerate_from 0 indices)
            = Ok (concat (f <$> enumerate_from 0 indices))).
  { intros f. by destruct indices. }
  assert (Hc2 : torch_cat (fst <$> indices) = Ok (concat (fst <$> indices))).
  { by destruct indices. }
  rewrite Hc1, Hc2. cbn [mbind result_bind fst snd].
  rewrite (matched_classes_ok nq) by done. cbn [mbind result_bind].
  assert (Hc3 : torch_cat (matched_classes targets indices)
                = Ok (concat (matched_classes targets indices))).
  { unfold matched_classes. by destruct targets, indices. }
  rewrite Hc3. cbn [mbind result_bind]. rewrite Hfull, zip_src_pairs.
  assert (Hlens : forall i0, length (concat (matched_classes targets indices))
                             = length (src_pairs i0 indices)).
  { unfold src_pairs, matched_classes. clear -Hv.
    induction Hv as [|t ij ts js Hv _ IH]; intros i0; [done|].
    cbn [enumerate_from zip_with fmap list_fmap concat]. rewrite !length_app.
    cbn [fst snd]. destruct Hv as (LI & LJ & _).
    rewrite !length_fmap. f_equal; [lia|]. apply (IH (S i0)). }
  unfold index_put. rewrite (Hlens 0%nat), Nat.eqb_refl.
  split; [done|].
  assert (Hshape : length <$> tc = replicate (length targets) nq).
  { rewrite S, fmap_replicate. by rewrite length_replicate. }
  split.
  { rewrite <- (length_fmap length tc), Hshape. by rewrite length_replicate. }
  split.
  { apply Forall_forall. intros row Hrow.
    assert (Hin : length row ∈ length <$> tc) by (by apply list_elem_of_fmap_2).
    rewrite Hshape in Hin. by apply elem_of_replicate in Hin as [-> _]. }
  intros b t ij Ht Hij. destruct (M b t ij Ht Hij) as [Hput Hkeep].
  cbn [Nat.add] in Hput, Hkeep. split; [done|].
  intros q Hqn Hnot. rewrite (Hkeep q Hnot).
  apply (cell_full (length targets) nq); [done| |done].
  by apply lookup_lt_Some in Ht.
Qed.

Lemma loss_labels_target_classes_witness :
  exists tc,
    target_classes 1 example_logits [example_target] [([1%nat], [0%nat])] = Ok tc
    /\ length tc = length [example_target]
    /\ Forall (fun row => length row = 2%nat) tc
    /\ forall b t ij, [example_target] !! b = Some t ->
         [([1%nat], [0%nat])] !! b = Some ij ->
         (forall k q j, ij.1 !! k = Some q -> ij.2 !! k = Some j ->
            cell tc b q = class_labels t !! j)
         /\ (forall q, (q < 2)%nat -> q ∉ ij.1 -> cell tc b q = Some 1%nat).
Proof.
  apply (loss_labels_target_classes 1 2 example_logits [example_target]
           [([1%nat], [0%nat])]).
  - done.
  - reflexivity.
  - repeat constructor.
  - repeat constructor.
  - constructor; [|constructor].
    unfold valid_assignment. cbn.
    repeat split; repeat constructor; try (intros H; inversion H).
Defined.

(** ** ResidualVectorQuantization: decode after encode *)

Lemma decode_loop_after_encode_loop (self : ResidualVectorQuantization)
    (ls : list VectorQuantization) (i : nat) (residual : list (list (list Q)))
    (idx : list (list (list nat))) (out : tensor) :
  (forall j l, ls !! j = Some l -> layers self !! (i + j)%nat = Some l) ->
  encode_loop ls residual = Ok idx ->
  returns (decode_loop self i idx out).
Proof.
  revert i residual idx out.
  induction ls as [|layer ls IH]; intros i residual idx out Hl He; cbn [encode_loop] in He.
  - by injection He as <-.
  - destruct (VectorQuantization_encode layer residual) as [indices|]; [|done].
    cbn [mbind result_bind] in He.
    destruct (VectorQuantization_decode layer indices) as [quantized|] eqn:Ed; [|done].
    cbn [mbind result_bind] in He.
    destruct (encode_loop ls _) as [rest|] eqn:Er; [|done].
    cbn [mbind result_bind] in He. injection He as <-. cbn [decode_loop].
    rewrite <- (Nat.add_0_r i) at 1. rewrite (Hl 0%nat layer eq_refl), Ed.
    cbn [mbind result_bind]. eapply IH; [|exact Er].
    intros j l Hj. replace (S i + j)%nat with (i + S j)%nat by lia. by apply Hl.
Qed.

(** X24 (ResidualVectorQuantization.encode, ResidualVectorQuantization.decode):
    [decode] returns on the indices that [encode] returns, for every input
    and every number of stages: each stage of [encode] has already decoded
    its own indices with the layer that [decode] uses for them, and the sum
    of the decoded tensors cannot fail. *)
Theorem ResidualVectorQuantization_decode_returns_on_encoded
    (self : ResidualVectorQuantization) (x : list (list (list Q))) (n_q : option Z)
    (out_indices : list (list (list nat))) :
  ResidualVectorQuantization_encode self x n_q = Ok out_indices ->
  returns (ResidualVectorQuantization_decode self out_indices).
Proof.
  unfold ResidualVectorQuantization_encode, ResidualVectorQuantization_decode.
  intros He.
  destruct (slice_to_prefix (layers self) (n_q_or_len n_q (length (layers self))))
    as [m Hm].
  rewrite Hm in He.
  destruct (encode_loop (take m (layers self)) x) as [idx|] eqn:El; [|done].
  cbn [mbind result_bind] in He.
  assert (idx = out_indices) as <-.
  { destruct idx; [done|]. by injection He. }
  apply (decode_loop_after_encode_loop self (take m (layers self)) 0 x idx _); [|done].
  intros j l Hj. apply lookup_take_Some in Hj. by destruct Hj.
Qed.

Lemma ResidualVectorQuantization_decode_returns_on_encoded_witness :
  returns (ResidualVectorQuantization_decode small_rvq
             (match ResidualVectorQuantization_encode small_rvq small_input (Some 2%Z) with
              | Ok idx => idx
              | Raise _ => []
              end)).
Proof.
  apply (ResidualVectorQuantization_decode_returns_on_encoded small_rvq small_input
           (Some 2%Z)).
  vm_compute. reflexivity.
Defined.
